(** * golemon: the LALR(1) table compiler of [lemongo.go]

    A shallow embedding of the parts of [lemongo.go] that the
    specification's claims talk about, with the properties proved
    against it:

    - the [acttab] module (offset packing of sparse action rows),
    - [resolve_conflict], [compute_action] and the action-code boundaries,
    - the symbol numbering done by [main] with [Symbolcmpp],
    - the stage sequence and exit code of [main],
    - the map-backed terminal sets ([SetAdd], [SetUnion], [SetFind]).

    Go's [int] is modelled by [Z].  Every integer in these functions is a
    table index, a symbol or rule number or a count, bounded by the
    length of a slice, so no 64-bit wrap-around can occur and none is
    modelled.  The exit status of the process is the argument of
    [os.Exit] modulo 256 ([exit_status]).  A Go run-time panic (index out of range, nil dereference,
    explicit [panic]) and a failed [assert] are modelled by the [Panic]
    outcome of the [result] type. *)

From Stdlib Require Import ZArith Lia Bool.
From stdpp Require Import base list gmap strings sorting.

Local Open Scope Z_scope.

(** ** Outcomes of fallible code *)

Inductive panic : Type :=
  | WantLookahead      (* acttab_insert: "Want p.nLookahead > 0" *)
  | IndexOutOfRange    (* slice index out of range *)
  | NegativeLen        (* make([]T, n) with n < 0 *)
  | NilDeref           (* nil pointer dereference *)
  | NilMapWrite        (* assignment to entry in nil map *)
  | AssertFailed.      (* assert(...) failed: os.Exit(1) *)

Inductive result (A : Type) : Type :=
  | Ok (a : A)
  | Panic (e : panic).
Arguments Ok {A} a.
Arguments Panic {A} e.

Definition bind {A B : Type} (c : result A) (k : A -> result B) : result B :=
  match c with
  | Ok a => k a
  | Panic e => Panic e
  end.

Notation "'let*' x ':=' c 'in' k" := (bind c (fun x => k))
  (at level 10, x name, c at level 100, k at level 200).

(** [a[k]] and [a[k] = x] on a slice, with Go's bounds check. *)
Definition rd {A : Type} (a : list A) (k : Z) : result A :=
  if k <? 0 then Panic IndexOutOfRange
  else match a !! Z.to_nat k with
       | Some x => Ok x
       | None => Panic IndexOutOfRange
       end.

Definition wr {A : Type} (a : list A) (k : Z) (x : A) : result (list A) :=
  if (k <? 0) || (Z.of_nat (length a) <=? k) then Panic IndexOutOfRange
  else Ok (<[Z.to_nat k := x]> a).

(** ** Loops

    [for j = j0; j < j0 + cnt; j++ { if !body(j) { break } }], the result
    telling whether the loop ran to its end ([j == j0 + cnt] afterwards). *)
Fixpoint for_all (body : Z -> result bool) (cnt : nat) (j : Z) : result bool :=
  match cnt with
  | O => Ok true
  | S c =>
      let* b := body j in
      if b then for_all body c (j + 1) else Ok false
  end.

(** [for i = i0; i > i0 - cnt; i-- { if found(i) { break } }]: the value
    of [i] after the loop. *)
Fixpoint for_down (found : Z -> result bool) (cnt : nat) (i : Z) : result Z :=
  match cnt with
  | O => Ok i
  | S c =>
      let* b := found i in
      if b then Ok i else for_down found c (i - 1)
  end.

(** [for ; i < i0 + cnt; i++ { if found(i) { break } }]: the value of [i]
    after the loop. *)
Fixpoint for_up (found : Z -> result bool) (cnt : nat) (i : Z) : result Z :=
  match cnt with
  | O => Ok i
  | S c =>
      let* b := found i in
      if b then Ok i else for_up found c (i + 1)
  end.

(** ** The [acttab] module *)

Record lookahead_action : Type := mkLA {
  lookahead : Z;   (* Value of the lookahead token *)
  action : Z       (* Action to take on the given lookahead *)
}.

Definition la_zero : lookahead_action := mkLA 0 0.
Definition la_empty : lookahead_action := mkLA (-1) (-1).

Record acttab : Type := mkActtab {
  nAction : Z;                          (* Number of used slots in aAction[] *)
  nActionAlloc : Z;                     (* Slots allocated for aAction[] *)
  aAction : list lookahead_action;      (* The yyaction[] table under construction *)
  aLookahead : list lookahead_action;   (* A single new transaction set *)
  mnLookahead : Z;                      (* Minimum aLookahead[].lookahead *)
  mnAction : Z;                         (* Action associated with mnLookahead *)
  mxLookahead : Z;                      (* Maximum aLookahead[].lookahead *)
  nLookahead : Z;                       (* Used slots in aLookahead[] *)
  nLookaheadAlloc : Z;                  (* Slots allocated in aLookahead[] *)
  nterminal : Z;                        (* Number of terminal symbols *)
  nsymbol : Z                           (* total number of symbols *)
}.

Definition set_table (p : acttab) (n alloc : Z) (a : list lookahead_action) : acttab :=
  mkActtab n alloc a (aLookahead p) (mnLookahead p) (mnAction p)
           (mxLookahead p) (nLookahead p) (nLookaheadAlloc p)
           (nterminal p) (nsymbol p).

Definition set_nAction (p : acttab) (n : Z) : acttab :=
  set_table p n (nActionAlloc p) (aAction p).

Definition set_pending (p : acttab) (l : list lookahead_action)
    (mn mnAct mx n alloc : Z) : acttab :=
  mkActtab (nAction p) (nActionAlloc p) (aAction p) l mn mnAct mx n alloc
           (nterminal p) (nsymbol p).

Definition set_nLookahead (p : acttab) (n : Z) : acttab :=
  set_pending p (aLookahead p) (mnLookahead p) (mnAction p) (mxLookahead p)
              n (nLookaheadAlloc p).

Definition acttab_lookahead_size (x : acttab) : Z := nAction x.

Definition acttab_alloc (nsymbol nterminal : Z) : acttab :=
  mkActtab 0 0 [] [] 0 0 0 0 0 nterminal nsymbol.

(** Add a new action to the current transaction set. *)
Definition acttab_action (p : acttab) (la act : Z) : result acttab :=
  let '(alloc, l) :=
    if nLookahead p >=? nLookaheadAlloc p
    then (nLookaheadAlloc p + 25, aLookahead p ++ replicate 25 la_zero)
    else (nLookaheadAlloc p, aLookahead p) in
  let '(mx, mn, mnAct) :=
    if nLookahead p =? 0 then (la, la, act)
    else
      let mx := if mxLookahead p <? la then la else mxLookahead p in
      if mnLookahead p >? la then (mx, la, act)
      else (mx, mnLookahead p, mnAction p) in
  let* l := wr l (nLookahead p) (mkLA la act) in
  Ok (set_pending p l mn mnAct mx (nLookahead p + 1) alloc).

(** The first part of [acttab_insert]: make sure there is room for the
    worst case. *)
Fixpoint fill_empty (a : list lookahead_action) (cnt : nat) (i : Z)
    : result (list lookahead_action) :=
  match cnt with
  | O => Ok a
  | S c =>
      let* a := wr a i la_empty in
      fill_empty a c (i + 1)
  end.

Definition acttab_grow (p : acttab) : result acttab :=
  let n := nsymbol p + 1 in
  if nAction p + n >=? nActionAlloc p then
    let oldAlloc := nActionAlloc p in
    let newAlloc := nAction p + n + nActionAlloc p + 20 in
    let extra := newAlloc - Z.of_nat (length (aAction p)) in
    if extra <? 0 then Panic NegativeLen
    else
      let a := aAction p ++ replicate (Z.to_nat extra) la_zero in
      let* a := fill_empty a (Z.to_nat (newAlloc - oldAlloc)) oldAlloc in
      Ok (set_table p (nAction p) newAlloc a)
  else Ok p.

(** Body of the loop that compares the transaction set with the table at
    candidate position [i] (lines 460-471). *)
Definition match_entry (p : acttab) (i j : Z) : result bool :=
  let* e := rd (aLookahead p) j in
  let k := lookahead e - mnLookahead p + i in
  if (k <? 0) || (k >=? nAction p) then Ok false
  else
    let* x := rd (aAction p) k in
    if negb (lookahead e =? lookahead x) then Ok false
    else if negb (action e =? action x) then Ok false
    else Ok true.

(** The loop of lines 478-486: how many used slots would alias offset
    [i - mnLookahead]. *)
Fixpoint count_alias (p : acttab) (i : Z) (cnt : nat) (j n : Z) : result Z :=
  match cnt with
  | O => Ok n
  | S c =>
      let* x := rd (aAction p) j in
      if lookahead x <? 0 then count_alias p i c (j + 1) n
      else if lookahead x =? j + mnLookahead p - i
           then count_alias p i c (j + 1) (n + 1)
           else count_alias p i c (j + 1) n
  end.

(** Body of the duplicate scan (lines 454-490): does the transaction set
    already sit at position [i]? *)
Definition dup_at (p : acttab) (i : Z) : result bool :=
  let* x := rd (aAction p) i in
  if lookahead x =? mnLookahead p then
    if negb (action x =? mnAction p) then Ok false
    else
      let* m := for_all (match_entry p i) (Z.to_nat (nLookahead p)) 0 in
      if negb m then Ok false
      else
        let* n := count_alias p i (Z.to_nat (nAction p)) 0 0 in
        Ok (n =? nLookahead p)
  else Ok false.

(** Bodies of the two inner loops of the hole scan (lines 508-524). *)
Definition fit_entry (p : acttab) (i j : Z) : result bool :=
  let* e := rd (aLookahead p) j in
  let k := lookahead e - mnLookahead p + i in
  if k <? 0 then Ok false
  else
    let* x := rd (aAction p) k in
    if lookahead x >=? 0 then Ok false else Ok true.

Definition no_alias (p : acttab) (i j : Z) : result bool :=
  let* x := rd (aAction p) j in
  if lookahead x =? j + mnLookahead p - i then Ok false else Ok true.

Definition hole_at (p : acttab) (i : Z) : result bool :=
  let* x := rd (aAction p) i in
  if lookahead x <? 0 then
    let* f := for_all (fit_entry p i) (Z.to_nat (nLookahead p)) 0 in
    if negb f then Ok false
    else for_all (no_alias p i) (Z.to_nat (nAction p)) 0
  else Ok false.

(** Lines 539-545: write the transaction set at position [i]. *)
Fixpoint install (p : acttab) (i : Z) (cnt : nat) (j : Z) : result acttab :=
  match cnt with
  | O => Ok p
  | S c =>
      let* e := rd (aLookahead p) j in
      let k := lookahead e - mnLookahead p + i in
      let* a := wr (aAction p) k e in
      let n := if k >=? nAction p then k + 1 else nAction p in
      install (set_table p n (nActionAlloc p) a) i c (j + 1)
  end.

(** The slot index chosen for the smallest lookahead of the transaction
    set (the value of [i] at line 531). *)
Definition find_slot (p : acttab) (makeItSafe : bool) : result Z :=
  let end_ := if makeItSafe then mnLookahead p else 0 in
  let* i := for_down (dup_at p) (Z.to_nat (nAction p - end_)) (nAction p - 1) in
  if i <? end_ then
    let start := if makeItSafe then mnLookahead p else 0 in
    for_up (hole_at p)
           (Z.to_nat (nActionAlloc p - mxLookahead p - start)) start
  else Ok i.

Definition acttab_insert (p : acttab) (makeItSafe : bool)
    : result (acttab * Z) :=
  if nLookahead p <=? 0 then Panic WantLookahead
  else
    let* p := acttab_grow p in
    let* i := find_slot p makeItSafe in
    let* p := install p i (Z.to_nat (nLookahead p)) 0 in
    let p :=
      if makeItSafe && (i + nterminal p >=? nAction p)
      then set_nAction p (i + nterminal p + 1) else p in
    let p := set_nLookahead p 0 in
    Ok (p, i - mnLookahead p).

(** Return the size of the action table without the trailing syntax error
    entries. *)
Fixpoint acttab_action_size_loop (a : list lookahead_action) (cnt : nat) (n : Z)
    : result Z :=
  match cnt with
  | O => Ok n
  | S c =>
      if n >? 0 then
        let* x := rd a (n - 1) in
        if lookahead x <? 0 then acttab_action_size_loop a c (n - 1) else Ok n
      else Ok n
  end.

Definition acttab_action_size (p : acttab) : result Z :=
  acttab_action_size_loop (aAction p) (Z.to_nat (nAction p)) (nAction p).

(** The pending transaction set: the used slots of [aLookahead]. *)
Definition pending (p : acttab) : list lookahead_action :=
  take (Z.to_nat (nLookahead p)) (aLookahead p).

(** One row of the packer's input, as [ReportTable] feeds it: the
    [acttab_action] calls of one state and axis, then [acttab_insert]. *)
Fixpoint add_actions (p : acttab) (row : list lookahead_action) : result acttab :=
  match row with
  | [] => Ok p
  | e :: row =>
      let* p := acttab_action p (lookahead e) (action e) in
      add_actions p row
  end.

Definition insert_row (p : acttab) (makeItSafe : bool)
    (row : list lookahead_action) : result (acttab * Z) :=
  let* p := add_actions p row in
  acttab_insert p makeItSafe.

Definition ex_row1 : list lookahead_action := [mkLA 2 10; mkLA 0 11; mkLA 3 12].
Definition ex_row2 : list lookahead_action := [mkLA 5 20].

Definition ex_tab1 := insert_row (acttab_alloc 6 4) true ex_row1.

(** ** Symbols, rules, actions and the grammar record *)

Inductive symbol_type : Type := TERMINAL | NONTERMINAL | MULTITERMINAL.

Inductive e_assoc : Type := LEFT | RIGHT | NONE | UNK.

Inductive e_action : Type :=
  | SHIFT | ACCEPT | REDUCE | ERROR
  | SSCONFLICT    (* A shift/shift conflict *)
  | SRCONFLICT    (* Was a reduce, but part of a conflict *)
  | RRCONFLICT    (* Was a reduce, but part of a conflict *)
  | SH_RESOLVED   (* Was a shift.  Precedence resolved conflict *)
  | RD_RESOLVED   (* Was reduce.  Precedence resolved conflict *)
  | NOT_USED      (* Deleted by compression *)
  | SHIFTREDUCE.  (* Shift first, then reduce *)

Global Instance symbol_type_eq_dec : EqDecision symbol_type.
Proof. solve_decision. Defined.
Global Instance e_assoc_eq_dec : EqDecision e_assoc.
Proof. solve_decision. Defined.
Global Instance e_action_eq_dec : EqDecision e_action.
Proof. solve_decision. Defined.

(** A symbol.  Symbols are interned by name ([Symbol_new]), so a
    [*symbol] is identified by the name, and the constituents of a
    MULTITERMINAL are given by their names. *)
Record symbol : Type := mkSymbol {
  name : string;            (* Name of the symbol *)
  index : Z;                (* Index number for this symbol *)
  typ : symbol_type;        (* Symbols are all either TERMINALS or NTs *)
  prec : Z;                 (* Precedence if defined (-1 otherwise) *)
  assoc : e_assoc;          (* Associativity if precedence is defined *)
  subsym : list string      (* Array of constituent symbols *)
}.

Record rule : Type := mkRule {
  rule_index : Z;           (* An index number for this rule *)
  iRule : Z;                (* Rule number as used in the generated tables *)
  precsym : option symbol   (* Precedence symbol for this rule *)
}.

(** A [*state] is the position of the state in the state store. *)
Definition state_ptr : Type := nat.

(** The Go struct [action] (the name [action] is taken by the field of
    [lookahead_action]). *)
Record Action : Type := mkAction {
  sp : symbol;                  (* The look-ahead symbol *)
  atyp : e_action;
  x_stp : option state_ptr;     (* The new state, if a shift *)
  x_rp : option rule            (* The rule, if a reduce *)
}.

Definition set_atyp (ap : Action) (t : e_action) : Action :=
  mkAction (sp ap) t (x_stp ap) (x_rp ap).

(** The fields of [lemon] that the table generator reads, with the
    [statenum] field of the state objects. *)
Record lemon : Type := mkLemon {
  nstate : Z;           (* Number of states *)
  nxstate : Z;          (* nstate with tail degenerate states removed *)
  nrule : Z;            (* Number of rules *)
  g_nsymbol : Z;        (* Number of terminal and nonterminal symbols *)
  g_nterminal : Z;      (* Number of terminal symbols *)
  minShiftReduce : Z;   (* Minimum shift-reduce action value *)
  errAction : Z;        (* Error action value *)
  accAction : Z;        (* Accept action value *)
  noAction : Z;         (* No-op action value *)
  minReduce : Z;        (* Minimum reduce action *)
  maxAction : Z;        (* Maximum action value of any kind *)
  errsym : option symbol;       (* The error symbol *)
  errorcnt : Z;                 (* Number of errors *)
  nconflict : Z;                (* Number of parsing conflicts *)
  printPreprocessed : bool;     (* Show preprocessor output on stdout *)
  statenum : state_ptr -> Z     (* Sequential number of each state *)
}.

(** The first statements of [ReportTable]. *)
Definition ReportTable_boundaries (lemp : lemon) : lemon :=
  let minShiftReduce := nstate lemp in
  let errAction := minShiftReduce + nrule lemp in
  let accAction := errAction + 1 in
  let noAction := accAction + 1 in
  let minReduce := noAction + 1 in
  let maxAction := minReduce + nrule lemp in
  mkLemon (nstate lemp) (nxstate lemp) (nrule lemp) (g_nsymbol lemp)
          (g_nterminal lemp) minShiftReduce errAction accAction noAction
          minReduce maxAction (errsym lemp) (errorcnt lemp) (nconflict lemp)
          (printPreprocessed lemp) (statenum lemp).

(** Given an action, compute the integer value for that action which is to
    be put in the action table of the generated machine.  Return negative
    if no action should be generated. *)
Definition compute_action (lemp : lemon) (ap : Action) : result Z :=
  match atyp ap with
  | SHIFT =>
      match x_stp ap with
      | Some stp => Ok (statenum lemp stp)
      | None => Panic NilDeref
      end
  | SHIFTREDUCE =>
      match x_rp ap with
      | Some rp =>
          if (index (sp ap) >=? g_nterminal lemp) &&
             match errsym lemp with
             | None => true
             | Some es => negb (index (sp ap) =? index es)
             end
          then Ok (minReduce lemp + iRule rp)
          else Ok (minShiftReduce lemp + iRule rp)
      | None => Panic NilDeref
      end
  | REDUCE =>
      match x_rp ap with
      | Some rp => Ok (minReduce lemp + iRule rp)
      | None => Panic NilDeref
      end
  | ERROR => Ok (errAction lemp)
  | ACCEPT => Ok (accAction lemp)
  | _ => Ok (-1)
  end.

(** Resolve a conflict between the two given actions.  The result is the
    two actions as the function leaves them, and the number of conflicts
    it could not resolve. *)
Definition resolve_conflict (apx apy : Action) : result (Action * Action * Z) :=
  if negb (String.eqb (name (sp apx)) (name (sp apy))) then Panic AssertFailed
  else
    let errcnt := 0 in
    let '(apy, errcnt) :=
      if bool_decide (atyp apx = SHIFT) && bool_decide (atyp apy = SHIFT)
      then (set_atyp apy SSCONFLICT, errcnt + 1)
      else (apy, errcnt) in
    if bool_decide (atyp apx = SHIFT) && bool_decide (atyp apy = REDUCE) then
      match x_rp apy with
      | None => Panic NilDeref
      | Some rpy =>
          let spx := sp apx in
          match precsym rpy with
          | None => Ok (apx, set_atyp apy SRCONFLICT, errcnt + 1)
          | Some spy =>
              if (prec spx <? 0) || (prec spy <? 0) then
                (* Not enough precedence information. *)
                Ok (apx, set_atyp apy SRCONFLICT, errcnt + 1)
              else if prec spx >? prec spy then    (* higher precedence wins *)
                Ok (apx, set_atyp apy RD_RESOLVED, errcnt)
              else if prec spx <? prec spy then
                Ok (set_atyp apx SH_RESOLVED, apy, errcnt)
              else if (prec spx =? prec spy) && bool_decide (assoc spx = RIGHT) then
                Ok (apx, set_atyp apy RD_RESOLVED, errcnt)
              else if (prec spx =? prec spy) && bool_decide (assoc spx = LEFT) then
                Ok (set_atyp apx SH_RESOLVED, apy, errcnt)
              else if (prec spx =? prec spy) && bool_decide (assoc spx = NONE) then
                Ok (set_atyp apx ERROR, apy, errcnt)
              else Panic AssertFailed
          end
      end
    else if bool_decide (atyp apx = REDUCE) && bool_decide (atyp apy = REDUCE) then
      match x_rp apx, x_rp apy with
      | Some rpx, Some rpy =>
          match precsym rpx, precsym rpy with
          | Some spx, Some spy =>
              if (prec spx <? 0) || (prec spy <? 0) || (prec spx =? prec spy) then
                Ok (apx, set_atyp apy RRCONFLICT, errcnt + 1)
              else if prec spx >? prec spy then
                Ok (apx, set_atyp apy RD_RESOLVED, errcnt)
              else if prec spx <? prec spy then
                Ok (set_atyp apx RD_RESOLVED, apy, errcnt)
              else Ok (apx, apy, errcnt)
          | _, _ => Ok (apx, set_atyp apy RRCONFLICT, errcnt + 1)
          end
      | _, _ => Panic NilDeref
      end
    else
      let resolved (t : e_action) :=
        bool_decide (t = SH_RESOLVED) || bool_decide (t = RD_RESOLVED) ||
        bool_decide (t = SSCONFLICT) || bool_decide (t = SRCONFLICT) ||
        bool_decide (t = RRCONFLICT) in
      if resolved (atyp apx) || resolved (atyp apy) then Ok (apx, apy, errcnt)
      else Panic AssertFailed.

(** ** States, [ResortStates] and the row loop of [ReportTable] *)

Definition NO_OFFSET : Z := -2147483647.

Record state : Type := mkState {
  ap : list Action;             (* List of actions for this state *)
  nTknAct : Z;                  (* Number of actions on terminals and nonterminals *)
  nNtAct : Z;
  iTknOfst : Z;                 (* yyaction[] offset for terminals and nonterms *)
  iNtOfst : Z;
  iDfltReduce : Z;              (* Default action is to REDUCE by this rule *)
  pDfltReduce : option rule;    (* The default REDUCE rule. *)
  autoReduce : bool             (* True if this is an auto-reduce state *)
}.

Definition set_counts (st : state) (tkn nt dflt : Z) : state :=
  mkState (ap st) tkn nt (iTknOfst st) (iNtOfst st) dflt
          (pDfltReduce st) (autoReduce st).

Definition set_offsets (st : state) (tkn nt : Z) : state :=
  mkState (ap st) (nTknAct st) (nNtAct st) tkn nt (iDfltReduce st)
          (pDfltReduce st) (autoReduce st).

(** [a == b] on [*rule]: rules are numbered by [index] as they are
    parsed. *)
Definition rule_ptr_eqb (a b : option rule) : bool :=
  match a, b with
  | Some ra, Some rb => rule_index ra =? rule_index rb
  | None, None => true
  | _, _ => false
  end.

(** The loop over the actions of one state in [ResortStates]
    (lines 4838-4850). *)
Fixpoint ResortStates_actions (lemp : lemon) (stp : state) (aps : list Action)
    : result state :=
  match aps with
  | [] => Ok stp
  | a :: aps =>
      let* iAction := compute_action lemp a in
      if iAction >=? 0 then
        if index (sp a) <? g_nterminal lemp then
          ResortStates_actions lemp
            (set_counts stp (nTknAct stp + 1) (nNtAct stp) (iDfltReduce stp)) aps
        else if index (sp a) <? g_nsymbol lemp then
          ResortStates_actions lemp
            (set_counts stp (nTknAct stp) (nNtAct stp + 1) (iDfltReduce stp)) aps
        else if negb (negb (autoReduce stp) || rule_ptr_eqb (pDfltReduce stp) (x_rp a))
        then Panic AssertFailed
        else
          ResortStates_actions lemp
            (set_counts stp (nTknAct stp) (nNtAct stp) iAction) aps
      else ResortStates_actions lemp stp aps
  end.

(** The body of the first loop of [ResortStates] for one state. *)
Definition ResortStates_state (lemp : lemon) (stp : state) : result state :=
  let stp := set_counts stp 0 0 (-1) in
  let stp := set_offsets stp NO_OFFSET NO_OFFSET in
  ResortStates_actions lemp stp (ap stp).

(** Each state contributes two rows to the packer. *)
Record axset : Type := mkAxset {
  stp : state_ptr;    (* A pointer to a state *)
  isTkn : bool;       (* True to use tokens.  False for non-terminals *)
  ax_nAction : Z;     (* Number of actions *)
  iOrder : Z          (* Original order of action sets *)
}.

Definition axset_compare (p1 p2 : axset) : Z :=
  let c := ax_nAction p2 - ax_nAction p1 in
  if c =? 0 then iOrder p1 - iOrder p2 else c.

(** [p.states[s]]: following a [*state]. *)
Definition deref (states : list state) (s : state_ptr) : result state :=
  match states !! s with
  | Some st => Ok st
  | None => Panic NilDeref
  end.

(** Lines 4099-4115: the two rows of each of the first [nxstate] states of
    [lemp.sorted], numbered in order. *)
Fixpoint make_ax (states : list state) (sorted : list state_ptr) (i : Z)
    : result (list axset) :=
  match sorted with
  | [] => Ok []
  | s :: sorted =>
      let* st := deref states s in
      let* rest := make_ax states sorted (i + 1) in
      Ok (mkAxset s true (nTknAct st) (i * 2)
          :: mkAxset s false (nNtAct st) (i * 2 + 1) :: rest)
  end.

(** [sort.Sort(axsetSorter(ax))].  [axset_compare] orders rows with
    distinct [iOrder] strictly, so the sorted slice is the same whatever
    the sorting algorithm; merge sort stands for Go's. *)
Definition axset_le (a b : axset) : Prop := axset_compare a b <= 0.

Global Instance axset_le_dec : RelDecision axset_le.
Proof. intros a b. unfold axset_le. apply Z_le_dec. Defined.

Definition sort_ax (ax : list axset) : list axset := merge_sort axset_le ax.

(** The [acttab_action] calls for the terminal row (lines 4121-4130) and
    for the nonterminal row (lines 4139-4151) of a state. *)
Fixpoint tkn_row (lemp : lemon) (p : acttab) (aps : list Action) : result acttab :=
  match aps with
  | [] => Ok p
  | a :: aps =>
      if index (sp a) >=? g_nterminal lemp then tkn_row lemp p aps
      else
        let* act := compute_action lemp a in
        if act <? 0 then tkn_row lemp p aps
        else
          let* p := acttab_action p (index (sp a)) act in
          tkn_row lemp p aps
  end.

Fixpoint nt_row (lemp : lemon) (p : acttab) (aps : list Action) : result acttab :=
  match aps with
  | [] => Ok p
  | a :: aps =>
      if index (sp a) <? g_nterminal lemp then nt_row lemp p aps
      else if index (sp a) =? g_nsymbol lemp then nt_row lemp p aps
      else
        let* act := compute_action lemp a in
        if act <? 0 then nt_row lemp p aps
        else
          let* p := acttab_action p (index (sp a)) act in
          nt_row lemp p aps
  end.

(** The packing loop of [ReportTable] (lines 4118-4174) over the sorted
    rows; it leaves the offsets in the states. *)
Fixpoint pack_rows (lemp : lemon) (states : list state) (p : acttab)
    (ax : list axset) : result (list state * acttab) :=
  match ax with
  | [] => Ok (states, p)
  | a :: ax =>
      if ax_nAction a >? 0 then
        let* st := deref states (stp a) in
        if isTkn a then
          let* p := tkn_row lemp p (ap st) in
          let* r := acttab_insert p true in
          let st := set_offsets st (snd r) (iNtOfst st) in
          pack_rows lemp (<[stp a := st]> states) (fst r) ax
        else
          let* p := nt_row lemp p (ap st) in
          let* r := acttab_insert p false in
          let st := set_offsets st (iTknOfst st) (snd r) in
          pack_rows lemp (<[stp a := st]> states) (fst r) ax
      else Ok (states, p)
  end.

(** Lines 4099-4174 of [ReportTable]. *)
Definition ReportTable_pack (lemp : lemon) (states : list state)
    (sorted : list state_ptr) : result (list state * acttab) :=
  if nxstate lemp <? 0 then Panic NegativeLen
  else if Z.of_nat (length sorted) <? nxstate lemp then Panic IndexOutOfRange
  else
  let* ax := make_ax states (take (Z.to_nat (nxstate lemp)) sorted) 0 in
  let ax := sort_ax ax in
  let pActtab := acttab_alloc (g_nsymbol lemp) (g_nterminal lemp) in
  pack_rows lemp states pActtab ax.

(** ** [main]: the stages and the exit code *)

(** The functions that [main] calls on the grammar record, in the order
    of the source; [Numbering] is the block of [main] itself that counts
    and sorts the symbols and numbers the rules (lines 1433-1477). *)
Inductive stage : Type :=
  | Parse | Numbering | Reprint
  | FindRulePrecedences | FindFirstSets | FindStates | FindLinks
  | FindFollowSets | FindActions | CompressTables | ResortStates
  | ReportOutput | ReportTable.

Global Instance stage_eq_dec : EqDecision stage.
Proof. solve_decision. Defined.

(** A stage either returns, leaving the grammar record changed, or ends
    the process ([os.Exit], a failed [assert], a panic) with a code. *)
Inductive proc (A : Type) : Type :=
  | Cont (a : A)
  | Exit (code : Z).
Arguments Cont {A} a.
Arguments Exit {A} code.

(** The command-line switches that [main] reads. *)
Record flags : Type := mkFlags {
  version : bool;       (* -x *)
  nargs : Z;            (* len(flag.Args()) *)
  printPP : bool;       (* -E *)
  rpflag : bool;        (* -g *)
  compress : bool;      (* -c: "Don't compress the action table." *)
  noResort : bool;      (* -r *)
  quiet : bool;         (* -q *)
  statistics : bool     (* -s *)
}.

Definition set_errorcnt (lem : lemon) (n : Z) (pp : bool) : lemon :=
  mkLemon (nstate lem) (nxstate lem) (nrule lem) (g_nsymbol lem)
          (g_nterminal lem) (minShiftReduce lem) (errAction lem)
          (accAction lem) (noAction lem) (minReduce lem) (maxAction lem)
          (errsym lem) n (nconflict lem) pp (statenum lem).

(** Run the stages of [todo] one after the other on [lem]; the stages run
    so far are recorded. *)
Fixpoint run_stages (run : stage -> lemon -> proc lemon) (todo : list stage)
    (lem : lemon) : list stage * proc lemon :=
  match todo with
  | [] => ([], Cont lem)
  | s :: todo =>
      match run s lem with
      | Exit c => ([s], Exit c)
      | Cont lem =>
          let '(done, r) := run_stages run todo lem in (s :: done, r)
      end
  end.

(** The stages that [main] runs after the numbering (lines 1480-1528). *)
Definition after_numbering (fl : flags) : list stage :=
  if rpflag fl then [Reprint]
  else
    [FindRulePrecedences; FindFirstSets; FindStates; FindLinks;
     FindFollowSets; FindActions]
    ++ (if negb (compress fl) then [CompressTables] else [])
    ++ (if negb (noResort fl) then [ResortStates] else [])
    ++ (if negb (quiet fl) then [ReportOutput] else [])
    ++ [ReportTable].

(** The exit status of the process.  [os.Exit(code)] passes [code] to the
    exit call of the operating system, and the status that the parent
    process reads is its low eight bits. *)
Definition exit_status (code : Z) : Z := code mod 256.

(** [main]: the stages that ran, in order, and the exit status of the
    process (0 when [main] returns). *)
Definition main (run : stage -> lemon -> proc lemon) (fl : flags) (lem : lemon)
    : list stage * Z :=
  if version fl then ([], exit_status 0)
  else if negb (nargs fl =? 1) then ([], exit_status 1)
  else
    let lem := set_errorcnt lem 0 (printPP fl) in
    match run Parse lem with
    | Exit c => ([Parse], exit_status c)
    | Cont lem =>
        if printPreprocessed lem || (errorcnt lem >? 0)
        then ([Parse], exit_status (errorcnt lem))
        else if nrule lem =? 0 then ([Parse], exit_status 1)
        else
          let '(done, r) := run_stages run (Numbering :: after_numbering fl) lem in
          match r with
          | Exit c => (Parse :: done, exit_status c)
          | Cont lem =>
              (* return 0 on success, 1 on failure. *)
              if (errorcnt lem >? 0) || (nconflict lem >? 0)
              then (Parse :: done, exit_status 1)
              else (Parse :: done, 0)
          end
    end.

(** ** The symbol table and the numbering of symbols in [main] *)

(** First byte of a string, as a number. *)
Definition byte0 (s : string) : option Z :=
  match s with
  | EmptyString => None
  | String c _ => Some (Z.of_nat (Ascii.nat_of_ascii c))
  end.

(** [firstRuneIsUpper].  A first byte below 128 is the rune itself, and
    [unicode.IsUpper] holds of it exactly for 'A'..'Z'; for any other
    string the answer of Go's Unicode tables is the parameter
    [IsUpper_other]. *)
Definition firstRuneIsUpper (IsUpper_other : string -> bool) (s : string) : bool :=
  match byte0 s with
  | None => false
  | Some b =>
      if b <? 128 then (65 <=? b) && (b <=? 90) else IsUpper_other s
  end.

(** The table [x2a], in the order of [x2a_keys]. *)
Definition Symbol_find (x2a : list symbol) (key : string) : option symbol :=
  find (fun s => String.eqb (name s) key) x2a.

Definition Symbol_new (up : string -> bool) (x2a : list symbol) (x : string)
    : list symbol :=
  match Symbol_find x2a x with
  | Some _ => x2a
  | None =>
      x2a ++ [mkSymbol x 0 (if firstRuneIsUpper up x then TERMINAL else NONTERMINAL)
                       (-1) UNK []]
  end.

Definition Symbol_count (x2a : list symbol) : Z := Z.of_nat (length x2a).

Definition Symbol_arrayof (x2a : list symbol) : list symbol := x2a.

Definition set_index (s : symbol) (i : Z) : symbol :=
  mkSymbol (name s) i (typ s) (prec s) (assoc s) (subsym s).

(** [for i := 0; i < nsymbol; i++ { symbols[i].index = i }], from [i]. *)
Fixpoint assign_indices (symbols : list symbol) (i : Z) : list symbol :=
  match symbols with
  | [] => []
  | s :: symbols => set_index s i :: assign_indices symbols (i + 1)
  end.

(** The class by which [Symbolcmpp] orders first. *)
Definition sort_class (a : symbol) : Z :=
  if bool_decide (typ a = MULTITERMINAL) then 3
  else match byte0 (name a) with
       | Some b => if b >? 90 then 2 else 1
       | None => 1
       end.

Definition Symbolcmpp (a b : symbol) : Z :=
  let i1 := sort_class a in
  let i2 := sort_class b in
  if i1 =? i2 then index a - index b else i1 - i2.

Definition symbol_le (a b : symbol) : Prop := Symbolcmpp a b <= 0.

Global Instance symbol_le_dec : RelDecision symbol_le.
Proof. intros a b. unfold symbol_le. apply Z_le_dec. Defined.

(** [sort.Sort(symbolSorter(...))]: the indices just assigned are
    distinct, so [Symbolcmpp] orders the slice strictly and the result
    does not depend on the sorting algorithm. *)
Definition sort_symbols (symbols : list symbol) : list symbol :=
  merge_sort symbol_le symbols.

(** [for lem.symbols[i-1].typ == MULTITERMINAL { i-- }].  Every round
    lowers [i] and checks the index [i-1], so the loop ends, at the latest
    with an index out of range, within [length symbols + 1] rounds. *)
Fixpoint skip_multiterminals (symbols : list symbol) (cnt : nat) (i : Z)
    : result Z :=
  match cnt with
  | O => Panic IndexOutOfRange
  | S c =>
      let* s := rd symbols (i - 1) in
      if bool_decide (typ s = MULTITERMINAL)
      then skip_multiterminals symbols c (i - 1)
      else Ok i
  end.

(** [for i = 1; firstRuneIsUpper(lem.symbols[i].name); i++ {}], which
    ends within [length symbols] rounds in the same way. *)
Fixpoint count_terminals (up : string -> bool) (symbols : list symbol)
    (cnt : nat) (i : Z) : result Z :=
  match cnt with
  | O => Panic IndexOutOfRange
  | S c =>
      let* s := rd symbols i in
      if firstRuneIsUpper up (name s)
      then count_terminals up symbols c (i + 1)
      else Ok i
  end.

Record numbering : Type := mkNumbering {
  symbols : list symbol;    (* Sorted array of pointers to symbols *)
  num_nsymbol : Z;          (* lem.nsymbol *)
  num_nterminal : Z         (* lem.nterminal *)
}.

(** Lines 1436-1455 of [main]. *)
Definition number_symbols (up : string -> bool) (x2a : list symbol)
    : result numbering :=
  let x2a := Symbol_new up x2a "{default}" in
  let nsymbol := Symbol_count x2a in
  let symbols := Symbol_arrayof x2a in
  let symbols := assign_indices symbols 0 in
  let symbols := sort_symbols symbols in
  let symbols := assign_indices symbols 0 in
  let* i := skip_multiterminals symbols (S (length symbols)) nsymbol in
  let* d := rd symbols (i - 1) in
  if negb (String.eqb (name d) "{default}") then Panic AssertFailed
  else
    let nsymbol := i - 1 in
    let* nterminal := count_terminals up symbols (length symbols) 1 in
    Ok (mkNumbering symbols nsymbol nterminal).

(** What [Parse] does to the symbol table.  Every name it interns begins
    with a letter; a [%token_class] name begins with a lower-case letter
    and was not in the table; the members of a class (and of a compound
    [A|B] of a rule) begin with an upper-case letter.  Names are taken to
    begin with an ASCII letter. *)
Definition upper_initial (x : string) : Prop :=
  exists b, byte0 x = Some b /\ 65 <= b <= 90.
Definition lower_initial (x : string) : Prop :=
  exists b, byte0 x = Some b /\ 97 <= b <= 122.

Definition set_typ_of (x2a : list symbol) (x : string) (t : symbol_type)
    : list symbol :=
  (fun s => if String.eqb (name s) x
            then mkSymbol (name s) (index s) t (prec s) (assoc s) (subsym s)
            else s) <$> x2a.

Definition add_subsym (x2a : list symbol) (cls x : string) : list symbol :=
  (fun s => if String.eqb (name s) cls
            then mkSymbol (name s) (index s) (typ s) (prec s) (assoc s)
                          (subsym s ++ [x])
            else s) <$> x2a.

Definition set_prec_of (x2a : list symbol) (x : string) (p : Z) (a : e_assoc)
    : list symbol :=
  (fun s => if String.eqb (name s) x
            then mkSymbol (name s) (index s) (typ s) p a (subsym s)
            else s) <$> x2a.

Inductive parsed (up : string -> bool) : list symbol -> Prop :=
  | parsed_init :
      (* main: Symbol_new("$") *)
      parsed up (Symbol_new up [] "$")
  | parsed_new x2a x :
      (* a symbol of a rule or of a declaration *)
      parsed up x2a -> upper_initial x \/ lower_initial x ->
      parsed up (Symbol_new up x2a x)
  | parsed_prec x2a x p a :
      (* %left, %right, %nonassoc *)
      parsed up x2a -> upper_initial x ->
      parsed up (set_prec_of (Symbol_new up x2a x) x p a)
  | parsed_class x2a x :
      (* %token_class x *)
      parsed up x2a -> lower_initial x -> Symbol_find x2a x = None ->
      parsed up (set_typ_of (Symbol_new up x2a x) x MULTITERMINAL)
  | parsed_member x2a cls s x :
      (* a member of a token class, or [|X] after a class in a rule *)
      parsed up x2a -> Symbol_find x2a cls = Some s -> typ s = MULTITERMINAL ->
      upper_initial x ->
      parsed up (add_subsym (Symbol_new up x2a x) cls x).

(** * Terminal-index sets

    [firstset] and [fws] are Go maps [map[int]bool].  A map is a mutable
    object reached through a reference; the nil map reads as empty and
    panics when written.  The order in which [range] yields the entries
    of a map is not fixed by the language and differs from run to run; it
    is the only such choice in the compilation ([SetUnion]), the other
    loops over maps ([PrintSet], [setFlag.String], [buildRegexp]) sort the
    keys first, and the symbol table [x2a] is listed through the slice
    [x2a_keys] ([Symbol_arrayof] above). *)

Definition gomap : Type := option (gmap Z bool).

Definition SetNew : gomap := Some ∅.

Definition SetFind (s : gomap) (e : Z) : bool :=
  match s with
  | Some m => default false (m !! e)
  | None => false
  end.

(** [len(set)] *)
Definition SetLen (s : gomap) : Z :=
  match s with
  | Some m => Z.of_nat (size m)
  | None => 0
  end.

(** [SetAdd]: the map after the call, and whether the element is new. *)
Definition SetAdd (s : gomap) (e : Z) : result (gomap * bool) :=
  match s with
  | None => Panic NilMapWrite
  | Some m =>
      let found := match m !! e with Some _ => true | None => false end in
      Ok (Some (<[e := true]> m), negb found)
  end.

(** The entries of a map, which [range] yields in some order. *)
Definition entries (s : gomap) : list (Z * bool) :=
  match s with
  | Some m => map_to_list m
  | None => []
  end.

(** One round of the loop of [SetUnion], on the entry [(k, v)]. *)
Definition SetUnion_step (acc : result (gomap * bool)) (kv : Z * bool)
    : result (gomap * bool) :=
  let* a := acc in
  let '(s1, progress) := a in
  let '(k, v) := kv in
  if negb v then Ok (s1, progress)
  else if negb (SetFind s1 k) then
    match s1 with
    | None => Panic NilMapWrite
    | Some m => Ok (Some (<[k := true]> m), true)
    end
  else Ok (s1, progress).

(** [SetUnion(s1, s2)], where [range s2] yields the entries in the order
    [order]: the map [s1] after the call, and whether it changed.  When
    [s1] and [s2] are the same map no round writes, so the entries ranged
    over are those at the start of the loop in that case too. *)
Definition SetUnion (order : list (Z * bool)) (s1 : gomap)
    : result (gomap * bool) :=
  foldl SetUnion_step (Ok (s1, false)) order.

(** The order of the [n]th [range] of a run over a map. *)
Definition range_order : Type := nat -> gmap Z bool -> list (Z * bool).

Definition range_of (o : range_order) (n : nat) (s : gomap) : list (Z * bool) :=
  match s with
  | Some m => o n m
  | None => []
  end.

(** The maps of a run, by reference; a reference never made is nil. *)
Definition heap : Type := list gomap.

Definition load (h : heap) (r : nat) : gomap := default None (h !! r).

(** Code that reaches the sets through [SetNew], [SetAdd], [SetFind],
    [len] and [SetUnion] only, as all of the compilation does. *)
Inductive prog (A : Type) : Type :=
  | Ret (a : A)
  | Throw (e : panic)
  | OpNew (k : nat -> prog A)
  | OpAdd (r : nat) (e : Z) (k : bool -> prog A)
  | OpFind (r : nat) (e : Z) (k : bool -> prog A)
  | OpLen (r : nat) (k : Z -> prog A)
  | OpUnion (r1 r2 : nat) (k : bool -> prog A).
Arguments Ret {A} a.
Arguments Throw {A} e.
Arguments OpNew {A} k.
Arguments OpAdd {A} r e k.
Arguments OpFind {A} r e k.
Arguments OpLen {A} r k.
Arguments OpUnion {A} r1 r2 k.

Fixpoint pbind {A B : Type} (p : prog A) (f : A -> prog B) : prog B :=
  match p with
  | Ret a => f a
  | Throw e => Throw e
  | OpNew k => OpNew (fun r => pbind (k r) f)
  | OpAdd r e k => OpAdd r e (fun b => pbind (k b) f)
  | OpFind r e k => OpFind r e (fun b => pbind (k b) f)
  | OpLen r k => OpLen r (fun n => pbind (k n) f)
  | OpUnion r1 r2 k => OpUnion r1 r2 (fun b => pbind (k b) f)
  end.

(** A run: [o] gives the order of every [range], [n] counts them. *)
Fixpoint exec {A : Type} (o : range_order) (n : nat) (h : heap) (p : prog A)
    : result (heap * A) :=
  match p with
  | Ret a => Ok (h, a)
  | Throw e => Panic e
  | OpNew k => exec o n (h ++ [SetNew]) (k (length h))
  | OpAdd r e k =>
      match SetAdd (load h r) e with
      | Ok (s, b) => exec o n (<[r := s]> h) (k b)
      | Panic e => Panic e
      end
  | OpFind r e k => exec o n h (k (SetFind (load h r) e))
  | OpLen r k => exec o n h (k (SetLen (load h r)))
  | OpUnion r1 r2 k =>
      match SetUnion (range_of o n (load h r2)) (load h r1) with
      | Ok (s, b) => exec o (S n) (<[r1 := s]> h) (k b)
      | Panic e => Panic e
      end
  end.

(** ** Follow sets *)

Module Follow.

Inductive cfgstatus : Type := COMPLETE | INCOMPLETE.

(** A configuration: its follow set [fws], the configurations its forward
    propagation links [fplp] lead to, and its [status].  Configurations
    are named by their position in the list of all of them, taken state by
    state in the order of [lemp.sorted] and of each state's [cfp] list. *)
Record config : Type := mkConfig {
  fws : nat;
  fplp : list nat;
  status : cfgstatus
}.

Definition set_status (c : config) (s : cfgstatus) : config :=
  mkConfig (fws c) (fplp c) s.

(** [for plp := cfp.fplp; plp != nil; plp = plp.next], with [src] the set
    [cfp.fws]. *)
Fixpoint propagate (src : nat) (plps : list nat) (cs : list config)
    (progress : bool) : prog (list config * bool) :=
  match plps with
  | [] => Ret (cs, progress)
  | t :: plps =>
      match cs !! t with
      | None => Throw NilDeref
      | Some tc =>
          OpUnion (fws tc) src (fun change =>
            if change
            then propagate src plps (<[t := set_status tc INCOMPLETE]> cs) true
            else propagate src plps cs progress)
      end
  end.

(** One round of the loop over all configurations, from the [i]th. *)
Fixpoint sweep (todo : nat) (i : nat) (cs : list config) (progress : bool)
    : prog (list config * bool) :=
  match todo with
  | O => Ret (cs, progress)
  | S todo =>
      match cs !! i with
      | None => Ret (cs, progress)
      | Some cfp =>
          match status cfp with
          | COMPLETE => sweep todo (S i) cs progress
          | INCOMPLETE =>
              pbind (propagate (fws cfp) (fplp cfp) cs progress)
                (fun r => sweep todo (S i)
                            (alter (fun c => set_status c COMPLETE) i (fst r))
                            (snd r))
          end
      end
  end.

(** [for progress := true; progress; { ... }], at most [fuel] rounds;
    [None] when they do not suffice. *)
Fixpoint follow_rounds (fuel : nat) (cs : list config)
    : prog (option (list config)) :=
  match fuel with
  | O => Ret None
  | S fuel =>
      pbind (sweep (length cs) 0 cs false)
        (fun r => if snd r then follow_rounds fuel (fst r) else Ret (Some (fst r)))
  end.

Definition FindFollowSets (fuel : nat) (cs : list config)
    : prog (option (list config)) :=
  follow_rounds fuel ((fun c => set_status c INCOMPLETE) <$> cs).

(** [FindActions]: the lookaheads [j < nterminal] with [SetFind(cfp.fws, j)],
    in the order of the loop.  [FindActions] adds a reduce action on each
    of them for the configurations whose dot is at the right end; here
    the set of every configuration is read. *)
Fixpoint reduce_lookaheads (n : nat) (j : Z) (set : nat) : prog (list Z) :=
  match n with
  | O => Ret []
  | S n =>
      OpFind set j (fun b =>
        pbind (reduce_lookaheads n (j + 1) set)
          (fun l => Ret (if b then j :: l else l)))
  end.

Fixpoint all_lookaheads (nterminal : nat) (cs : list config)
    : prog (list (list Z)) :=
  match cs with
  | [] => Ret []
  | c :: cs =>
      pbind (reduce_lookaheads nterminal 0 (fws c))
        (fun l => pbind (all_lookaheads nterminal cs) (fun ls => Ret (l :: ls)))
  end.

(** Follow sets, then the lookaheads of the reduce actions. *)
Definition follow_lookaheads (fuel nterminal : nat) (cs : list config)
    : prog (option (list (list Z))) :=
  pbind (FindFollowSets fuel cs)
    (fun r => match r with
              | None => Ret None
              | Some cs => pbind (all_lookaheads nterminal cs)
                             (fun ls => Ret (Some ls))
              end).

End Follow.

(** * Sorting actions and rules

    [msort__action] (the [msort] of "msort.c", which [Action_sort] calls)
    and [Rule_sort] sort a linked list with an array of buckets: bucket
    [i] is empty or holds a sorted run.  A linked list is a Rocq list and
    the nil pointer is the empty list. *)

(** [int(ap.typ)]: the values that [iota] gives the constants. *)
Definition e_action_code (t : e_action) : Z :=
  match t with
  | SHIFT => 0 | ACCEPT => 1 | REDUCE => 2 | ERROR => 3
  | SSCONFLICT => 4 | SRCONFLICT => 5 | RRCONFLICT => 6
  | SH_RESOLVED => 7 | RD_RESOLVED => 8 | NOT_USED => 9
  | SHIFTREDUCE => 10
  end.

(** An action with the field [index] that [Action_new] gives it. *)
Record action_node : Type := mkNode {
  node_action : Action;
  node_index : Z            (* creation index, used for actioncmp *)
}.

(** Compare two actions for sorting purposes. *)
Definition actioncmp (ap1 ap2 : action_node) : result Z :=
  let a1 := node_action ap1 in
  let a2 := node_action ap2 in
  let rc := index (sp a1) - index (sp a2) in
  let rc := if rc =? 0 then e_action_code (atyp a1) - e_action_code (atyp a2)
            else rc in
  let* rc :=
    if (rc =? 0) &&
       (bool_decide (atyp a1 = REDUCE) || bool_decide (atyp a1 = SHIFTREDUCE))
    then match x_rp a1, x_rp a2 with
         | Some r1, Some r2 => Ok (rule_index r1 - rule_index r2)
         | _, _ => Panic NilDeref
         end
    else Ok rc in
  Ok (if rc =? 0 then node_index ap2 - node_index ap1 else rc).

Fixpoint merge__action (a b : list action_node) {struct a}
    : result (list action_node) :=
  match a with
  | [] => Ok b
  | x :: a' =>
      (fix merge_b (b : list action_node) : result (list action_node) :=
         match b with
         | [] => Ok (x :: a')
         | y :: b' =>
             let* c := actioncmp x y in
             if c <=? 0
             then let* r := merge__action a' (y :: b') in Ok (x :: r)
             else let* r := merge_b b' in Ok (y :: r)
         end) b
  end.

Definition LISTSIZE : nat := 30.

(** [for ; i < LISTSIZE-1 && set[i] != nil; i++ { ep = merge(ep, set[i]);
    set[i] = nil }; set[i] = ep], on the buckets from [i] on. *)
Fixpoint msort_carry (ep : list action_node) (set : list (list action_node))
    : result (list (list action_node)) :=
  match set with
  | [] => Panic IndexOutOfRange
  | [_] => Ok [ep]
  | s :: rest =>
      match s with
      | [] => Ok (ep :: rest)
      | _ =>
          let* ep := merge__action ep s in
          let* rest := msort_carry ep rest in
          Ok ([] :: rest)
      end
  end.

(** [for list != nil { ep = list; list = list.next; ep.next = nil; ... }] *)
Fixpoint msort_fill (l : list action_node) (set : list (list action_node))
    : result (list (list action_node)) :=
  match l with
  | [] => Ok set
  | x :: l =>
      let* set := msort_carry [x] set in
      msort_fill l set
  end.

(** [for i := 0; i < LISTSIZE; i++ { if set[i] != nil { ep =
    merge(set[i], ep) } }] *)
Fixpoint msort_collect (set : list (list action_node)) (ep : list action_node)
    : result (list action_node) :=
  match set with
  | [] => Ok ep
  | s :: set =>
      match s with
      | [] => msort_collect set ep
      | _ =>
          let* ep := merge__action s ep in
          msort_collect set ep
      end
  end.

Definition msort__action (l : list action_node) : result (list action_node) :=
  let* set := msort_fill l (replicate LISTSIZE []) in
  msort_collect set [].

Definition Action_sort (ap : list action_node) : result (list action_node) :=
  msort__action ap.

(** Merge together two lists of rules ordered by [rule.iRule]. *)
Fixpoint Rule_merge (pA pB : list rule) {struct pA} : list rule :=
  match pA with
  | [] => pB
  | a :: pA' =>
      (fix merge_b (pB : list rule) : list rule :=
         match pB with
         | [] => a :: pA'
         | b :: pB' =>
             if iRule a <? iRule b then a :: Rule_merge pA' (b :: pB')
             else b :: merge_b pB'
         end) pB
  end.

(** [for i = 0; i < 32-1 && x[i] != nil; i++ { rp = Rule_merge(x[i], rp);
    x[i] = nil }; x[i] = rp], on the buckets from [i] on. *)
Fixpoint Rule_sort_carry (rp : list rule) (x : list (list rule))
    : result (list (list rule)) :=
  match x with
  | [] => Panic IndexOutOfRange
  | [_] => Ok [rp]
  | s :: rest =>
      match s with
      | [] => Ok (rp :: rest)
      | _ =>
          let* rest := Rule_sort_carry (Rule_merge s rp) rest in
          Ok ([] :: rest)
      end
  end.

Fixpoint Rule_sort_fill (l : list rule) (x : list (list rule))
    : result (list (list rule)) :=
  match l with
  | [] => Ok x
  | r :: l =>
      let* x := Rule_sort_carry [r] x in
      Rule_sort_fill l x
  end.

(** [for i := 0; i < 32; i++ { rp = Rule_merge(x[i], rp) }] *)
Fixpoint Rule_sort_collect (x : list (list rule)) (rp : list rule) : list rule :=
  match x with
  | [] => rp
  | s :: x => Rule_sort_collect x (Rule_merge s rp)
  end.

(** Sort a list of rules in order of increasing [iRule] value. *)
Definition Rule_sort (rp : list rule) : result (list rule) :=
  let* x := Rule_sort_fill rp (replicate 32 []) in
  Ok (Rule_sort_collect x []).

(** The two sorts share their loops; [mrg_in ep s] merges the run [ep]
    with the bucket [s] in the first loop, [mrg_out s ep] the bucket
    with the result in the second. *)
Section Buckets.
Context {X : Type}.
Variable mrg_in : list X -> list X -> result (list X).
Variable mrg_out : list X -> list X -> result (list X).

Fixpoint bucket_carry (ep : list X) (set : list (list X))
    : result (list (list X)) :=
  match set with
  | [] => Panic IndexOutOfRange
  | [_] => Ok [ep]
  | s :: rest =>
      match s with
      | [] => Ok (ep :: rest)
      | _ =>
          let* ep := mrg_in ep s in
          let* rest := bucket_carry ep rest in
          Ok ([] :: rest)
      end
  end.

Fixpoint bucket_fill (l : list X) (set : list (list X))
    : result (list (list X)) :=
  match l with
  | [] => Ok set
  | x :: l =>
      let* set := bucket_carry [x] set in
      bucket_fill l set
  end.

Fixpoint bucket_collect (set : list (list X)) (ep : list X) : result (list X) :=
  match set with
  | [] => Ok ep
  | s :: set =>
      let* ep := mrg_out s ep in
      bucket_collect set ep
  end.

Definition bucket_sort (n : nat) (l : list X) : result (list X) :=
  let* set := bucket_fill l (replicate n []) in
  bucket_collect set [].

(** Bucket [i] is empty or holds [2^i] elements. *)
Fixpoint sized (i : nat) (set : list (list X)) : Prop :=
  match set with
  | [] => True
  | s :: rest => (s = [] \/ length s = (2 ^ i)%nat) /\ sized (S i) rest
  end.

(** What the buckets keep: the sizes, sorted runs, admissible elements. *)
Definition buckets_ok (R : X -> X -> Prop) (P : X -> Prop) (i : nat)
    (set : list (list X)) : Prop :=
  sized i set /\ Forall (Sorted R) set /\ Forall (Forall P) set.

End Buckets.

(** * Rule numbers

    Lines 1456-1477 of [main].  Rules that have no reduce action code are
    numbered last.  A rule is given with its field [code]. *)

Definition set_iRule (r : rule) (i : Z) : rule :=
  mkRule (rule_index r) i (precsym r).

Definition has_code (p : rule * string) : bool := negb (String.eqb (snd p) EmptyString).

(** The first loop over [lem.rule]: a rule whose [code] is not the empty
    string gets [rp.iRule = i; i++], any other rule [rp.iRule = -1];
    from [i]. *)
Fixpoint number_coded (rules : list (rule * string)) (i : Z)
    : list (rule * string) * Z :=
  match rules with
  | [] => ([], i)
  | p :: rules =>
      if has_code p
      then let r := number_coded rules (i + 1) in
           ((set_iRule (fst p) i, snd p) :: fst r, snd r)
      else let r := number_coded rules i in
           ((set_iRule (fst p) (-1), snd p) :: fst r, snd r)
  end.

(** [for rp := lem.rule; rp != nil; rp = rp.next { if rp.iRule < 0
    { rp.iRule = i; i++ } }] *)
Fixpoint number_uncoded (rules : list (rule * string)) (i : Z)
    : list (rule * string) * Z :=
  match rules with
  | [] => ([], i)
  | p :: rules =>
      if iRule (fst p) <? 0
      then let r := number_uncoded rules (i + 1) in
           ((set_iRule (fst p) i, snd p) :: fst r, snd r)
      else let r := number_uncoded rules i in
           (p :: fst r, snd r)
  end.

(** The numbering and [lem.rule = Rule_sort(lem.rule)]: the sorted rules
    and [lem.nruleWithAction]. *)
Definition number_rules (rules : list (rule * string)) : result (list rule * Z) :=
  let r1 := number_coded rules 0 in
  let nruleWithAction := snd r1 in
  let r2 := number_uncoded (fst r1) nruleWithAction in
  let* sorted := Rule_sort (fst <$> fst r2) in
  Ok (sorted, nruleWithAction).

(** The rules of [l] with the numbers [i], [i + 1], ... in order. *)
Fixpoint renumber (l : list rule) (i : Z) : list rule :=
  match l with
  | [] => []
  | r :: l => set_iRule r i :: renumber l (i + 1)
  end.

(** * Integer types of the generated tables

    [minimum_size_type]: the name of the type, and the size that the
    function writes to [*pnByte]. *)
Definition minimum_size_type (lwr upr : Z) : string * Z :=
  if lwr >=? 0 then
    if upr <=? 255 then ("uint8"%string, 1)
    else if upr <? 65535 then ("uint16"%string, 2)
    else ("uint32"%string, 4)
  else if (lwr >=? -127) && (upr <=? 127) then ("int8"%string, 1)
  else if (lwr >=? -32767) && (upr <? 32767) then ("int16"%string, 2)
  else ("int32"%string, 4).

(** * The tables of configurations and of states ("table.c")

    [Configtable_insert], [Configtable_find] and [Configtable_clear] work
    on the table [x4a]; [State_insert], [State_find] and [State_arrayof]
    on the table [x3a].  The two were generated from one template and
    differ in the node ([x4node] has the data only, [x3node] a key and
    the data), in the hash function and in the comparison.

    A table has the array [tbl] of nodes, filled in the order of
    insertion, and the array [ht] of chain heads.  A chain is a linked
    list of nodes of [tbl] through the field [next], modelled as a list
    of the nodes, head first.  The field [from] of a node is written and
    never read; it is left out.

    The hash functions compute in Go's [uint], taken to have 64 bits;
    the conversions and the arithmetic wrap around. *)

Definition to_uint (x : Z) : Z := x mod 2 ^ 64.

Definition to_int (u : Z) : Z := if u <? 2 ^ 63 then u else u - 2 ^ 64.

(** The fields of a configuration that the comparisons and the hash
    functions read, with [cfg_id] telling the configuration objects
    apart. *)
Record config : Type := mkConfig {
  rp_index : Z;     (* rp.index: the rule upon which the configuration is based *)
  dot : Z;          (* The parse point *)
  cfg_id : nat
}.

(** Compare two configurations *)
Definition Configcmp (a b : config) : Z :=
  let x := rp_index a - rp_index b in
  if x =? 0 then dot a - dot b else x.

(** Compare two states.  A state is given by the list of its basis
    configurations, linked through the field [bp]. *)
Fixpoint statecmp (a b : list config) : Z :=
  match a, b with
  | ca :: a', cb :: b' =>
      let rc := rp_index ca - rp_index cb in
      let rc := if rc =? 0 then dot ca - dot cb else rc in
      if rc =? 0 then statecmp a' b' else rc
  | _, _ =>
      let rc := 0 in
      let rc := match a with [] => rc | _ :: _ => 1 end in
      match b with [] => rc | _ :: _ => -1 end
  end.

(** [h = h*571 + uint(a.rp.index)*37 + uint(a.dot)] *)
Definition hash_step (h : Z) (a : config) : Z :=
  to_uint (to_uint (to_uint (h * 571) + to_uint (to_uint (rp_index a) * 37))
           + to_uint (dot a)).

(** Hash a state *)
Fixpoint statehash_from (h : Z) (a : list config) : Z :=
  match a with
  | [] => h
  | c :: a => statehash_from (hash_step h c) a
  end.

Definition statehash (a : list config) : Z := statehash_from 0 a.

(** Hash a configuration *)
Definition confighash (a : config) : Z := hash_step 0 a.

Section HashTable.
(** The node type [N] with its zero value, the type [K] of the keys that
    are looked up, the hash of the key of a node and the comparison of
    the key of a node with a key; both follow a pointer in [x4a]. *)
Context {N K : Type}.
Variable zero : N.
Variable node_hash : N -> result Z.
Variable node_cmp : N -> K -> result Z.

Record table : Type := mkTable {
  t_size : Z;               (* The number of available slots. *)
  t_count : Z;              (* Number of currently slots filled *)
  t_tbl : list N;           (* The data stored here *)
  t_ht : list (list N)      (* Hash table for lookups *)
}.

(** [int(ph & uint(size-1))] *)
Definition slot_of (ph size : Z) : Z :=
  to_int (Z.land ph (to_uint (size - 1))).

(** [for np != nil { if cmp(np.key, key) == 0 { ... }; np = np.next }]:
    the node found. *)
Fixpoint chain_search (np : list N) (key : K) : result (option N) :=
  match np with
  | [] => Ok None
  | n :: np =>
      let* c := node_cmp n key in
      if c =? 0 then Ok (Some n) else chain_search np key
  end.

(** The loop that moves the nodes to a table of [arrSize] slots, from
    the node [i] on. *)
Fixpoint table_rehash (old : list N) (arrSize : Z) (cnt : nat) (i : Z)
    (tbl : list N) (ht : list (list N)) : result (list N * list (list N)) :=
  match cnt with
  | O => Ok (tbl, ht)
  | S cnt =>
      let* oldnp := rd old i in
      let* ph := node_hash oldnp in
      let h := slot_of ph arrSize in
      let* tbl := wr tbl i oldnp in
      let* chain := rd ht h in
      let* ht := wr ht h (oldnp :: chain) in
      table_rehash old arrSize cnt (i + 1) tbl ht
  end.

(** Need to make the hash table bigger *)
Definition table_grow (t : table) : result table :=
  let arrSize := t_size t * 2 in
  if arrSize <? 0 then Panic NegativeLen
  else
    let* r := table_rehash (t_tbl t) arrSize (Z.to_nat (t_count t)) 0
                (replicate (Z.to_nat arrSize) zero)
                (replicate (Z.to_nat arrSize) []) in
    Ok (mkTable arrSize (t_count t) (fst r) (snd r)).

(** Insert the node [n], whose key is [key] and has the hash [ph].
    Prior data with the same key is not overwritten. *)
Definition table_insert (t : table) (ph : Z) (n : N) (key : K)
    : result (table * bool) :=
  let h := slot_of ph (t_size t) in
  let* np := rd (t_ht t) h in
  let* found := chain_search np key in
  match found with
  | Some _ => Ok (t, false)
  | None =>
      let* t := if t_count t >=? t_size t then table_grow t else Ok t in
      let h := slot_of ph (t_size t) in
      let* tbl := wr (t_tbl t) (t_count t) n in
      let* chain := rd (t_ht t) h in
      let* ht := wr (t_ht t) h (n :: chain) in
      Ok (mkTable (t_size t) (t_count t + 1) tbl ht, true)
  end.

Definition table_find (t : table) (ph : Z) (key : K) : result (option N) :=
  let h := slot_of ph (t_size t) in
  let* np := rd (t_ht t) h in
  chain_search np key.

(** [for i := 0; i < size; i++ { ht[i] = nil }], from [i]. *)
Fixpoint clear_chains (ht : list (list N)) (cnt : nat) (i : Z)
    : result (list (list N)) :=
  match cnt with
  | O => Ok ht
  | S cnt =>
      let* ht := wr ht i [] in
      clear_chains ht cnt (i + 1)
  end.

End HashTable.

Arguments table : clear implicits.

(** ** The table [x4a] of configurations

    The node holds the pointer [data]; it is nil in a node of [tbl] that
    is not in use.  The key of a node is its data. *)
Definition x4node : Type := option config.

Definition x4_hash (n : x4node) : result Z :=
  match n with
  | Some c => Ok (confighash c)
  | None => Panic NilDeref
  end.

Definition x4_cmp (n : x4node) (key : config) : result Z :=
  match n with
  | Some c => Ok (Configcmp c key)
  | None => Panic NilDeref
  end.

Definition s_x4 : Type := table x4node.

(** Allocate a new associative array *)
Definition Configtable_init (x4a : option s_x4) : option s_x4 :=
  match x4a with
  | Some _ => x4a
  | None => Some (mkTable 64 0 (replicate 64 None) (replicate 64 []))
  end.

(** Insert a new record into the array.  Return TRUE if successful. *)
Definition Configtable_insert (x4a : option s_x4) (data : config)
    : result (option s_x4 * bool) :=
  match x4a with
  | None => Ok (None, false)
  | Some t =>
      let* r := table_insert None x4_hash x4_cmp t (confighash data)
                  (Some data) data in
      Ok (Some (fst r), snd r)
  end.

(** Return a pointer to data assigned to the given key.  Return NULL
    if no such key. *)
Definition Configtable_find (x4a : option s_x4) (key : config)
    : result (option config) :=
  match x4a with
  | None => Ok None
  | Some t =>
      let* np := table_find x4_cmp t (confighash key) key in
      Ok (match np with Some n => n | None => None end)
  end.

(** Remove all data from the table. *)
Definition Configtable_clear (x4a : option s_x4) : result (option s_x4) :=
  match x4a with
  | None => Ok None
  | Some t =>
      if t_count t =? 0 then Ok x4a
      else
        let* ht := clear_chains (t_ht t) (Z.to_nat (t_size t)) 0 in
        Ok (Some (mkTable (t_size t) 0 (t_tbl t) ht))
  end.

(** ** The table [x3a] of states

    The key of a state is the list of its basis configurations, its data
    the pointer to the state. *)
Record x3node : Type := mkX3 {
  x3_data : option state_ptr;   (* The data *)
  x3_key : list config          (* The key *)
}.

Definition x3_hash (n : x3node) : result Z := Ok (statehash (x3_key n)).

Definition x3_cmp (n : x3node) (key : list config) : result Z :=
  Ok (statecmp (x3_key n) key).

Definition s_x3 : Type := table x3node.

Definition State_init (x3a : option s_x3) : option s_x3 :=
  match x3a with
  | Some _ => x3a
  | None => Some (mkTable 128 0 (replicate 128 (mkX3 None []))
                          (replicate 128 []))
  end.

Definition State_insert (x3a : option s_x3) (data : state_ptr)
    (key : list config) : result (option s_x3 * bool) :=
  match x3a with
  | None => Ok (None, false)
  | Some t =>
      let* r := table_insert (mkX3 None []) x3_hash x3_cmp t (statehash key)
                  (mkX3 (Some data) key) key in
      Ok (Some (fst r), snd r)
  end.

Definition State_find (x3a : option s_x3) (key : list config)
    : result (option state_ptr) :=
  match x3a with
  | None => Ok None
  | Some t =>
      let* np := table_find x3_cmp t (statehash key) key in
      Ok (match np with Some n => x3_data n | None => None end)
  end.

(** [for i := 0; i < arrSize; i++ { array[i] = x3a.tbl[i].data }],
    from [i]. *)
Fixpoint State_arrayof_loop (tbl : list x3node) (cnt : nat) (i : Z)
    : result (list (option state_ptr)) :=
  match cnt with
  | O => Ok []
  | S cnt =>
      let* n := rd tbl i in
      let* rest := State_arrayof_loop tbl cnt (i + 1) in
      Ok (x3_data n :: rest)
  end.

(** Return an array of pointers to all data in the table. *)
Definition State_arrayof (x3a : option s_x3)
    : result (list (option state_ptr)) :=
  match x3a with
  | None => Ok []
  | Some t =>
      if t_count t <? 0 then Panic NegativeLen
      else State_arrayof_loop (t_tbl t) (Z.to_nat (t_count t)) 0
  end.

(** * Nonterminals that generate the empty string

    The first part of [FindFirstSets] (lines 609-642).  A symbol is
    named by its index, which is its position in [lemp.symbols]; the
    field [lambda] of the symbols is the list [lam], and [typ] gives the
    type of a symbol.  Of a rule the loop reads [lhs] and [rhs]. *)
Record grule : Type := mkGrule {
  g_lhs : nat;          (* Left-hand side of the rule *)
  g_rhs : list nat      (* The RHS symbols *)
}.

(** [for i := 0; i < lemp.nsymbol; i++ { lemp.symbols[i].lambda = false }],
    from [i]. *)
Fixpoint clear_lambda (lam : list bool) (cnt : nat) (i : Z) : result (list bool) :=
  match cnt with
  | O => Ok lam
  | S cnt =>
      let* lam := wr lam i false in
      clear_lambda lam cnt (i + 1)
  end.

(** The loop over the right-hand side of a rule: whether it ran to the
    end ([i == len(rp.rhs)]).  The explicit [panic] is a failed
    assertion. *)
Fixpoint rhs_all_lambda (typ : nat -> symbol_type) (lam : list bool)
    (rhs : list nat) : result bool :=
  match rhs with
  | [] => Ok true
  | sp :: rhs =>
      match lam !! sp with
      | None => Panic NilDeref
      | Some l =>
          if negb (bool_decide (typ sp = NONTERMINAL) || negb l)
          then Panic AssertFailed
          else if negb l then Ok false
          else rhs_all_lambda typ lam rhs
      end
  end.

(** One round over the rules. *)
Fixpoint lambda_pass (typ : nat -> symbol_type) (rules : list grule)
    (lam : list bool) (progress : bool) : result (list bool * bool) :=
  match rules with
  | [] => Ok (lam, progress)
  | rp :: rules =>
      match lam !! g_lhs rp with
      | None => Panic NilDeref
      | Some true => lambda_pass typ rules lam progress
      | Some false =>
          let* all := rhs_all_lambda typ lam (g_rhs rp) in
          if all then lambda_pass typ rules (<[g_lhs rp := true]> lam) true
          else lambda_pass typ rules lam progress
      end
  end.

(** [for { progress := false; ...; if !progress { break } }], at most
    [fuel] rounds; [None] when they do not suffice. *)
Fixpoint lambda_rounds (fuel : nat) (typ : nat -> symbol_type)
    (rules : list grule) (lam : list bool) : result (option (list bool)) :=
  match fuel with
  | O => Ok None
  | S fuel =>
      let* r := lambda_pass typ rules lam false in
      if snd r then lambda_rounds fuel typ rules (fst r)
      else Ok (Some (fst r))
  end.

Definition FindFirstSets_lambda (fuel : nat) (typ : nat -> symbol_type)
    (rules : list grule) (nsymbol : Z) (lam : list bool)
    : result (option (list bool)) :=
  let* lam := clear_lambda lam (Z.to_nat nsymbol) 0 in
  lambda_rounds fuel typ rules lam.

(** * The default reduce action of a state

    The first loop of [CompressTables] over the actions of a state
    (lines 4661-4691): the most frequent REDUCE action is to become the
    default.  [lhsStart] is the field of that name of a rule. *)

(** [ap.sp == lemp.wildcard]: symbols are interned by name. *)
Definition symbol_ptr_eqb (a b : option symbol) : bool :=
  match a, b with
  | Some sa, Some sb => String.eqb (name sa) (name sb)
  | None, None => true
  | _, _ => false
  end.

(** [for ap2 := ap.next; ap2 != nil; ap2 = ap2.next { ... }]: [n]. *)
Fixpoint count_same (rbest : option rule) (rp : rule) (aps : list Action) (n : Z)
    : Z :=
  match aps with
  | [] => n
  | ap2 :: aps =>
      if negb (bool_decide (atyp ap2 = REDUCE)) then count_same rbest rp aps n
      else if rule_ptr_eqb (x_rp ap2) rbest then count_same rbest rp aps n
      else if rule_ptr_eqb (x_rp ap2) (Some rp) then count_same rbest rp aps (n + 1)
      else count_same rbest rp aps n
  end.

(** [for ap := stp.ap; ap != nil; ap = ap.next { ... }]: [nbest],
    [rbest] and [usesWildcard]. *)
Fixpoint best_default (wildcard : option symbol) (lhsStart : rule -> bool)
    (aps : list Action) (nbest : Z) (rbest : option rule) (usesWildcard : bool)
    : result (Z * option rule * bool) :=
  match aps with
  | [] => Ok (nbest, rbest, usesWildcard)
  | ap :: aps =>
      let usesWildcard :=
        if bool_decide (atyp ap = SHIFT) && symbol_ptr_eqb (Some (sp ap)) wildcard
        then true else usesWildcard in
      if negb (bool_decide (atyp ap = REDUCE))
      then best_default wildcard lhsStart aps nbest rbest usesWildcard
      else
        match x_rp ap with
        | None => Panic NilDeref
        | Some rp =>
            if lhsStart rp
            then best_default wildcard lhsStart aps nbest rbest usesWildcard
            else if rule_ptr_eqb (Some rp) rbest
            then best_default wildcard lhsStart aps nbest rbest usesWildcard
            else
              let n := count_same rbest rp aps 1 in
              if n >? nbest
              then best_default wildcard lhsStart aps n (Some rp) usesWildcard
              else best_default wildcard lhsStart aps nbest rbest usesWildcard
        end
  end.

(** ** Combining the REDUCE actions into a default

    The rest of the body of the first loop of [CompressTables]
    (lines 4693-4722), on the action list of the state and its fields
    [autoReduce] and [pDfltReduce]. *)

Definition node_set_sp (n : action_node) (s : symbol) : action_node :=
  mkNode (mkAction s (atyp (node_action n)) (x_stp (node_action n))
                   (x_rp (node_action n)))
         (node_index n).

Definition node_set_typ (n : action_node) (t : e_action) : action_node :=
  mkNode (set_atyp (node_action n) t) (node_index n).

(** [ap.typ == REDUCE && ap.x.rp == rbest] *)
Definition is_default (rbest : option rule) (n : action_node) : bool :=
  bool_decide (atyp (node_action n) = REDUCE) &&
  rule_ptr_eqb (x_rp (node_action n)) rbest.

(** [for ap = stp.ap; ap != nil; ap = ap.next { if ap.typ == REDUCE &&
    ap.x.rp == rbest { break } }]: the actions before [ap], [ap], and the
    actions after it; [None] when [ap] is nil at the end. *)
Fixpoint find_default (rbest : option rule) (aps : list action_node)
    : option (list action_node * action_node * list action_node) :=
  match aps with
  | [] => None
  | ap :: aps =>
      if is_default rbest ap then Some ([], ap, aps)
      else match find_default rbest aps with
           | Some (before, d, after) => Some (ap :: before, d, after)
           | None => None
           end
  end.

(** [for ap = ap.next; ap != nil; ap = ap.next { if ap.typ == REDUCE &&
    ap.x.rp == rbest { ap.typ = NOT_USED } }] *)
Fixpoint unuse_rest (rbest : option rule) (aps : list action_node)
    : list action_node :=
  match aps with
  | [] => []
  | ap :: aps =>
      (if is_default rbest ap then node_set_typ ap NOT_USED else ap)
      :: unuse_rest rbest aps
  end.

(** [for ap = stp.ap; ap != nil; ap = ap.next { if ap.typ == SHIFT {
    break }; if ap.typ == REDUCE && ap.x.rp != rbest { break } }]: whether
    [ap == nil] afterwards. *)
Fixpoint scan_autoReduce (rbest : option rule) (aps : list action_node) : bool :=
  match aps with
  | [] => true
  | ap :: aps =>
      if bool_decide (atyp (node_action ap) = SHIFT) then false
      else if bool_decide (atyp (node_action ap) = REDUCE) &&
              negb (rule_ptr_eqb (x_rp (node_action ap)) rbest)
      then false
      else scan_autoReduce rbest aps
  end.

(** The body of the first loop of [CompressTables] for one state.  The
    symbol table is threaded through for [Symbol_new]. *)
Definition CompressTables_state (up : string -> bool) (wildcard : option symbol)
    (lhsStart : rule -> bool) (x2a : list symbol)
    (stp : list action_node * bool * option rule)
    : result (list symbol * (list action_node * bool * option rule)) :=
  let '(aps, autoReduce, pDfltReduce) := stp in
  let* best := best_default wildcard lhsStart (node_action <$> aps) 0 None false in
  let '(nbest, rbest, usesWildcard) := best in
  if (nbest <? 1) || usesWildcard then Ok (x2a, stp)
  else
    match find_default rbest aps with
    | None => Panic AssertFailed
    | Some (before, ap, after) =>
        let x2a := Symbol_new up x2a "{default}" in
        match Symbol_find x2a "{default}" with
        | None => Panic NilDeref
        | Some dflt =>
            let aps := before ++ node_set_sp ap dflt :: unuse_rest rbest after in
            let* aps := Action_sort aps in
            if scan_autoReduce rbest aps
            then Ok (x2a, (aps, true, rbest))
            else Ok (x2a, (aps, autoReduce, pDfltReduce))
        end
    end.

(** ** The conflict loop of [FindActions]

    [for i := 0; i < lemp.nstate; i++ { ... }] under "Resolve conflicts"
    (lines 975-987), for one state: the actions are sorted and every
    action is compared with the actions after it that have its
    lookahead. *)

Definition node_with (n : action_node) (a : Action) : action_node :=
  mkNode a (node_index n).

(** [for nap := ap.next; nap != nil && nap.sp == ap.sp; nap = nap.next {
    lemp.nconflict += resolve_conflict(ap, nap) }]: [ap], the list from
    [ap.next] on and [nconflict] afterwards. *)
Fixpoint resolve_row (ap : action_node) (naps : list action_node) (nconflict : Z)
    : result (action_node * list action_node * Z) :=
  match naps with
  | [] => Ok (ap, [], nconflict)
  | nap :: rest =>
      if String.eqb (name (sp (node_action nap))) (name (sp (node_action ap)))
      then
        let* r := resolve_conflict (node_action ap) (node_action nap) in
        let '(apx, apy, errcnt) := r in
        let* r := resolve_row (node_with ap apx) rest (nconflict + errcnt) in
        let '(ap, rest, nconflict) := r in
        Ok (ap, node_with nap apy :: rest, nconflict)
      else Ok (ap, naps, nconflict)
  end.

(** [for ap := stp.ap; ap != nil && ap.next != nil; ap = ap.next { ... }].
    The inner loop changes the list that the outer loop walks, so the
    recursion is on [fuel]; [None] is out of fuel. *)
Fixpoint resolve_rows (fuel : nat) (aps : list action_node) (nconflict : Z)
    : result (option (list action_node * Z)) :=
  match aps with
  | [] => Ok (Some ([], nconflict))
  | [ap] => Ok (Some ([ap], nconflict))
  | ap :: rest =>
      match fuel with
      | O => Ok None
      | S fuel =>
          let* r := resolve_row ap rest nconflict in
          let '(ap, rest, nconflict) := r in
          let* r := resolve_rows fuel rest nconflict in
          match r with
          | None => Ok None
          | Some (rest, nconflict) => Ok (Some (ap :: rest, nconflict))
          end
      end
  end.

(** The body of the loop for one state: the new [stp.ap] and
    [lemp.nconflict]. *)
Definition FindActions_resolve (aps : list action_node) (nconflict : Z)
    : result (option (list action_node * Z)) :=
  let* aps := Action_sort aps in
  resolve_rows (length aps) aps nconflict.

(** * The configuration list builder

    The routines of "configlist.c" that build a list of configurations
    (lines 1088-1270).  [current] and [basis] are the lists linked
    through [next] and through [bp].  [currentend] and [basisend] are
    nil or point to the [next] and [bp] field at the end of their list
    (every function that sets a list sets them so): the model keeps
    whether they are nil.  [newconfig] returns a new object each time;
    [cl_nconfig] counts them and numbers the object ([cfg_id]). *)
Record configlist : Type := mkConfiglist {
  cl_current : list config;     (* current *)
  cl_currentend : bool;         (* currentend != nil *)
  cl_basis : list config;       (* basis *)
  cl_basisend : bool;           (* basisend != nil *)
  cl_x4a : option s_x4;         (* the table x4a *)
  cl_nconfig : nat              (* the number of calls of newconfig *)
}.

(** The zero values of the variables. *)
Definition configlist_zero : configlist := mkConfiglist [] false [] false None 0.

(** Initialized the configuration list builder *)
Definition Configlist_init (cl : configlist) : configlist :=
  mkConfiglist [] true [] true (Configtable_init (cl_x4a cl)) (cl_nconfig cl).

Definition Configlist_reset (cl : configlist) : result configlist :=
  let* x4a := Configtable_clear (cl_x4a cl) in
  Ok (mkConfiglist [] true [] true x4a (cl_nconfig cl)).

(** Add another configuration to the configuration list.  The rule [rp]
    is given by its [index]. *)
Definition Configlist_add (cl : configlist) (rp : Z) (dot : Z)
    : result (configlist * config) :=
  if negb (cl_currentend cl) then Panic AssertFailed
  else
    let model := mkConfig rp dot (cl_nconfig cl) in
    let* cfp := Configtable_find (cl_x4a cl) model in
    match cfp with
    | Some cfp => Ok (cl, cfp)
    | None =>
        let cfp := mkConfig rp dot (cl_nconfig cl) in
        let* r := Configtable_insert (cl_x4a cl) cfp in
        Ok (mkConfiglist (cl_current cl ++ [cfp]) true
                         (cl_basis cl) (cl_basisend cl)
                         (fst r) (S (cl_nconfig cl)),
            cfp)
    end.

(** Add a basis configuration to the configuration list *)
Definition Configlist_addbasis (cl : configlist) (rp : Z) (dot : Z)
    : result (configlist * config) :=
  if negb (cl_basisend cl) then Panic AssertFailed
  else if negb (cl_currentend cl) then Panic AssertFailed
  else
    let model := mkConfig rp dot (cl_nconfig cl) in
    let* cfp := Configtable_find (cl_x4a cl) model in
    match cfp with
    | Some cfp => Ok (cl, cfp)
    | None =>
        let cfp := mkConfig rp dot (cl_nconfig cl) in
        let* r := Configtable_insert (cl_x4a cl) cfp in
        Ok (mkConfiglist (cl_current cl ++ [cfp]) true
                         (cl_basis cl ++ [cfp]) true
                         (fst r) (S (cl_nconfig cl)),
            cfp)
    end.

(** [merge__config]: the lists are merged in the order of [Configcmp]. *)
Fixpoint merge__config (a b : list config) {struct a} : list config :=
  match a with
  | [] => b
  | x :: a' =>
      (fix merge_b (b : list config) : list config :=
         match b with
         | [] => x :: a'
         | y :: b' =>
             if Configcmp x y <=? 0 then x :: merge__config a' (y :: b')
             else y :: merge_b b'
         end) b
  end.

(** [for ; i < LISTSIZE-1 && set[i] != nil; i++ { ep = merge__config(ep,
    set[i]); set[i] = nil }; set[i] = ep], on the buckets from [i] on. *)
Fixpoint msort_config_carry (ep : list config) (set : list (list config))
    : result (list (list config)) :=
  match set with
  | [] => Panic IndexOutOfRange
  | [_] => Ok [ep]
  | s :: rest =>
      match s with
      | [] => Ok (ep :: rest)
      | _ =>
          let* rest := msort_config_carry (merge__config ep s) rest in
          Ok ([] :: rest)
      end
  end.

Fixpoint msort_config_fill (l : list config) (set : list (list config))
    : result (list (list config)) :=
  match l with
  | [] => Ok set
  | x :: l =>
      let* set := msort_config_carry [x] set in
      msort_config_fill l set
  end.

(** [for ; i < LISTSIZE; i++ { if set[i] != nil { ep =
    merge__config(set[i], ep) } }] *)
Fixpoint msort_config_collect (set : list (list config)) (ep : list config)
    : list config :=
  match set with
  | [] => ep
  | s :: set =>
      match s with
      | [] => msort_config_collect set ep
      | _ => msort_config_collect set (merge__config s ep)
      end
  end.

Definition msort__config (l : list config) : result (list config) :=
  let* set := msort_config_fill l (replicate LISTSIZE []) in
  Ok (msort_config_collect set []).

(** Sort the configuration list *)
Definition Configlist_sort (cl : configlist) : result configlist :=
  let* current := msort__config (cl_current cl) in
  Ok (mkConfiglist current false (cl_basis cl) (cl_basisend cl)
                   (cl_x4a cl) (cl_nconfig cl)).

(** Return a pointer to the head of the configuration list and reset the
    list *)
Definition Configlist_return (cl : configlist) : configlist * list config :=
  (mkConfiglist [] false (cl_basis cl) (cl_basisend cl) (cl_x4a cl) (cl_nconfig cl),
   cl_current cl).

Definition Configlist_basis (cl : configlist) : configlist * list config :=
  (mkConfiglist (cl_current cl) (cl_currentend cl) [] false (cl_x4a cl)
                (cl_nconfig cl),
   cl_basis cl).

(** ** [FindLinks]: forward links from backward links

    The second loop of [FindLinks] (lines 880-892).  The backward links
    [bplp] of the configurations, which the loop reads, are given apart
    from the configurations, in the same order. *)

Definition set_fplp (c : Follow.config) (l : list nat) : Follow.config :=
  Follow.mkConfig (Follow.fws c) l (Follow.status c).

(** [for plp := cfp.bplp; plp != nil; plp = plp.next { other := plp.cfp;
    Plink_add(&other.fplp, cfp) }] for the configuration [cfp] at the
    position [i]. *)
Fixpoint add_forward (i : nat) (bplp : list nat) (cs : list Follow.config)
    : result (list Follow.config) :=
  match bplp with
  | [] => Ok cs
  | other :: bplp =>
      match cs !! other with
      | None => Panic NilDeref
      | Some oc =>
          add_forward i bplp (<[other := set_fplp oc (i :: Follow.fplp oc)]> cs)
      end
  end.

(** The loop over the configurations, from the position [i]. *)
Fixpoint FindLinks_from (bplps : list (list nat)) (i : nat)
    (cs : list Follow.config) : result (list Follow.config) :=
  match bplps with
  | [] => Ok cs
  | bplp :: bplps =>
      let* cs := add_forward i bplp cs in
      FindLinks_from bplps (S i) cs
  end.

Definition FindLinks_forward (bplps : list (list nat)) (cs : list Follow.config)
    : result (list Follow.config) :=
  FindLinks_from bplps 0 cs.

(** * First sets

    The rest of [FindFirstSets] (lines 612-614 and 643-675).  As for the
    lambdas a symbol is named by its position in [lemp.symbols]; its
    field [firstset] is the map of that number in the heap, its fields
    [index] and [subsym] are given by [index] and [subsym]. *)

(** [for i := lemp.nterminal; i < lemp.nsymbol; i++ {
    lemp.symbols[i].firstset = SetNew() }], from [i]. *)
Fixpoint new_firstsets (h : heap) (cnt : nat) (i : Z) : result heap :=
  match cnt with
  | O => Ok h
  | S cnt =>
      let* h := wr h i SetNew in
      new_firstsets h cnt (i + 1)
  end.

Section FirstSetsModel.
Variable typ : nat -> symbol_type.
Variable index : nat -> Z.
Variable subsym : nat -> list nat.
Variable lam : list bool.

(** [for j := range s2.subsym { progress = SetAdd(s1.firstset,
    s2.subsym[j].index) || progress }] *)
Fixpoint add_subsyms (s1 : nat) (subs : list nat) (progress : bool) : prog bool :=
  match subs with
  | [] => Ret progress
  | j :: subs =>
      OpAdd s1 (index j) (fun b => add_subsyms s1 subs (b || progress))
  end.

(** [for i := range rp.rhs { ... }]: [progress] afterwards. *)
Fixpoint first_rhs (s1 : nat) (rhs : list nat) (progress : bool) : prog bool :=
  match rhs with
  | [] => Ret progress
  | s2 :: rhs =>
      match typ s2 with
      | TERMINAL => OpAdd s1 (index s2) (fun b => Ret (b || progress))
      | MULTITERMINAL => add_subsyms s1 (subsym s2) progress
      | NONTERMINAL =>
          if Nat.eqb s1 s2 then
            match lam !! s1 with
            | None => Throw NilDeref
            | Some l => if negb l then Ret progress else first_rhs s1 rhs progress
            end
          else
            OpUnion s1 s2 (fun b =>
              match lam !! s2 with
              | None => Throw NilDeref
              | Some l =>
                  if negb l then Ret (b || progress)
                  else first_rhs s1 rhs (b || progress)
              end)
      end
  end.

(** [for rp := lemp.rule; rp != nil; rp = rp.next { ... }] *)
Fixpoint first_pass (rules : list grule) (progress : bool) : prog bool :=
  match rules with
  | [] => Ret progress
  | rp :: rules =>
      pbind (first_rhs (g_lhs rp) (g_rhs rp) progress)
            (fun progress => first_pass rules progress)
  end.

(** [for { progress := false; ...; if !progress { break } }], at most
    [fuel] rounds; [None] when they do not suffice. *)
Fixpoint first_rounds (fuel : nat) (rules : list grule) : prog (option unit) :=
  match fuel with
  | O => Ret None
  | S fuel =>
      pbind (first_pass rules false)
            (fun progress => if progress then first_rounds fuel rules
                             else Ret (Some tt))
  end.

End FirstSetsModel.

(** The sets are made, then filled. *)
Definition FindFirstSets_sets (o : range_order) (n : nat) (fuel : nat)
    (typ : nat -> symbol_type) (index : nat -> Z) (subsym : nat -> list nat)
    (lam : list bool) (rules : list grule) (nterminal nsymbol : Z) (h : heap)
    : result (heap * option unit) :=
  let* h := new_firstsets h (Z.to_nat (nsymbol - nterminal)) nterminal in
  exec o n h (first_rounds typ index subsym lam fuel rules).

(** ** The order of [ResortStates]

    [stateResortCompare] (lines 4802-4814), by which [ResortStates] sorts
    [lemp.sorted[1:]]. *)
Definition stateResortCompare (lemp : lemon) (states : list state)
    (pA pB : state_ptr) : result Z :=
  let* b := deref states pB in
  let* a := deref states pA in
  let n := nNtAct b - nNtAct a in
  let n :=
    if n =? 0 then
      let n := nTknAct b - nTknAct a in
      if n =? 0 then statenum lemp pB - statenum lemp pA else n
    else n in
  if n =? 0 then Panic AssertFailed else Ok n.

(** * Predicates and examples of the statements *)

(** Position in [aAction] of the entry [e] of a transaction set put at [i]. *)
Definition slot (p : acttab) (i : Z) (e : lookahead_action) : Z :=
  lookahead e - mnLookahead p + i.

(** [p'] has the same transaction set and symbol counts as [p]. *)
Definition same_pending (p p' : acttab) : Prop :=
  aLookahead p' = aLookahead p /\ mnLookahead p' = mnLookahead p /\
  mnAction p' = mnAction p /\ mxLookahead p' = mxLookahead p /\
  nLookahead p' = nLookahead p /\ nLookaheadAlloc p' = nLookaheadAlloc p /\
  nterminal p' = nterminal p /\ nsymbol p' = nsymbol p.

Record wf_acttab (p : acttab) : Prop := mkWf {
  wf_nAction : 0 <= nAction p;
  wf_alloc : Z.of_nat (length (aAction p)) = nActionAlloc p;
  wf_tail : forall (k : nat) x,
      nAction p <= Z.of_nat k -> aAction p !! k = Some x -> x = la_empty;
  wf_lower : forall (k : nat) x, aAction p !! k = Some x -> -1 <= lookahead x;
  wf_counts : 0 <= nterminal p <= nsymbol p;
  wf_palloc : Z.of_nat (length (aLookahead p)) = nLookaheadAlloc p;
  wf_pn : 0 <= nLookahead p <= nLookaheadAlloc p
}.

(** The transaction set that [ReportTable] hands to [acttab_insert]: not
    empty, one action per lookahead, lookaheads are symbol indices, and
    [mnLookahead], [mxLookahead] bound them. *)
Definition wf_row (p : acttab) : Prop :=
  0 < nLookahead p /\
  NoDup (lookahead <$> pending p) /\
  0 <= mnLookahead p /\ mxLookahead p < nsymbol p /\
  forall e, e ∈ pending p -> mnLookahead p <= lookahead e <= mxLookahead p.

(** Lower bound of both scans. *)
Definition scan_lower (p : acttab) (makeItSafe : bool) : Z :=
  if makeItSafe then mnLookahead p else 0.

(** The three ways [find_slot] ends: a duplicate was found, a hole was
    found, or the hole scan ran to its end. *)
Inductive slot_case (p : acttab) (safe : bool) (i : Z) : Prop :=
  | SlotDup :
      scan_lower p safe <= i < nAction p ->
      dup_at p i = Ok true -> slot_case p safe i
  | SlotHole :
      scan_lower p safe <= i < nActionAlloc p - mxLookahead p ->
      hole_at p i = Ok true ->
      (forall k, scan_lower p safe <= k < i -> hole_at p k = Ok false) ->
      slot_case p safe i
  | SlotEnd :
      i = Z.max (scan_lower p safe) (nActionAlloc p - mxLookahead p) ->
      (forall k, scan_lower p safe <= k < i -> hole_at p k = Ok false) ->
      slot_case p safe i.

(** [p'] has the same table as [p]. *)
Definition same_table (p p' : acttab) : Prop :=
  nAction p' = nAction p /\ nActionAlloc p' = nActionAlloc p /\
  aAction p' = aAction p /\ nterminal p' = nterminal p /\ nsymbol p' = nsymbol p.

(** [mnLookahead] and [mxLookahead] are the least and greatest lookahead
    of a non-empty transaction set. *)
Definition pending_bounds (p : acttab) : Prop :=
  0 < nLookahead p ->
  (forall e, e ∈ pending p -> mnLookahead p <= lookahead e <= mxLookahead p) /\
  (exists e, e ∈ pending p /\ lookahead e = mnLookahead p /\ action e = mnAction p) /\
  (exists e, e ∈ pending p /\ lookahead e = mxLookahead p).

Definition ex_safe_row : list lookahead_action :=
  [mkLA 2 10; mkLA 1 11; mkLA 3 12].

(** The action [a] of a state is emitted with code [c] on the terminal
    axis ([tkn = true]) or on the nonterminal axis. *)
Definition emitted (lemp : lemon) (tkn : bool) (a : Action) (c : Z) : Prop :=
  (if tkn then index (sp a) < g_nterminal lemp
   else g_nterminal lemp <= index (sp a) /\ index (sp a) <> g_nsymbol lemp) /\
  compute_action lemp a = Ok c /\ 0 <= c.

(** The entries that the row loop hands to [acttab_action], in order. *)
Fixpoint row_entries (lemp : lemon) (tkn : bool) (aps : list Action)
    : result (list lookahead_action) :=
  match aps with
  | [] => Ok []
  | a :: aps =>
      if (if tkn then index (sp a) >=? g_nterminal lemp
          else (index (sp a) <? g_nterminal lemp) ||
               (index (sp a) =? g_nsymbol lemp))
      then row_entries lemp tkn aps
      else
        let* act := compute_action lemp a in
        if act <? 0 then row_entries lemp tkn aps
        else
          let* r := row_entries lemp tkn aps in
          Ok (mkLA (index (sp a)) act :: r)
  end.

Definition fill_row (lemp : lemon) (tkn : bool) (p : acttab) (aps : list Action)
    : result acttab :=
  if tkn then tkn_row lemp p aps else nt_row lemp p aps.

Fixpoint packed_rows (ax : list axset) : list axset :=
  match ax with
  | [] => []
  | a :: ax => if ax_nAction a >? 0 then a :: packed_rows ax else []
  end.

Definition ofst (st : state) (tkn : bool) : Z :=
  if tkn then iTknOfst st else iNtOfst st.

Definition row_key (a : axset) : state_ptr * bool := (stp a, isTkn a).

(** What the loop needs of a row: its entries can be computed, there is
    one entry per lookahead, the lookaheads are symbol indices, and a row
    that passes the guard [nAction > 0] is not empty. *)
Definition row_ready (lemp : lemon) (aps : list Action) (tkn : bool) (n : Z)
    : Prop :=
  exists r, row_entries lemp tkn aps = Ok r /\
            NoDup (lookahead <$> r) /\
            (forall e, e ∈ r -> 0 <= lookahead e < g_nsymbol lemp) /\
            (0 < n -> r <> []).

(** What [ReportTable] needs of a state: on each axis the emitted entries
    can be computed, there is one emitted action per lookahead, the
    lookaheads are symbol indices below [nsymbol], and [nTknAct] and
    [nNtAct] count the emitted actions (as [ResortStates] left them). *)
Definition state_ready (lemp : lemon) (st : state) : Prop :=
  forall tkn : bool,
    exists r, row_entries lemp tkn (ap st) = Ok r /\
              NoDup (lookahead <$> r) /\
              (forall e, e ∈ r -> 0 <= lookahead e < g_nsymbol lemp) /\
              (if tkn then nTknAct st else nNtAct st) = Z.of_nat (length r).

(** *** A grammar state with a non-associative tie

    Symbols: 0 is [$], 1 is the terminal [EQ] declared [%nonassoc], 2 is
    the nonterminal [e]; rule 0 is [e ::= e EQ e] with precedence symbol
    [EQ].  In the state after [e EQ e] the sorted action list has a SHIFT
    and a REDUCE on [EQ]. *)
Definition ex_EQ : symbol := mkSymbol "EQ" 1 TERMINAL 1 NONE [].

Definition ex_rule0 : rule := mkRule 0 0 (Some ex_EQ).

Definition ex_shift_EQ : Action := mkAction ex_EQ SHIFT (Some 1%nat) None.

Definition ex_reduce_EQ : Action := mkAction ex_EQ REDUCE None (Some ex_rule0).

(** [lemon] before [ReportTable]: the boundaries have Go's zero value. *)
Definition ex_lemon0 : lemon :=
  mkLemon 2 1 1 3 2 0 0 0 0 0 0 None 0 0 false (fun s => Z.of_nat s).

Definition ex_lemon : lemon := ReportTable_boundaries ex_lemon0.

Definition ex_tie_actions : list Action :=
  match resolve_conflict ex_shift_EQ ex_reduce_EQ with
  | Ok (apx, apy, _) => [apx; apy]
  | Panic _ => []
  end.

Definition ex_tie_state0 : state :=
  mkState ex_tie_actions 0 0 0 0 0 None false.

Definition ex_tie_states : list state :=
  match ResortStates_state ex_lemon0 ex_tie_state0 with
  | Ok st => [st]
  | Panic _ => []
  end.

(** *** A state with one action per lookahead *)
Definition ex_dollar : symbol := mkSymbol "$" 0 NONTERMINAL (-1) UNK [].

Definition ex_e : symbol := mkSymbol "e" 2 NONTERMINAL (-1) UNK [].

Definition ex_ok_state0 : state :=
  mkState [ mkAction ex_dollar REDUCE None (Some ex_rule0);
            mkAction ex_EQ SHIFT (Some 1%nat) None;
            mkAction ex_e SHIFT (Some 1%nat) None ]
          0 0 0 0 0 None false.

Definition ex_ok_states : list state :=
  match ResortStates_state ex_lemon0 ex_ok_state0 with
  | Ok st => [st]
  | Panic _ => []
  end.

(** Action codes are not negative: what holds of [lemon] both when
    [ResortStates] runs (the boundaries still have Go's zero value) and
    after the first statements of [ReportTable]. *)
Definition nonneg_codes (lemp : lemon) : Prop :=
  0 <= minShiftReduce lemp /\ 0 <= minReduce lemp /\
  0 <= errAction lemp /\ 0 <= accAction lemp /\
  forall s, 0 <= statenum lemp s.

Definition nonneg_rules (aps : list Action) : Prop :=
  forall a rp, a ∈ aps -> x_rp a = Some rp -> 0 <= iRule rp.

(** The kinds of action for which [compute_action] returns a code. *)
Definition generates (t : e_action) : bool :=
  match t with
  | SHIFT | SHIFTREDUCE | REDUCE | ERROR | ACCEPT => true
  | _ => false
  end.

(** Only the check at the head of [acttab_insert] raises
    [WantLookahead]. *)
Definition other_outcome {A : Type} (r : result A) : Prop :=
  r <> Panic WantLookahead.

(** Precedence of a rule: that of its precedence symbol, [-1] (undefined)
    when it has none. *)
Definition rule_prec (rp : rule) : Z :=
  match precsym rp with
  | Some s => prec s
  | None => -1
  end.

(** Two rules with explicit precedence marks [[P]] and [[Q]], where [P]
    was never given a precedence and [Q] has precedence 3. *)
Definition ex_P : symbol := mkSymbol "P" 1 TERMINAL (-1) UNK [].

Definition ex_Q : symbol := mkSymbol "Q" 2 TERMINAL 3 LEFT [].

Definition ex_T : symbol := mkSymbol "T" 3 TERMINAL (-1) UNK [].

Definition ex_rule_P : rule := mkRule 0 0 (Some ex_P).

Definition ex_rule_Q : rule := mkRule 1 1 (Some ex_Q).

Definition ex_reduce_P : Action := mkAction ex_T REDUCE None (Some ex_rule_P).

Definition ex_reduce_Q : Action := mkAction ex_T REDUCE None (Some ex_rule_Q).

(** The end of [ResortStates] (lines 4860-4863): [nxstate] is [nstate]
    with the trailing auto-reduce states stripped. *)
Fixpoint strip_autoReduce (states : list state) (sorted : list state_ptr)
    (cnt : nat) (nx : Z) : result Z :=
  match cnt with
  | O => Ok nx
  | S c =>
      if nx >? 1 then
        let* s := rd sorted (nx - 1) in
        let* st := deref states s in
        if autoReduce st then strip_autoReduce states sorted c (nx - 1)
        else Ok nx
      else Ok nx
  end.

Definition ResortStates_nxstate (states : list state) (sorted : list state_ptr)
    (nstate : Z) : result Z :=
  strip_autoReduce states sorted (Z.to_nat nstate) nstate.

(** A non-terminal lookahead other than the error symbol. *)
Definition nt_not_error (lemp : lemon) (a : Action) : Prop :=
  g_nterminal lemp <= index (sp a) /\
  forall es, errsym lemp = Some es -> index (sp a) <> index es.

(** Two states, the second of them an auto-reduce state. *)
Definition ex_two_states : list state :=
  [ mkState [] 0 0 0 0 0 None false;
    mkState [] 0 0 0 0 0 (Some ex_rule0) true ].

(** A run in which [Parse] reports two errors and every other stage
    returns without touching the counts. *)
Definition run_parse_errors (s : stage) (lem : lemon) : proc lemon :=
  match s with
  | Parse => Cont (set_errorcnt lem 2 (printPreprocessed lem))
  | _ => Cont lem
  end.

(** A run in which [Parse] reports 256 errors. *)
Definition run_256_parse_errors (s : stage) (lem : lemon) : proc lemon :=
  match s with
  | Parse => Cont (set_errorcnt lem 256 (printPreprocessed lem))
  | _ => Cont lem
  end.

(** A run in which [FindStates] and [FindActions] each report an error. *)
Definition run_late_errors (s : stage) (lem : lemon) : proc lemon :=
  match s with
  | FindStates | FindActions =>
      Cont (set_errorcnt lem (errorcnt lem + 1) (printPreprocessed lem))
  | _ => Cont lem
  end.

Definition ex_flags : flags := mkFlags false 1 false false false false false false.

Record tab_inv (tab : list symbol) : Prop := mkTabInv {
  inv_head : exists s0 rest,
      tab = s0 :: rest /\ name s0 = "$"%string /\ typ s0 = NONTERMINAL;
  inv_nodup : NoDup (name <$> tab);
  inv_kind : forall s, s ∈ tab ->
      name s = "$"%string \/
      (upper_initial (name s) /\ typ s = TERMINAL) \/
      (lower_initial (name s) /\ typ s <> TERMINAL);
  inv_sub : forall s c, s ∈ tab -> c ∈ subsym s ->
      exists t, t ∈ tab /\ name t = c /\ typ t = TERMINAL
}.

(** Changing fields other than the name of the symbols called [x]. *)
Definition update_named (x : string) (f : symbol -> symbol) (tab : list symbol)
    : list symbol :=
  (fun s => if String.eqb (name s) x then f s else s) <$> tab.

Definition index_lt (a b : symbol) : Prop := index a < index b.

Definition of_class (k : Z) (s : symbol) : Prop := sort_class s = k.

Definition dflt_symbol : symbol := mkSymbol "{default}" 0 NONTERMINAL (-1) UNK [].

(** The table of
    [%token_class num INTEGER.  expr ::= expr PLUS num.] *)
Definition ex_ascii_only (s : string) : bool := false.

Definition ex_table0 : list symbol := Symbol_new ex_ascii_only [] "$".

Definition ex_table1 : list symbol := Symbol_new ex_ascii_only ex_table0 "expr".

Definition ex_table2 : list symbol := Symbol_new ex_ascii_only ex_table1 "PLUS".

Definition ex_table3 : list symbol :=
  set_typ_of (Symbol_new ex_ascii_only ex_table2 "num") "num" MULTITERMINAL.

Definition ex_table4 : list symbol :=
  add_subsym (Symbol_new ex_ascii_only ex_table3 "INTEGER") "num" "INTEGER".

(** A grammar [s ::= É.], whose terminal begins with the upper-case letter
    U+00C9, in UTF-8 the bytes 195 137.  [unicode.IsUpper] holds of it. *)
Definition ex_E_acute : string :=
  String (Ascii.ascii_of_nat 195) (String (Ascii.ascii_of_nat 137) EmptyString).

Definition ex_IsUpper (s : string) : bool := String.eqb s ex_E_acute.

Definition ex_latin_table : list symbol :=
  Symbol_new ex_IsUpper
    (Symbol_new ex_IsUpper (Symbol_new ex_IsUpper [] "$") "s") ex_E_acute.

(** What the language promises of [range]: every entry once. *)
Definition valid_order (o : range_order) : Prop :=
  forall n m, o n m ≡ₚ map_to_list m.

(** Three configurations whose links form a cycle, with the follow sets
    {0, 3}, {1} and {}; one run ranges over every map in the order of
    [map_to_list], the other in the reverse order. *)
Definition ex_configs : list Follow.config :=
  [Follow.mkConfig 0 [1%nat; 2%nat] Follow.COMPLETE;
   Follow.mkConfig 1 [2%nat] Follow.COMPLETE;
   Follow.mkConfig 2 [0%nat] Follow.COMPLETE].

Definition ex_heap : heap :=
  [Some (<[0 := true]> (<[3 := true]> ∅)); Some (<[1 := true]> ∅); SetNew].

Definition ex_forward : range_order := fun _ m => map_to_list m.

Definition ex_backward : range_order := fun _ m => reverse (map_to_list m).

(** The slot [m] holds an entry that a lookup at offset [i - mnLookahead]
    takes for its own: its lookahead is [m] less the offset. *)
Definition alias_at (p : acttab) (i : Z) (m : nat) : bool :=
  match aAction p !! m with
  | Some x => (0 <=? lookahead x) && (lookahead x =? Z.of_nat m + mnLookahead p - i)
  | None => false
  end.

(** [n] rows of the one entry [(0, a)], [(0, a + 1)], ..., packed one after
    the other without [makeItSafe]. *)
Fixpoint ex_dense_rows (p : acttab) (n : nat) (a : Z) : result acttab :=
  match n with
  | O => Ok p
  | S n =>
      let* r := insert_row p false [mkLA 0 a] in
      ex_dense_rows (fst r) n (a + 1)
  end.

(** The order of [Rule_sort]. *)
Definition rule_le (a b : rule) : Prop := iRule a <= iRule b.

(** REDUCE and SHIFTREDUCE actions, whose rule [actioncmp] reads. *)
Definition is_reduce (a : Action) : bool :=
  bool_decide (atyp a = REDUCE) || bool_decide (atyp a = SHIFTREDUCE).

Definition has_rule (a : Action) : Prop :=
  is_reduce a = true -> x_rp a <> None.

Definition rule_ix (a : Action) : Z :=
  match x_rp a with
  | Some r => rule_index r
  | None => 0
  end.

(** The value of [actioncmp] on actions that have their rules. *)
Definition cmp_val (x y : action_node) : Z :=
  let a1 := node_action x in
  let a2 := node_action y in
  let rc := index (sp a1) - index (sp a2) in
  let rc := if rc =? 0 then e_action_code (atyp a1) - e_action_code (atyp a2)
            else rc in
  let rc := if (rc =? 0) && is_reduce a1 then rule_ix a1 - rule_ix a2 else rc in
  if rc =? 0 then node_index y - node_index x else rc.

(** The order of [Action_sort]. *)
Definition action_le (x y : action_node) : Prop := cmp_val x y <= 0.

(** A set all of whose entries have the value [true]: what [SetNew],
    [SetAdd] and [SetUnion] build. *)
Definition only_true (s : gomap) : Prop :=
  forall m k v, s = Some m -> m !! k = Some v -> v = true.

(** The integer types of Go that [minimum_size_type] names: least value,
    greatest value, size in bytes. *)
Definition go_int_type (t : string) : option (Z * Z * Z) :=
  if String.eqb t "uint8" then Some (0, 255, 1)
  else if String.eqb t "uint16" then Some (0, 65535, 2)
  else if String.eqb t "uint32" then Some (0, 4294967295, 4)
  else if String.eqb t "int8" then Some (-128, 127, 1)
  else if String.eqb t "int16" then Some (-32768, 32767, 2)
  else if String.eqb t "int32" then Some (-2147483648, 2147483647, 4)
  else None.

(** ** What the tables keep *)

Section TableSpec.
Context {N KK : Type}.
(** The key of a node in use, and the hash of a key. *)
Variable key_of : N -> option KK.
Variable key_hash : KK -> Z.

(** The nodes in use, in the order of insertion. *)
Definition items (t : table N) : list N :=
  take (Z.to_nat (t_count t)) (t_tbl t).

Definition node_slot (size : Z) (n : N) : Z :=
  match key_of n with
  | Some kk => slot_of (key_hash kk) size
  | None => -1
  end.

(** The chain of the slot [h]: its nodes, the last one inserted first. *)
Definition chain_of (size h : Z) (l : list N) : list N :=
  reverse (filter (fun n => node_slot size n = h) l).

Record table_ok (t : table N) : Prop := mkTableOk {
  ok_size : 1 <= t_size t <= 2 ^ 62;
  ok_tbl : Z.of_nat (length (t_tbl t)) = t_size t;
  ok_ht : Z.of_nat (length (t_ht t)) = t_size t;
  ok_count : 0 <= t_count t <= t_size t;
  ok_proper : Forall (fun n => is_Some (key_of n)) (items t);
  ok_nodup : NoDup (key_of <$> items t);
  ok_chains : forall (h : nat) chain,
      t_ht t !! h = Some chain ->
      chain = chain_of (t_size t) (Z.of_nat h) (items t)
}.

(** The first node with the key [kk]. *)
Definition first_with `{EqDecision KK} (kk : KK) (l : list N) : option N :=
  find (fun n => bool_decide (key_of n = Some kk)) l.

(** The table after the nodes [l] were offered to it, the table being at
    most twice as large as the number of its nodes once it has grown
    beyond [size0] slots. *)
Definition table_holds `{EqDecision KK} (size0 : Z) (t : table N) (l : list N)
    : Prop :=
  table_ok t /\
  t_size t <= Z.max size0 (2 * t_count t) /\
  t_count t <= Z.of_nat (length l) /\
  (forall kk, first_with kk (items t) = first_with kk l) /\
  (NoDup (key_of <$> l) -> items t = l).

End TableSpec.

(** The key of a configuration: its rule and its dot. *)
Definition config_key (c : config) : Z * Z := (rp_index c, dot c).

(** [hash_step] on a key. *)
Definition key_hash_step (h : Z) (k : Z * Z) : Z :=
  to_uint (to_uint (to_uint (h * 571) + to_uint (to_uint (fst k) * 37))
           + to_uint (snd k)).

Definition x4_key (n : x4node) : option (Z * Z) := config_key <$> n.

Definition x3_key_of (n : x3node) : option (list (Z * Z)) :=
  Some (config_key <$> x3_key n).

(** [statehash] on the keys of a basis. *)
Definition keys_hash (kk : list (Z * Z)) : Z := foldl key_hash_step 0 kk.

(** A run of insertions. *)
Fixpoint Configtable_insert_all (x4a : option s_x4) (ds : list config)
    : result (option s_x4) :=
  match ds with
  | [] => Ok x4a
  | d :: ds =>
      let* r := Configtable_insert x4a d in
      Configtable_insert_all (fst r) ds
  end.

Fixpoint State_insert_all (x3a : option s_x3)
    (l : list (state_ptr * list config)) : result (option s_x3) :=
  match l with
  | [] => Ok x3a
  | p :: l =>
      let* r := State_insert x3a (fst p) (snd p) in
      State_insert_all (fst r) l
  end.

(** ** Propagation of follow sets *)

(** A forward propagation link from the configuration [j] to [i]. *)
Definition link (cs : list Follow.config) (j i : nat) : Prop :=
  exists cj, cs !! j = Some cj /\ i ∈ Follow.fplp cj.

(** The terminal [e] is in the follow set, in the heap [h], of a
    configuration from which the links lead to [i]. *)
Definition reaches (cs : list Follow.config) (h : heap) (i : nat) (e : Z) : Prop :=
  exists j cj, rtc (link cs) j i /\ cs !! j = Some cj /\
               SetFind (load h (Follow.fws cj)) e = true.

(** The keys of all the maps of a heap, and the number of elements that
    its sets can hold between them. *)
Definition heap_keys (h : heap) : list Z :=
  concat ((fun s => fst <$> entries s) <$> h).

Definition capacity (h : heap) : nat := length h * length (heap_keys h).

(** How many of the keys [U] each set holds, summed over the heap. *)
Definition cell_count (U : list Z) (s : gomap) : nat :=
  length (filter (fun e => SetFind s e = true) U).

Fixpoint heap_count (U : list Z) (h : heap) : nat :=
  match h with
  | [] => 0
  | s :: h => cell_count U s + heap_count U h
  end.

(** What the propagation keeps, from the configurations [cs0] and the
    heap [h0] it started with. *)
Record follow_inv (cs0 : list Follow.config) (h0 h : heap)
    (cs : list Follow.config) : Prop := mkFollowInv {
  fi_fws : Follow.fws <$> cs = Follow.fws <$> cs0;
  fi_fplp : Follow.fplp <$> cs = Follow.fplp <$> cs0;
  fi_len : length h = length h0;
  fi_alloc : forall c, c ∈ cs0 -> exists m, h !! Follow.fws c = Some (Some m);
  fi_keys : forall r e, SetFind (load h r) e = true -> e ∈ heap_keys h0;
  fi_mono : forall r e, SetFind (load h0 r) e = true -> SetFind (load h r) e = true;
  fi_sound : forall i c e, cs0 !! i = Some c ->
      SetFind (load h (Follow.fws c)) e = true -> reaches cs0 h0 i e;
  fi_closed : forall i c t tc e, cs !! i = Some c ->
      Follow.status c = Follow.COMPLETE -> t ∈ Follow.fplp c -> cs !! t = Some tc ->
      SetFind (load h (Follow.fws c)) e = true ->
      SetFind (load h (Follow.fws tc)) e = true
}.

(** ** Nullable symbols *)

(** A symbol generates the empty string when it has a rule all of whose
    right-hand side symbols do. *)
Inductive nullable (rules : list grule) : nat -> Prop :=
  | nullable_rule rp :
      rp ∈ rules -> (forall s, s ∈ g_rhs rp -> nullable rules s) ->
      nullable rules (g_lhs rp).

Definition count_true (lam : list bool) : nat :=
  length (filter (fun b => b = true) lam).

(** A rule that the round leaves as it is. *)
Definition rule_settled (lam : list bool) (rp : grule) : Prop :=
  lam !! g_lhs rp = Some true \/ exists s, s ∈ g_rhs rp /\ lam !! s = Some false.

(** A grammar of three rules: [a ::= b c], [b ::= ], [c ::= b b], and a
    terminal 0 that stands in no rule. *)
Definition ex_grules : list grule :=
  [mkGrule 1 [2%nat; 3%nat]; mkGrule 2 []; mkGrule 3 [2%nat; 2%nat]].

Definition ex_typ (s : nat) : symbol_type :=
  match s with O => TERMINAL | _ => NONTERMINAL end.

(** ** Counting the REDUCE actions of a rule *)

(** The action reduces by the rule [r]. *)
Definition reduces_by (r : rule) (ap : Action) : bool :=
  bool_decide (atyp ap = REDUCE) && rule_ptr_eqb (x_rp ap) (Some r).

Definition reduce_count (r : rule) (aps : list Action) : Z :=
  Z.of_nat (length (filter (fun ap => reduces_by r ap = true) aps)).

(** A state with a SHIFT and three REDUCE actions, two of them by the
    rule of index 1. *)
Definition ex_reduce_list : list Action :=
  [ mkAction ex_EQ SHIFT (Some 1%nat) None;
    mkAction ex_P REDUCE None (Some ex_rule_P);
    mkAction ex_Q REDUCE None (Some ex_rule_Q);
    mkAction ex_T REDUCE None (Some ex_rule_Q) ].

(** The action stands in the way of an auto-reduce state by [r]: a
    SHIFT, or a REDUCE by another rule. *)
Definition blocks_autoReduce (r : rule) (n : action_node) : bool :=
  bool_decide (atyp (node_action n) = SHIFT) ||
  (bool_decide (atyp (node_action n) = REDUCE) &&
   negb (rule_ptr_eqb (x_rp (node_action n)) (Some r))).

(** A REDUCE action by a rule that is not a start rule. *)
Definition may_default (lhsStart : rule -> bool) (n : action_node) : Prop :=
  atyp (node_action n) = REDUCE /\
  exists r, x_rp (node_action n) = Some r /\ lhsStart r = false.

(** A SHIFT on the wildcard symbol. *)
Definition shifts_wildcard (wildcard : option symbol) (n : action_node) : Prop :=
  atyp (node_action n) = SHIFT /\
  symbol_ptr_eqb (Some (sp (node_action n))) wildcard = true.

Definition ex_default_symbol : symbol := mkSymbol "{default}" 4 NONTERMINAL (-1) UNK [].

Definition ex_state_actions : list action_node :=
  [ mkNode (mkAction ex_P REDUCE None (Some ex_rule_Q)) 1;
    mkNode (mkAction ex_Q REDUCE None (Some ex_rule_Q)) 2 ].

(** ** Actions after the conflict loop *)

(** The action is one that the parser takes: SHIFT, REDUCE or ACCEPT. *)
Definition taken (t : e_action) : bool :=
  match t with
  | SHIFT | REDUCE | ACCEPT => true
  | _ => false
  end.

(** The kinds that [resolve_conflict] gives an action it sets aside. *)
Definition set_aside (t : e_action) : bool :=
  match t with
  | SSCONFLICT | SRCONFLICT | RRCONFLICT | SH_RESOLVED | RD_RESOLVED | ERROR => true
  | _ => false
  end.

(** 1 for an action that is marked as a conflict. *)
Definition conflict_code (t : e_action) : Z :=
  match t with
  | SSCONFLICT | SRCONFLICT | RRCONFLICT => 1
  | _ => 0
  end.

Fixpoint conflict_count (aps : list action_node) : Z :=
  match aps with
  | [] => 0
  | ap :: aps => conflict_code (atyp (node_action ap)) + conflict_count aps
  end.

(** [a'] is [a], or [a] with a SHIFT or REDUCE set aside. *)
Definition resolved_from (a a' : Action) : Prop :=
  sp a' = sp a /\ x_stp a' = x_stp a /\ x_rp a' = x_rp a /\
  (atyp a' = atyp a \/
   ((atyp a = SHIFT \/ atyp a = REDUCE) /\ set_aside (atyp a') = true)).

Definition node_resolved_from (n n' : action_node) : Prop :=
  node_index n' = node_index n /\ resolved_from (node_action n) (node_action n').

Definition lookahead_name (n : action_node) : string := name (sp (node_action n)).

(** Only the actions on the lookahead of the first action are compared
    with it: a list in which the actions of a lookahead are next to each
    other. *)
Fixpoint grouped (names : list string) : Prop :=
  match names with
  | [] => True
  | x :: names =>
      (forall (i j : nat) y, (i < j)%nat -> names !! j = Some x ->
                             names !! i = Some y -> y = x) /\
      grouped names
  end.

(** A state with a SHIFT and a REDUCE on [P], which has no precedence,
    and on [Q], which is left-associative. *)
Definition ex_conflict_actions : list action_node :=
  [ mkNode (mkAction ex_Q REDUCE None (Some ex_rule_Q)) 1;
    mkNode (mkAction ex_Q SHIFT (Some 1%nat) None) 2;
    mkNode (mkAction ex_P REDUCE None (Some ex_rule_P)) 3;
    mkNode (mkAction ex_P SHIFT (Some 2%nat) None) 4 ].

(** ** Runs of the configuration list builder *)

(** A run of calls of [Configlist_addbasis] ([true]) and [Configlist_add]
    ([false]), each with a rule index and a dot; the configurations that
    the calls return. *)
Fixpoint Configlist_calls (cl : configlist) (calls : list (bool * (Z * Z)))
    : result (configlist * list config) :=
  match calls with
  | [] => Ok (cl, [])
  | (b, (rp, d)) :: calls =>
      let* r := (if b then Configlist_addbasis cl rp d
                 else Configlist_add cl rp d) in
      let* r' := Configlist_calls (fst r) calls in
      Ok (fst r', snd r :: snd r')
  end.

(** Of the calls and what they returned, the first one for each rule and
    dot. *)
Fixpoint first_calls (l : list (bool * config)) : list (bool * config) :=
  match l with
  | [] => []
  | p :: l =>
      p :: filter (fun q => config_key (snd q) <> config_key (snd p))
                  (first_calls l)
  end.

(** The order of [Configcmp]. *)
Definition config_le (a b : config) : Prop := Configcmp a b <= 0.

Definition config_lt (a b : config) : Prop := Configcmp a b < 0.

(** What the list builder keeps between its calls: [hist] holds the
    calls that made a configuration. *)
Record configlist_ok (size0 : Z) (cl : configlist) (hist : list (bool * config))
    : Prop := mkConfiglistOk {
  clo_currentend : cl_currentend cl = true;
  clo_basisend : cl_basisend cl = true;
  clo_current : cl_current cl = snd <$> hist;
  clo_basis : cl_basis cl = snd <$> filter (fun p => fst p = true) hist;
  clo_table : exists t, cl_x4a cl = Some t /\
      table_holds x4_key (key_hash_step 0) size0 t (Some <$> cl_current cl);
  clo_keys : NoDup ((fun q => config_key (snd q)) <$> hist);
  clo_ids : Forall (fun q => (cfg_id (snd q) < cl_nconfig cl)%nat) hist;
  clo_nodup_ids : NoDup ((fun q => cfg_id (snd q)) <$> hist)
}.

(** The configuration at [i] has a backward link to the one at [j]. *)
Definition backlink (bplps : list (list nat)) (i j : nat) : Prop :=
  exists b, bplps !! i = Some b /\ j ∈ b.

(** ** First sets *)

Section FirstSetsSpec.
Variable typ : nat -> symbol_type.
Variable index : nat -> Z.
Variable subsym : nat -> list nat.
Variable lam : list bool.
Variable rules : list grule.

(** A symbol that the loop over a right-hand side passes: a nonterminal
    marked [lambda]. *)
Definition passed (s : nat) : Prop :=
  typ s = NONTERMINAL /\ lam !! s = Some true.

(** The terminal of index [e] can begin what the symbol generates: the
    least relation that the rules give. *)
Inductive first : nat -> Z -> Prop :=
  | first_terminal rp pre s2 post :
      rp ∈ rules -> g_rhs rp = pre ++ s2 :: post -> Forall passed pre ->
      typ s2 = TERMINAL -> first (g_lhs rp) (index s2)
  | first_multiterminal rp pre s2 post j :
      rp ∈ rules -> g_rhs rp = pre ++ s2 :: post -> Forall passed pre ->
      typ s2 = MULTITERMINAL -> j ∈ subsym s2 -> first (g_lhs rp) (index j)
  | first_nonterminal rp pre s2 post e :
      rp ∈ rules -> g_rhs rp = pre ++ s2 :: post -> Forall passed pre ->
      typ s2 = NONTERMINAL -> first s2 e -> first (g_lhs rp) e.

(** The indices that the rules can add to a set. *)
Definition symbol_terminals (s : nat) : list Z :=
  match typ s with
  | TERMINAL => [index s]
  | MULTITERMINAL => index <$> subsym s
  | NONTERMINAL => []
  end.

Definition first_universe : list Z :=
  concat ((fun rp => concat (symbol_terminals <$> g_rhs rp)) <$> rules).

(** The set of [s1] holds what [s2] begins with. *)
Definition starts_in (h : heap) (s1 s2 : nat) : Prop :=
  match typ s2 with
  | TERMINAL => SetFind (load h s1) (index s2) = true
  | MULTITERMINAL =>
      forall j, j ∈ subsym s2 -> SetFind (load h s1) (index j) = true
  | NONTERMINAL =>
      forall e, SetFind (load h s2) e = true -> SetFind (load h s1) e = true
  end.

(** Nothing is left to add to the set of [s1] for the right-hand side
    [rhs]. *)
Definition closed_rhs (h : heap) (s1 : nat) (rhs : list nat) : Prop :=
  forall pre s2 post, rhs = pre ++ s2 :: post -> Forall passed pre ->
                      starts_in h s1 s2.

End FirstSetsSpec.

(** The symbols between [nterminal] and [nsymbol]. *)
Definition is_nonterminal (nterminal nsymbol : Z) (s : nat) : Prop :=
  nterminal <= Z.of_nat s < nsymbol.

(** What the loops keep: the sets of the nonterminals are made, hold
    [true] only, and hold only what [first] allows. *)
Record first_inv (typ : nat -> symbol_type) (index : nat -> Z)
    (subsym : nat -> list nat) (lam : list bool) (rules : list grule)
    (nterminal nsymbol : Z) (h0 h : heap) : Prop := mkFirstInv {
  fs_len : length h = length h0;
  fs_alloc : forall s, is_nonterminal nterminal nsymbol s ->
      exists m, h !! s = Some (Some m) /\ only_true (Some m);
  fs_out : forall s, ~ is_nonterminal nterminal nsymbol s -> h !! s = h0 !! s;
  fs_sound : forall s e, is_nonterminal nterminal nsymbol s ->
      SetFind (load h s) e = true -> first typ index subsym lam rules s e
}.

(** The sets of [h'] hold what those of [h] hold; they hold the same. *)
Definition fs_mono (h h' : heap) : Prop :=
  forall s e, SetFind (load h s) e = true -> SetFind (load h' s) e = true.

Definition fs_same (h h' : heap) : Prop :=
  forall s e, SetFind (load h' s) e = SetFind (load h s) e.

(** What a loop does to the heap [h] and to [progress]: it adds to a
    set and reports it, or leaves the sets as they are, nothing being
    left to add ([closed]). *)
Definition fs_step (typ : nat -> symbol_type) (index : nat -> Z)
    (subsym : nat -> list nat) (lam : list bool) (rules : list grule)
    (nterminal nsymbol : Z) (h0 h h' : heap) (p p' : bool) (closed : Prop)
    : Prop :=
  first_inv typ index subsym lam rules nterminal nsymbol h0 h' /\
  fs_mono h h' /\
  (heap_count (first_universe typ index subsym rules) h
   <= heap_count (first_universe typ index subsym rules) h')%nat /\
  ((p' = true /\
    (heap_count (first_universe typ index subsym rules) h
     < heap_count (first_universe typ index subsym rules) h')%nat) \/
   (p' = p /\ fs_same h h' /\ closed)).

(** The grammar [a ::= b T], [a ::= U], [b ::= ], [b ::= V a], with the
    terminals 0 to 2 and the nonterminals 3 and 4; [b] is marked
    [lambda]. *)
Definition ex_first_rules : list grule :=
  [mkGrule 3 [4%nat; 0%nat]; mkGrule 3 [1%nat]; mkGrule 4 [];
   mkGrule 4 [2%nat; 3%nat]].

Definition ex_first_typ (s : nat) : symbol_type :=
  if (s <? 3)%nat then TERMINAL else NONTERMINAL.

(** [stateResortSorter.Less] *)
Definition resort_less (lemp : lemon) (states : list state) (a b : state_ptr)
    : Prop :=
  exists n, stateResortCompare lemp states a b = Ok n /\ n < 0.

(** The state [a] is to come before [b]: more nonterminal actions, then
    more token actions, then the greater number. *)
Definition resort_before (lemp : lemon) (states : list state) (a b : state_ptr)
    : Prop :=
  exists sa sb, states !! a = Some sa /\ states !! b = Some sb /\
    (nNtAct sa > nNtAct sb \/
     (nNtAct sa = nNtAct sb /\
      (nTknAct sa > nTknAct sb \/
       (nTknAct sa = nTknAct sb /\ statenum lemp a > statenum lemp b)))).

(** What a sort leaves: no element is less than one before it. *)
Definition resort_sorted (lemp : lemon) (states : list state)
    (l : list state_ptr) : Prop :=
  StronglySorted (fun a b => ~ resort_less lemp states b a) l.

Definition ex_resort_states : list state :=
  [ mkState [] 2 1 0 0 0 None false;
    mkState [] 2 1 0 0 0 None false;
    mkState [] 5 3 0 0 0 None false ].

(** * Proofs about the packer *)

Ltac zb :=
  repeat match goal with
  | H : context [?a >=? ?b] |- _ => rewrite (Z.geb_leb a b) in H
  | H : context [?a >? ?b] |- _ => rewrite (Z.gtb_ltb a b) in H
  | |- context [?a >=? ?b] => rewrite (Z.geb_leb a b)
  | |- context [?a >? ?b] => rewrite (Z.gtb_ltb a b)
  | H : context [?a <? ?b] |- _ => destruct (Z.ltb_spec a b)
  | H : context [?a <=? ?b] |- _ => destruct (Z.leb_spec a b)
  | H : context [?a =? ?b] |- _ => destruct (Z.eqb_spec a b)
  | |- context [?a <? ?b] => destruct (Z.ltb_spec a b)
  | |- context [?a <=? ?b] => destruct (Z.leb_spec a b)
  | |- context [?a =? ?b] => destruct (Z.eqb_spec a b)
  end.

Lemma bind_Ok {A B : Type} (c : result A) (k : A -> result B) (b : B) :
  bind c k = Ok b -> exists a, c = Ok a /\ k a = Ok b.
Proof. destruct c as [a|e]; simpl; [eauto | discriminate]. Qed.

Ltac inv_bind H :=
  let a := fresh "a" in
  let Ha := fresh "Ha" in
  apply bind_Ok in H; destruct H as (a & Ha & H).

Section Loops.
Variable body : Z -> result bool.

Lemma for_down_range cnt i0 i :
  for_down body cnt i0 = Ok i ->
  i0 - Z.of_nat cnt <= i <= i0 /\
  (i = i0 - Z.of_nat cnt \/ body i = Ok true).
Proof.
  revert i0. induction cnt as [|c IH]; intros i0 H; simpl in H.
  - inversion H; subst. lia.
  - inv_bind H. destruct a.
    + inversion H; subst. split; [lia | auto].
    + apply IH in H. destruct H as [Hr Hd]. split; [lia|].
      destruct Hd as [->|Hd]; [left; lia | auto].
Qed.

Lemma for_up_range cnt i0 i :
  for_up body cnt i0 = Ok i ->
  i0 <= i <= i0 + Z.of_nat cnt /\
  (forall k, i0 <= k < i -> body k = Ok false) /\
  (i = i0 + Z.of_nat cnt \/ (i < i0 + Z.of_nat cnt /\ body i = Ok true)).
Proof.
  revert i0. induction cnt as [|c IH]; intros i0 H; simpl in H.
  - inversion H; subst. split; [lia|]. split; [intros k Hk; lia | left; lia].
  - inv_bind H. destruct a.
    + inversion H; subst. split; [lia|].
      split; [intros k Hk; lia | right; split; [lia | auto]].
    + apply IH in H. destruct H as (Hr & Hb & Hd). split; [lia|]. split.
      * intros k Hk. destruct (Z.eq_dec k i0) as [->|Hne]; [auto|].
        apply Hb. lia.
      * destruct Hd as [->|[Hlt Hd]]; [left; lia | right; split; [lia | auto]].
Qed.

Lemma for_up_total cnt i0 :
  (forall k, i0 <= k < i0 + Z.of_nat cnt -> exists b, body k = Ok b) ->
  exists i, for_up body cnt i0 = Ok i.
Proof.
  revert i0. induction cnt as [|c IH]; intros i0 H; simpl; [eauto|].
  destruct (H i0) as [b Hb]; [lia|]. rewrite Hb. simpl.
  destruct b; [eauto|]. apply IH. intros k Hk. apply H. lia.
Qed.

Lemma for_down_total cnt i0 :
  (forall k, i0 - Z.of_nat cnt < k <= i0 -> exists b, body k = Ok b) ->
  exists i, for_down body cnt i0 = Ok i.
Proof.
  revert i0. induction cnt as [|c IH]; intros i0 H; simpl; [eauto|].
  destruct (H i0) as [b Hb]; [lia|]. rewrite Hb. simpl.
  destruct b; [eauto|]. apply IH. intros k Hk. apply H. lia.
Qed.

Lemma for_all_true cnt j0 :
  for_all body cnt j0 = Ok true <->
  (forall k, j0 <= k < j0 + Z.of_nat cnt -> body k = Ok true).
Proof.
  revert j0. induction cnt as [|c IH]; intros j0; simpl.
  - split; [intros _ k Hk; lia | auto].
  - split.
    + intros H. inv_bind H. destruct a; [|discriminate].
      intros k Hk. destruct (Z.eq_dec k j0) as [->|Hne]; [auto|].
      apply (proj1 (IH (j0 + 1)) H). lia.
    + intros H. rewrite (H j0) by lia. simpl. apply IH.
      intros k Hk. apply H. lia.
Qed.

Lemma for_all_total cnt j0 :
  (forall k, j0 <= k < j0 + Z.of_nat cnt -> exists b, body k = Ok b) ->
  exists b, for_all body cnt j0 = Ok b.
Proof.
  revert j0. induction cnt as [|c IH]; intros j0 H; simpl; [eauto|].
  destruct (H j0) as [b Hb]; [lia|]. rewrite Hb. simpl.
  destruct b; [|eauto]. apply IH. intros k Hk. apply H. lia.
Qed.
End Loops.

(** The slot chosen by [find_slot] is never below the lower bound of the
    two scans: [mnLookahead] for a safe (terminal) row, 0 otherwise. *)
Lemma find_slot_lower p safe i :
  find_slot p safe = Ok i ->
  (if safe then mnLookahead p else 0) <= i.
Proof.
  unfold find_slot. intros H. inv_bind H.
  destruct (Z.ltb_spec a (if safe then mnLookahead p else 0)) as [Hlt|Hge].
  - apply for_up_range in H. lia.
  - inversion H; subst. lia.
Qed.

Lemma rd_Ok {A : Type} (a : list A) (k : Z) (x : A) :
  rd a k = Ok x <-> 0 <= k /\ a !! Z.to_nat k = Some x.
Proof.
  unfold rd. destruct (Z.ltb_spec k 0).
  - split; [discriminate | lia].
  - destruct (a !! Z.to_nat k) as [y|]; split.
    + intros [= ->]. auto.
    + intros [_ [= ->]]. reflexivity.
    + discriminate.
    + intros [_ [=]].
Qed.

Lemma rd_in_range {A : Type} (a : list A) (k : Z) :
  0 <= k < Z.of_nat (length a) -> exists x, rd a k = Ok x.
Proof.
  intros Hk. destruct (lookup_lt_is_Some_2 a (Z.to_nat k)) as [x Hx]; [lia|].
  exists x. apply rd_Ok. split; [lia | exact Hx].
Qed.

Lemma wr_Ok {A : Type} (a a' : list A) (k : Z) (x : A) :
  wr a k x = Ok a' <->
  0 <= k < Z.of_nat (length a) /\ a' = <[Z.to_nat k := x]> a.
Proof.
  unfold wr. destruct (Z.ltb_spec k 0); destruct (Z.leb_spec (Z.of_nat (length a)) k);
    simpl; split; try discriminate; try (intros [? _]; lia).
  - intros [= <-]. split; [lia | reflexivity].
  - intros [_ ->]. reflexivity.
Qed.

Lemma same_pending_refl p : same_pending p p.
Proof. unfold same_pending. tauto. Qed.

Lemma same_pending_trans p q r :
  same_pending p q -> same_pending q r -> same_pending p r.
Proof. unfold same_pending. intuition congruence. Qed.

Lemma same_pending_set_table p n alloc a : same_pending p (set_table p n alloc a).
Proof. unfold same_pending. simpl. tauto. Qed.

Lemma install_spec cnt : forall p i j p',
  0 <= j ->
  install p i cnt j = Ok p' ->
  same_pending p p' /\
  nActionAlloc p' = nActionAlloc p /\
  length (aAction p') = length (aAction p) /\
  nAction p <= nAction p' /\
  (forall m, j <= m < j + Z.of_nat cnt ->
     exists e, rd (aLookahead p) m = Ok e /\
               0 <= slot p i e < Z.of_nat (length (aAction p)) /\
               slot p i e < nAction p') /\
  (forall k, 0 <= k ->
     (forall m e, j <= m < j + Z.of_nat cnt ->
        rd (aLookahead p) m = Ok e -> slot p i e <> k) ->
     aAction p' !! Z.to_nat k = aAction p !! Z.to_nat k) /\
  (forall m e, j <= m < j + Z.of_nat cnt ->
     rd (aLookahead p) m = Ok e ->
     (forall m' e', m < m' < j + Z.of_nat cnt ->
        rd (aLookahead p) m' = Ok e' -> lookahead e' <> lookahead e) ->
     aAction p' !! Z.to_nat (slot p i e) = Some e).
Proof.
  induction cnt as [|c IH]; intros p i j p' Hj H; simpl in H.
  - inversion H; subst. split; [apply same_pending_refl|].
    repeat split; try lia; intros; lia.
  - inv_bind H. rename a into e, Ha into He.
    inv_bind H. rename a into a1, Ha into Hw.
    apply wr_Ok in Hw. destruct Hw as [Hk ->].
    set (n1 := if lookahead e - mnLookahead p + i >=? nAction p
               then lookahead e - mnLookahead p + i + 1 else nAction p) in H.
    assert (Hn1 : nAction p <= n1 /\ slot p i e < n1).
    { unfold slot, n1. zb; lia. }
    apply IH in H; [|lia].
    destruct H as (Hsp & Hal & Hlen & Hn & Hin & Hun & Hwr).
    simpl in Hal, Hlen, Hn, Hin, Hun, Hwr.
    rewrite length_insert in Hlen, Hin.
    assert (Hslot : forall e', slot (set_table p n1 (nActionAlloc p)
                     (<[Z.to_nat (lookahead e - mnLookahead p + i) := e]> (aAction p))) i e' = slot p i e')
      by reflexivity.
    split; [eapply same_pending_trans; [apply same_pending_set_table | exact Hsp]|].
    split; [exact Hal|]. split; [exact Hlen|]. split; [lia|].
    split; [|split].
    + intros m Hm. destruct (Z.eq_dec m j) as [->|Hne].
      * exists e. split; [exact He|]. unfold slot. fold (slot p i e). unfold slot in *. lia.
      * destruct (Hin m) as (e' & He' & Hr); [lia|]. exists e'. rewrite Hslot in Hr. auto.
    + intros k Hk0 Hfree. rewrite Hun; [|exact Hk0|].
      * apply list_lookup_insert_ne. specialize (Hfree j e). unfold slot in Hfree.
        intros Heq. apply Hfree; [lia | exact He | lia].
      * intros m e' Hm He'. rewrite Hslot. apply (Hfree m e'); [lia | exact He'].
    + intros m e' Hm He' Hlast. destruct (Z.eq_dec m j) as [->|Hne].
      * assert (e' = e) as -> by congruence.
        rewrite Hun.
        -- apply list_lookup_insert_eq. unfold slot. lia.
        -- unfold slot. lia.
        -- intros m' e'' Hm' He'' Heq. rewrite Hslot in Heq.
           apply (Hlast m' e''); [lia | exact He'' |]. unfold slot in Heq. lia.
      * rewrite <- (Hslot e'). apply (Hwr m e'); [lia | exact He' |].
        intros m' e'' Hm' He''. apply (Hlast m' e''); [lia | exact He''].
Qed.

Lemma same_pending_pending p p' : same_pending p p' -> pending p' = pending p.
Proof. unfold same_pending, pending. intros (-> & _ & _ & _ & -> & _). reflexivity. Qed.

Lemma pending_lookup p e :
  e ∈ pending p <->
  exists m, 0 <= m < nLookahead p /\ rd (aLookahead p) m = Ok e.
Proof.
  unfold pending. rewrite list_elem_of_lookup. split.
  - intros [n Hn]. apply lookup_take_Some in Hn. destruct Hn as [Hn Hlt].
    exists (Z.of_nat n). split; [lia|]. apply rd_Ok. split; [lia|].
    rewrite Nat2Z.id. exact Hn.
  - intros (m & Hm & Hrd). apply rd_Ok in Hrd. destruct Hrd as [_ Hrd].
    exists (Z.to_nat m). apply lookup_take_Some. split; [exact Hrd | lia].
Qed.

Lemma pending_NoDup_later p m m' e e' :
  NoDup (lookahead <$> pending p) ->
  0 <= m -> m < m' < nLookahead p ->
  rd (aLookahead p) m = Ok e -> rd (aLookahead p) m' = Ok e' ->
  lookahead e' <> lookahead e.
Proof.
  intros Hnd Hm Hm' He He' Heq.
  apply rd_Ok in He, He'. destruct He as [_ He]. destruct He' as [_ He'].
  assert (H1 : (lookahead <$> pending p) !! Z.to_nat m = Some (lookahead e)).
  { rewrite list_lookup_fmap. unfold pending.
    rewrite lookup_take_lt by lia. rewrite He. reflexivity. }
  assert (H2 : (lookahead <$> pending p) !! Z.to_nat m' = Some (lookahead e)).
  { rewrite list_lookup_fmap. unfold pending.
    rewrite lookup_take_lt by lia. rewrite He'. simpl. congruence. }
  pose proof (NoDup_lookup _ _ _ _ Hnd H1 H2). lia.
Qed.

Lemma fill_empty_spec cnt : forall a i a',
  fill_empty a cnt i = Ok a' ->
  length a' = length a /\
  forall k : nat,
    a' !! k = if (i <=? Z.of_nat k) && (Z.of_nat k <? i + Z.of_nat cnt)
              then Some la_empty else a !! k.
Proof.
  induction cnt as [|c IH]; intros a i a' H; simpl in H.
  - inversion H; subst. split; [reflexivity|]. intros k.
    destruct (Z.leb_spec i (Z.of_nat k)); destruct (Z.ltb_spec (Z.of_nat k) (i + Z.of_nat 0));
      simpl; try reflexivity; lia.
  - inv_bind H. apply wr_Ok in Ha. destruct Ha as [Hi ->].
    apply IH in H. destruct H as [Hlen Hk]. rewrite length_insert in Hlen.
    split; [exact Hlen|]. intros k. rewrite Hk.
    destruct (Z.leb_spec (i + 1) (Z.of_nat k));
      destruct (Z.ltb_spec (Z.of_nat k) (i + 1 + Z.of_nat c));
      destruct (Z.leb_spec i (Z.of_nat k));
      destruct (Z.ltb_spec (Z.of_nat k) (i + Z.of_nat (S c)));
      simpl; try reflexivity; try lia;
      try (apply list_lookup_insert_ne; lia).
    assert (k = Z.to_nat i) as -> by lia.
    apply list_lookup_insert_eq. lia.
Qed.

Lemma fill_empty_total cnt : forall a i,
  0 <= i -> i + Z.of_nat cnt <= Z.of_nat (length a) ->
  exists a', fill_empty a cnt i = Ok a'.
Proof.
  induction cnt as [|c IH]; intros a i Hi Hlen; simpl; [eauto|].
  destruct (wr a i la_empty) as [a1|] eqn:Hw.
  - simpl. apply wr_Ok in Hw. destruct Hw as [_ ->]. apply IH; [lia|].
    rewrite length_insert. lia.
  - unfold wr in Hw. destruct (Z.ltb_spec i 0); [lia|].
    destruct (Z.leb_spec (Z.of_nat (length a)) i); [lia|]. discriminate.
Qed.

Lemma acttab_grow_frame p p1 :
  acttab_grow p = Ok p1 -> same_pending p p1 /\ nAction p1 = nAction p.
Proof.
  unfold acttab_grow. destruct (_ >=? _); [|intros [= <-]; split; [apply same_pending_refl | reflexivity]].
  destruct (_ <? 0); [discriminate|]. intros H. inv_bind H. inversion H; subst.
  split; [apply same_pending_set_table | reflexivity].
Qed.

(** The steps of [acttab_insert], made explicit. *)
Lemma acttab_insert_Ok p safe p' o :
  acttab_insert p safe = Ok (p', o) ->
  exists p1 i p2,
    0 < nLookahead p /\
    acttab_grow p = Ok p1 /\
    find_slot p1 safe = Ok i /\
    install p1 i (Z.to_nat (nLookahead p1)) 0 = Ok p2 /\
    p' = set_nLookahead
           (if safe && (i + nterminal p2 >=? nAction p2)
            then set_nAction p2 (i + nterminal p2 + 1) else p2) 0 /\
    o = i - mnLookahead p.
Proof.
  unfold acttab_insert. destruct (Z.leb_spec (nLookahead p) 0) as [|Hn]; [discriminate|].
  intros H. inv_bind H. rename a into p1, Ha into Hg.
  inv_bind H. rename a into i, Ha into Hf.
  inv_bind H. rename a into p2, Ha into Hi.
  inversion H; subst. exists p1, i, p2.
  repeat (split; [assumption|]). split; [reflexivity|].
  apply acttab_grow_frame in Hg. destruct Hg as [Hsp _].
  apply install_spec in Hi; [|lia]. destruct Hi as (Hsp2 & _).
  assert (Hmn : mnLookahead (if safe && (i + nterminal p2 >=? nAction p2)
            then set_nAction p2 (i + nterminal p2 + 1) else p2) = mnLookahead p2)
    by (destruct (safe && _); reflexivity).
  rewrite Hmn.
  destruct Hsp as (_ & Hm1 & _). destruct Hsp2 as (_ & Hm2 & _). congruence.
Qed.

Lemma aAction_final p2 (b : bool) n :
  aAction (set_nLookahead (if b then set_nAction p2 n else p2) 0) = aAction p2.
Proof. destruct b; reflexivity. Qed.

Lemma nAction_final p2 (b : bool) n :
  nAction (set_nLookahead (if b then set_nAction p2 n else p2) 0) =
  if b then n else nAction p2.
Proof. destruct b; reflexivity. Qed.

(** Every entry of the transaction set is found at [offset + lookahead]
    once [acttab_insert] has returned [offset]. *)
Lemma acttab_insert_installs p safe p' o :
  acttab_insert p safe = Ok (p', o) ->
  NoDup (lookahead <$> pending p) ->
  forall e, e ∈ pending p ->
    0 <= o + lookahead e /\
    aAction p' !! Z.to_nat (o + lookahead e) = Some e.
Proof.
  intros H Hnd e He.
  apply acttab_insert_Ok in H.
  destruct H as (p1 & i & p2 & Hn & Hg & Hf & Hi & -> & ->).
  apply acttab_grow_frame in Hg. destruct Hg as [Hsp _].
  pose proof (same_pending_pending _ _ Hsp) as Hpend.
  rewrite <- Hpend in He, Hnd.
  apply pending_lookup in He. destruct He as (m & Hm & He).
  apply install_spec in Hi; [|lia].
  destruct Hi as (_ & _ & _ & _ & Hin & _ & Hwr).
  assert (Hmn : mnLookahead p1 = mnLookahead p) by (destruct Hsp as (_ & ? & _); assumption).
  assert (Hs : i - mnLookahead p + lookahead e = slot p1 i e)
    by (unfold slot; lia).
  rewrite aAction_final, Hs. split.
  - destruct (Hin m) as (e0 & He0 & Hr & _); [lia|].
    assert (e0 = e) as -> by congruence. lia.
  - apply (Hwr m e); [lia | exact He |].
    intros m' e' Hm' He'.
    apply (pending_NoDup_later p1 m m' e e'); auto; lia.
Qed.

(** ** Well-formed tables and rows *)

Lemma wf_row_same p p' : same_pending p p' -> wf_row p -> wf_row p'.
Proof.
  intros Hsp (Hn & Hnd & Hmn & Hmx & Hb).
  pose proof (same_pending_pending _ _ Hsp) as Hp.
  destruct Hsp as (_ & Hmn' & _ & Hmx' & Hn' & _ & _ & Hs').
  unfold wf_row. rewrite Hp, Hmn', Hmx', Hn', Hs'. auto.
Qed.

Lemma acttab_alloc_wf nsym nterm :
  0 <= nterm <= nsym -> wf_acttab (acttab_alloc nsym nterm).
Proof.
  intros H. constructor; simpl; try lia; auto.
  - intros k x _ Hk. rewrite lookup_nil in Hk. discriminate.
  - intros k x Hk. rewrite lookup_nil in Hk. discriminate.
Qed.

(** After the first part of [acttab_insert] there is room for the worst
    case, and nothing that was in the table has changed. *)
Lemma acttab_grow_wf p :
  wf_acttab p ->
  exists p1, acttab_grow p = Ok p1 /\ wf_acttab p1 /\
    same_pending p p1 /\ nAction p1 = nAction p /\
    nAction p1 + nsymbol p1 + 1 < nActionAlloc p1 /\
    (forall (k : nat) x, aAction p !! k = Some x -> aAction p1 !! k = Some x).
Proof.
  intros [Hn Hal Htl Hlo Hc Hpa Hpn]. unfold acttab_grow.
  destruct (Z.leb_spec (nActionAlloc p) (nAction p + (nsymbol p + 1))) as [Hgrow|Hroom];
    rewrite Z.geb_leb;
    [apply Z.leb_le in Hgrow as Hb | apply Z.leb_gt in Hroom as Hb]; rewrite Hb.
  - set (newAlloc := nAction p + (nsymbol p + 1) + nActionAlloc p + 20).
    destruct (Z.ltb_spec (newAlloc - Z.of_nat (length (aAction p))) 0) as [Hneg|Hpos].
    { unfold newAlloc in Hneg. lia. }
    set (a := aAction p ++ replicate (Z.to_nat (newAlloc - Z.of_nat (length (aAction p)))) la_zero).
    assert (Hla : Z.of_nat (length a) = newAlloc).
    { unfold a. rewrite length_app, length_replicate. lia. }
    destruct (fill_empty_total (Z.to_nat (newAlloc - nActionAlloc p)) a (nActionAlloc p))
      as [a' Ha']; [lia | unfold newAlloc in *; lia |].
    rewrite Ha'. simpl. eexists. split; [reflexivity|].
    apply fill_empty_spec in Ha'. destruct Ha' as [Hlen Hk].
    assert (Hold : forall (k : nat) x, aAction p !! k = Some x -> a' !! k = Some x).
    { intros k x Hx. rewrite Hk.
      pose proof (lookup_lt_Some _ _ _ Hx) as Hlt.
      destruct (Z.leb_spec (nActionAlloc p) (Z.of_nat k)); [lia|]. simpl.
      unfold a. rewrite lookup_app_l by lia. exact Hx. }
    assert (Hnew : forall (k : nat) x, a' !! k = Some x ->
               aAction p !! k = Some x \/ x = la_empty).
    { intros k x Hx. rewrite Hk in Hx.
      destruct (Z.leb_spec (nActionAlloc p) (Z.of_nat k));
        destruct (Z.ltb_spec (Z.of_nat k)
                    (nActionAlloc p + Z.of_nat (Z.to_nat (newAlloc - nActionAlloc p))));
        simpl in Hx.
      - right. congruence.
      - apply lookup_lt_Some in Hx. unfold newAlloc in *. lia.
      - left. unfold a in Hx. rewrite lookup_app_l in Hx by lia. exact Hx.
      - left. unfold a in Hx. rewrite lookup_app_l in Hx by lia. exact Hx. }
    split; [|split; [apply same_pending_set_table|]].
    + constructor; simpl; try assumption; try lia.
      * intros k x Hge Hx. destruct (Hnew k x Hx) as [Ho| ->]; [eauto | reflexivity].
      * intros k x Hx. destruct (Hnew k x Hx) as [Ho| ->]; [eauto | simpl; lia].
    + simpl. split; [reflexivity|]. split; [unfold newAlloc; lia | exact Hold].
  - eexists. split; [reflexivity|]. split; [constructor; assumption|].
    split; [apply same_pending_refl|]. split; [reflexivity|]. split; [lia | auto].
Qed.

(** ** What the two scans establish *)

Lemma la_eq (e x : lookahead_action) :
  lookahead e = lookahead x -> action e = action x -> x = e.
Proof. destruct e, x; simpl; congruence. Qed.

Lemma match_entry_true p i j :
  match_entry p i j = Ok true ->
  exists e, rd (aLookahead p) j = Ok e /\
            0 <= slot p i e < nAction p /\
            rd (aAction p) (slot p i e) = Ok e.
Proof.
  unfold match_entry. intros H. inv_bind H. rename a into e.
  fold (slot p i e) in H.
  destruct (Z.ltb_spec (slot p i e) 0); [discriminate|].
  rewrite Z.geb_leb in H.
  destruct (Z.leb_spec (nAction p) (slot p i e)); [discriminate|]. simpl in H.
  inv_bind H. rename a into x.
  destruct (Z.eqb_spec (lookahead e) (lookahead x)); [|discriminate].
  destruct (Z.eqb_spec (action e) (action x)); [|discriminate].
  exists e. split; [assumption|]. split; [lia|].
  rewrite (la_eq e x) in Ha0 by assumption. exact Ha0.
Qed.

Lemma match_entry_total p i j :
  0 <= j < Z.of_nat (length (aLookahead p)) ->
  nAction p <= Z.of_nat (length (aAction p)) ->
  exists b, match_entry p i j = Ok b.
Proof.
  intros Hj Hn. unfold match_entry.
  destruct (rd_in_range (aLookahead p) j Hj) as [e ->]. simpl.
  fold (slot p i e).
  destruct (Z.ltb_spec (slot p i e) 0); [eauto|].
  rewrite Z.geb_leb.
  destruct (Z.leb_spec (nAction p) (slot p i e)); [eauto|]. simpl.
  destruct (rd_in_range (aAction p) (slot p i e)) as [x ->]; [lia|]. simpl.
  destruct (negb _); [eauto|]. destruct (negb _); eauto.
Qed.

Lemma count_alias_total p i cnt : forall j n,
  0 <= j -> j + Z.of_nat cnt <= Z.of_nat (length (aAction p)) ->
  exists n', count_alias p i cnt j n = Ok n'.
Proof.
  induction cnt as [|c IH]; intros j n Hj Hlen; simpl; [eauto|].
  destruct (rd_in_range (aAction p) j) as [x ->]; [lia|]. simpl.
  destruct (_ <? 0); [apply IH; lia|].
  destruct (_ =? _); apply IH; lia.
Qed.

Lemma dup_at_total p i :
  0 <= i < nAction p ->
  nAction p <= Z.of_nat (length (aAction p)) ->
  0 <= nLookahead p <= Z.of_nat (length (aLookahead p)) ->
  exists b, dup_at p i = Ok b.
Proof.
  intros Hi Hn Hl. unfold dup_at.
  destruct (rd_in_range (aAction p) i) as [x ->]; [lia|]. simpl.
  destruct (_ =? _); [|eauto]. destruct (negb _); [eauto|].
  destruct (for_all_total (match_entry p i) (Z.to_nat (nLookahead p)) 0) as [m ->].
  { intros k Hk. apply match_entry_total; lia. }
  simpl. destruct m; simpl; [|eauto].
  destruct (count_alias_total p i (Z.to_nat (nAction p)) 0 0) as [n ->]; [lia|lia|].
  simpl. eauto.
Qed.

Lemma dup_at_true p i :
  dup_at p i = Ok true ->
  forall e, e ∈ pending p ->
    0 <= slot p i e < nAction p /\ rd (aAction p) (slot p i e) = Ok e.
Proof.
  unfold dup_at. intros H. inv_bind H. rename a into x.
  destruct (_ =? _); [|discriminate]. destruct (negb _); [discriminate|].
  inv_bind H. destruct a; simpl in H; [|discriminate]. clear H.
  intros e He. apply pending_lookup in He. destruct He as (m & Hm & He).
  pose proof (proj1 (for_all_true _ _ _) Ha0 m) as Hk.
  destruct (match_entry_true p i m) as (e' & He' & Hr); [apply Hk; lia|].
  assert (e' = e) as -> by congruence. exact Hr.
Qed.

Lemma fit_entry_true p i j :
  fit_entry p i j = Ok true ->
  exists e x, rd (aLookahead p) j = Ok e /\ 0 <= slot p i e /\
              rd (aAction p) (slot p i e) = Ok x /\ lookahead x < 0.
Proof.
  unfold fit_entry. intros H. inv_bind H. rename a into e.
  fold (slot p i e) in H.
  destruct (Z.ltb_spec (slot p i e) 0); [discriminate|].
  inv_bind H. rename a into x. rewrite Z.geb_leb in H.
  destruct (Z.leb_spec 0 (lookahead x)); [discriminate|].
  exists e, x. auto.
Qed.

Lemma fit_entry_total p i j :
  0 <= j < Z.of_nat (length (aLookahead p)) ->
  (forall e, rd (aLookahead p) j = Ok e ->
             slot p i e < Z.of_nat (length (aAction p))) ->
  exists b, fit_entry p i j = Ok b.
Proof.
  intros Hj Hs. unfold fit_entry.
  destruct (rd_in_range (aLookahead p) j Hj) as [e He]. rewrite He. simpl.
  fold (slot p i e). destruct (Z.ltb_spec (slot p i e) 0); [eauto|].
  destruct (rd_in_range (aAction p) (slot p i e)) as [x ->].
  { split; [lia | apply Hs, He]. }
  simpl. destruct (_ >=? _); eauto.
Qed.

Lemma no_alias_total p i j :
  0 <= j < Z.of_nat (length (aAction p)) -> exists b, no_alias p i j = Ok b.
Proof.
  intros Hj. unfold no_alias.
  destruct (rd_in_range (aAction p) j Hj) as [x ->]. simpl.
  destruct (_ =? _); eauto.
Qed.

Lemma hole_at_total p i :
  0 <= i < Z.of_nat (length (aAction p)) ->
  nAction p <= Z.of_nat (length (aAction p)) ->
  0 <= nLookahead p <= Z.of_nat (length (aLookahead p)) ->
  (forall e, e ∈ pending p -> slot p i e < Z.of_nat (length (aAction p))) ->
  exists b, hole_at p i = Ok b.
Proof.
  intros Hi Hn Hl Hs. unfold hole_at.
  destruct (rd_in_range (aAction p) i Hi) as [x ->]. simpl.
  destruct (_ <? 0); [|eauto].
  destruct (for_all_total (fit_entry p i) (Z.to_nat (nLookahead p)) 0) as [f ->].
  { intros k Hk. apply fit_entry_total; [lia|]. intros e He.
    apply Hs, pending_lookup. exists k. split; [lia | exact He]. }
  simpl. destruct f; simpl; [|eauto].
  apply for_all_total. intros k Hk. apply no_alias_total. lia.
Qed.

Lemma hole_at_true p i :
  hole_at p i = Ok true ->
  forall e, e ∈ pending p ->
    0 <= slot p i e /\
    exists x, rd (aAction p) (slot p i e) = Ok x /\ lookahead x < 0.
Proof.
  unfold hole_at. intros H. inv_bind H. rename a into x0.
  destruct (_ <? 0); [|discriminate].
  inv_bind H. destruct a; simpl in H; [|discriminate]. clear H.
  intros e He. apply pending_lookup in He. destruct He as (m & Hm & He).
  pose proof (proj1 (for_all_true _ _ _) Ha0 m) as Hk.
  destruct (fit_entry_true p i m) as (e' & x & He' & Hr & Hx & Hneg); [apply Hk; lia|].
  assert (e' = e) as -> by congruence. eauto.
Qed.

(** Past the used part of the table, and far enough from it that no used
    slot aliases the offset, a hole always fits. *)
Lemma hole_at_guaranteed p :
  wf_acttab p -> wf_row p ->
  nAction p + 1 + mxLookahead p < nActionAlloc p ->
  hole_at p (nAction p + mnLookahead p + 1) = Ok true.
Proof.
  intros [Hn Hal Htl Hlo Hc Hpa Hpn] (Hnl & Hnd & Hmn & Hmx & Hb) Hroom.
  set (i0 := nAction p + mnLookahead p + 1).
  assert (Hempty : forall k, nAction p <= k < nActionAlloc p ->
            rd (aAction p) k = Ok la_empty).
  { intros k Hk. destruct (rd_in_range (aAction p) k) as [x Hx]; [lia|].
    rewrite Hx. f_equal. apply rd_Ok in Hx. destruct Hx as [_ Hx].
    apply (Htl (Z.to_nat k) x); [lia | exact Hx]. }
  assert (Hmm : mnLookahead p <= mxLookahead p).
  { destruct (rd_in_range (aLookahead p) 0) as [e He]; [lia|].
    assert (e ∈ pending p) by (apply pending_lookup; exists 0; split; [lia | exact He]).
    specialize (Hb e H). lia. }
  unfold hole_at. rewrite (Hempty i0) by (unfold i0; lia). simpl.
  assert (Hfit : for_all (fit_entry p i0) (Z.to_nat (nLookahead p)) 0 = Ok true).
  { apply for_all_true. intros k Hk. unfold fit_entry.
    destruct (rd_in_range (aLookahead p) k) as [e He]; [lia|]. rewrite He. simpl.
    assert (Hin : e ∈ pending p) by (apply pending_lookup; exists k; split; [lia | exact He]).
    specialize (Hb e Hin).
    destruct (Z.ltb_spec (lookahead e - mnLookahead p + i0) 0); [unfold i0 in *; lia|].
    rewrite Hempty by (unfold i0; lia). reflexivity. }
  rewrite Hfit. simpl. apply for_all_true. intros k Hk. unfold no_alias.
  destruct (rd_in_range (aAction p) k) as [x Hx]; [lia|]. rewrite Hx. simpl.
  apply rd_Ok in Hx. destruct Hx as [_ Hx]. apply Hlo in Hx.
  destruct (Z.eqb_spec (lookahead x) (k + mnLookahead p - i0)); [unfold i0 in *; lia|].
  reflexivity.
Qed.

Lemma find_slot_cases p safe i :
  find_slot p safe = Ok i -> slot_case p safe i.
Proof.
  unfold find_slot. fold (scan_lower p safe). intros H. inv_bind H.
  apply for_down_range in Ha. destruct Ha as [Hr Hd].
  destruct (Z.ltb_spec a (scan_lower p safe)) as [Hlt|Hge].
  - apply for_up_range in H. destruct H as (Hr' & Hb & Hd').
    destruct Hd' as [->|[Hlt' Hh]].
    + apply SlotEnd; [lia|]. exact Hb.
    + apply SlotHole; [lia | exact Hh | exact Hb].
  - inversion H; subst. destruct Hd as [Hd|Hd]; [lia|].
    apply SlotDup; [lia | exact Hd].
Qed.

Lemma wf_row_mn_mx p :
  wf_acttab p -> wf_row p -> mnLookahead p <= mxLookahead p.
Proof.
  intros Hwf (Hnl & _ & _ & _ & Hb).
  destruct (rd_in_range (aLookahead p) 0) as [e He].
  { pose proof (wf_palloc p Hwf). pose proof (wf_pn p Hwf). lia. }
  assert (e ∈ pending p) by (apply pending_lookup; exists 0; split; [lia | exact He]).
  specialize (Hb e H). lia.
Qed.

Lemma find_slot_total p safe :
  wf_acttab p -> wf_row p -> nAction p < nActionAlloc p ->
  exists i, find_slot p safe = Ok i.
Proof.
  intros Hwf Hrow Hroom.
  pose proof (wf_row_mn_mx p Hwf Hrow) as Hmm.
  destruct Hwf as [Hn Hal Htl Hlo Hc Hpa Hpn].
  destruct Hrow as (Hnl & Hnd & Hmn & Hmx & Hb).
  unfold find_slot. fold (scan_lower p safe).
  assert (Hlow : 0 <= scan_lower p safe) by (unfold scan_lower; destruct safe; lia).
  destruct (for_down_total (dup_at p)
              (Z.to_nat (nAction p - scan_lower p safe)) (nAction p - 1)) as [a ->].
  { intros k Hk. apply dup_at_total; lia. }
  simpl. destruct (_ <? _); [|eauto].
  apply for_up_total. intros k Hk. apply hole_at_total; try lia.
  intros e He. specialize (Hb e He). unfold slot. lia.
Qed.

(** Where [find_slot] puts the row, every slot the row needs is inside the
    allocation and is either empty or already holds the row's entry. *)
Lemma find_slot_slots p safe i :
  wf_acttab p -> wf_row p ->
  nAction p + nsymbol p + 1 < nActionAlloc p ->
  find_slot p safe = Ok i ->
  forall e, e ∈ pending p ->
    0 <= slot p i e < Z.of_nat (length (aAction p)) /\
    forall x, aAction p !! Z.to_nat (slot p i e) = Some x ->
              0 <= lookahead x -> x = e.
Proof.
  intros Hwf Hrow Hroom Hf e He.
  pose proof (wf_row_mn_mx p Hwf Hrow) as Hmm.
  pose proof (hole_at_guaranteed p Hwf Hrow) as Hg.
  destruct Hwf as [Hn Hal Htl Hlo Hc Hpa Hpn].
  destruct Hrow as (Hnl & Hnd & Hmn & Hmx & Hb).
  specialize (Hb e He).
  assert (Hlow : 0 <= scan_lower p safe <= mnLookahead p)
    by (unfold scan_lower; destruct safe; lia).
  apply find_slot_cases in Hf. destruct Hf as [Hi Hd|Hi Hh Hprev|Hi Hprev].
  - destruct (dup_at_true p i Hd e He) as [Hr Hx]. split; [lia|].
    apply rd_Ok in Hx. destruct Hx as [_ Hx]. intros x Hx' _. congruence.
  - destruct (hole_at_true p i Hh e He) as [Hr (x & Hx & Hneg)].
    split; [unfold slot in *; lia|].
    apply rd_Ok in Hx. destruct Hx as [_ Hx]. intros x' Hx' Hpos.
    assert (x' = x) by congruence. subst. lia.
  - assert (Hi0 : nAction p < i) by lia.
    assert (Hs : slot p i e < Z.of_nat (length (aAction p))).
    { unfold slot. destruct (Z.eq_dec (mnLookahead p) 0) as [Hz|Hnz]; [|lia].
      destruct (Z.max_spec (scan_lower p safe) (nActionAlloc p - mxLookahead p))
        as [[Hlt Hmax]|[Hge Hmax]]; [|lia].
      exfalso.
      assert (Hk : hole_at p (nAction p + mnLookahead p + 1) = Ok false)
        by (apply Hprev; lia).
      rewrite Hg in Hk by lia. discriminate. }
    split; [unfold slot in *; lia|].
    intros x Hx Hpos.
    assert (x = la_empty).
    { apply (Htl (Z.to_nat (slot p i e)) x); [unfold slot; lia | exact Hx]. }
    subst. simpl in Hpos. lia.
Qed.

Lemma install_total cnt : forall p i j,
  0 <= j ->
  (forall m, j <= m < j + Z.of_nat cnt ->
     exists e, rd (aLookahead p) m = Ok e /\
               0 <= slot p i e < Z.of_nat (length (aAction p))) ->
  exists p2, install p i cnt j = Ok p2.
Proof.
  induction cnt as [|c IH]; intros p i j Hj H; simpl; [eauto|].
  destruct (H j) as (e & He & Hs); [lia|]. rewrite He. simpl.
  fold (slot p i e).
  destruct (wr (aAction p) (slot p i e) e) as [a|] eqn:Hw.
  - simpl. apply wr_Ok in Hw. destruct Hw as [_ ->]. apply IH; [lia|].
    intros m Hm. simpl. rewrite length_insert.
    destruct (H m) as (e' & He' & Hs'); [lia|]. exists e'. split; assumption.
  - unfold wr in Hw. destruct (Z.ltb_spec (slot p i e) 0); [lia|].
    destruct (Z.leb_spec (Z.of_nat (length (aAction p))) (slot p i e)); [lia|].
    discriminate.
Qed.

(** The table after [install]: a slot holds the row's entry if the row has
    one for it, and is unchanged otherwise. *)
Lemma install_table p i p2 :
  install p i (Z.to_nat (nLookahead p)) 0 = Ok p2 ->
  NoDup (lookahead <$> pending p) ->
  forall k : nat,
    (exists e, e ∈ pending p /\ slot p i e = Z.of_nat k /\
               aAction p2 !! k = Some e) \/
    ((forall e, e ∈ pending p -> slot p i e <> Z.of_nat k) /\
     aAction p2 !! k = aAction p !! k).
Proof.
  intros Hi Hnd k. apply install_spec in Hi; [|lia].
  destruct Hi as (_ & _ & _ & _ & _ & Hun & Hwr).
  destruct (decide (Exists (fun e => slot p i e = Z.of_nat k) (pending p)))
    as [Hex|Hnex].
  - left. apply Exists_exists in Hex. destruct Hex as (e & He & Hs).
    exists e. split; [exact He|]. split; [exact Hs|].
    apply pending_lookup in He. destruct He as (m & Hm & He).
    rewrite <- (Nat2Z.id k), <- Hs. apply (Hwr m e); [lia | exact He|].
    intros m' e' Hm' He'. apply (pending_NoDup_later p m m' e e'); auto; lia.
  - right. assert (Hfree : forall e, e ∈ pending p -> slot p i e <> Z.of_nat k).
    { intros e He Hs. apply Hnex, Exists_exists. eauto. }
    split; [exact Hfree|].
    rewrite <- (Nat2Z.id k). apply Hun; [lia|].
    intros m e Hm He. apply Hfree, pending_lookup. exists m. split; [lia | exact He].
Qed.

(** On a well-formed table and row, [acttab_insert] returns, the table
    stays well formed, and no used slot changes. *)
Lemma acttab_insert_wf p safe :
  wf_acttab p -> wf_row p ->
  exists p' o,
    acttab_insert p safe = Ok (p', o) /\
    wf_acttab p' /\ nLookahead p' = 0 /\
    nsymbol p' = nsymbol p /\ nterminal p' = nterminal p /\
    (forall (k : nat) x, aAction p !! k = Some x -> 0 <= lookahead x ->
                         aAction p' !! k = Some x).
Proof.
  intros Hwf Hrow.
  destruct (acttab_grow_wf p Hwf) as (p1 & Hg & Hwf1 & Hsp & Hn1 & Hroom & Hold).
  pose proof (wf_row_same _ _ Hsp Hrow) as Hrow1.
  destruct (find_slot_total p1 safe Hwf1 Hrow1) as [i Hf].
  { destruct Hwf1. lia. }
  pose proof (find_slot_slots p1 safe i Hwf1 Hrow1 Hroom Hf) as Hslots.
  pose proof (find_slot_lower _ _ _ Hf) as Hlow.
  destruct (install_total (Z.to_nat (nLookahead p1)) p1 i 0) as [p2 Hi]; [lia| |].
  { intros m Hm. destruct (rd_in_range (aLookahead p1) m) as [e He].
    { pose proof (wf_palloc p1 Hwf1). pose proof (wf_pn p1 Hwf1). lia. }
    exists e. split; [exact He|]. apply Hslots, pending_lookup.
    exists m. split; [lia | exact He]. }
  pose proof (install_table p1 i p2 Hi (proj1 (proj2 Hrow1))) as Htab.
  pose proof Hi as Hspec. apply install_spec in Hspec; [|lia].
  destruct Hspec as (Hsp2 & Hal2 & Hlen2 & Hn2 & Hin & _ & _).
  set (b := safe && (i + nterminal p2 >=? nAction p2)).
  set (p' := set_nLookahead (if b then set_nAction p2 (i + nterminal p2 + 1) else p2) 0).
  exists p', (i - mnLookahead p1).
  assert (Hins : acttab_insert p safe = Ok (p', i - mnLookahead p1)).
  { unfold acttab_insert. destruct Hrow as (Hnl & _).
    destruct (Z.leb_spec (nLookahead p) 0); [lia|].
    rewrite Hg. simpl. rewrite Hf. simpl. rewrite Hi. simpl.
    destruct Hsp2 as (_ & Hm2 & _). fold b. fold p'. do 2 f_equal.
    unfold p'. destruct b; simpl; congruence. }
  split; [exact Hins|].
  assert (Hi0 : 0 <= i).
  { destruct Hrow1 as (_ & _ & Hmn & _). destruct safe; lia. }
  assert (HnA : nAction p2 <= nAction p').
  { unfold p'. rewrite nAction_final. unfold b.
    destruct safe; simpl; [|lia]. rewrite Z.geb_leb.
    destruct (Z.leb_spec (nAction p2) (i + nterminal p2)); lia. }
  assert (HaA : aAction p' = aAction p2) by (unfold p'; apply aAction_final).
  assert (Hsp' : same_pending p1 (if b then set_nAction p2 (i + nterminal p2 + 1) else p2)).
  { destruct b; [|exact Hsp2].
    eapply same_pending_trans; [exact Hsp2 | apply same_pending_set_table]. }
  destruct Hwf1 as [Hn Hal Htl Hlo Hc Hpa Hpn].
  destruct Hrow1 as (Hnl & Hnd & Hmn & Hmx & Hb).
  assert (Hwritten : forall e, e ∈ pending p1 -> slot p1 i e < nAction p2).
  { intros e He. apply pending_lookup in He. destruct He as (m & Hm & He).
    destruct (Hin m) as (e' & He' & _ & Hlt); [lia|].
    assert (e' = e) as -> by congruence. exact Hlt. }
  split; [|split; [reflexivity|]].
  - constructor.
    + lia.
    + rewrite HaA. unfold p'. destruct b; simpl; lia.
    + intros k x Hk Hx. rewrite HaA in Hx.
      destruct (Htab k) as [(e & He & Hs & _)|[_ Heq]].
      * specialize (Hwritten e He). lia.
      * rewrite Heq in Hx. apply (Htl k x); [lia | exact Hx].
    + intros k x Hx. rewrite HaA in Hx.
      destruct (Htab k) as [(e & He & Hs & Hv)|[_ Heq]].
      * assert (x = e) as -> by congruence. specialize (Hb e He). lia.
      * rewrite Heq in Hx. eauto.
    + destruct Hsp' as (_ & _ & _ & _ & _ & _ & Ht & Hs). unfold p'. simpl.
      rewrite Ht, Hs. exact Hc.
    + destruct Hsp' as (Hl & _ & _ & _ & _ & Ha & _). unfold p'. simpl.
      rewrite Hl, Ha. exact Hpa.
    + destruct Hsp' as (_ & _ & _ & _ & _ & Ha & _). unfold p'. simpl.
      rewrite Ha. lia.
  - destruct Hsp as (_ & _ & _ & _ & _ & _ & Ht & Hs).
    destruct Hsp' as (_ & _ & _ & _ & _ & _ & Ht' & Hs').
    split; [unfold p'; simpl; congruence|].
    split; [unfold p'; simpl; congruence|].
    intros k x Hx Hpos. rewrite HaA. apply Hold in Hx.
    destruct (Htab k) as [(e & He & Hs0 & Hv)|[_ Heq]].
    + rewrite Hv. f_equal. symmetry.
      apply (proj2 (Hslots e He) x); [|exact Hpos].
      rewrite Hs0, Nat2Z.id. exact Hx.
    + rewrite Heq. exact Hx.
Qed.

(** ** Building a transaction set with [acttab_action] *)

Lemma acttab_action_spec p la act :
  wf_acttab p -> pending_bounds p ->
  exists p',
    acttab_action p la act = Ok p' /\ wf_acttab p' /\ same_table p p' /\
    pending p' = pending p ++ [mkLA la act] /\
    nLookahead p' = nLookahead p + 1 /\ pending_bounds p'.
Proof.
  intros [Hn Hal Htl Hlo Hc Hpa Hpn] Hpb. unfold acttab_action.
  set (al := if nLookahead p >=? nLookaheadAlloc p
             then (nLookaheadAlloc p + 25, aLookahead p ++ replicate 25 la_zero)
             else (nLookaheadAlloc p, aLookahead p)).
  assert (Hal' : Z.of_nat (length (snd al)) = fst al /\ nLookahead p < fst al /\
                 take (Z.to_nat (nLookahead p)) (snd al) = pending p).
  { unfold al, pending. rewrite Z.geb_leb.
    destruct (Z.leb_spec (nLookaheadAlloc p) (nLookahead p)); cbn [fst snd].
    - rewrite length_app, length_replicate. split; [lia|]. split; [lia|].
      apply take_app_le. lia.
    - split; [lia|]. split; [lia | reflexivity]. }
  destruct al as [alloc l]. simpl in Hal'. destruct Hal' as (Hlen & Hlt & Htake).
  set (mm := if nLookahead p =? 0 then (la, la, act)
             else if mnLookahead p >? la
                  then (if mxLookahead p <? la then la else mxLookahead p, la, act)
                  else (if mxLookahead p <? la then la else mxLookahead p,
                        mnLookahead p, mnAction p)).
  destruct mm as [[mx mn] mnAct] eqn:Hmm.
  destruct (wr l (nLookahead p) (mkLA la act)) as [l'|] eqn:Hw.
  2:{ unfold wr in Hw. destruct (Z.ltb_spec (nLookahead p) 0); [lia|].
      destruct (Z.leb_spec (Z.of_nat (length l)) (nLookahead p)); [lia|]. discriminate. }
  apply wr_Ok in Hw. destruct Hw as [_ ->]. simpl.
  eexists. split; [reflexivity|].
  assert (Hpend : pending (set_pending p (<[Z.to_nat (nLookahead p) := mkLA la act]> l)
                    mn mnAct mx (nLookahead p + 1) alloc) = pending p ++ [mkLA la act]).
  { unfold pending. simpl.
    replace (Z.to_nat (nLookahead p + 1)) with (S (Z.to_nat (nLookahead p))) by lia.
    rewrite (take_S_r _ _ (mkLA la act)) by (apply list_lookup_insert_eq; lia).
    rewrite take_insert_ge by lia. rewrite Htake. reflexivity. }
  split; [|split; [|split; [exact Hpend | split; [reflexivity|]]]].
  - constructor; simpl; try assumption; try lia. rewrite length_insert. exact Hlen.
  - unfold same_table. simpl. tauto.
  - intros _. rewrite Hpend. simpl.
    unfold mm in Hmm. destruct (Z.eqb_spec (nLookahead p) 0) as [Hz|Hnz].
    + inversion Hmm; subst mx mn mnAct.
      assert (pending p = []) as -> by (unfold pending; rewrite Hz; reflexivity).
      simpl. split; [|split].
      * intros e He. apply list_elem_of_singleton in He. subst. simpl. lia.
      * exists (mkLA la act). split; [apply list_elem_of_singleton; reflexivity | auto].
      * exists (mkLA la act). split; [apply list_elem_of_singleton; reflexivity | auto].
    + destruct Hpb as (Hb & (e1 & He1 & Hl1 & Ha1) & (e2 & He2 & Hl2)); [lia|].
      rewrite Z.gtb_ltb in Hmm.
      destruct (Z.ltb_spec la (mnLookahead p)); destruct (Z.ltb_spec (mxLookahead p) la);
        inversion Hmm; subst mx mn mnAct; (split; [|split]);
        first
          [ solve [intros e He; apply elem_of_app in He; destruct He as [He|He];
                   [specialize (Hb e He); lia
                   | apply list_elem_of_singleton in He; subst; simpl; lia]]
          | solve [exists (mkLA la act); split;
                   [apply elem_of_app; right; apply list_elem_of_singleton; reflexivity
                   | simpl; auto]]
          | solve [exists e1; split; [apply elem_of_app; left; exact He1 | auto]]
          | solve [exists e2; split; [apply elem_of_app; left; exact He2 | auto]] ].
Qed.

Lemma add_actions_spec row : forall p,
  wf_acttab p -> pending_bounds p ->
  exists p',
    add_actions p row = Ok p' /\ wf_acttab p' /\ same_table p p' /\
    pending p' = pending p ++ row /\
    nLookahead p' = nLookahead p + Z.of_nat (length row) /\ pending_bounds p'.
Proof.
  induction row as [|e row IH]; intros p Hwf Hpb; simpl.
  - exists p. split; [reflexivity|]. split; [assumption|].
    split; [unfold same_table; tauto|]. rewrite app_nil_r.
    split; [reflexivity|]. split; [lia | assumption].
  - destruct (acttab_action_spec p (lookahead e) (action e) Hwf Hpb)
      as (p1 & -> & Hwf1 & Hst1 & Hp1 & Hn1 & Hpb1). simpl.
    destruct (IH p1 Hwf1 Hpb1) as (p' & -> & Hwf' & Hst' & Hp' & Hn' & Hpb').
    exists p'. split; [reflexivity|]. split; [assumption|].
    split; [unfold same_table in *; intuition congruence|].
    split; [|split; [lia | assumption]].
    rewrite Hp', Hp1, <- app_assoc. destruct e; reflexivity.
Qed.

(** ** Offsets returned by [acttab_insert] *)

Lemma acttab_insert_offset p safe p' o :
  acttab_insert p safe = Ok (p', o) ->
  exists i, o = i - mnLookahead p /\ scan_lower p safe <= i /\
            (safe = true -> i + nterminal p + 1 <= nAction p').
Proof.
  intros H. apply acttab_insert_Ok in H.
  destruct H as (p1 & i & p2 & Hn & Hg & Hf & Hi & -> & ->).
  exists i. split; [reflexivity|].
  apply acttab_grow_frame in Hg. destruct Hg as [Hsp _].
  apply find_slot_lower in Hf.
  apply install_spec in Hi; [|lia]. destruct Hi as (Hsp2 & _).
  destruct Hsp as (_ & Hm1 & _ & _ & _ & _ & Ht1 & _).
  destruct Hsp2 as (_ & _ & _ & _ & _ & _ & Ht2 & _).
  split.
  - unfold scan_lower. destruct safe; [rewrite <- Hm1|]; exact Hf.
  - intros ->. rewrite nAction_final. simpl. rewrite Z.geb_leb.
    destruct (Z.leb_spec (nAction p2) (i + nterminal p2)); lia.
Qed.

(** The slot found is never further than one past the used part of the
    table plus the smallest lookahead. *)
Lemma find_slot_upper p safe i :
  wf_acttab p -> wf_row p ->
  nAction p + nsymbol p + 1 < nActionAlloc p ->
  find_slot p safe = Ok i ->
  i <= nAction p + mnLookahead p + 1.
Proof.
  intros Hwf Hrow Hroom Hf.
  assert (Hg : hole_at p (nAction p + mnLookahead p + 1) = Ok true).
  { apply hole_at_guaranteed; auto. destruct Hrow as (_ & _ & _ & Hmx & _). lia. }
  assert (Hlow : scan_lower p safe <= nAction p + mnLookahead p + 1).
  { pose proof (wf_nAction p Hwf). destruct Hrow as (_ & _ & Hmn & _).
    unfold scan_lower. destruct safe; lia. }
  apply find_slot_cases in Hf. destruct Hf as [Hi Hd|Hi Hh Hprev|Hi Hprev].
  - destruct Hrow as (_ & _ & Hmn & _). lia.
  - destruct (Z.le_gt_cases i (nAction p + mnLookahead p + 1)) as [|Hgt]; [assumption|].
    rewrite Hprev in Hg by lia. discriminate.
  - destruct (Z.le_gt_cases i (nAction p + mnLookahead p + 1)) as [|Hgt]; [assumption|].
    rewrite Hprev in Hg by lia. discriminate.
Qed.

(** C2 (terminal-row safety).  For a row inserted with [makeItSafe = true]
    whose smallest lookahead [mnLookahead] is a symbol index (not
    negative): the slot chosen is at or above [mnLookahead], so the
    returned offset is not negative; [nAction] ends at least at
    [i + nterminal + 1], where [i = offset + mnLookahead] is the slot; and
    for every terminal index [t] the index [offset + t] is inside the
    used part [0 .. nAction-1] of the table.  On a well-formed table and
    row it is also inside the allocated slice [aAction]. *)
Theorem acttab_insert_safe_in_bounds p p' o :
  acttab_insert p true = Ok (p', o) ->
  0 <= mnLookahead p ->
  0 <= o /\
  o + mnLookahead p + nterminal p + 1 <= nAction p' /\
  (forall t, 0 <= t < nterminal p -> 0 <= o + t < nAction p') /\
  (wf_acttab p -> wf_row p ->
   forall t, 0 <= t < nterminal p ->
     o + t < Z.of_nat (length (aAction p'))).
Proof.
  intros H Hmn. pose proof H as Hoff.
  apply acttab_insert_offset in Hoff. destruct Hoff as (i & -> & Hlow & Hfill).
  unfold scan_lower in Hlow. specialize (Hfill eq_refl).
  split; [lia|]. split; [lia|]. split; [intros t Ht; lia|].
  intros Hwf Hrow t Ht.
  apply acttab_insert_Ok in H.
  destruct H as (p1 & i' & p2 & Hn & Hg & Hf & Hi & -> & Ho).
  assert (i' = i) as -> by lia.
  destruct (acttab_grow_wf p Hwf) as (q & Hg' & Hwf1 & Hsp & Hn1 & Hroom & _).
  assert (q = p1) as -> by congruence.
  pose proof (wf_row_same _ _ Hsp Hrow) as Hrow1.
  pose proof (find_slot_upper p1 true i Hwf1 Hrow1 Hroom Hf) as Hup.
  apply install_spec in Hi; [|lia]. destruct Hi as (_ & _ & Hlen & _).
  rewrite aAction_final, Hlen.
  destruct Hsp as (_ & Hm1 & _ & _ & _ & _ & Ht1 & Hs1).
  pose proof (wf_alloc p1 Hwf1). pose proof (wf_counts p1 Hwf1). lia.
Qed.

Lemma acttab_insert_safe_in_bounds_witness :
  exists p p' o,
    add_actions (acttab_alloc 6 4) ex_safe_row = Ok p /\
    acttab_insert p true = Ok (p', o) /\
    0 <= o /\ o + mnLookahead p + nterminal p + 1 <= nAction p' /\
    (forall t, 0 <= t < nterminal p -> 0 <= o + t < nAction p').
Proof.
  destruct (add_actions (acttab_alloc 6 4) ex_safe_row) as [p|] eqn:Hp;
    [|vm_compute in Hp; discriminate].
  destruct (acttab_insert p true) as [[p' o]|] eqn:Hi.
  2:{ injection Hp as <-. vm_compute in Hi. discriminate. }
  exists p, p', o. split; [reflexivity|]. split; [exact Hi|].
  assert (Hmn : 0 <= mnLookahead p) by (injection Hp as <-; vm_compute; discriminate).
  destruct (acttab_insert_safe_in_bounds p p' o Hi Hmn) as (H1 & H2 & H3 & _).
  auto.
Defined.

(** C10 (offsets of nonterminal rows).  For a row inserted with
    [makeItSafe = false] the returned offset is [i - mnLookahead] for a
    slot index [i >= 0], hence at least [- mnLookahead]; and it can be
    negative: the single-entry row [(5, 20)] put into an empty table gets
    offset [-5]. *)
Theorem acttab_insert_unsafe_offset :
  (forall p p' o,
     acttab_insert p false = Ok (p', o) ->
     exists i, 0 <= i /\ o = i - mnLookahead p /\ - mnLookahead p <= o) /\
  (exists p p',
     add_actions (acttab_alloc 6 4) [mkLA 5 20] = Ok p /\
     acttab_insert p false = Ok (p', -5)).
Proof.
  split.
  - intros p p' o H. apply acttab_insert_offset in H.
    destruct H as (i & -> & Hlow & _). unfold scan_lower in Hlow.
    exists i. lia.
  - destruct (add_actions (acttab_alloc 6 4) [mkLA 5 20]) as [p|] eqn:Hp;
      [|vm_compute in Hp; discriminate].
    destruct (acttab_insert p false) as [[p' o]|] eqn:Hi.
    2:{ injection Hp as <-. vm_compute in Hi. discriminate. }
    exists p, p'. split; [reflexivity|].
    rewrite Hi. injection Hp as <-. vm_compute in Hi. injection Hi as <- <-.
    reflexivity.
Qed.

Lemma acttab_insert_unsafe_offset_witness :
  exists p p' o,
    acttab_insert p false = Ok (p', o) /\
    exists i, 0 <= i /\ o = i - mnLookahead p /\ - mnLookahead p <= o.
Proof.
  destruct (proj2 acttab_insert_unsafe_offset) as (p & p' & _ & Hi).
  exists p, p', (-5). split; [exact Hi|].
  exact (proj1 acttab_insert_unsafe_offset p p' (-5) Hi).
Defined.

(** ** Rows as [ReportTable] builds them *)

Lemma fill_row_entries lemp tkn aps : forall p r,
  row_entries lemp tkn aps = Ok r ->
  fill_row lemp tkn p aps = add_actions p r.
Proof.
  induction aps as [|a aps IH]; intros p r H; simpl in H.
  - injection H as <-. destruct tkn; reflexivity.
  - destruct tkn; simpl in *.
    + destruct (index (sp a) >=? g_nterminal lemp); [apply (IH p r H)|].
      destruct (compute_action lemp a) as [c|]; [simpl in *|discriminate].
      destruct (c <? 0); [apply (IH p r H)|].
      inv_bind H. injection H as <-. simpl.
      destruct (acttab_action p (index (sp a)) c) as [p1|]; [simpl|reflexivity].
      apply (IH p1 a0 Ha).
    + destruct (index (sp a) <? g_nterminal lemp); simpl in *; [apply (IH p r H)|].
      destruct (index (sp a) =? g_nsymbol lemp); [apply (IH p r H)|].
      destruct (compute_action lemp a) as [c|]; [simpl in *|discriminate].
      destruct (c <? 0); [apply (IH p r H)|].
      inv_bind H. injection H as <-. simpl.
      destruct (acttab_action p (index (sp a)) c) as [p1|]; [simpl|reflexivity].
      apply (IH p1 a0 Ha).
Qed.

Lemma row_entries_emitted lemp tkn aps : forall r,
  row_entries lemp tkn aps = Ok r ->
  forall e, e ∈ r <->
    exists a, a ∈ aps /\ emitted lemp tkn a (action e) /\
              lookahead e = index (sp a).
Proof.
  induction aps as [|a aps IH]; intros r H e; simpl in H.
  - injection H as <-. split.
    + intros He. apply elem_of_nil in He. contradiction.
    + intros (a & Ha & _). apply elem_of_nil in Ha. contradiction.
  - assert (Hskip : forall r, row_entries lemp tkn aps = Ok r ->
              (forall c, ~ emitted lemp tkn a c) ->
              (e ∈ r <-> exists a0, a0 ∈ a :: aps /\ emitted lemp tkn a0 (action e) /\
                                   lookahead e = index (sp a0))).
    { intros r0 Hr0 Hno. rewrite (IH r0 Hr0). split.
      - intros (a0 & Ha0 & He). exists a0. split; [right; exact Ha0 | exact He].
      - intros (a0 & Ha0 & He). apply elem_of_cons in Ha0.
        destruct Ha0 as [->|Ha0]; [exfalso; apply (Hno _ (proj1 He)) | eauto]. }
    destruct (if tkn then index (sp a) >=? g_nterminal lemp
              else (index (sp a) <? g_nterminal lemp) || (index (sp a) =? g_nsymbol lemp))
      eqn:Hax.
    { apply (Hskip r H). intros c (Hc & _). destruct tkn.
      - rewrite Z.geb_leb in Hax. apply Z.leb_le in Hax. lia.
      - apply orb_true_iff in Hax. destruct Hax as [Hax|Hax].
        + apply Z.ltb_lt in Hax. lia.
        + apply Z.eqb_eq in Hax. lia. }
    destruct (compute_action lemp a) as [c|] eqn:Hc; [simpl in H|discriminate].
    destruct (Z.ltb_spec c 0) as [Hneg|Hpos].
    { apply (Hskip r H). intros c' (_ & Hc' & Hpos'). congruence || (rewrite Hc in Hc'; injection Hc' as <-; lia). }
    inv_bind H. injection H as <-. rename a0 into r'.
    assert (Hem : emitted lemp tkn a c).
    { split; [|split; [exact Hc | exact Hpos]]. destruct tkn.
      - rewrite Z.geb_leb in Hax. apply Z.leb_gt in Hax. exact Hax.
      - apply orb_false_iff in Hax. destruct Hax as [H1 H2].
        apply Z.ltb_ge in H1. apply Z.eqb_neq in H2. auto. }
    rewrite elem_of_cons, (IH r' Ha). split.
    + intros [->|(a0 & Ha0 & He)].
      * exists a. split; [left|]. simpl. auto.
      * exists a0. split; [right; exact Ha0 | exact He].
    + intros (a0 & Ha0 & He & Hl). apply elem_of_cons in Ha0.
      destruct Ha0 as [->|Ha0].
      * left. destruct He as (_ & Hc' & _). rewrite Hc in Hc'. injection Hc' as Hc'.
        destruct e; simpl in *. congruence.
      * right. eauto.
Qed.

Lemma pending_empty p : nLookahead p = 0 -> pending p = [].
Proof. intros H. unfold pending. rewrite H. reflexivity. Qed.

(** One round of [acttab_action] calls followed by [acttab_insert], on a
    row with one action per lookahead. *)
Lemma insert_row_spec p safe row :
  wf_acttab p -> nLookahead p = 0 ->
  row <> [] -> NoDup (lookahead <$> row) ->
  (forall e, e ∈ row -> 0 <= lookahead e < nsymbol p) ->
  exists p' o,
    insert_row p safe row = Ok (p', o) /\
    wf_acttab p' /\ nLookahead p' = 0 /\
    nsymbol p' = nsymbol p /\ nterminal p' = nterminal p /\
    (forall (k : nat) x, aAction p !! k = Some x -> 0 <= lookahead x ->
                         aAction p' !! k = Some x) /\
    (forall e, e ∈ row ->
       0 <= o + lookahead e /\
       aAction p' !! Z.to_nat (o + lookahead e) = Some e).
Proof.
  intros Hwf Hn0 Hne Hnd Hrange.
  assert (Hpb : pending_bounds p) by (intros Hpos; lia).
  destruct (add_actions_spec row p Hwf Hpb)
    as (p1 & Hadd & Hwf1 & Hst & Hp1 & Hn1 & Hpb1).
  rewrite (pending_empty p Hn0) in Hp1. simpl in Hp1.
  destruct Hst as (HnA & HnAl & HaA & Hnt & Hns).
  assert (Hlen : 0 < nLookahead p1).
  { rewrite Hn1, Hn0. destruct row; [contradiction | simpl; lia]. }
  assert (Hrow : wf_row p1).
  { destruct (Hpb1 Hlen) as (Hb & (e1 & He1 & Hl1 & _) & (e2 & He2 & Hl2)).
    rewrite Hp1 in *. unfold wf_row. rewrite Hp1.
    split; [exact Hlen|]. split; [exact Hnd|].
    specialize (Hrange e1 He1) as Hr1. specialize (Hrange e2 He2) as Hr2.
    split; [lia|]. split; [lia | exact Hb]. }
  destruct (acttab_insert_wf p1 safe Hwf1 Hrow)
    as (p' & o & Hins & Hwf' & Hn' & Hs' & Ht' & Hkeep).
  exists p', o. unfold insert_row. rewrite Hadd. simpl.
  split; [exact Hins|]. split; [exact Hwf'|]. split; [exact Hn'|].
  split; [congruence|]. split; [congruence|]. split.
  - intros k x Hx Hpos. apply Hkeep; [rewrite HaA; exact Hx | exact Hpos].
  - intros e He. apply (acttab_insert_installs p1 safe p' o Hins).
    + rewrite Hp1. exact Hnd.
    + rewrite Hp1. exact He.
Qed.

(** ** The rows that the packing loop reaches *)

Global Instance axset_le_trans : Transitive axset_le.
Proof.
  intros a b c. unfold axset_le, axset_compare.
  destruct (Z.eqb_spec (ax_nAction b - ax_nAction a) 0);
    destruct (Z.eqb_spec (ax_nAction c - ax_nAction b) 0);
    destruct (Z.eqb_spec (ax_nAction c - ax_nAction a) 0); lia.
Qed.

Global Instance axset_le_total : Total axset_le.
Proof.
  intros a b. unfold axset_le, axset_compare.
  destruct (Z.eqb_spec (ax_nAction b - ax_nAction a) 0);
    destruct (Z.eqb_spec (ax_nAction a - ax_nAction b) 0); lia.
Qed.

Lemma packed_rows_sorted ax a :
  StronglySorted axset_le ax ->
  a ∈ ax -> 0 < ax_nAction a -> a ∈ packed_rows ax.
Proof.
  induction 1 as [|b ax Hs IH Hall]; intros Hin Hpos; simpl.
  - apply elem_of_nil in Hin. contradiction.
  - apply elem_of_cons in Hin. rewrite Z.gtb_ltb.
    destruct (Z.ltb_spec 0 (ax_nAction b)) as [Hb|Hb].
    + destruct Hin as [->|Hin]; [left | right; auto].
    + destruct Hin as [->|Hin]; [lia|]. exfalso.
      rewrite Forall_forall in Hall. specialize (Hall a Hin).
      unfold axset_le, axset_compare in Hall.
      destruct (Z.eqb_spec (ax_nAction a - ax_nAction b) 0); lia.
Qed.

Lemma packed_rows_sort_ax ax a :
  a ∈ ax -> 0 < ax_nAction a -> a ∈ packed_rows (sort_ax ax).
Proof.
  intros Hin Hpos. apply packed_rows_sorted; [| |exact Hpos].
  - apply StronglySorted_merge_sort; apply _.
  - unfold sort_ax. rewrite merge_sort_Permutation. exact Hin.
Qed.

Lemma packed_rows_subset ax a : a ∈ packed_rows ax -> a ∈ ax /\ 0 < ax_nAction a.
Proof.
  induction ax as [|b ax IH]; simpl; intros H.
  - apply elem_of_nil in H. contradiction.
  - rewrite Z.gtb_ltb in H. destruct (Z.ltb_spec 0 (ax_nAction b)).
    + apply elem_of_cons in H. destruct H as [->|H].
      * split; [left | assumption].
      * destruct (IH H). split; [right|]; assumption.
    + apply elem_of_nil in H. contradiction.
Qed.

(** ** The packing loop *)

Lemma set_offsets_ofst st (tkn : bool) o :
  ofst (if tkn then set_offsets st o (iNtOfst st)
        else set_offsets st (iTknOfst st) o) tkn = o.
Proof. destruct tkn; reflexivity. Qed.

Lemma set_offsets_other st (tkn tkn' : bool) o :
  tkn' <> tkn ->
  ofst (if tkn then set_offsets st o (iNtOfst st)
        else set_offsets st (iTknOfst st) o) tkn' = ofst st tkn'.
Proof. destruct tkn, tkn'; intros H; try reflexivity; contradiction. Qed.

Lemma set_offsets_ap st (tkn : bool) o :
  ap (if tkn then set_offsets st o (iNtOfst st)
      else set_offsets st (iTknOfst st) o) = ap st.
Proof. destruct tkn; reflexivity. Qed.

Lemma pack_rows_step lemp states p a ax st r :
  0 < ax_nAction a ->
  states !! stp a = Some st ->
  row_entries lemp (isTkn a) (ap st) = Ok r ->
  pack_rows lemp states p (a :: ax) =
  let* q := insert_row p (isTkn a) r in
  pack_rows lemp
    (<[stp a := if isTkn a then set_offsets st (snd q) (iNtOfst st)
                else set_offsets st (iTknOfst st) (snd q)]> states)
    (fst q) ax.
Proof.
  intros Hpos Hst Hr. simpl. rewrite Z.gtb_ltb.
  destruct (Z.ltb_spec 0 (ax_nAction a)); [|lia].
  unfold deref. rewrite Hst. simpl.
  pose proof (fill_row_entries lemp (isTkn a) (ap st) p r Hr) as Hfill.
  unfold insert_row, fill_row in *.
  destruct (isTkn a); rewrite Hfill;
    destruct (add_actions p r) as [p1|]; simpl; try reflexivity;
    destruct (acttab_insert p1 _) as [[p2 o]|]; reflexivity.
Qed.

Lemma pack_rows_spec lemp : forall ax states p,
  wf_acttab p -> nLookahead p = 0 -> nsymbol p = g_nsymbol lemp ->
  NoDup (row_key <$> ax) ->
  (forall a, a ∈ ax ->
     exists st, states !! stp a = Some st /\
                row_ready lemp (ap st) (isTkn a) (ax_nAction a)) ->
  exists states' p',
    pack_rows lemp states p ax = Ok (states', p') /\
    wf_acttab p' /\
    (forall s st, states !! s = Some st ->
       exists st', states' !! s = Some st' /\ ap st' = ap st /\
         forall tkn, (forall a, a ∈ packed_rows ax -> row_key a <> (s, tkn)) ->
                     ofst st' tkn = ofst st tkn) /\
    (forall (k : nat) x, aAction p !! k = Some x -> 0 <= lookahead x ->
                         aAction p' !! k = Some x) /\
    (forall a, a ∈ packed_rows ax ->
       exists st' r,
         states' !! stp a = Some st' /\
         row_entries lemp (isTkn a) (ap st') = Ok r /\
         forall e, e ∈ r ->
           0 <= ofst st' (isTkn a) + lookahead e /\
           aAction p' !! Z.to_nat (ofst st' (isTkn a) + lookahead e) = Some e).
Proof.
  induction ax as [|a ax IH]; intros states p Hwf Hn0 Hns Hnd Hrows.
  - exists states, p. split; [reflexivity|]. split; [exact Hwf|].
    split; [|split; [auto|]].
    + intros s st Hs. exists st. auto.
    + intros a Ha. apply elem_of_nil in Ha. contradiction.
  - destruct (Z.ltb_spec 0 (ax_nAction a)) as [Hpos|Hnpos].
    2:{ exists states, p. simpl. rewrite Z.gtb_ltb.
        destruct (Z.ltb_spec 0 (ax_nAction a)); [lia|].
        split; [reflexivity|]. split; [exact Hwf|].
        split; [|split; [auto|]].
        - intros s st Hs. exists st. auto.
        - intros a' Ha'. apply elem_of_nil in Ha'. contradiction. }
    destruct (Hrows a) as (st & Hst & r & Hr & Hndr & Hrange & Hne); [left|].
    specialize (Hne Hpos).
    destruct (insert_row_spec p (isTkn a) r Hwf Hn0 Hne Hndr)
      as (p1 & o & Hins & Hwf1 & Hn1 & Hs1 & Ht1 & Hkeep1 & Hput).
    { intros e He. rewrite Hns. auto. }
    rewrite (pack_rows_step lemp states p a ax st r Hpos Hst Hr).
    rewrite Hins. simpl.
    set (st1 := if isTkn a then set_offsets st o (iNtOfst st)
                else set_offsets st (iTknOfst st) o).
    set (states1 := <[stp a := st1]> states).
    apply NoDup_cons in Hnd. destruct Hnd as [Hfresh Hnd].
    assert (Hlt : (stp a < length states)%nat) by (eapply lookup_lt_Some; eauto).
    assert (Hlook1 : forall s st0, states !! s = Some st0 ->
              exists st0', states1 !! s = Some st0' /\ ap st0' = ap st0 /\
                forall tkn, row_key a <> (s, tkn) -> ofst st0' tkn = ofst st0 tkn).
    { intros s st0 Hs0. unfold states1. destruct (decide (s = stp a)) as [->|Hne'].
      - rewrite list_lookup_insert_eq by exact Hlt.
        assert (st0 = st) as -> by congruence.
        exists st1. split; [reflexivity|]. split; [apply set_offsets_ap|].
        intros tkn Hk. apply set_offsets_other. intros ->. apply Hk. reflexivity.
      - rewrite list_lookup_insert_ne by auto. exists st0.
        split; [exact Hs0|]. split; reflexivity || auto. }
    destruct (IH states1 p1 Hwf1 Hn1) as (states' & p' & Hpack & Hwf' & Hheap & Hkeep & Hdone).
    { congruence. }
    { exact Hnd. }
    { intros a' Ha'. destruct (Hrows a') as (st0 & Hst0 & Hrr); [right; exact Ha'|].
      destruct (Hlook1 _ _ Hst0) as (st0' & Hst0' & Hap & _).
      exists st0'. split; [exact Hst0'|]. rewrite Hap. exact Hrr. }
    exists states', p'. split; [exact Hpack|]. split; [exact Hwf'|].
    assert (Hheap' : forall s st0, states !! s = Some st0 ->
       exists st', states' !! s = Some st' /\ ap st' = ap st0 /\
         forall tkn, (forall a0, a0 ∈ a :: packed_rows ax -> row_key a0 <> (s, tkn)) ->
                     ofst st' tkn = ofst st0 tkn).
    { intros s st0 Hs0. destruct (Hlook1 _ _ Hs0) as (st0' & Hst0' & Hap & Hofs).
      destruct (Hheap _ _ Hst0') as (st' & Hst' & Hap' & Hofs').
      exists st'. split; [exact Hst'|]. split; [congruence|].
      intros tkn Hfree. rewrite Hofs'.
      - apply Hofs. apply Hfree. left.
      - intros a0 Ha0. apply Hfree. right. exact Ha0. }
    split; [|split].
    + intros s st0 Hs0. destruct (Hheap' s st0 Hs0) as (st' & Hst' & Hap & Hofs).
      exists st'. split; [exact Hst'|]. split; [exact Hap|].
      intros tkn Hfree. apply Hofs. simpl in Hfree. rewrite Z.gtb_ltb in Hfree.
      destruct (Z.ltb_spec 0 (ax_nAction a)); [exact Hfree | lia].
    + intros k x Hx Hpos'. apply Hkeep; [|exact Hpos']. apply Hkeep1; assumption.
    + intros a' Ha'. simpl in Ha'. rewrite Z.gtb_ltb in Ha'.
      destruct (Z.ltb_spec 0 (ax_nAction a)); [|lia].
      apply elem_of_cons in Ha'. destruct Ha' as [->|Ha']; [|apply Hdone; exact Ha'].
      assert (Hs1' : states1 !! stp a = Some st1)
        by (unfold states1; apply list_lookup_insert_eq; exact Hlt).
      destruct (Hheap _ _ Hs1') as (st' & Hst' & Hap' & Hofs').
      assert (Ho : ofst st' (isTkn a) = o).
      { rewrite Hofs'.
        - unfold st1. apply set_offsets_ofst.
        - intros a0 Ha0 Hk. apply Hfresh.
          replace (row_key a) with (row_key a0) by (rewrite Hk; reflexivity).
          apply list_elem_of_fmap_2. apply packed_rows_subset in Ha0. tauto. }
      exists st', r. split; [exact Hst'|].
      split; [rewrite Hap'; unfold st1; rewrite set_offsets_ap; exact Hr|].
      intros e He. rewrite Ho. destruct (Hput e He) as [Hge Hval].
      split; [exact Hge|]. apply Hkeep; [exact Hval|].
      specialize (Hrange e He). lia.
Qed.

Lemma make_ax_spec states : forall sorted i,
  (forall s, s ∈ sorted -> is_Some (states !! s)) ->
  NoDup sorted ->
  exists ax,
    make_ax states sorted i = Ok ax /\
    NoDup (row_key <$> ax) /\
    (forall a, a ∈ ax ->
       stp a ∈ sorted /\
       exists st, states !! stp a = Some st /\
                  ax_nAction a = if isTkn a then nTknAct st else nNtAct st) /\
    (forall s (tkn : bool), s ∈ sorted -> exists a, a ∈ ax /\ row_key a = (s, tkn)).
Proof.
  induction sorted as [|s sorted IH]; intros i Hall Hnd; simpl.
  - exists []. split; [reflexivity|]. split; [constructor|]. split.
    + intros a Ha. apply elem_of_nil in Ha. contradiction.
    + intros s tkn Hs. apply elem_of_nil in Hs. contradiction.
  - destruct (Hall s) as [st Hst]; [left|].
    apply NoDup_cons in Hnd. destruct Hnd as [Hfresh Hnd].
    destruct (IH (i + 1)) as (ax & Hax & Hndax & Hin & Hcover); [|exact Hnd|].
    { intros s' Hs'. apply Hall. right. exact Hs'. }
    unfold deref. rewrite Hst. simpl. rewrite Hax. simpl.
    eexists. split; [reflexivity|].
    assert (Hnot : forall tkn, (s, tkn) ∉ row_key <$> ax).
    { intros tkn Hk. apply list_elem_of_fmap_1 in Hk. destruct Hk as (a & Hk & Ha).
      apply Hfresh. destruct (Hin a Ha) as [Hs _].
      unfold row_key in Hk. injection Hk as -> _. exact Hs. }
    split; [|split].
    + simpl. apply NoDup_cons. split.
      * intros Hk. apply elem_of_cons in Hk. destruct Hk as [Hk|Hk];
          [discriminate | apply (Hnot true); exact Hk].
      * apply NoDup_cons. split; [apply (Hnot false) | exact Hndax].
    + intros a Ha. apply elem_of_cons in Ha. destruct Ha as [->|Ha].
      { simpl. split; [left|]. exists st. auto. }
      apply elem_of_cons in Ha. destruct Ha as [->|Ha].
      { simpl. split; [left|]. exists st. auto. }
      destruct (Hin a Ha) as [Hs Hst']. split; [right; exact Hs | exact Hst'].
    + intros s' tkn Hs'. apply elem_of_cons in Hs'. destruct Hs' as [->|Hs'].
      * destruct tkn.
        -- eexists. split; [left|]. reflexivity.
        -- eexists. split; [right; left|]. reflexivity.
      * destruct (Hcover s' tkn Hs') as (a & Ha & Hk).
        exists a. split; [right; right; exact Ha | exact Hk].
Qed.

(** The packing loop of [ReportTable] on states that call [acttab_action]
    once for each lookahead.  Let the first
    [nxstate] states of [lemp.sorted] be distinct and ready: on each axis
    the emitted actions of a state have pairwise distinct lookaheads (one
    [acttab_action] call per lookahead), these are symbol indices below
    [nsymbol], and [nTknAct], [nNtAct] count them.  Then the packing loop
    of [ReportTable] returns, and afterwards every emitted action [a] of
    every such state, with code [c = compute_action a], is found in the
    packed table: [aAction[offset + index] = (index, c)], where [offset]
    is the state's [iTknOfst] for a terminal lookahead and its [iNtOfst]
    for a nonterminal one. *)
Theorem ReportTable_pack_installs lemp states sorted :
  0 <= g_nterminal lemp <= g_nsymbol lemp ->
  0 <= nxstate lemp <= Z.of_nat (length sorted) ->
  NoDup (take (Z.to_nat (nxstate lemp)) sorted) ->
  (forall s, s ∈ take (Z.to_nat (nxstate lemp)) sorted ->
     exists st, states !! s = Some st /\ state_ready lemp st) ->
  exists states' p',
    ReportTable_pack lemp states sorted = Ok (states', p') /\
    forall s, s ∈ take (Z.to_nat (nxstate lemp)) sorted ->
      exists st st', states !! s = Some st /\ states' !! s = Some st' /\
        ap st' = ap st /\
        forall (tkn : bool) a c, a ∈ ap st -> emitted lemp tkn a c ->
          0 <= ofst st' tkn + index (sp a) /\
          aAction p' !! Z.to_nat (ofst st' tkn + index (sp a))
            = Some (mkLA (index (sp a)) c).
Proof.
  intros Hcnt Hnx Hnd Hready. unfold ReportTable_pack.
  destruct (Z.ltb_spec (nxstate lemp) 0); [lia|].
  destruct (Z.ltb_spec (Z.of_nat (length sorted)) (nxstate lemp)); [lia|].
  set (sorted' := take (Z.to_nat (nxstate lemp)) sorted) in *.
  destruct (make_ax_spec states sorted' 0) as (ax & Hax & Hndax & Hin & Hcover).
  { intros s Hs. destruct (Hready s Hs) as (st & -> & _). eauto. }
  { exact Hnd. }
  rewrite Hax. simpl.
  assert (Hperm : sort_ax ax ≡ₚ ax) by apply merge_sort_Permutation.
  destruct (pack_rows_spec lemp (sort_ax ax) states
              (acttab_alloc (g_nsymbol lemp) (g_nterminal lemp)))
    as (states' & p' & Hpack & _ & Hheap & _ & Hdone).
  { apply acttab_alloc_wf. exact Hcnt. }
  { reflexivity. }
  { reflexivity. }
  { rewrite Hperm. exact Hndax. }
  { intros a Ha. rewrite Hperm in Ha. destruct (Hin a Ha) as (Hs & st & Hst & Hn).
    exists st. split; [exact Hst|].
    destruct (Hready _ Hs) as (st0 & Hst0 & Hrdy).
    assert (st0 = st) as -> by congruence.
    destruct (Hrdy (isTkn a)) as (r & Hr & Hndr & Hrange & Hlen).
    exists r. split; [exact Hr|]. split; [exact Hndr|]. split; [exact Hrange|].
    intros Hpos ->. simpl in Hlen. lia. }
  exists states', p'. split; [exact Hpack|].
  intros s Hs. destruct (Hready s Hs) as (st & Hst & Hrdy).
  destruct (Hheap s st Hst) as (st' & Hst' & Hap & _).
  exists st, st'. split; [exact Hst|]. split; [exact Hst'|]. split; [exact Hap|].
  intros tkn a c Ha Hem.
  destruct (Hrdy tkn) as (r & Hr & Hndr & Hrange & Hlen).
  assert (He : mkLA (index (sp a)) c ∈ r).
  { apply (row_entries_emitted lemp tkn (ap st) r Hr). exists a. simpl. auto. }
  destruct (Hcover s tkn Hs) as (a0 & Ha0 & Hk).
  unfold row_key in Hk. injection Hk as Hk1 Hk2.
  assert (Hpos : 0 < ax_nAction a0).
  { destruct (Hin a0 Ha0) as (_ & st0 & Hst0 & Hn). rewrite Hk1 in Hst0.
    assert (st0 = st) as -> by congruence. rewrite Hn, Hk2, Hlen.
    destruct r; [apply elem_of_nil in He; contradiction | simpl; lia]. }
  destruct (Hdone a0) as (st'' & r' & Hst'' & Hr' & Hput).
  { apply packed_rows_sort_ax; assumption. }
  rewrite Hk1 in Hst''. assert (st'' = st') as -> by congruence.
  rewrite Hk2, Hap, Hr in Hr'. injection Hr' as <-.
  rewrite Hk2 in Hput. apply (Hput _ He).
Qed.

(** C1 (offset-pack install correctness) at the state of a [%nonassoc]
    tie, where the install does not hold.  [resolve_conflict] turns the
    SHIFT of the tie into an ERROR action and leaves the REDUCE, so the
    state emits two actions on the lookahead [EQ] and [ReportTable] calls
    [acttab_action] twice for it, against the comment of [acttab_action]
    ("called once for each lookahead for a particular state");
    [ResortStates] counts both.  After the packing loop the slot
    [iTknOfst + 1] holds the REDUCE, and the emitted ERROR action (code
    [errAction = 3]) is not in the table.  The REDUCE is still in the list
    at that point when [CompressTables] is switched off ([-c]) or picks
    another rule as the state's default. *)
Lemma install_fails_on_shared_lookahead :
  exists states' p' st' a c,
    ReportTable_pack ex_lemon ex_tie_states [0%nat] = Ok (states', p') /\
    states' !! 0%nat = Some st' /\
    nTknAct st' = 2 /\
    a ∈ ap st' /\ emitted ex_lemon true a c /\
    aAction p' !! Z.to_nat (iTknOfst st' + index (sp a))
      <> Some (mkLA (index (sp a)) c).
Proof.
  destruct (ReportTable_pack ex_lemon ex_tie_states [0%nat]) as [[states' p']|] eqn:Hp;
    [|vm_compute in Hp; discriminate].
  pose proof Hp as Hv. vm_compute in Hv. injection Hv as <- <-.
  eexists _, _, _, (set_atyp ex_shift_EQ ERROR), 3.
  split; [reflexivity|]. split; [vm_compute; reflexivity|].
  split; [reflexivity|]. split; [left|]. split.
  - split; [vm_compute; reflexivity|]. split; [reflexivity | lia].
  - vm_compute. discriminate.
Qed.

Lemma ex_ok_ready :
  forall s, s ∈ take (Z.to_nat (nxstate ex_lemon)) [0%nat] ->
    exists st, ex_ok_states !! s = Some st /\ state_ready ex_lemon st.
Proof.
  intros s Hs. change (s ∈ [0%nat]) in Hs.
  apply list_elem_of_singleton in Hs. subst s.
  eexists. split; [vm_compute; reflexivity|].
  intros [|]; eexists; (split; [vm_compute; reflexivity|]).
  - split; [|split; [|reflexivity]].
    + simpl. apply NoDup_cons. split; [|apply NoDup_singleton].
      intros H. apply list_elem_of_singleton in H. discriminate.
    + intros e He. apply elem_of_cons in He. destruct He as [->|He]; [simpl; lia|].
      apply list_elem_of_singleton in He. subst e. simpl. lia.
  - split; [|split; [|reflexivity]].
    + simpl. apply NoDup_singleton.
    + intros e He. apply list_elem_of_singleton in He. subst e. simpl. lia.
Defined.

Lemma ReportTable_pack_installs_witness :
  exists states' p',
    ReportTable_pack ex_lemon ex_ok_states [0%nat] = Ok (states', p') /\
    forall s, s ∈ take (Z.to_nat (nxstate ex_lemon)) [0%nat] ->
      exists st st', ex_ok_states !! s = Some st /\ states' !! s = Some st' /\
        ap st' = ap st /\
        forall (tkn : bool) a c, a ∈ ap st -> emitted ex_lemon tkn a c ->
          0 <= ofst st' tkn + index (sp a) /\
          aAction p' !! Z.to_nat (ofst st' tkn + index (sp a))
            = Some (mkLA (index (sp a)) c).
Proof.
  apply (ReportTable_pack_installs ex_lemon ex_ok_states [0%nat]).
  - simpl. lia.
  - simpl. lia.
  - apply NoDup_singleton.
  - exact ex_ok_ready.
Defined.

(** ** The guard of the packing loop *)

Lemma compute_action_sign lemp a c :
  nonneg_codes lemp ->
  (forall rp, x_rp a = Some rp -> 0 <= iRule rp) ->
  compute_action lemp a = Ok c ->
  (0 <= c <-> generates (atyp a) = true).
Proof.
  intros (H1 & H2 & H3 & H4 & H5) Hr. unfold compute_action.
  destruct (atyp a); simpl;
    try (intros [= <-]; split; [reflexivity || (intros; lia) | (intros; lia) || discriminate]).
  - destruct (x_stp a) as [s|]; [|discriminate]. intros [= <-].
    split; [reflexivity | intros _; apply H5].
  - destruct (x_rp a) as [rp|]; [|discriminate]. intros [= <-].
    specialize (Hr rp eq_refl). split; [reflexivity | intros _; lia].
  - destruct (x_rp a) as [rp|]; [|discriminate]. specialize (Hr rp eq_refl).
    destruct (_ && _); intros [= <-]; (split; [reflexivity | intros _; lia]).
Qed.

Lemma compute_action_defined lemp0 lemp a c0 :
  compute_action lemp0 a = Ok c0 -> exists c, compute_action lemp a = Ok c.
Proof.
  unfold compute_action.
  destruct (atyp a); try (intros _; eexists; reflexivity).
  - destruct (x_stp a); [intros _; eexists; reflexivity | discriminate].
  - destruct (x_rp a); [intros _; eexists; reflexivity | discriminate].
  - destruct (x_rp a); [|discriminate].
    destruct (_ && _); destruct (_ && _); intros _; eexists; reflexivity.
Qed.

Lemma ResortStates_actions_counts lemp aps : forall stp0 st,
  ResortStates_actions lemp stp0 aps = Ok st ->
  ap st = ap stp0 /\
  (forall a, a ∈ aps -> exists c, compute_action lemp a = Ok c) /\
  (nTknAct stp0 < nTknAct st ->
   exists a c, a ∈ aps /\ index (sp a) < g_nterminal lemp /\
               compute_action lemp a = Ok c /\ 0 <= c) /\
  (nNtAct stp0 < nNtAct st ->
   exists a c, a ∈ aps /\
               g_nterminal lemp <= index (sp a) < g_nsymbol lemp /\
               compute_action lemp a = Ok c /\ 0 <= c).
Proof.
  induction aps as [|a aps IH]; intros stp0 st H; simpl in H.
  - injection H as <-. split; [reflexivity|]. split.
    + intros a Ha. apply elem_of_nil in Ha. contradiction.
    + split; intros; lia.
  - inv_bind H. rename a0 into c, Ha into Hc.
    assert (Hall : forall st1, ResortStates_actions lemp st1 aps = Ok st ->
              ap st1 = ap stp0 ->
              (nTknAct st1 = nTknAct stp0 \/
               (index (sp a) < g_nterminal lemp /\ 0 <= c)) ->
              (nNtAct st1 = nNtAct stp0 \/
               (g_nterminal lemp <= index (sp a) < g_nsymbol lemp /\ 0 <= c)) ->
              ap st = ap stp0 /\
              (forall a0, a0 ∈ a :: aps -> exists c0, compute_action lemp a0 = Ok c0) /\
              (nTknAct stp0 < nTknAct st ->
               exists a0 c0, a0 ∈ a :: aps /\ index (sp a0) < g_nterminal lemp /\
                             compute_action lemp a0 = Ok c0 /\ 0 <= c0) /\
              (nNtAct stp0 < nNtAct st ->
               exists a0 c0, a0 ∈ a :: aps /\
                             g_nterminal lemp <= index (sp a0) < g_nsymbol lemp /\
                             compute_action lemp a0 = Ok c0 /\ 0 <= c0)).
    { intros st1 H1 Hap Ht Hn. destruct (IH st1 st H1) as (Hap' & Hdef & Htk & Hnt).
      split; [congruence|]. split; [|split].
      - intros a0 Ha0. apply elem_of_cons in Ha0.
        destruct Ha0 as [->|Ha0]; [eauto | auto].
      - intros Hlt. destruct (Z.lt_ge_cases (nTknAct st1) (nTknAct st)) as [Hl|Hg].
        + destruct (Htk Hl) as (a0 & c0 & Ha0 & Hr). exists a0, c0.
          split; [right; exact Ha0 | exact Hr].
        + destruct Ht as [Ht|[Hi Hpos]]; [lia|]. exists a, c.
          split; [left | auto].
      - intros Hlt. destruct (Z.lt_ge_cases (nNtAct st1) (nNtAct st)) as [Hl|Hg].
        + destruct (Hnt Hl) as (a0 & c0 & Ha0 & Hr). exists a0, c0.
          split; [right; exact Ha0 | exact Hr].
        + destruct Hn as [Hn|[Hi Hpos]]; [lia|]. exists a, c.
          split; [left | auto]. }
    rewrite Z.geb_leb in H. destruct (Z.leb_spec 0 c) as [Hpos|Hneg].
    + destruct (Z.ltb_spec (index (sp a)) (g_nterminal lemp)) as [Hlt|Hge].
      { apply (Hall _ H); simpl; auto. }
      destruct (Z.ltb_spec (index (sp a)) (g_nsymbol lemp)) as [Hlt2|Hge2].
      { apply (Hall _ H); simpl; auto. }
      destruct (negb _); [discriminate|].
      apply (Hall _ H); simpl; auto.
    + apply (Hall _ H); auto.
Qed.

Lemma row_entries_total lemp tkn aps :
  (forall a, a ∈ aps -> exists c, compute_action lemp a = Ok c) ->
  exists r, row_entries lemp tkn aps = Ok r.
Proof.
  induction aps as [|a aps IH]; intros Hdef; simpl; [eauto|].
  destruct IH as [r Hr]; [intros a0 Ha0; apply Hdef; right; exact Ha0|].
  destruct (if tkn then _ else _); [eauto|].
  destruct (Hdef a) as [c ->]; [left|]. simpl.
  destruct (c <? 0); [eauto|]. rewrite Hr. simpl. eauto.
Qed.

Lemma other_Ok {A : Type} (a : A) : other_outcome (Ok a).
Proof. discriminate. Qed.

Lemma other_bind {A B : Type} (c : result A) (k : A -> result B) :
  other_outcome c -> (forall a, other_outcome (k a)) -> other_outcome (bind c k).
Proof.
  intros Hc Hk. destruct c as [a|e]; simpl; [apply Hk|].
  intros [= ->]. apply Hc. reflexivity.
Qed.

Lemma other_rd {A : Type} (a : list A) k : other_outcome (rd a k).
Proof. unfold rd. destruct (_ <? _); [discriminate|]. destruct (_ !! _); discriminate. Qed.

Lemma other_wr {A : Type} (a : list A) k x : other_outcome (wr a k x).
Proof. unfold wr. destruct (_ || _); discriminate. Qed.

Lemma other_if {A : Type} (b : bool) (x y : result A) :
  other_outcome x -> other_outcome y -> other_outcome (if b then x else y).
Proof. destruct b; auto. Qed.

Ltac other :=
  repeat first
    [ apply other_Ok | apply other_rd | apply other_wr
    | apply other_bind; [|intros ?] | apply other_if | assumption ].

Lemma other_for_all body cnt : forall j,
  (forall k, other_outcome (body k)) -> other_outcome (for_all body cnt j).
Proof. induction cnt as [|c IH]; intros j H; simpl; other; auto. Qed.

Lemma other_for_down body cnt : forall i,
  (forall k, other_outcome (body k)) -> other_outcome (for_down body cnt i).
Proof. induction cnt as [|c IH]; intros i H; simpl; other; auto. Qed.

Lemma other_for_up body cnt : forall i,
  (forall k, other_outcome (body k)) -> other_outcome (for_up body cnt i).
Proof. induction cnt as [|c IH]; intros i H; simpl; other; auto. Qed.

Lemma other_count_alias p i cnt : forall j n,
  other_outcome (count_alias p i cnt j n).
Proof. induction cnt as [|c IH]; intros j n; simpl; other; auto. Qed.

Lemma other_fill_empty cnt : forall a i, other_outcome (fill_empty a cnt i).
Proof. induction cnt as [|c IH]; intros a i; simpl; other; auto. Qed.

Lemma other_install cnt : forall p i j, other_outcome (install p i cnt j).
Proof. induction cnt as [|c IH]; intros p i j; simpl; other; auto. Qed.

Lemma other_find_slot p safe : other_outcome (find_slot p safe).
Proof.
  unfold find_slot. other.
  - apply other_for_down. intros k. unfold dup_at. other.
    + apply other_for_all. intros j. unfold match_entry. other.
    + apply other_count_alias.
  - apply other_for_up. intros k. unfold hole_at. other.
    + apply other_for_all. intros j. unfold fit_entry. other.
    + apply other_for_all. intros j. unfold no_alias. other.
Qed.

Lemma other_acttab_grow p : other_outcome (acttab_grow p).
Proof.
  unfold acttab_grow. destruct (_ >=? _); [|apply other_Ok].
  destruct (_ <? 0); [discriminate|].
  apply other_bind; [apply other_fill_empty | intros a; apply other_Ok].
Qed.

Lemma other_acttab_insert p safe :
  0 < nLookahead p -> other_outcome (acttab_insert p safe).
Proof.
  intros Hn. unfold acttab_insert.
  destruct (Z.leb_spec (nLookahead p) 0); [lia|].
  apply other_bind; [apply other_acttab_grow | intros q].
  apply other_bind; [apply other_find_slot | intros i].
  apply other_bind; [apply other_install | intros q2].
  apply other_Ok.
Qed.

(** C9 (the panic of [acttab_insert] and the caller's guard).
    [acttab_insert] panics with "Want p.nLookahead > 0" whenever it is
    called with [nLookahead <= 0].  In [ReportTable] the call is guarded
    by [ax[i].nAction > 0], where [nAction] is the [nTknAct] or [nNtAct]
    that [ResortStates] counted for the state: then the row loop makes at
    least one [acttab_action] call, [nLookahead] is positive at the call
    of [acttab_insert], and that panic does not happen. *)
Theorem acttab_insert_panic_guarded :
  (forall p b, nLookahead p <= 0 -> acttab_insert p b = Panic WantLookahead) /\
  (forall lemp0 lemp st0 st (tkn : bool) p,
     nonneg_codes lemp0 -> nonneg_codes lemp -> nonneg_rules (ap st0) ->
     g_nterminal lemp0 = g_nterminal lemp -> g_nsymbol lemp0 = g_nsymbol lemp ->
     ResortStates_state lemp0 st0 = Ok st ->
     wf_acttab p -> nLookahead p = 0 ->
     0 < (if tkn then nTknAct st else nNtAct st) ->
     exists p1,
       fill_row lemp tkn p (ap st) = Ok p1 /\
       0 < nLookahead p1 /\
       acttab_insert p1 tkn <> Panic WantLookahead).
Proof.
  split.
  - intros p b Hn. unfold acttab_insert.
    destruct (Z.leb_spec (nLookahead p) 0); [reflexivity | lia].
  - intros lemp0 lemp st0 st tkn p Hc0 Hc Hrules Hnt Hns Hres Hwf Hn0 Hguard.
    unfold ResortStates_state in Hres. simpl in Hres.
    apply ResortStates_actions_counts in Hres.
    destruct Hres as (Hap & Hdef & Htk & Hnk). simpl in Hap, Htk, Hnk.
    assert (Hem : exists a c, a ∈ ap st0 /\ emitted lemp tkn a c).
    { assert (Hone : exists a c0, a ∈ ap st0 /\
                (if tkn then index (sp a) < g_nterminal lemp
                 else g_nterminal lemp <= index (sp a) /\
                      index (sp a) <> g_nsymbol lemp) /\
                compute_action lemp0 a = Ok c0 /\ 0 <= c0).
      { destruct tkn.
        - destruct (Htk Hguard) as (a & c0 & Ha & Hi & Hr). exists a, c0.
          rewrite <- Hnt. auto.
        - destruct (Hnk Hguard) as (a & c0 & Ha & Hi & Hr). exists a, c0.
          rewrite <- Hnt, <- Hns. split; [exact Ha|]. split; [lia | exact Hr]. }
      destruct Hone as (a & c0 & Ha & Hax & Hc0' & Hpos).
      destruct (compute_action_defined lemp0 lemp a c0 Hc0') as [c Hc'].
      exists a, c. split; [exact Ha|]. split; [exact Hax|]. split; [exact Hc'|].
      apply (compute_action_sign lemp a c Hc (fun rp => Hrules a rp Ha) Hc').
      apply (compute_action_sign lemp0 a c0 Hc0 (fun rp => Hrules a rp Ha) Hc0').
      exact Hpos. }
    destruct (row_entries_total lemp tkn (ap st)) as [r Hr].
    { rewrite Hap. intros a Ha. destruct (Hdef a Ha) as [c0 Hc0'].
      apply (compute_action_defined lemp0 lemp a c0 Hc0'). }
    assert (Hne : r <> []).
    { destruct Hem as (a & c & Ha & Hem). intros ->.
      assert (Hin : mkLA (index (sp a)) c ∈ ([] : list lookahead_action)).
      { apply (row_entries_emitted lemp tkn (ap st) [] Hr). exists a.
        rewrite Hap. simpl. auto. }
      apply elem_of_nil in Hin. exact Hin. }
    assert (Hpb : pending_bounds p) by (intros Hpos; lia).
    destruct (add_actions_spec r p Hwf Hpb) as (p1 & Hadd & _ & _ & _ & Hn1 & _).
    exists p1. rewrite (fill_row_entries lemp tkn (ap st) p r Hr).
    split; [exact Hadd|].
    assert (Hlen : 0 < nLookahead p1).
    { rewrite Hn1, Hn0. destruct r; [contradiction | simpl; lia]. }
    split; [exact Hlen|]. apply other_acttab_insert. exact Hlen.
Qed.

Lemma acttab_insert_panic_guarded_witness :
  exists st p1,
    ResortStates_state ex_lemon0 ex_ok_state0 = Ok st /\
    nTknAct st = 2 /\
    fill_row ex_lemon true (acttab_alloc 3 2) (ap st) = Ok p1 /\
    0 < nLookahead p1 /\
    acttab_insert p1 true <> Panic WantLookahead.
Proof.
  destruct (ResortStates_state ex_lemon0 ex_ok_state0) as [st|] eqn:Hst;
    [|vm_compute in Hst; discriminate].
  assert (Hn : nTknAct st = 2) by (vm_compute in Hst; injection Hst as <-; reflexivity).
  destruct acttab_insert_panic_guarded as [_ H].
  destruct (H ex_lemon0 ex_lemon ex_ok_state0 st true (acttab_alloc 3 2))
    as (p1 & H1 & H2 & H3).
  - repeat split; simpl; lia.
  - repeat split; simpl; lia.
  - intros a rp Ha Hrp. simpl in Ha.
    repeat (apply elem_of_cons in Ha; destruct Ha as [->|Ha]);
      try (apply elem_of_nil in Ha; contradiction);
      simpl in Hrp; try discriminate; injection Hrp as <-; simpl; lia.
  - reflexivity.
  - reflexivity.
  - exact Hst.
  - apply acttab_alloc_wf. lia.
  - reflexivity.
  - rewrite Hn. lia.
  - exists st, p1. auto.
Defined.

(** ** Conflict resolution *)

(** C3 (conflict-resolution truth table), as amended.  For a SHIFT [apx]
    and a REDUCE [apy] on the same lookahead: if the precedence of the
    shift symbol or of the rule is undefined (negative, or the rule has no
    precedence symbol) the reduce becomes SRCONFLICT and one conflict is
    counted; otherwise the higher precedence wins (the reduce becomes
    RD_RESOLVED, or the shift SH_RESOLVED), and on a tie RIGHT drops the
    reduce, LEFT drops the shift and NONE turns the shift into ERROR.  For
    two REDUCE actions: if either rule's precedence is undefined (no
    precedence symbol, or one whose precedence is negative) or the two are
    equal, the second becomes RRCONFLICT and one conflict is counted;
    otherwise the action of the lower-precedence rule becomes
    RD_RESOLVED. *)
Theorem resolve_conflict_table apx apy :
  name (sp apx) = name (sp apy) ->
  (atyp apx = SHIFT -> atyp apy = REDUCE ->
   forall rpy, x_rp apy = Some rpy ->
     let px := prec (sp apx) in
     let py := rule_prec rpy in
     (px < 0 \/ py < 0 ->
      resolve_conflict apx apy = Ok (apx, set_atyp apy SRCONFLICT, 1)) /\
     (0 <= px -> 0 <= py ->
      (py < px ->
       resolve_conflict apx apy = Ok (apx, set_atyp apy RD_RESOLVED, 0)) /\
      (px < py ->
       resolve_conflict apx apy = Ok (set_atyp apx SH_RESOLVED, apy, 0)) /\
      (px = py -> assoc (sp apx) = RIGHT ->
       resolve_conflict apx apy = Ok (apx, set_atyp apy RD_RESOLVED, 0)) /\
      (px = py -> assoc (sp apx) = LEFT ->
       resolve_conflict apx apy = Ok (set_atyp apx SH_RESOLVED, apy, 0)) /\
      (px = py -> assoc (sp apx) = NONE ->
       resolve_conflict apx apy = Ok (set_atyp apx ERROR, apy, 0)))) /\
  (atyp apx = REDUCE -> atyp apy = REDUCE ->
   forall rpx rpy, x_rp apx = Some rpx -> x_rp apy = Some rpy ->
     let px := rule_prec rpx in
     let py := rule_prec rpy in
     (px < 0 \/ py < 0 \/ px = py ->
      resolve_conflict apx apy = Ok (apx, set_atyp apy RRCONFLICT, 1)) /\
     (0 <= px -> 0 <= py ->
      (py < px ->
       resolve_conflict apx apy = Ok (apx, set_atyp apy RD_RESOLVED, 0)) /\
      (px < py ->
       resolve_conflict apx apy = Ok (set_atyp apx RD_RESOLVED, apy, 0)))).
Proof.
  intros Hsp.
  assert (Hname : negb (String.eqb (name (sp apx)) (name (sp apy))) = false).
  { rewrite Hsp, String.eqb_refl. reflexivity. }
  split.
  - intros Hx Hy rpy Hrp. cbv zeta. unfold resolve_conflict.
    rewrite Hname, Hx, Hy. simpl. rewrite Hy. simpl. rewrite Hrp.
    unfold rule_prec.
    destruct (precsym rpy) as [spy|].
    + split.
      * intros Hund.
        destruct (Z.ltb_spec (prec (sp apx)) 0); destruct (Z.ltb_spec (prec spy) 0);
          simpl; try reflexivity. lia.
      * intros Hpx Hpy.
        destruct (Z.ltb_spec (prec (sp apx)) 0); [lia|].
        destruct (Z.ltb_spec (prec spy) 0); [lia|]. simpl.
        rewrite Z.gtb_ltb.
        destruct (Z.ltb_spec (prec spy) (prec (sp apx)));
          destruct (Z.ltb_spec (prec (sp apx)) (prec spy));
          destruct (Z.eqb_spec (prec (sp apx)) (prec spy)); simpl;
          repeat split; intros; try lia; try reflexivity;
          match goal with H : assoc _ = _ |- _ => rewrite H end; reflexivity.
    + split; [reflexivity | intros; lia].
  - intros Hx Hy rpx rpy Hrx Hry. cbv zeta. unfold resolve_conflict.
    rewrite Hname, Hx, Hy. simpl. rewrite Hy. simpl. rewrite Hrx, Hry.
    unfold rule_prec.
    destruct (precsym rpx) as [spx|]; destruct (precsym rpy) as [spy|];
      try (split; [reflexivity | intros; lia]).
    rewrite Z.gtb_ltb.
    destruct (Z.ltb_spec (prec spx) 0); destruct (Z.ltb_spec (prec spy) 0);
      destruct (Z.eqb_spec (prec spx) (prec spy)); simpl;
      try (split; [reflexivity | intros; lia]).
    destruct (Z.ltb_spec (prec spy) (prec spx)); destruct (Z.ltb_spec (prec spx) (prec spy));
      repeat split; intros; try lia; try reflexivity.
Qed.

(** A tie between [EQ] and a rule of the same precedence, [%nonassoc]. *)
Lemma resolve_conflict_table_witness :
  resolve_conflict ex_shift_EQ ex_reduce_EQ
    = Ok (set_atyp ex_shift_EQ ERROR, ex_reduce_EQ, 0).
Proof.
  destruct (resolve_conflict_table ex_shift_EQ ex_reduce_EQ eq_refl) as [Hsr _].
  destruct (Hsr eq_refl eq_refl ex_rule0 eq_refl) as [_ Hdef].
  assert (H0 : 0 <= prec (sp ex_shift_EQ)) by (simpl; lia).
  assert (H1 : 0 <= rule_prec ex_rule0) by (unfold rule_prec; simpl; lia).
  destruct (Hdef H0 H1) as (_ & _ & _ & _ & Hnone).
  exact (Hnone eq_refl eq_refl).
Defined.

(** Counterexample to C3 as stated.  Both rules have a precedence symbol
    and the precedences differ, so the claim promises RD_RESOLVED for the
    lower one; [resolve_conflict] marks the second RRCONFLICT instead and
    counts a conflict, because the precedence of [P] is undefined. *)
Lemma reduce_reduce_undeclared_precedence :
  precsym ex_rule_P <> None /\ precsym ex_rule_Q <> None /\
  rule_prec ex_rule_P < rule_prec ex_rule_Q /\
  resolve_conflict ex_reduce_P ex_reduce_Q
    = Ok (ex_reduce_P, set_atyp ex_reduce_Q RRCONFLICT, 1) /\
  resolve_conflict ex_reduce_P ex_reduce_Q
    <> Ok (set_atyp ex_reduce_P RD_RESOLVED, ex_reduce_Q, 0).
Proof.
  split; [discriminate|]. split; [discriminate|].
  split; [unfold rule_prec; simpl; lia|].
  split; [reflexivity | discriminate].
Qed.

(** ** Action codes *)

Lemma compute_action_codes lemp a :
  (atyp a = SHIFT -> forall s, x_stp a = Some s ->
     compute_action lemp a = Ok (statenum lemp s)) /\
  (atyp a = SHIFTREDUCE -> forall rp, x_rp a = Some rp ->
     (nt_not_error lemp a ->
      compute_action lemp a = Ok (minReduce lemp + iRule rp)) /\
     (~ nt_not_error lemp a ->
      compute_action lemp a = Ok (minShiftReduce lemp + iRule rp))) /\
  (atyp a = REDUCE -> forall rp, x_rp a = Some rp ->
     compute_action lemp a = Ok (minReduce lemp + iRule rp)) /\
  (atyp a = ERROR -> compute_action lemp a = Ok (errAction lemp)) /\
  (atyp a = ACCEPT -> compute_action lemp a = Ok (accAction lemp)).
Proof.
  unfold compute_action.
  split; [intros -> s ->; reflexivity|].
  split; [|split; [intros -> rp ->; reflexivity|]].
  2:{ split; intros ->; reflexivity. }
  intros -> rp ->. unfold nt_not_error. rewrite Z.geb_leb.
  destruct (Z.leb_spec (g_nterminal lemp) (index (sp a))) as [Hge|Hlt]; simpl.
  - destruct (errsym lemp) as [es|].
    + destruct (Z.eqb_spec (index (sp a)) (index es)) as [Heq|Hne]; simpl.
      * split; [|reflexivity]. intros [_ H]. destruct (H es eq_refl Heq).
      * split; [reflexivity|]. intros H. destruct H. split; [exact Hge|].
        intros es' [= <-]. exact Hne.
    + split; [reflexivity|]. intros H. destruct H. split; [exact Hge|].
      intros es' [=].
  - split; [intros [H _]; lia | reflexivity].
Qed.

(** C4 (action-encoding boundaries), as amended: [minShiftReduce] is
    [nstate], the number of states before the trailing auto-reduce states
    are stripped, and the other boundaries follow from it as claimed;
    [compute_action] encodes a SHIFT as the state number of its target, a
    SHIFTREDUCE as [minShiftReduce + iRule], except on a nonterminal
    lookahead other than the error symbol, where it is
    [minReduce + iRule], a REDUCE as [minReduce + iRule], ERROR as
    [errAction] and ACCEPT as [accAction]. *)
Theorem action_encoding lemp0 :
  let lemp := ReportTable_boundaries lemp0 in
  (minShiftReduce lemp = nstate lemp0 /\
   errAction lemp = minShiftReduce lemp + nrule lemp0 /\
   accAction lemp = errAction lemp + 1 /\
   noAction lemp = accAction lemp + 1 /\
   minReduce lemp = noAction lemp + 1 /\
   maxAction lemp = minReduce lemp + nrule lemp0) /\
  forall a,
    (atyp a = SHIFT -> forall s, x_stp a = Some s ->
       compute_action lemp a = Ok (statenum lemp s)) /\
    (atyp a = SHIFTREDUCE -> forall rp, x_rp a = Some rp ->
       (nt_not_error lemp a ->
        compute_action lemp a = Ok (minReduce lemp + iRule rp)) /\
       (~ nt_not_error lemp a ->
        compute_action lemp a = Ok (minShiftReduce lemp + iRule rp))) /\
    (atyp a = REDUCE -> forall rp, x_rp a = Some rp ->
       compute_action lemp a = Ok (minReduce lemp + iRule rp)) /\
    (atyp a = ERROR -> compute_action lemp a = Ok (errAction lemp)) /\
    (atyp a = ACCEPT -> compute_action lemp a = Ok (accAction lemp)).
Proof.
  intros lemp. split; [repeat split|].
  intros a. apply compute_action_codes.
Qed.

(** Counterexample to C4 as stated: with a trailing auto-reduce state
    [ResortStates] leaves [nxstate = 1] while [nstate = 2], and
    [ReportTable] sets [minShiftReduce] to [nstate], not to [nxstate]. *)
Lemma minShiftReduce_is_not_nxstate :
  ResortStates_nxstate ex_two_states [0%nat; 1%nat] (nstate ex_lemon0)
    = Ok (nxstate ex_lemon0) /\
  minShiftReduce (ReportTable_boundaries ex_lemon0) = 2 /\
  minShiftReduce (ReportTable_boundaries ex_lemon0) <> nxstate ex_lemon0.
Proof. split; [reflexivity|]. split; [reflexivity | discriminate]. Qed.

(** ** The stages and the exit code of [main] *)

Lemma run_stages_app run pre post : forall lem g,
  run_stages run pre lem = (pre, Cont g) ->
  run_stages run (pre ++ post) lem =
  let '(done, r) := run_stages run post g in (pre ++ done, r).
Proof.
  induction pre as [|s pre IH]; intros lem g H; simpl in *.
  - injection H as <-. destruct (run_stages run post lem); reflexivity.
  - destruct (run s lem) as [lem'|c]; [|discriminate].
    destruct (run_stages run pre lem') as [done r] eqn:Hrun.
    injection H as Hd Hr. subst done r.
    rewrite (IH lem' g Hrun).
    destruct (run_stages run post g); reflexivity.
Qed.

Lemma run_stages_head run s post lem :
  exists rest, fst (run_stages run (s :: post) lem) = s :: rest.
Proof.
  simpl. destruct (run s lem) as [lem'|c]; [|eexists; reflexivity].
  destruct (run_stages run post lem'). eexists. reflexivity.
Qed.

Lemma exit_status_small c : 0 <= c < 256 -> exit_status c = c.
Proof. intros H. unfold exit_status. apply Z.mod_small. exact H. Qed.

Lemma main_after_parse run fl lem lem1 :
  version fl = false -> nargs fl = 1 ->
  run Parse (set_errorcnt lem 0 (printPP fl)) = Cont lem1 ->
  main run fl lem =
  if printPreprocessed lem1 || (errorcnt lem1 >? 0)
  then ([Parse], exit_status (errorcnt lem1))
  else if nrule lem1 =? 0 then ([Parse], 1)
  else
    let '(done, r) := run_stages run (Numbering :: after_numbering fl) lem1 in
    match r with
    | Exit c => (Parse :: done, exit_status c)
    | Cont lem =>
        if (errorcnt lem >? 0) || (nconflict lem >? 0)
        then (Parse :: done, 1)
        else (Parse :: done, 0)
    end.
Proof. intros Hv Hn Hp. unfold main. rewrite Hv, Hn, Hp. reflexivity. Qed.

(** C5 (process exit code), as amended.  When [Parse] returns with errors
    (or [-E] was given) the process ends through [os.Exit(lem.errorcnt)]:
    its exit status is [exit_status] of the error count, which is the
    count itself, not 1, for up to 255 errors.  When the grammar has no
    rule it exits with 1; otherwise, if the later stages return, it exits
    with 1 when errors were accumulated or conflicts remain and with 0
    when there is neither. *)
Theorem main_exit_code run fl lem lem1 :
  version fl = false -> nargs fl = 1 ->
  run Parse (set_errorcnt lem 0 (printPP fl)) = Cont lem1 ->
  (printPreprocessed lem1 = true \/ 0 < errorcnt lem1 ->
   snd (main run fl lem) = exit_status (errorcnt lem1) /\
   (0 <= errorcnt lem1 < 256 -> snd (main run fl lem) = errorcnt lem1)) /\
  (printPreprocessed lem1 = false -> errorcnt lem1 <= 0 ->
   (nrule lem1 = 0 -> snd (main run fl lem) = 1) /\
   (nrule lem1 <> 0 ->
    forall done lem2,
      run_stages run (Numbering :: after_numbering fl) lem1 = (done, Cont lem2) ->
      (0 < errorcnt lem2 \/ 0 < nconflict lem2 -> snd (main run fl lem) = 1) /\
      (errorcnt lem2 <= 0 -> nconflict lem2 <= 0 -> snd (main run fl lem) = 0))).
Proof.
  intros Hv Hn Hp. rewrite (main_after_parse run fl lem lem1 Hv Hn Hp).
  rewrite Z.gtb_ltb. split.
  - intros Hexit.
    assert (Hc : printPreprocessed lem1 || (0 <? errorcnt lem1) = true).
    { destruct Hexit as [Hpp|Herr].
      - rewrite Hpp. reflexivity.
      - destruct (Z.ltb_spec 0 (errorcnt lem1)); [|lia].
        apply orb_true_r. }
    rewrite Hc. cbn [snd]. split; [reflexivity|].
    intros Hsmall. apply exit_status_small. exact Hsmall.
  - intros Hpp Herr. rewrite Hpp. cbn [orb].
    destruct (Z.ltb_spec 0 (errorcnt lem1)); [lia|].
    split.
    + intros ->. reflexivity.
    + intros Hr done lem2 Hrun.
      destruct (Z.eqb_spec (nrule lem1) 0); [contradiction|].
      rewrite Hrun. rewrite !Z.gtb_ltb.
      destruct (Z.ltb_spec 0 (errorcnt lem2)); destruct (Z.ltb_spec 0 (nconflict lem2));
        cbn [orb snd]; split; intros; try reflexivity; lia.
Qed.

Lemma main_exit_code_witness :
  snd (main run_late_errors ex_flags ex_lemon0) = 1 /\
  snd (main run_parse_errors ex_flags ex_lemon0) = 2.
Proof.
  split.
  - destruct (main_exit_code run_late_errors ex_flags ex_lemon0
                (set_errorcnt ex_lemon0 0 false) eq_refl eq_refl eq_refl)
      as [_ H].
    assert (H0 : errorcnt (set_errorcnt ex_lemon0 0 false) <= 0) by (simpl; lia).
    destruct (H eq_refl H0) as [_ H2].
    assert (H1 : nrule (set_errorcnt ex_lemon0 0 false) <> 0) by (simpl; lia).
    destruct (run_stages run_late_errors (Numbering :: after_numbering ex_flags)
                (set_errorcnt ex_lemon0 0 false)) as [done r] eqn:Hrun.
    destruct r as [lem2|c]; [|vm_compute in Hrun; discriminate].
    destruct (H2 H1 done lem2 eq_refl) as [H3 _].
    apply H3. left. vm_compute in Hrun. injection Hrun as <- <-. simpl. lia.
  - destruct (main_exit_code run_parse_errors ex_flags ex_lemon0
                (set_errorcnt ex_lemon0 2 false) eq_refl eq_refl eq_refl)
      as [H _].
    assert (H0 : 0 < errorcnt (set_errorcnt ex_lemon0 2 false)) by (simpl; lia).
    destruct (H (or_intror H0)) as [_ H1].
    apply H1. simpl. lia.
Defined.

(** Counterexample to C5 as stated: errors were accumulated (two, by
    [Parse]) and the exit code is 2, not 1. *)
Lemma parse_errors_exit_with_their_count :
  main run_parse_errors ex_flags ex_lemon0 = ([Parse], 2).
Proof. reflexivity. Qed.

(** With 256 errors from [Parse] the exit status is 0. *)
Lemma parse_errors_exit_status_wraps :
  main run_256_parse_errors ex_flags ex_lemon0 = ([Parse], 0).
Proof. reflexivity. Qed.

(** C6 (diagnostics continue past non-fatal errors), as amended.  When
    [Parse] returns with a non-zero error count (or [-E] was given), or
    the grammar has no rule, [main] ends the process and no later stage
    runs.  When [Parse] returns without errors on a grammar that has
    rules, each later stage [s] that the switches enable runs as soon as
    the stages [pre] before it have returned, whatever error count they
    leave in the grammar record [g]; when the stages all return, they all
    ran, in the order of the source. *)
Theorem later_stages_run run fl lem lem1 :
  version fl = false -> nargs fl = 1 ->
  run Parse (set_errorcnt lem 0 (printPP fl)) = Cont lem1 ->
  (printPreprocessed lem1 = true \/ 0 < errorcnt lem1 \/ nrule lem1 = 0 ->
   fst (main run fl lem) = [Parse]) /\
  (printPreprocessed lem1 = false -> errorcnt lem1 <= 0 -> nrule lem1 <> 0 ->
   (forall pre s post g,
      Numbering :: after_numbering fl = pre ++ s :: post ->
      run_stages run pre lem1 = (pre, Cont g) ->
      exists rest, fst (main run fl lem) = Parse :: pre ++ s :: rest) /\
   (forall g,
      run_stages run (Numbering :: after_numbering fl) lem1
        = (Numbering :: after_numbering fl, Cont g) ->
      fst (main run fl lem) = Parse :: Numbering :: after_numbering fl)).
Proof.
  intros Hv Hn Hp. rewrite (main_after_parse run fl lem lem1 Hv Hn Hp).
  rewrite Z.gtb_ltb. split.
  - intros Hstop.
    destruct (printPreprocessed lem1); [reflexivity|]. cbn [orb].
    destruct (Z.ltb_spec 0 (errorcnt lem1)); [reflexivity|].
    destruct Hstop as [Hpp|[Herr|Hr]]; [discriminate | lia |].
    rewrite Hr. reflexivity.
  - intros Hpp Herr Hr. rewrite Hpp. cbn [orb].
    destruct (Z.ltb_spec 0 (errorcnt lem1)); [lia|].
    destruct (Z.eqb_spec (nrule lem1) 0); [contradiction|].
    split.
    + intros pre s post g Hsplit Hpre. rewrite Hsplit.
      rewrite (run_stages_app run pre (s :: post) lem1 g Hpre).
      destruct (run_stages_head run s post g) as [rest Hrest].
      destruct (run_stages run (s :: post) g) as [done r].
      cbn [fst] in Hrest. subst done. exists rest.
      destruct r as [lem2|c]; [destruct (_ || _)|]; reflexivity.
    + intros g Hall. rewrite Hall. destruct (_ || _); reflexivity.
Qed.

Lemma later_stages_run_witness :
  fst (main run_parse_errors ex_flags ex_lemon0) = [Parse] /\
  (exists rest,
     fst (main run_late_errors ex_flags ex_lemon0) =
     Parse :: [Numbering; FindRulePrecedences; FindFirstSets; FindStates]
       ++ FindLinks :: rest) /\
  fst (main run_late_errors ex_flags ex_lemon0)
    = Parse :: Numbering :: after_numbering ex_flags.
Proof.
  split; [|split].
  - destruct (later_stages_run run_parse_errors ex_flags ex_lemon0
                (set_errorcnt ex_lemon0 2 false) eq_refl eq_refl eq_refl)
      as [H _].
    apply H. right. left. simpl. lia.
  - destruct (later_stages_run run_late_errors ex_flags ex_lemon0
                (set_errorcnt ex_lemon0 0 false) eq_refl eq_refl eq_refl)
      as [_ H].
    assert (H0 : errorcnt (set_errorcnt ex_lemon0 0 false) <= 0) by (simpl; lia).
    assert (H1 : nrule (set_errorcnt ex_lemon0 0 false) <> 0) by (simpl; lia).
    destruct (H eq_refl H0 H1) as [H2 _].
    apply (H2 [Numbering; FindRulePrecedences; FindFirstSets; FindStates]
              FindLinks
              [FindFollowSets; FindActions; CompressTables; ResortStates;
               ReportOutput; ReportTable]
              (set_errorcnt ex_lemon0 1 false)); reflexivity.
  - destruct (later_stages_run run_late_errors ex_flags ex_lemon0
                (set_errorcnt ex_lemon0 0 false) eq_refl eq_refl eq_refl)
      as [_ H].
    assert (H0 : errorcnt (set_errorcnt ex_lemon0 0 false) <= 0) by (simpl; lia).
    assert (H1 : nrule (set_errorcnt ex_lemon0 0 false) <> 0) by (simpl; lia).
    destruct (H eq_refl H0 H1) as [_ H2].
    apply (H2 (set_errorcnt ex_lemon0 2 false)). reflexivity.
Defined.

(** Counterexample to C6 as stated: [Parse] finishes with a non-zero
    error count and no later stage runs. *)
Lemma parse_errors_stop_the_run :
  errorcnt (set_errorcnt ex_lemon0 2 false) = 2 /\
  fst (main run_parse_errors ex_flags ex_lemon0) = [Parse] /\
  FindStates ∉ fst (main run_parse_errors ex_flags ex_lemon0).
Proof.
  split; [reflexivity|]. split; [reflexivity|].
  intros H. apply list_elem_of_singleton in H. discriminate.
Qed.

(** ** The symbol table that [Parse] leaves *)

Lemma Symbol_find_Some tab x s :
  Symbol_find tab x = Some s -> s ∈ tab /\ name s = x.
Proof.
  unfold Symbol_find. induction tab as [|a tab IH]; simpl; [discriminate|].
  destruct (String.eqb_spec (name a) x) as [Heq|Hne].
  - intros [= <-]. split; [left | exact Heq].
  - intros H. destruct (IH H) as [Hin Hn]. split; [right; exact Hin | exact Hn].
Qed.

Lemma Symbol_find_None tab x :
  Symbol_find tab x = None <-> x ∉ name <$> tab.
Proof.
  unfold Symbol_find. induction tab as [|a tab IH]; simpl.
  - split; [intros _ H; apply elem_of_nil in H; exact H | reflexivity].
  - destruct (String.eqb_spec (name a) x) as [Heq|Hne].
    + split; [discriminate|]. intros H. destruct H. subst x. left.
    + rewrite IH. split.
      * intros H Hin. apply elem_of_cons in Hin. destruct Hin as [->|Hin]; auto.
      * intros H Hin. apply H. right. exact Hin.
Qed.

Lemma upper_initial_firstRune up x :
  upper_initial x -> firstRuneIsUpper up x = true.
Proof.
  intros (b & Hb & Hr). unfold firstRuneIsUpper. rewrite Hb.
  destruct (Z.ltb_spec b 128); [|lia].
  destruct (Z.leb_spec 65 b); destruct (Z.leb_spec b 90); simpl; auto; lia.
Qed.

Lemma lower_initial_firstRune up x :
  lower_initial x -> firstRuneIsUpper up x = false.
Proof.
  intros (b & Hb & Hr). unfold firstRuneIsUpper. rewrite Hb.
  destruct (Z.ltb_spec b 128); [|lia].
  destruct (Z.leb_spec 65 b); destruct (Z.leb_spec b 90); simpl; auto; lia.
Qed.

Lemma initial_not_dollar x :
  upper_initial x \/ lower_initial x -> x <> "$"%string.
Proof.
  intros [(b & Hb & Hr)|(b & Hb & Hr)] ->; vm_compute in Hb;
    injection Hb as <-; lia.
Qed.

Lemma upper_not_lower x : upper_initial x -> lower_initial x -> False.
Proof. intros (b & Hb & Hr) (b' & Hb' & Hr'). rewrite Hb in Hb'. injection Hb' as <-. lia. Qed.

Lemma Symbol_new_inv up tab x :
  tab_inv tab -> upper_initial x \/ lower_initial x ->
  tab_inv (Symbol_new up tab x).
Proof.
  intros [Hh Hnd Hk Hs] Hx. unfold Symbol_new.
  destruct (Symbol_find tab x) as [s|] eqn:Hf; [constructor; assumption|].
  apply Symbol_find_None in Hf.
  set (snew := mkSymbol x 0 (if firstRuneIsUpper up x then TERMINAL else NONTERMINAL)
                        (-1) UNK []).
  constructor.
  - destruct Hh as (s0 & rest & -> & Hn & Ht). exists s0, (rest ++ [snew]). auto.
  - rewrite fmap_app. apply NoDup_app. split; [exact Hnd|]. split.
    + intros y Hy Hy'. simpl in Hy'. apply list_elem_of_singleton in Hy'. subst y. auto.
    + simpl. apply NoDup_singleton.
  - intros s Hin. apply elem_of_app in Hin. destruct Hin as [Hin|Hin]; [auto|].
    apply list_elem_of_singleton in Hin. subst s. simpl. right.
    destruct Hx as [Hx|Hx].
    + left. rewrite (upper_initial_firstRune up x Hx). auto.
    + right. rewrite (lower_initial_firstRune up x Hx). split; [exact Hx | discriminate].
  - intros s c Hin Hc. apply elem_of_app in Hin. destruct Hin as [Hin|Hin].
    + destruct (Hs s c Hin Hc) as (t & Ht & Hr). exists t.
      split; [apply elem_of_app; left; exact Ht | exact Hr].
    + apply list_elem_of_singleton in Hin. subst s. simpl in Hc.
      apply elem_of_nil in Hc. contradiction.
Qed.

Lemma update_named_names x f tab :
  (forall s, name (f s) = name s) ->
  name <$> update_named x f tab = name <$> tab.
Proof.
  intros Hf. unfold update_named. rewrite <- list_fmap_compose.
  apply list_fmap_ext. intros i s _. simpl.
  destruct (String.eqb (name s) x); [apply Hf | reflexivity].
Qed.

Lemma update_named_elem x f tab s' :
  s' ∈ update_named x f tab <->
  exists s, s ∈ tab /\ s' = if String.eqb (name s) x then f s else s.
Proof.
  unfold update_named. rewrite list_elem_of_fmap. split.
  - intros (s & -> & Hs). eauto.
  - intros (s & Hs & ->). eauto.
Qed.

Lemma update_named_inv x f tab :
  tab_inv tab ->
  (forall s, name (f s) = name s) ->
  (forall s, s ∈ tab -> name s = x ->
     name s <> "$"%string /\
     (typ s = TERMINAL -> typ (f s) = TERMINAL) /\
     (typ s <> TERMINAL -> typ (f s) <> TERMINAL) /\
     forall c, c ∈ subsym (f s) ->
       c ∈ subsym s \/ exists t, t ∈ tab /\ name t = c /\ typ t = TERMINAL) ->
  tab_inv (update_named x f tab).
Proof.
  intros [Hh Hnd Hk Hs] Hname Hf.
  assert (Hterm : forall t, t ∈ tab -> typ t = TERMINAL ->
            exists t', t' ∈ update_named x f tab /\ name t' = name t /\ typ t' = TERMINAL).
  { intros t Ht Hty. exists (if String.eqb (name t) x then f t else t).
    split; [apply update_named_elem; eauto|].
    destruct (String.eqb_spec (name t) x) as [Heq|Hne]; [|auto].
    split; [apply Hname|]. apply (Hf t Ht Heq). exact Hty. }
  constructor.
  - destruct Hh as (s0 & rest & -> & Hn & Ht).
    exists s0, (update_named x f rest). split; [|auto].
    unfold update_named. simpl.
    destruct (String.eqb_spec (name s0) x) as [Heq|Hne]; [|reflexivity].
    destruct (Hf s0) as [Hd _]; [left | exact Heq | contradiction].
  - rewrite update_named_names by exact Hname. exact Hnd.
  - intros s' Hin. apply update_named_elem in Hin. destruct Hin as (s & Hin & ->).
    destruct (String.eqb_spec (name s) x) as [Heq|Hne]; [|auto].
    destruct (Hf s Hin Heq) as (Hd & Ht1 & Ht2 & _). rewrite Hname.
    destruct (Hk s Hin) as [H|[[H1 H2]|[H1 H2]]]; [contradiction | auto | auto].
  - intros s' c Hin Hc. apply update_named_elem in Hin. destruct Hin as (s & Hin & ->).
    assert (Hold : c ∈ subsym s \/ exists t, t ∈ tab /\ name t = c /\ typ t = TERMINAL).
    { destruct (String.eqb_spec (name s) x) as [Heq|Hne]; [|auto].
      destruct (Hf s Hin Heq) as (_ & _ & _ & Hsub). auto. }
    assert (Ht : exists t, t ∈ tab /\ name t = c /\ typ t = TERMINAL).
    { destruct Hold as [Hold|Hold]; [apply (Hs s c Hin Hold) | exact Hold]. }
    destruct Ht as (t & Ht & Hn & Hty).
    destruct (Hterm t Ht Hty) as (t' & Ht' & Hn' & Hty').
    exists t'. split; [exact Ht'|]. split; [congruence | exact Hty'].
Qed.

Lemma parsed_inv up tab : parsed up tab -> tab_inv tab.
Proof.
  induction 1 as [|tab x Hp IH Hx|tab x p a Hp IH Hx|tab x Hp IH Hx Hnew
                  |tab cls s x Hp IH Hfind Hty Hx].
  - unfold Symbol_new. simpl. constructor.
    + eexists _, []. split; [reflexivity|]. split; reflexivity.
    + simpl. apply NoDup_singleton.
    + intros s Hs. apply list_elem_of_singleton in Hs. subst s. left. reflexivity.
    + intros s c Hs Hc. apply list_elem_of_singleton in Hs. subst s. simpl in Hc.
      apply elem_of_nil in Hc. contradiction.
  - apply Symbol_new_inv; assumption.
  - apply (update_named_inv x
             (fun s => mkSymbol (name s) (index s) (typ s) p a (subsym s))).
    + apply Symbol_new_inv; auto.
    + reflexivity.
    + intros s Hs Hn. simpl. split; [|auto].
      rewrite Hn. apply initial_not_dollar. auto.
  - pose proof (Symbol_new_inv up tab x IH (or_intror Hx)) as Hinv.
    apply (update_named_inv x
             (fun s => mkSymbol (name s) (index s) MULTITERMINAL (prec s) (assoc s) (subsym s)));
      [exact Hinv | reflexivity |].
    intros s Hs Hn. simpl. split; [rewrite Hn; apply initial_not_dollar; auto|].
    split; [|split; [discriminate | auto]].
    intros Hty. exfalso.
    destruct (inv_kind _ Hinv s Hs) as [H|[[H1 H2]|[H1 H2]]].
    + rewrite Hn in H. apply (initial_not_dollar x (or_intror Hx)). exact H.
    + rewrite Hn in H1. apply (upper_not_lower x H1 Hx).
    + contradiction.
  - pose proof (Symbol_new_inv up tab x IH (or_introl Hx)) as Hinv.
    apply Symbol_find_Some in Hfind. destruct Hfind as [Hin Hcls].
    apply (update_named_inv cls
             (fun s => mkSymbol (name s) (index s) (typ s) (prec s) (assoc s)
                                (subsym s ++ [x])));
      [exact Hinv | reflexivity |].
    intros s0 Hs0 Hn0. simpl.
    assert (Hsame : s0 = s).
    { assert (Hin' : s ∈ Symbol_new up tab x).
      { unfold Symbol_new. destruct (Symbol_find tab x); [exact Hin|].
        apply elem_of_app. left. exact Hin. }
      apply list_elem_of_lookup in Hs0, Hin'.
      destruct Hs0 as [i Hi]. destruct Hin' as [j Hj].
      assert (i = j).
      { apply (NoDup_lookup _ i j cls (inv_nodup _ Hinv));
          rewrite list_lookup_fmap; [rewrite Hi | rewrite Hj]; simpl; congruence. }
      congruence. }
    subst s0. split.
    + intros Hd. destruct (inv_kind _ IH s Hin) as [H|[[H1 H2]|[H1 H2]]].
      * destruct (inv_head _ IH) as (d & rest & Htab & Hdn & Hdt).
        assert (s = d).
        { assert (Hd' : d ∈ tab) by (rewrite Htab; left).
          apply list_elem_of_lookup in Hin, Hd'.
          destruct Hin as [i Hi]. destruct Hd' as [j Hj].
          assert (i = j).
          { apply (NoDup_lookup _ i j "$"%string (inv_nodup _ IH));
              rewrite list_lookup_fmap; [rewrite Hi | rewrite Hj]; simpl; congruence. }
          congruence. }
        subst d. congruence.
      * congruence.
      * apply (initial_not_dollar (name s) (or_intror H1)). congruence.
    + split; [auto|]. split; [auto|].
      intros c Hc. apply elem_of_app in Hc. destruct Hc as [Hc|Hc]; [left; exact Hc|].
      apply list_elem_of_singleton in Hc. subst c. right.
      unfold Symbol_new. destruct (Symbol_find tab x) as [t|] eqn:Hft.
      * apply Symbol_find_Some in Hft. destruct Hft as [Ht Htn]. exists t.
        split; [exact Ht|]. split; [exact Htn|].
        destruct (inv_kind _ IH t Ht) as [H|[[H1 H2]|[H1 H2]]].
        -- exfalso. apply (initial_not_dollar x (or_introl Hx)). congruence.
        -- exact H2.
        -- exfalso. rewrite Htn in H1. apply (upper_not_lower x Hx H1).
      * eexists. split; [apply elem_of_app; right; apply list_elem_of_singleton; reflexivity|].
        simpl. split; [reflexivity|].
        rewrite (upper_initial_firstRune up x Hx). reflexivity.
Qed.

(** ** The sort of the symbols *)

Lemma assign_indices_length l : forall i, length (assign_indices l i) = length l.
Proof. induction l as [|s l IH]; intros i; simpl; [reflexivity | f_equal; apply IH]. Qed.

Lemma assign_indices_lookup l : forall i (k : nat),
  assign_indices l i !! k = (fun s => set_index s (i + Z.of_nat k)) <$> l !! k.
Proof.
  induction l as [|s l IH]; intros i k; simpl; [reflexivity|].
  destruct k as [|k]; simpl.
  - f_equal. f_equal. lia.
  - rewrite IH. destruct (l !! k); simpl; [|reflexivity]. do 2 f_equal. lia.
Qed.

Lemma assign_indices_app l1 l2 i :
  assign_indices (l1 ++ l2) i =
  assign_indices l1 i ++ assign_indices l2 (i + Z.of_nat (length l1)).
Proof.
  revert i. induction l1 as [|s l1 IH]; intros i; simpl.
  - f_equal. lia.
  - f_equal. rewrite IH. do 2 f_equal. lia.
Qed.

Lemma assign_indices_elem l i s' :
  s' ∈ assign_indices l i ->
  exists s, s ∈ l /\ name s' = name s /\ typ s' = typ s /\
            subsym s' = subsym s /\ i <= index s'.
Proof.
  revert i. induction l as [|s l IH]; intros i H; simpl in H.
  - apply elem_of_nil in H. contradiction.
  - apply elem_of_cons in H. destruct H as [->|H].
    + exists s. split; [left|]. simpl. repeat split; lia.
    + destruct (IH _ H) as (s0 & Hs0 & Hn & Ht & Hsub & Hi).
      exists s0. split; [right; exact Hs0|]. repeat split; auto; lia.
Qed.

Lemma assign_indices_sorted l : forall i,
  StronglySorted index_lt (assign_indices l i).
Proof.
  induction l as [|s l IH]; intros i; simpl; constructor; [apply IH|].
  apply Forall_forall. intros s' Hs'.
  apply assign_indices_elem in Hs'. destruct Hs' as (_ & _ & _ & _ & _ & Hi).
  unfold index_lt. simpl. lia.
Qed.

Lemma StronglySorted_filter {A : Type} (R : relation A) (P : A -> Prop)
    `{forall x, Decision (P x)} (l : list A) :
  StronglySorted R l -> StronglySorted R (filter P l).
Proof.
  induction 1 as [|x l Hs IH Hall]; [constructor|].
  rewrite filter_cons. destruct (decide (P x)); [|exact IH].
  constructor; [exact IH|].
  apply Forall_forall. intros y Hy. apply list_elem_of_filter in Hy.
  rewrite Forall_forall in Hall. apply Hall. tauto.
Qed.

Lemma index_lt_unique l a b :
  StronglySorted index_lt l -> a ∈ l -> b ∈ l -> index a = index b -> a = b.
Proof.
  induction 1 as [|x l Hs IH Hall]; intros Ha Hb Hi.
  - apply elem_of_nil in Ha. contradiction.
  - rewrite Forall_forall in Hall. unfold index_lt in Hall.
    apply elem_of_cons in Ha. apply elem_of_cons in Hb.
    destruct Ha as [->|Ha]; destruct Hb as [->|Hb]; auto.
    + specialize (Hall b Hb). lia.
    + specialize (Hall a Ha). lia.
Qed.

Lemma sort_class_range s : sort_class s = 1 \/ sort_class s = 2 \/ sort_class s = 3.
Proof.
  unfold sort_class. destruct (bool_decide _); [auto|].
  destruct (byte0 (name s)) as [b|]; [|auto]. destruct (b >? 90); auto.
Qed.

Global Instance symbol_le_trans : Transitive symbol_le.
Proof.
  intros a b c. unfold symbol_le, Symbolcmpp.
  destruct (sort_class_range a) as [Ha|[Ha|Ha]];
    destruct (sort_class_range b) as [Hb|[Hb|Hb]];
    destruct (sort_class_range c) as [Hc|[Hc|Hc]];
    rewrite Ha, Hb, Hc; simpl; lia.
Qed.

Global Instance symbol_le_total : Total symbol_le.
Proof.
  intros a b. unfold symbol_le, Symbolcmpp.
  destruct (sort_class_range a) as [Ha|[Ha|Ha]];
    destruct (sort_class_range b) as [Hb|[Hb|Hb]];
    rewrite Ha, Hb; simpl; lia.
Qed.

Global Instance of_class_dec k s : Decision (of_class k s).
Proof. unfold of_class. apply Z.eq_dec. Defined.

Lemma class_partition l :
  l ≡ₚ filter (of_class 1) l ++ filter (of_class 2) l ++ filter (of_class 3) l.
Proof.
  induction l as [|s l IH]; [reflexivity|].
  rewrite !filter_cons.
  destruct (sort_class_range s) as [Hc|[Hc|Hc]];
    destruct (decide (of_class 1 s)) as [H1|H1];
    destruct (decide (of_class 2 s)) as [H2|H2];
    destruct (decide (of_class 3 s)) as [H3|H3];
    unfold of_class in H1, H2, H3; try lia.
  - rewrite <- app_comm_cons. constructor. exact IH.
  - rewrite <- app_comm_cons, <- Permutation_middle. constructor. exact IH.
  - rewrite app_assoc, <- Permutation_middle, <- app_assoc. constructor. exact IH.
Qed.

(** The sorted slice: the symbols of the first class, then those of the
    second, then the MULTITERMINALs, each in the original order. *)
Lemma sort_symbols_classes l :
  StronglySorted index_lt l ->
  sort_symbols l =
  filter (of_class 1) l ++ filter (of_class 2) l ++ filter (of_class 3) l.
Proof.
  intros Hl. unfold sort_symbols.
  apply (StronglySorted_unique_strong symbol_le).
  - intros a b Ha Hb Hab Hba.
    rewrite merge_sort_Permutation in Ha. rewrite <- class_partition in Hb.
    apply (index_lt_unique l a b Hl Ha Hb).
    unfold symbol_le, Symbolcmpp in Hab, Hba.
    destruct (Z.eqb_spec (sort_class a) (sort_class b)) as [Heq|Hne].
    + rewrite Heq, Z.eqb_refl in Hba. lia.
    + destruct (Z.eqb_spec (sort_class b) (sort_class a)); lia.
  - apply StronglySorted_merge_sort; apply _.
  - assert (Hin : forall k, StronglySorted symbol_le (filter (of_class k) l)).
    { intros k. pose proof (StronglySorted_filter index_lt (of_class k) l Hl) as Hs.
      assert (Hk : Forall (of_class k) (filter (of_class k) l)).
      { apply Forall_forall. intros s Hs'. apply list_elem_of_filter in Hs'. tauto. }
      induction Hs as [|x f Hs IH Hall]; [constructor|].
      apply Forall_cons in Hk. destruct Hk as [Hx Hk].
      constructor; [apply IH; exact Hk|].
      rewrite Forall_forall in Hall, Hk. apply Forall_forall. intros y Hy.
      specialize (Hall y Hy). specialize (Hk y Hy).
      unfold symbol_le, Symbolcmpp, of_class, index_lt in *.
      rewrite Hx, Hk, Z.eqb_refl. lia. }
    assert (Hcross : forall j k a b, j < k ->
              a ∈ filter (of_class j) l -> b ∈ filter (of_class k) l ->
              symbol_le a b).
    { intros j k a b Hjk Ha Hb. apply list_elem_of_filter in Ha, Hb.
      destruct Ha as [Ha _]. destruct Hb as [Hb _].
      unfold symbol_le, Symbolcmpp, of_class in *. rewrite Ha, Hb.
      destruct (Z.eqb_spec j k); lia. }
    apply StronglySorted_app_2; [|apply Hin|].
    + intros a b Ha Hb. apply elem_of_app in Hb.
      destruct Hb as [Hb|Hb]; [apply (Hcross 1 2) | apply (Hcross 1 3)]; auto; lia.
    + apply StronglySorted_app_2; [|apply Hin|apply Hin].
      intros a b Ha Hb. apply (Hcross 2 3); auto; lia.
  - rewrite merge_sort_Permutation. apply class_partition.
Qed.

(** ** The two loops that find [nsymbol] and [nterminal] *)

Lemma skip_multiterminals_spec syms : forall cnt i j,
  1 <= j <= i -> i - j < Z.of_nat cnt ->
  (forall k, j <= k < i ->
     exists s, syms !! Z.to_nat k = Some s /\ typ s = MULTITERMINAL) ->
  (exists s, syms !! Z.to_nat (j - 1) = Some s /\ typ s <> MULTITERMINAL) ->
  skip_multiterminals syms cnt i = Ok j.
Proof.
  induction cnt as [|c IH]; intros i j Hj Hc Hm Hd; [lia|]. simpl.
  destruct (Z.eq_dec i j) as [->|Hne].
  - destruct Hd as (s & Hs & Ht).
    assert (Hrd : rd syms (j - 1) = Ok s) by (apply rd_Ok; split; [lia | exact Hs]).
    rewrite Hrd. simpl. rewrite bool_decide_eq_false_2 by exact Ht. reflexivity.
  - destruct (Hm (i - 1)) as (s & Hs & Ht); [lia|].
    assert (Hrd : rd syms (i - 1) = Ok s) by (apply rd_Ok; split; [lia | exact Hs]).
    rewrite Hrd. simpl. rewrite bool_decide_eq_true_2 by exact Ht.
    apply IH; [lia | lia | | exact Hd].
    intros k Hk. apply Hm. lia.
Qed.

Lemma count_terminals_spec up syms : forall cnt i j,
  0 <= i <= j -> j - i < Z.of_nat cnt ->
  (forall k, i <= k < j ->
     exists s, syms !! Z.to_nat k = Some s /\ firstRuneIsUpper up (name s) = true) ->
  (exists s, syms !! Z.to_nat j = Some s /\ firstRuneIsUpper up (name s) = false) ->
  count_terminals up syms cnt i = Ok j.
Proof.
  induction cnt as [|c IH]; intros i j Hj Hc Hm Hd; [lia|]. simpl.
  destruct (Z.eq_dec i j) as [->|Hne].
  - destruct Hd as (s & Hs & Ht).
    assert (Hrd : rd syms j = Ok s) by (apply rd_Ok; split; [lia | exact Hs]).
    rewrite Hrd. simpl. rewrite Ht. reflexivity.
  - destruct (Hm i) as (s & Hs & Ht); [lia|].
    assert (Hrd : rd syms i = Ok s) by (apply rd_Ok; split; [lia | exact Hs]).
    rewrite Hrd. simpl. rewrite Ht.
    apply IH; [lia | lia | | exact Hd].
    intros k Hk. apply Hm. lia.
Qed.

Lemma assign_indices_Forall (P : symbol -> Prop) l i :
  (forall s k, P s -> P (set_index s k)) ->
  Forall P l -> Forall P (assign_indices l i).
Proof.
  intros HP H. revert i. induction H as [|s l Hs Hl IH]; intros i; simpl;
    constructor; auto.
Qed.

Lemma assign_indices_names l i : name <$> assign_indices l i = name <$> l.
Proof. revert i. induction l as [|s l IH]; intros i; simpl; [reflexivity | f_equal; apply IH]. Qed.

Lemma assign_indices_dense l (k : nat) s :
  assign_indices l 0 !! k = Some s -> index s = Z.of_nat k.
Proof.
  rewrite assign_indices_lookup. destruct (l !! k); [|discriminate].
  intros [= <-]. simpl. lia.
Qed.

Lemma sort_class_set_index s i : sort_class (set_index s i) = sort_class s.
Proof. reflexivity. Qed.

(** ** The layout of the sorted array *)

Lemma class_kind tab s :
  tab_inv tab -> s ∈ tab -> name s <> "$"%string ->
  (sort_class s = 1 /\ typ s = TERMINAL /\ upper_initial (name s)) \/
  (sort_class s = 2 /\ typ s = NONTERMINAL /\ lower_initial (name s)) \/
  (sort_class s = 3 /\ typ s = MULTITERMINAL /\ lower_initial (name s)).
Proof.
  intros [_ _ Hk _] Hs Hn.
  destruct (Hk s Hs) as [H|[[Hu Ht]|[Hl Ht]]]; [contradiction| |].
  - left. split; [|split; assumption].
    unfold sort_class. rewrite Ht. rewrite bool_decide_eq_false_2 by discriminate.
    destruct Hu as (b & -> & Hb). destruct (Z.gtb_spec b 90); [lia | reflexivity].
  - right. destruct (typ s) eqn:Hty; [contradiction| |].
    + left. split; [|split; [reflexivity | assumption]].
      unfold sort_class. rewrite Hty. rewrite bool_decide_eq_false_2 by discriminate.
      destruct Hl as (b & -> & Hb). destruct (Z.gtb_spec b 90); [reflexivity | lia].
    + right. split; [|split; [reflexivity | assumption]].
      unfold sort_class. rewrite Hty. rewrite bool_decide_eq_true_2 by reflexivity.
      reflexivity.
Qed.

Lemma rest_not_dollar s0 rest s :
  tab_inv (s0 :: rest) -> s ∈ rest -> name s <> "$"%string.
Proof.
  intros [(a & r & Heq & Hn & _) Hnd _ _] Hs He.
  injection Heq as <- <-. simpl in Hnd. apply NoDup_cons in Hnd.
  destruct Hnd as [Hnin _]. apply Hnin. rewrite Hn, <- He.
  apply list_elem_of_fmap_2. exact Hs.
Qed.

Lemma assign_indices_elem_fwd l s : forall i,
  s ∈ l -> exists k, set_index s k ∈ assign_indices l i.
Proof.
  induction l as [|a l IH]; intros i H.
  - apply elem_of_nil in H. contradiction.
  - apply elem_of_cons in H. destruct H as [->|H]; simpl.
    + exists i. left.
    + destruct (IH (i + 1) H) as (k & Hk). exists k. right. exact Hk.
Qed.

Lemma default_not_interned tab :
  tab_inv tab -> Symbol_find tab "{default}" = None.
Proof.
  intros [_ _ Hk _]. apply Symbol_find_None. intros Hin.
  apply list_elem_of_fmap in Hin. destruct Hin as (s & Hn & Hs).
  destruct (Hk s Hs) as [H|[[(b & Hb & Hr) _]|[(b & Hb & Hr) _]]];
    rewrite <- Hn in *; [discriminate | |]; vm_compute in Hb; injection Hb as <-; lia.
Qed.

Lemma layout_lookup_U (d : symbol) U T (k : nat) :
  (k < length U)%nat -> (d :: U ++ T) !! S k = U !! k.
Proof. intros H. simpl. apply lookup_app_l. exact H. Qed.

Lemma layout_lookup_T (d : symbol) U T (k : nat) :
  (d :: U ++ T) !! S (length U + k) = T !! k.
Proof.
  simpl. rewrite lookup_app_r by lia. f_equal. lia.
Qed.

Lemma sort_class_ext s s' :
  name s = name s' -> typ s = typ s' -> sort_class s = sort_class s'.
Proof. intros Hn Ht. unfold sort_class. rewrite Hn, Ht. reflexivity. Qed.

Lemma renumbered_kind s0 rest i s :
  tab_inv (s0 :: rest) -> s ∈ assign_indices rest i ->
  (sort_class s = 1 /\ typ s = TERMINAL /\ upper_initial (name s)) \/
  (sort_class s = 2 /\ typ s = NONTERMINAL /\ lower_initial (name s)) \/
  (sort_class s = 3 /\ typ s = MULTITERMINAL /\ lower_initial (name s)).
Proof.
  intros Hinv Hs. apply assign_indices_elem in Hs.
  destruct Hs as (s' & Hs' & Hn & Ht & _ & _).
  rewrite (sort_class_ext s s' Hn Ht), Hn, Ht.
  apply (class_kind (s0 :: rest)); [exact Hinv | right; exact Hs' |].
  apply (rest_not_dollar s0 rest); assumption.
Qed.

Lemma sorted_layout s0 rest :
  tab_inv (s0 :: rest) ->
  let R := assign_indices rest 1 in
  let d := set_index dflt_symbol (1 + Z.of_nat (length rest)) in
  sort_symbols (assign_indices (s0 :: rest ++ [dflt_symbol]) 0) =
  set_index s0 0 :: filter (of_class 1) R ++ filter (of_class 2) R ++
  d :: filter (of_class 3) R.
Proof.
  intros Hinv R d.
  rewrite sort_symbols_classes by apply assign_indices_sorted.
  assert (Hl : assign_indices (s0 :: rest ++ [dflt_symbol]) 0 =
               set_index s0 0 :: R ++ [d]).
  { simpl. f_equal. rewrite assign_indices_app. simpl. unfold R, d.
    do 3 f_equal; lia. }
  rewrite Hl.
  assert (H0 : sort_class (set_index s0 0) = 1).
  { destruct Hinv as [(a & r & Heq & Hn & Ht) _ _ _]. injection Heq as <- <-.
    unfold sort_class. simpl. rewrite Ht, Hn. reflexivity. }
  assert (Hd : sort_class d = 2) by reflexivity.
  rewrite !filter_cons, !filter_app, !filter_cons, !filter_nil.
  repeat match goal with
  | |- context [decide (of_class ?k ?s)] =>
      destruct (decide (of_class k s)) as [Hc|Hc]; unfold of_class in Hc;
      rewrite ?H0, ?Hd in Hc; try lia; clear Hc
  end.
  rewrite ?app_nil_r, <- !app_assoc. reflexivity.
Qed.

Lemma class3_multi s : sort_class s = 3 -> typ s = MULTITERMINAL.
Proof.
  unfold sort_class. destruct (bool_decide_reflect (typ s = MULTITERMINAL)); [auto|].
  destruct (byte0 (name s)) as [b|]; [destruct (b >? 90)|]; discriminate.
Qed.

Lemma class_lengths (l : list symbol) :
  (length (filter (of_class 1) l) + length (filter (of_class 2) l) +
   length (filter (of_class 3) l) = length l)%nat.
Proof.
  pose proof (Permutation_length (class_partition l)) as H.
  rewrite !length_app in H. lia.
Qed.

Lemma number_symbols_layout up s0 rest :
  tab_inv (s0 :: rest) ->
  let R := assign_indices rest 1 in
  let U := filter (of_class 1) R in
  let L := filter (of_class 2) R in
  let M := filter (of_class 3) R in
  let d := set_index dflt_symbol (1 + Z.of_nat (length rest)) in
  number_symbols up (s0 :: rest) =
  Ok (mkNumbering (assign_indices (set_index s0 0 :: U ++ L ++ d :: M) 0)
                  (1 + Z.of_nat (length U) + Z.of_nat (length L))
                  (1 + Z.of_nat (length U))).
Proof.
  intros Hinv R U L M d.
  assert (Hnew : Symbol_new up (s0 :: rest) "{default}" =
                 s0 :: rest ++ [dflt_symbol]).
  { unfold Symbol_new. rewrite (default_not_interned _ Hinv). reflexivity. }
  unfold number_symbols. rewrite Hnew. unfold Symbol_arrayof, Symbol_count.
  cbv zeta. rewrite (sorted_layout s0 rest Hinv). fold R. fold d. fold U L M.
  set (pre := set_index s0 0 :: U ++ L ++ d :: M).
  set (syms := assign_indices pre 0).
  pose proof (class_lengths R) as Hlen. fold U L M in Hlen.
  unfold R in Hlen. rewrite assign_indices_length in Hlen.
  assert (Hsl : length syms = (2 + length U + length L + length M)%nat).
  { unfold syms. rewrite assign_indices_length. unfold pre. simpl.
    rewrite !length_app. simpl. lia. }
  assert (Hkind : forall s, s ∈ R ->
            (sort_class s = 1 /\ typ s = TERMINAL /\ upper_initial (name s)) \/
            (sort_class s = 2 /\ typ s = NONTERMINAL /\ lower_initial (name s)) \/
            (sort_class s = 3 /\ typ s = MULTITERMINAL /\ lower_initial (name s))).
  { intros s Hs. apply (renumbered_kind s0 rest 1); assumption. }
  assert (Hskip : skip_multiterminals syms (S (length syms))
                    (Z.of_nat (length (s0 :: rest ++ [dflt_symbol]))) =
                  Ok (2 + Z.of_nat (length U) + Z.of_nat (length L))).
  { apply skip_multiterminals_spec.
    - simpl. rewrite length_app. simpl. lia.
    - rewrite Hsl. simpl length. rewrite length_app. simpl length. lia.
    - intros k Hk. simpl length in Hk. rewrite length_app in Hk. simpl length in Hk.
      set (m := Z.to_nat (k - (2 + Z.of_nat (length U) + Z.of_nat (length L)))).
      assert (Hm : (m < length M)%nat) by (unfold m; lia).
      destruct (lookup_lt_is_Some_2 M m Hm) as (s & Hs).
      exists (set_index s (0 + Z.of_nat (Z.to_nat k))). split.
      + unfold syms. rewrite assign_indices_lookup.
        replace (Z.to_nat k) with (S (length U + (length L + S m))) at 1
          by (unfold m; lia).
        unfold pre. rewrite layout_lookup_T. rewrite lookup_app_r by lia.
        replace (length L + S m - length L)%nat with (S m) by lia.
        simpl. rewrite Hs. reflexivity.
      + simpl. apply class3_multi.
        apply list_elem_of_lookup_2 in Hs. apply list_elem_of_filter in Hs.
        destruct Hs as [Hc _]. exact Hc.
    - exists (set_index d (0 + Z.of_nat
               (Z.to_nat (2 + Z.of_nat (length U) + Z.of_nat (length L) - 1)))).
      split; [|simpl; discriminate].
      unfold syms. rewrite assign_indices_lookup.
      replace (Z.to_nat (2 + Z.of_nat (length U) + Z.of_nat (length L) - 1))
        with (S (length U + (length L + 0))) at 1 by lia.
      unfold pre. rewrite layout_lookup_T. rewrite lookup_app_r by lia.
      replace (length L + 0 - length L)%nat with 0%nat by lia. reflexivity. }
  rewrite Hskip. cbn [bind].
  assert (Hrd : rd syms (2 + Z.of_nat (length U) + Z.of_nat (length L) - 1) =
                Ok (set_index d (1 + Z.of_nat (length U) + Z.of_nat (length L)))).
  { apply rd_Ok. split; [lia|].
    unfold syms. rewrite assign_indices_lookup.
    replace (Z.to_nat (2 + Z.of_nat (length U) + Z.of_nat (length L) - 1))
      with (S (length U + (length L + 0))) by lia.
    unfold pre. rewrite layout_lookup_T. rewrite lookup_app_r by lia.
    replace (length L + 0 - length L)%nat with 0%nat by lia. simpl.
    do 2 f_equal. lia. }
  rewrite Hrd. cbn [bind]. simpl name. simpl negb. cbv iota.
  assert (Hcount : count_terminals up syms (length syms) 1 =
                   Ok (1 + Z.of_nat (length U))).
  { apply count_terminals_spec.
    - lia.
    - lia.
    - intros k Hk. set (m := Z.to_nat (k - 1)).
      assert (Hm : (m < length U)%nat) by (unfold m; lia).
      destruct (lookup_lt_is_Some_2 U m Hm) as (s & Hs).
      exists (set_index s (0 + Z.of_nat (Z.to_nat k))). split.
      + unfold syms. rewrite assign_indices_lookup.
        replace (Z.to_nat k) with (S m) at 1 by (unfold m; lia).
        unfold pre. rewrite layout_lookup_U by exact Hm. rewrite Hs. reflexivity.
      + simpl. apply upper_initial_firstRune.
        apply list_elem_of_lookup_2 in Hs. apply list_elem_of_filter in Hs.
        destruct Hs as [Hc HR]. unfold of_class in Hc.
        destruct (Hkind s HR) as [(_ & _ & Hu)|[(Hc' & _)|(Hc' & _)]];
          [exact Hu | lia | lia].
    - unfold syms.
      replace (Z.to_nat (1 + Z.of_nat (length U)))
        with (S (length U + 0)) by lia.
      rewrite assign_indices_lookup. unfold pre. rewrite layout_lookup_T.
      destruct L as [|x L'] eqn:HL.
      + eexists. split; [reflexivity|]. reflexivity.
      + eexists. split; [reflexivity|]. simpl.
        apply lower_initial_firstRune.
        assert (Hx : x ∈ L) by (rewrite HL; left).
        apply list_elem_of_filter in Hx. destruct Hx as [Hc HR].
        unfold of_class in Hc.
        destruct (Hkind x HR) as [(Hc' & _)|[(_ & _ & Hl)|(Hc' & _)]];
          [lia | exact Hl | lia]. }
  rewrite Hcount. cbn [bind].
  do 2 f_equal. lia.
Qed.

(** Symbol numbering for grammars whose symbol names begin with ASCII
    letters.  After the sort and the dense index assignment the
    array is: [$] at index 0 (its kind is recorded as NONTERMINAL, since
    [Symbol_new] classifies by the first letter); the symbols of kind
    TERMINAL at 1..nterminal-1 and nowhere else; the symbols of kind
    NONTERMINAL that the grammar names at nterminal..nsymbol-1; the
    synthetic [{default}] at index nsymbol, just before the
    multiterminals, which come last.  Every symbol's index is its
    position, the array holds the names of the table and [{default}], and
    every constituent of a multiterminal is one of the terminals. *)
Theorem symbol_numbering up tab :
  parsed up tab ->
  exists nm d U L dflt M,
    number_symbols up tab = Ok nm /\
    symbols nm = d :: U ++ L ++ dflt :: M /\
    num_nterminal nm = 1 + Z.of_nat (length U) /\
    num_nsymbol nm = 1 + Z.of_nat (length U) + Z.of_nat (length L) /\
    (forall (i : nat) s, symbols nm !! i = Some s -> index s = Z.of_nat i) /\
    name <$> symbols nm ≡ₚ name <$> (tab ++ [dflt_symbol]) /\
    name d = "$"%string /\ typ d = NONTERMINAL /\
    Forall (fun s => typ s = TERMINAL) U /\
    Forall (fun s => typ s = NONTERMINAL) L /\
    name dflt = "{default}"%string /\ typ dflt = NONTERMINAL /\
    Forall (fun s => typ s = MULTITERMINAL) M /\
    (forall s c, s ∈ symbols nm -> c ∈ subsym s ->
       exists t, t ∈ U /\ name t = c).
Proof.
  intros Hp. pose proof (parsed_inv _ _ Hp) as Hinv.
  pose proof Hinv as [(s0 & rest & -> & Hn0 & Ht0) _ _ Hsub].
  pose proof (number_symbols_layout up s0 rest Hinv) as Hnum. cbv zeta in Hnum.
  pose proof (sorted_layout s0 rest Hinv) as Hsort. cbv zeta in Hsort.
  set (R := assign_indices rest 1) in *.
  set (U := filter (of_class 1) R) in *.
  set (L := filter (of_class 2) R) in *.
  set (M := filter (of_class 3) R) in *.
  set (d := set_index dflt_symbol (1 + Z.of_nat (length rest))) in *.
  assert (Hkind : forall s, s ∈ R ->
            (sort_class s = 1 /\ typ s = TERMINAL /\ upper_initial (name s)) \/
            (sort_class s = 2 /\ typ s = NONTERMINAL /\ lower_initial (name s)) \/
            (sort_class s = 3 /\ typ s = MULTITERMINAL /\ lower_initial (name s))).
  { intros s Hs. apply (renumbered_kind s0 rest 1); assumption. }
  assert (Htyp : forall k t (P : symbol -> Prop),
            (forall s, s ∈ R -> sort_class s = k -> P s) ->
            (forall s j, P s -> P (set_index s j)) ->
            forall i, t ∈ assign_indices (filter (of_class k) R) i -> P t).
  { intros k t P HP Hset i Ht.
    assert (HF : Forall P (assign_indices (filter (of_class k) R) i)).
    { apply assign_indices_Forall; [exact Hset|]. apply Forall_forall.
      intros s Hs. apply list_elem_of_filter in Hs. destruct Hs as [Hc HR].
      apply HP; assumption. }
    rewrite Forall_forall in HF. apply HF. exact Ht. }
  eexists _, _, _, _, _, _.
  split; [exact Hnum|].
  split; [cbn [symbols assign_indices]; rewrite !assign_indices_app;
          cbn [assign_indices]; reflexivity|].
  split; [cbn [num_nterminal]; rewrite assign_indices_length; reflexivity|].
  split; [cbn [num_nsymbol]; rewrite !assign_indices_length; reflexivity|].
  split; [intros i s; cbn [symbols]; apply assign_indices_dense|].
  split.
  { cbn [symbols]. rewrite assign_indices_names, <- Hsort.
    unfold sort_symbols. rewrite merge_sort_Permutation.
    rewrite assign_indices_names. reflexivity. }
  split; [exact Hn0|]. split; [exact Ht0|].
  split.
  { apply Forall_forall. intros t. apply (Htyp 1 t (fun s => typ s = TERMINAL)); [|auto].
    intros s HR Hc. destruct (Hkind s HR) as [(_ & H & _)|[(Hc' & _)|(Hc' & _)]];
      [exact H | lia | lia]. }
  split.
  { apply Forall_forall. intros t. apply (Htyp 2 t (fun s => typ s = NONTERMINAL)); [|auto].
    intros s HR Hc. destruct (Hkind s HR) as [(Hc' & _)|[(_ & H & _)|(Hc' & _)]];
      [lia | exact H | lia]. }
  split; [reflexivity|]. split; [reflexivity|].
  split.
  { apply Forall_forall. intros t. apply (Htyp 3 t (fun s => typ s = MULTITERMINAL)); [|auto].
    intros s HR Hc. apply class3_multi. exact Hc. }
  intros s c Hs Hc. cbn [symbols] in Hs.
  apply assign_indices_elem in Hs. destruct Hs as (s1 & Hs1 & _ & _ & Hsub1 & _).
  rewrite Hsub1 in Hc. rewrite <- Hsort in Hs1. unfold sort_symbols in Hs1.
  rewrite merge_sort_Permutation in Hs1.
  apply assign_indices_elem in Hs1. destruct Hs1 as (s2 & Hs2 & _ & _ & Hsub2 & _).
  rewrite Hsub2 in Hc. rewrite app_comm_cons in Hs2.
  apply elem_of_app in Hs2. destruct Hs2 as [Hs2|Hs2].
  - destruct (Hsub s2 c Hs2 Hc) as (t & Ht & Hname & Htt).
    apply elem_of_cons in Ht. destruct Ht as [->|Ht]; [congruence|].
    destruct (assign_indices_elem_fwd rest t 1 Ht) as (k & Hk). fold R in Hk.
    assert (HU : set_index t k ∈ U).
    { apply list_elem_of_filter. split; [|exact Hk]. unfold of_class.
      destruct (Hkind _ Hk) as [(H & _)|[(_ & H & _)|(_ & H & _)]];
        [exact H | simpl in H; congruence | simpl in H; congruence]. }
    destruct (assign_indices_elem_fwd U _ (0 + 1) HU) as (k' & Hk').
    eexists. split; [exact Hk'|]. exact Hname.
  - apply list_elem_of_singleton in Hs2. subst s2. simpl in Hc.
    apply elem_of_nil in Hc. contradiction.
Qed.

Lemma ex_table4_parsed : parsed ex_ascii_only ex_table4.
Proof.
  assert (Hu : forall x b, byte0 x = Some b -> (65 <=? b) && (b <=? 90) = true ->
                 upper_initial x)
    by (intros x b H1 H2; exists b; split; [exact H1 | lia]).
  assert (Hl : forall x b, byte0 x = Some b -> (97 <=? b) && (b <=? 122) = true ->
                 lower_initial x)
    by (intros x b H1 H2; exists b; split; [exact H1 | lia]).
  eapply parsed_member;
    [| reflexivity | reflexivity | eapply Hu; reflexivity].
  eapply parsed_class; [| eapply Hl; reflexivity | reflexivity].
  eapply parsed_new; [| left; eapply Hu; reflexivity].
  eapply parsed_new; [| right; eapply Hl; reflexivity].
  apply parsed_init.
Defined.

Lemma symbol_numbering_witness :
  exists nm, number_symbols ex_ascii_only ex_table4 = Ok nm /\
    name <$> symbols nm =
      ["$"; "PLUS"; "INTEGER"; "expr"; "{default}"; "num"]%string /\
    num_nterminal nm = 3 /\ num_nsymbol nm = 4.
Proof.
  destruct (symbol_numbering ex_ascii_only ex_table4 ex_table4_parsed)
    as (nm & d & U & L & dflt & M & Hnum & _).
  exists nm. split; [exact Hnum|].
  vm_compute in Hnum. injection Hnum as <-.
  split; [reflexivity|]. split; reflexivity.
Defined.

(** C7 (symbol numbering after the registry sort) at the grammar
    [s ::= É.], where the numbering does not hold.  [Symbol_new] makes É a
    TERMINAL ([unicode.IsUpper] of the first rune), but its first byte is
    above ['Z'], so [Symbolcmpp], which compares the first byte, sorts it
    with the lower-case names, against its own comment that the symbols
    beginning with an upper-case letter come first: É gets index 2, while
    [nterminal] is 1 and [nsymbol] is 3.  The indices
    nterminal..nsymbol-1 hold a terminal, and the indices below nterminal
    do not hold all of them. *)
Lemma non_ascii_terminal_among_nonterminals :
  exists nm t,
    number_symbols ex_IsUpper ex_latin_table = Ok nm /\
    num_nterminal nm = 1 /\ num_nsymbol nm = 3 /\
    symbols nm !! 2%nat = Some t /\
    name t = ex_E_acute /\ typ t = TERMINAL /\ index t = 2.
Proof.
  eexists _, _. split; [vm_compute; reflexivity|].
  repeat split; reflexivity.
Qed.

(** * The order of [range] over a map *)

Lemma SetUnion_step_comm acc x y :
  SetUnion_step (SetUnion_step acc x) y = SetUnion_step (SetUnion_step acc y) x.
Proof.
  destruct acc as [[s1 p]|e]; [|reflexivity].
  destruct x as [k1 v1], y as [k2 v2].
  destruct v1, v2; simpl; try reflexivity.
  - destruct s1 as [m|]; simpl; [|reflexivity].
    destruct (decide (k1 = k2)) as [->|Hne]; [reflexivity|].
    destruct (m !! k1) as [[|]|] eqn:H1; destruct (m !! k2) as [[|]|] eqn:H2;
      simpl; rewrite ?H1, ?H2; simpl;
      rewrite ?lookup_insert_ne by congruence; rewrite ?H1, ?H2; simpl;
      try reflexivity;
      do 2 f_equal; f_equal; apply insert_insert_ne; congruence.
  - destruct s1 as [m|]; simpl; [|reflexivity].
    destruct (default false (m !! k1)); reflexivity.
  - destruct s1 as [m|]; simpl; [|reflexivity].
    destruct (default false (m !! k2)); reflexivity.
Qed.

Lemma foldl_Permutation {A B : Type} (f : A -> B -> A) (l1 l2 : list B) :
  (forall a x y, f (f a x) y = f (f a y) x) ->
  l1 ≡ₚ l2 -> forall a, foldl f a l1 = foldl f a l2.
Proof.
  intros Hf Hp. induction Hp as [|x l1 l2 Hp IH|x y l|l1 l2 l3 H1 IH1 H2 IH2];
    intros a; simpl.
  - reflexivity.
  - apply IH.
  - rewrite Hf. reflexivity.
  - rewrite IH1. apply IH2.
Qed.

Lemma SetUnion_order l1 l2 s1 :
  l1 ≡ₚ l2 -> SetUnion l1 s1 = SetUnion l2 s1.
Proof.
  intros Hp. unfold SetUnion.
  apply foldl_Permutation; [apply SetUnion_step_comm | exact Hp].
Qed.

Lemma range_of_valid o1 o2 n1 n2 s :
  valid_order o1 -> valid_order o2 -> range_of o1 n1 s ≡ₚ range_of o2 n2 s.
Proof.
  intros H1 H2. destruct s as [m|]; simpl; [|reflexivity].
  rewrite (H1 n1 m), (H2 n2 m). reflexivity.
Qed.

(** The order of [range] does not show through the set operations.  Go
    leaves the order of [range] over a map open; of the operations on the
    map-backed terminal sets only [SetUnion] iterates over a map.  Two
    runs of a computation built from [SetNew], [SetAdd], [SetFind], [len]
    and [SetUnion] -- such as the follow-set propagation
    [Follow.follow_lookaheads] -- return the same value, leave the same
    sets and fail alike, whatever order each [range] of each run yields
    the entries in. *)
Theorem set_programs_ignore_range_order (o1 o2 : range_order) :
  valid_order o1 -> valid_order o2 ->
  forall (A : Type) (p : prog A) (n1 n2 : nat) (h : heap),
    exec o1 n1 h p = exec o2 n2 h p.
Proof.
  intros H1 H2 A p.
  induction p as [a|e|k IH|r e k IH|r e k IH|r k IH|r1 r2 k IH];
    intros n1 n2 h; simpl.
  - reflexivity.
  - reflexivity.
  - apply IH.
  - destruct (SetAdd (load h r) e) as [[s b]|e']; [apply IH | reflexivity].
  - apply IH.
  - apply IH.
  - rewrite (SetUnion_order (range_of o1 n1 (load h r2))
               (range_of o2 n2 (load h r2)) (load h r1))
      by (apply range_of_valid; assumption).
    destruct (SetUnion _ _) as [[s b]|e']; [apply IH | reflexivity].
Qed.

Lemma set_programs_ignore_range_order_witness :
  exec ex_forward 0 ex_heap (Follow.follow_lookaheads 5 4 ex_configs) =
  exec ex_backward 0 ex_heap (Follow.follow_lookaheads 5 4 ex_configs).
Proof.
  apply (set_programs_ignore_range_order ex_forward ex_backward).
  - intros n m. reflexivity.
  - intros n m. apply reverse_Permutation.
Defined.

Lemma ex_follow_run :
  exists h,
    exec ex_forward 0 ex_heap (Follow.follow_lookaheads 5 4 ex_configs) =
    Ok (h, Some [[0; 1; 3]; [0; 1; 3]; [0; 1; 3]]).
Proof. eexists. vm_compute. reflexivity. Qed.

(** * Further properties of the [acttab] module *)

Lemma acttab_action_size_loop_spec a : forall cnt n,
  0 <= n <= Z.of_nat cnt -> n <= Z.of_nat (length a) ->
  exists m, acttab_action_size_loop a cnt n = Ok m /\ 0 <= m <= n /\
    (forall k, m <= k < n -> exists x, rd a k = Ok x /\ lookahead x < 0) /\
    (0 < m -> exists x, rd a (m - 1) = Ok x /\ 0 <= lookahead x).
Proof.
  induction cnt as [|c IH]; intros n Hn Hlen; simpl.
  - exists n. split; [reflexivity|]. split; [lia|]. split; intros; lia.
  - destruct (Z.gtb_spec n 0) as [Hpos|Hz].
    + destruct (rd_in_range a (n - 1)) as [x Hx]; [lia|]. rewrite Hx. simpl.
      destruct (Z.ltb_spec (lookahead x) 0) as [Hneg|Hge].
      * destruct (IH (n - 1)) as (m & Hm & Hr & Hall & Hlast); [lia | lia |].
        exists m. split; [exact Hm|]. split; [lia|]. split; [|exact Hlast].
        intros k Hk. destruct (Z.eq_dec k (n - 1)) as [->|Hne].
        -- exists x. auto.
        -- apply Hall. lia.
      * exists n. split; [reflexivity|]. split; [lia|]. split; [intros; lia|].
        intros _. exists x. auto.
    + exists n. split; [reflexivity|]. split; [lia|]. split; intros; lia.
Qed.

(** [acttab_action_size] returns the length of the table without its
    trailing empty entries: every slot from the result up to [nAction] is
    empty (lookahead below 0), and the slot just below the result, if
    there is one, is in use. *)
Theorem acttab_action_size_trims p :
  0 <= nAction p <= Z.of_nat (length (aAction p)) ->
  exists n, acttab_action_size p = Ok n /\ 0 <= n <= nAction p /\
    (forall k, n <= k < nAction p ->
       exists x, rd (aAction p) k = Ok x /\ lookahead x < 0) /\
    (0 < n -> exists x, rd (aAction p) (n - 1) = Ok x /\ 0 <= lookahead x).
Proof.
  intros H. unfold acttab_action_size.
  apply acttab_action_size_loop_spec; lia.
Qed.

Lemma acttab_action_size_trims_witness :
  exists n, acttab_action_size
              (mkActtab 3 4 [mkLA 0 7; mkLA 2 9; la_empty; la_empty] [] 0 0 0 0 0 3 4)
            = Ok n /\ n = 2.
Proof.
  destruct (acttab_action_size_trims
              (mkActtab 3 4 [mkLA 0 7; mkLA 2 9; la_empty; la_empty] [] 0 0 0 0 0 3 4))
    as (n & Hn & _); [simpl; lia|].
  exists n. split; [exact Hn|]. vm_compute in Hn. congruence.
Defined.

(** A round of [acttab_action] calls on an empty transaction set records
    the entries in the order of the calls, leaves the table as it was, and
    keeps [mnLookahead] and [mxLookahead] at the least and greatest
    lookahead of the set, with [mnAction] the action of an entry that has
    the least lookahead. *)
Theorem acttab_action_transaction p row :
  wf_acttab p -> nLookahead p = 0 -> row <> [] ->
  exists p',
    add_actions p row = Ok p' /\
    pending p' = row /\ nLookahead p' = Z.of_nat (length row) /\
    aAction p' = aAction p /\ nAction p' = nAction p /\
    (forall e, e ∈ row -> mnLookahead p' <= lookahead e <= mxLookahead p') /\
    (exists e, e ∈ row /\ lookahead e = mnLookahead p' /\ action e = mnAction p') /\
    (exists e, e ∈ row /\ lookahead e = mxLookahead p').
Proof.
  intros Hwf Hn Hrow.
  assert (Hpb : pending_bounds p) by (intros Hpos; lia).
  destruct (add_actions_spec row p Hwf Hpb)
    as (p' & Hadd & _ & Hsame & Hpend & Hlen & Hb).
  rewrite (pending_empty p Hn) in Hpend. simpl in Hpend.
  exists p'. split; [exact Hadd|]. split; [exact Hpend|].
  split; [lia|]. destruct Hsame as (HnA & _ & HaA & _).
  split; [exact HaA|]. split; [exact HnA|].
  assert (Hpos : 0 < nLookahead p').
  { rewrite Hlen, Hn. destruct row; [contradiction | simpl; lia]. }
  destruct (Hb Hpos) as (H1 & H2 & H3). rewrite Hpend in H1, H2, H3. auto.
Qed.

Lemma acttab_action_transaction_witness :
  exists p',
    add_actions (acttab_alloc 6 4) ex_safe_row = Ok p' /\
    mnLookahead p' = 1 /\ mxLookahead p' = 3 /\ mnAction p' = 11.
Proof.
  destruct (acttab_action_transaction (acttab_alloc 6 4) ex_safe_row)
    as (p' & Hadd & _); [apply acttab_alloc_wf; lia | reflexivity | discriminate |].
  exists p'. split; [exact Hadd|].
  vm_compute in Hadd. injection Hadd as <-. repeat split; reflexivity.
Defined.

(** ** Which entries [acttab_insert] adds *)

Lemma acttab_grow_used p p1 :
  wf_acttab p -> acttab_grow p = Ok p1 ->
  nActionAlloc p <= nActionAlloc p1 /\
  forall (k : nat) x, aAction p1 !! k = Some x -> 0 <= lookahead x ->
                      aAction p !! k = Some x.
Proof.
  intros [Hn Hal Htl Hlo Hc Hpa Hpn]. unfold acttab_grow.
  destruct (_ >=? _) eqn:Hb; [|intros [= <-]; split; [lia | auto]].
  rewrite Z.geb_leb in Hb. apply Z.leb_le in Hb.
  destruct (_ <? 0); [discriminate|]. intros H. inv_bind H. inversion H; subst.
  simpl. split; [lia|].
  apply fill_empty_spec in Ha. destruct Ha as [_ Hk].
  intros k x Hx Hpos. rewrite Hk in Hx.
  destruct (Z.leb_spec (nActionAlloc p) (Z.of_nat k)); simpl in Hx.
  - match type of Hx with
    | context [?a <? ?b] => destruct (Z.ltb_spec a b)
    end; simpl in Hx.
    + injection Hx as Hx. subst x. simpl in Hpos. lia.
    + apply lookup_app_Some in Hx. destruct Hx as [Hx|[Hlen Hx]]; [exact Hx|].
      apply lookup_replicate in Hx. destruct Hx as [_ Hlt]. lia.
  - rewrite lookup_app_l in Hx by lia. exact Hx.
Qed.

Lemma count_alias_spec p i cnt : forall (j : nat) n n',
  count_alias p i cnt (Z.of_nat j) n = Ok n' ->
  n' = n + Z.of_nat (length (filter (fun m => alias_at p i m = true) (seq j cnt))).
Proof.
  induction cnt as [|c IH]; intros j n n' H; simpl in H.
  - injection H as <-. simpl. lia.
  - inv_bind H. apply rd_Ok in Ha. destruct Ha as [_ Ha]. rewrite Nat2Z.id in Ha.
    replace (Z.of_nat j + 1) with (Z.of_nat (S j)) in H by lia.
    assert (Hal : alias_at p i j =
                  (0 <=? lookahead a) &&
                  (lookahead a =? Z.of_nat j + mnLookahead p - i))
      by (unfold alias_at; rewrite Ha; reflexivity).
    cbn [seq]. rewrite filter_cons.
    destruct (decide (alias_at p i j = true)) as [Ht|Hf].
    + rewrite Hal in Ht. apply andb_true_iff in Ht. destruct Ht as [H1 H2].
      apply Z.leb_le in H1. rewrite H2 in H.
      destruct (Z.ltb_spec (lookahead a) 0); [lia|].
      apply IH in H. simpl. lia.
    + rewrite Hal in Hf.
      destruct (Z.ltb_spec (lookahead a) 0).
      * apply IH in H. exact H.
      * destruct (Z.leb_spec 0 (lookahead a)); [|lia]. simpl in Hf.
        destruct (lookahead a =? _); [contradiction|].
        apply IH in H. exact H.
Qed.

Lemma dup_at_count p i :
  dup_at p i = Ok true ->
  count_alias p i (Z.to_nat (nAction p)) 0 0 = Ok (nLookahead p).
Proof.
  unfold dup_at. intros H. inv_bind H.
  destruct (_ =? _); [|discriminate].
  destruct (negb _); [discriminate|].
  inv_bind H. destruct (negb a0); [discriminate|].
  inv_bind H. injection H as H. apply Z.eqb_eq in H. subst. exact Ha1.
Qed.

(** Where the duplicate scan stops, the entries that a lookup at the new
    offset takes for its own are the entries of the row and no others:
    the scan counted as many as the row has. *)
Lemma dup_alias_slots p i :
  wf_acttab p -> wf_row p -> 0 <= i ->
  dup_at p i = Ok true ->
  forall (k : nat) x,
    aAction p !! k = Some x -> 0 <= lookahead x ->
    lookahead x = Z.of_nat k + mnLookahead p - i -> Z.of_nat k < nAction p ->
    exists e, e ∈ pending p /\ slot p i e = Z.of_nat k.
Proof.
  intros Hwf (Hnl & Hnd & Hmn & Hmx & Hb) Hi Hd k x Hx Hpos Hal Hk.
  pose proof (dup_at_true p i Hd) as Hm.
  pose proof (dup_at_count p i Hd) as Hc.
  apply (count_alias_spec p i _ 0%nat) in Hc.
  set (L := filter (fun m => alias_at p i m = true) (seq 0 (Z.to_nat (nAction p)))) in *.
  set (f := fun la => Z.to_nat (la - mnLookahead p + i)).
  set (S0 := f <$> (lookahead <$> pending p)).
  assert (HS : NoDup S0).
  { apply NoDup_fmap_2_strong; [|exact Hnd].
    intros a b Ha Hb' Hab. apply list_elem_of_fmap in Ha, Hb'.
    destruct Ha as (ea & -> & Hea), Hb' as (eb & -> & Heb).
    pose proof (Hb ea Hea). pose proof (Hb eb Heb). unfold f in Hab. lia. }
  assert (Hlen : length S0 = Z.to_nat (nLookahead p)).
  { unfold S0, pending. rewrite !length_fmap, length_take.
    pose proof (wf_palloc p Hwf). pose proof (wf_pn p Hwf). lia. }
  assert (Hsub : forall m, m ∈ S0 -> m ∈ L).
  { intros m Hin. apply list_elem_of_fmap in Hin. destruct Hin as (la & -> & Hin).
    apply list_elem_of_fmap in Hin. destruct Hin as (e & -> & He).
    destruct (Hm e He) as [Hr Hrd]. apply rd_Ok in Hrd. destruct Hrd as [_ Hrd].
    pose proof (Hb e He). unfold slot in *.
    apply list_elem_of_filter. split.
    - unfold alias_at, f. rewrite Hrd.
      destruct (Z.leb_spec 0 (lookahead e)); [|lia].
      destruct (Z.eqb_spec (lookahead e)
                  (Z.of_nat (Z.to_nat (lookahead e - mnLookahead p + i))
                   + mnLookahead p - i)); [reflexivity | lia].
    - apply elem_of_seq. unfold f. lia. }
  assert (Hperm : S0 ≡ₚ L).
  { apply submseteq_length_Permutation.
    - apply NoDup_submseteq; assumption.
    - lia. }
  assert (HkL : k ∈ L).
  { apply list_elem_of_filter. split.
    - unfold alias_at. rewrite Hx.
      destruct (Z.leb_spec 0 (lookahead x)); [|lia].
      destruct (Z.eqb_spec (lookahead x) (Z.of_nat k + mnLookahead p - i));
        [reflexivity | contradiction].
    - apply elem_of_seq. lia. }
  rewrite <- Hperm in HkL.
  apply list_elem_of_fmap in HkL. destruct HkL as (la & Hkla & Hin).
  apply list_elem_of_fmap in Hin. destruct Hin as (e & -> & He).
  exists e. split; [exact He|]. pose proof (Hb e He). unfold slot, f in *. lia.
Qed.

Lemma hole_at_no_alias p i :
  hole_at p i = Ok true ->
  forall (k : nat) x, Z.of_nat k < nAction p -> aAction p !! k = Some x ->
    lookahead x <> Z.of_nat k + mnLookahead p - i.
Proof.
  unfold hole_at. intros H. inv_bind H. destruct (_ <? 0); [|discriminate].
  inv_bind H. destruct (negb a0); [discriminate|].
  intros k x Hk Hx. rewrite for_all_true in H.
  specialize (H (Z.of_nat k)). unfold no_alias in H.
  assert (Hrd : rd (aAction p) (Z.of_nat k) = Ok x).
  { apply rd_Ok. split; [lia|]. rewrite Nat2Z.id. exact Hx. }
  rewrite Hrd in H. simpl in H.
  destruct (Z.eqb_spec (lookahead x) (Z.of_nat k + mnLookahead p - i)).
  - assert (Ok false = Ok true :> result bool) by (apply H; lia). discriminate.
  - assumption.
Qed.

Lemma add_actions_row_wf p row :
  wf_acttab p -> nLookahead p = 0 ->
  row <> [] -> NoDup (lookahead <$> row) ->
  (forall e, e ∈ row -> 0 <= lookahead e < nsymbol p) ->
  exists p1, add_actions p row = Ok p1 /\ wf_acttab p1 /\ wf_row p1 /\
             pending p1 = row /\ aAction p1 = aAction p.
Proof.
  intros Hwf Hn0 Hne Hnd Hrange.
  assert (Hpb : pending_bounds p) by (intros Hpos; lia).
  destruct (add_actions_spec row p Hwf Hpb)
    as (p1 & Hadd & Hwf1 & Hst & Hp1 & Hn1 & Hpb1).
  rewrite (pending_empty p Hn0) in Hp1. simpl in Hp1.
  destruct Hst as (HnA & HnAl & HaA & Hnt & Hns).
  assert (Hlen : 0 < nLookahead p1).
  { rewrite Hn1, Hn0. destruct row; [contradiction | simpl; lia]. }
  exists p1. split; [exact Hadd|]. split; [exact Hwf1|].
  split; [|split; [exact Hp1 | exact HaA]].
  destruct (Hpb1 Hlen) as (Hb & (e1 & He1 & Hl1 & _) & (e2 & He2 & Hl2)).
  rewrite Hp1 in *. unfold wf_row. rewrite Hp1.
  split; [exact Hlen|]. split; [exact Hnd|].
  specialize (Hrange e1 He1) as Hr1. specialize (Hrange e2 He2) as Hr2.
  split; [lia|]. split; [lia | exact Hb].
Qed.

(** [acttab_insert] keeps every entry the table holds, and the entries it
    adds are entries of the row, each at the slot the returned offset
    gives it: offset plus its own lookahead. *)
Theorem acttab_insert_adds_row_only p safe :
  wf_acttab p -> wf_row p ->
  exists p' o,
    acttab_insert p safe = Ok (p', o) /\
    (forall (k : nat) x, aAction p !! k = Some x -> 0 <= lookahead x ->
       aAction p' !! k = Some x) /\
    (forall (k : nat) x, aAction p' !! k = Some x -> 0 <= lookahead x ->
       aAction p !! k = Some x \/
       (x ∈ pending p /\ Z.of_nat k = o + lookahead x)).
Proof.
  intros Hwf Hrow.
  destruct (acttab_insert_wf p safe Hwf Hrow) as (p' & o & Hins & _ & _ & _ & _ & Hold).
  exists p', o. split; [exact Hins|]. split; [exact Hold|].
  destruct (acttab_insert_Ok _ _ _ _ Hins) as (p1 & i & p2 & _ & Hg & Hf & Hi & -> & ->).
  destruct (acttab_grow_frame _ _ Hg) as [Hsp _].
  pose proof (same_pending_pending _ _ Hsp) as Hpend.
  assert (Hmn : mnLookahead p1 = mnLookahead p) by (destruct Hsp as (_ & H & _); exact H).
  intros k x Hx Hpos. rewrite aAction_final in Hx.
  assert (Hnd1 : NoDup (lookahead <$> pending p1))
    by (rewrite Hpend; destruct Hrow as (_ & Hnd & _); exact Hnd).
  destruct (install_table p1 i p2 Hi Hnd1 k) as [(e & He & Hs & Hv)|[_ Heq]].
  - right. assert (x = e) as -> by congruence.
    split; [rewrite <- Hpend; exact He|]. unfold slot in Hs. lia.
  - left. rewrite Heq in Hx.
    apply (proj2 (acttab_grow_used p p1 Hwf Hg) k x Hx Hpos).
Qed.

Lemma acttab_insert_adds_row_only_witness :
  exists p p' o,
    add_actions (acttab_alloc 6 4) ex_safe_row = Ok p /\
    acttab_insert p true = Ok (p', o) /\
    forall (k : nat) x, aAction p' !! k = Some x -> 0 <= lookahead x ->
      aAction p !! k = Some x \/ (x ∈ pending p /\ Z.of_nat k = o + lookahead x).
Proof.
  destruct (add_actions_row_wf (acttab_alloc 6 4) ex_safe_row)
    as (p & Hadd & Hwf & Hrow & _).
  - apply acttab_alloc_wf. lia.
  - reflexivity.
  - discriminate.
  - compute_done.
  - intros e He. unfold ex_safe_row in He.
    repeat (apply elem_of_cons in He; destruct He as [->|He]); simpl; try lia.
    apply elem_of_nil in He. contradiction.
  - destruct (acttab_insert_adds_row_only p true Hwf Hrow) as (p' & o & Hins & _ & Hnew).
    exists p, p', o. auto.
Defined.

(** Unless the hole scan ran to its end (the row then lies at
    [nActionAlloc - mxLookahead]), the offset that [acttab_insert] returns
    finds the entries of the row and no others: an entry of the table
    whose slot is the offset plus its own lookahead is an entry of the
    row. *)
Theorem acttab_insert_offset_private p safe p' o :
  wf_acttab p -> wf_row p ->
  acttab_insert p safe = Ok (p', o) ->
  o + mnLookahead p + mxLookahead p < nActionAlloc p' ->
  forall (k : nat) x,
    aAction p' !! k = Some x -> 0 <= lookahead x ->
    Z.of_nat k = o + lookahead x -> x ∈ pending p.
Proof.
  intros Hwf Hrow Hins Hend k x Hx Hpos Hk.
  destruct (acttab_insert_Ok _ _ _ _ Hins) as (p1 & i & p2 & _ & Hg & Hf & Hi & -> & ->).
  destruct (acttab_grow_wf p Hwf) as (p1' & Hg' & Hwf1 & Hsp & _ & _ & _).
  assert (p1' = p1) as -> by congruence.
  pose proof (same_pending_pending _ _ Hsp) as Hpend.
  pose proof (wf_row_same _ _ Hsp Hrow) as Hrow1.
  destruct Hsp as (_ & Hmn & _ & Hmx & _).
  rewrite aAction_final in Hx.
  assert (Hal : nActionAlloc p2 = nActionAlloc p1).
  { apply install_spec in Hi; [|lia]. destruct Hi as (_ & H & _). exact H. }
  assert (Hend1 : i + mxLookahead p1 < nActionAlloc p1).
  { revert Hend. destruct (safe && _); simpl; lia. }
  assert (Hnd1 : NoDup (lookahead <$> pending p1))
    by (destruct Hrow1 as (_ & Hnd & _); exact Hnd).
  destruct (install_table p1 i p2 Hi Hnd1 k) as [(e & He & Hs & Hv)|[Hfree Heq]].
  - assert (x = e) as -> by congruence. rewrite <- Hpend. exact He.
  - exfalso. rewrite Heq in Hx.
    assert (Hused : Z.of_nat k < nAction p1).
    { destruct (Z.lt_ge_cases (Z.of_nat k) (nAction p1)) as [|Hge]; [assumption|].
      pose proof (wf_tail p1 Hwf1 k x Hge Hx). subst x. simpl in Hpos. lia. }
    assert (Hlow : 0 <= scan_lower p1 safe).
    { unfold scan_lower. destruct Hrow1 as (_ & _ & H0 & _). destruct safe; lia. }
    destruct (find_slot_cases _ _ _ Hf) as [Hr Hd|Hr Hh _|Hr _].
    + destruct (dup_alias_slots p1 i Hwf1 Hrow1 ltac:(lia) Hd k x Hx Hpos)
        as (e & He & Hs); [lia | exact Hused |].
      exact (Hfree e He Hs).
    + apply (hole_at_no_alias p1 i Hh k x Hused Hx). lia.
    + lia.
Qed.

Lemma acttab_insert_offset_private_witness :
  exists p p' o,
    add_actions (acttab_alloc 6 4) ex_safe_row = Ok p /\
    acttab_insert p true = Ok (p', o) /\
    forall (k : nat) x, aAction p' !! k = Some x -> 0 <= lookahead x ->
      Z.of_nat k = o + lookahead x -> x ∈ pending p.
Proof.
  destruct (add_actions_row_wf (acttab_alloc 6 4) ex_safe_row)
    as (p & Hadd & Hwf & Hrow & _).
  - apply acttab_alloc_wf. lia.
  - reflexivity.
  - discriminate.
  - compute_done.
  - intros e He. unfold ex_safe_row in He.
    repeat (apply elem_of_cons in He; destruct He as [->|He]); simpl; try lia.
    apply elem_of_nil in He. contradiction.
  - destruct (acttab_insert p true) as [[p' o]|] eqn:Hins.
    + exists p, p', o. split; [exact Hadd|]. split; [exact Hins|].
      apply (acttab_insert_offset_private p true p' o Hwf Hrow Hins).
      vm_compute in Hadd. injection Hadd as <-.
      vm_compute in Hins. injection Hins as <- <-. simpl. lia.
    + vm_compute in Hadd. injection Hadd as <-. vm_compute in Hins. discriminate.
Defined.

(** The hypothesis of [acttab_insert_offset_private] is needed.  With
    [nsymbol = 11], nineteen rows [{(0, a)}] with different actions fill
    the slots 0..18.  For the row [{(7, 50)}] no slot passes the hole
    scan, which ends at [nActionAlloc - mxLookahead = 25]; the row is
    written there and gets the offset 18, which the row [{(0, 118)}]
    already has. *)
Lemma hole_scan_end_shares_offset :
  exists p q o p' o',
    ex_dense_rows (acttab_alloc 11 1) 18 100 = Ok p /\
    insert_row p false [mkLA 0 118] = Ok (q, o) /\
    insert_row q false [mkLA 7 50] = Ok (p', o') /\
    o = 18 /\ o' = 18 /\
    aAction p' !! 18%nat = Some (mkLA 0 118) /\
    aAction p' !! 25%nat = Some (mkLA 7 50).
Proof.
  destruct (ex_dense_rows (acttab_alloc 11 1) 18 100) as [p|] eqn:Hp;
    [|vm_compute in Hp; discriminate].
  destruct (insert_row p false [mkLA 0 118]) as [[q o]|] eqn:Hq;
    [|vm_compute in Hp; injection Hp as <-; vm_compute in Hq; discriminate].
  destruct (insert_row q false [mkLA 7 50]) as [[p' o']|] eqn:Hp';
    [|vm_compute in Hp; injection Hp as <-; vm_compute in Hq; injection Hq as <- <-;
      vm_compute in Hp'; discriminate].
  exists p, q, o, p', o'.
  vm_compute in Hp. injection Hp as <-. vm_compute in Hq. injection Hq as <- <-.
  vm_compute in Hp'. injection Hp' as <- <-.
  repeat split; reflexivity.
Qed.

(** * Further properties of the action codes *)

(** The codes of [compute_action] can be read back.  With state numbers
    below [nstate] and rule numbers below [nrule], a code that is not
    negative is below [maxAction] and is never [noAction]; below
    [minShiftReduce] it is the target of a SHIFT; from [minShiftReduce] up
    to [errAction] it is a SHIFTREDUCE with its rule; [errAction] and
    [accAction] are ERROR and ACCEPT; from [minReduce] on it is a REDUCE
    (or a SHIFTREDUCE on a nonterminal) with its rule. *)
Theorem action_codes_decode lemp0 a c :
  let lemp := ReportTable_boundaries lemp0 in
  0 <= nrule lemp0 ->
  (forall s, x_stp a = Some s -> 0 <= statenum lemp0 s < nstate lemp0) ->
  (forall rp, x_rp a = Some rp -> 0 <= iRule rp < nrule lemp0) ->
  compute_action lemp a = Ok c -> 0 <= c ->
  c < maxAction lemp /\ c <> noAction lemp /\
  (c < minShiftReduce lemp ->
   atyp a = SHIFT /\ exists s, x_stp a = Some s /\ statenum lemp s = c) /\
  (minShiftReduce lemp <= c < errAction lemp ->
   atyp a = SHIFTREDUCE /\
   exists rp, x_rp a = Some rp /\ iRule rp = c - minShiftReduce lemp) /\
  (c = errAction lemp -> atyp a = ERROR) /\
  (c = accAction lemp -> atyp a = ACCEPT) /\
  (minReduce lemp <= c ->
   (atyp a = REDUCE \/ atyp a = SHIFTREDUCE) /\
   exists rp, x_rp a = Some rp /\ iRule rp = c - minReduce lemp).
Proof.
  intros lemp Hnr Hst Hru Hc Hpos. unfold compute_action in Hc.
  destruct (atyp a) eqn:Ht;
    try (injection Hc as <-; simpl in *; lia).
  - destruct (x_stp a) as [s|] eqn:Hs; [|discriminate]. injection Hc as <-.
    specialize (Hst s eq_refl). simpl in *.
    repeat split; intros; try lia; try (exfalso; lia); eauto.
  - injection Hc as <-. simpl.
    repeat split; intros; try lia; try (exfalso; lia).
  - destruct (x_rp a) as [rp|] eqn:Hr; [|discriminate]. injection Hc as <-.
    specialize (Hru rp eq_refl). simpl in *.
    repeat split; intros; try lia; try (exfalso; lia); eauto.
    exists rp. split; [reflexivity | lia].
  - injection Hc as <-. simpl.
    repeat split; intros; try lia; try (exfalso; lia).
  - destruct (x_rp a) as [rp|] eqn:Hr; [|discriminate].
    specialize (Hru rp eq_refl).
    destruct (_ && _); injection Hc as <-; simpl in *;
      repeat split; intros; try lia; try (exfalso; lia); eauto;
      try (exists rp; split; [reflexivity | lia]).
Qed.

Lemma action_codes_decode_witness :
  atyp ex_reduce_EQ = REDUCE /\
  exists rp, x_rp ex_reduce_EQ = Some rp /\
             iRule rp = 6 - minReduce (ReportTable_boundaries ex_lemon0).
Proof.
  assert (Hc : compute_action (ReportTable_boundaries ex_lemon0) ex_reduce_EQ = Ok 6)
    by reflexivity.
  destruct (action_codes_decode ex_lemon0 ex_reduce_EQ 6) as (_ & _ & _ & _ & _ & _ & H).
  - simpl. lia.
  - intros s Hs. vm_compute in Hs. discriminate.
  - intros rp Hr. vm_compute in Hr. injection Hr as <-. simpl. lia.
  - exact Hc.
  - lia.
  - destruct H as [[H|H] Hr]; [simpl; lia | | discriminate H].
    split; [exact H | exact Hr].
Defined.

(** * Sorting with buckets *)

Section BucketProofs.
Context {X : Type}.
Variable mrg_in : list X -> list X -> result (list X).
Variable mrg_out : list X -> list X -> result (list X).
Variable R : X -> X -> Prop.
Variable P : X -> Prop.
Hypothesis Hin : forall a b,
  Forall P a -> Forall P b -> Sorted R a -> Sorted R b ->
  exists r, mrg_in a b = Ok r /\ r ≡ₚ a ++ b /\ Sorted R r.
Hypothesis Hout : forall a b,
  Forall P a -> Forall P b -> Sorted R a -> Sorted R b ->
  exists r, mrg_out a b = Ok r /\ r ≡ₚ a ++ b /\ Sorted R r.

Lemma bucket_carry_cons ep x s s1 rest :
  bucket_carry mrg_in ep ((x :: s) :: s1 :: rest) =
  let* ep := mrg_in ep (x :: s) in
  let* rest := bucket_carry mrg_in ep (s1 :: rest) in
  Ok ([] :: rest).
Proof. reflexivity. Qed.

Lemma bucket_carry_spec : forall set i ep,
  set <> [] -> buckets_ok R P i set -> Exists (fun s => s = []) set ->
  length ep = (2 ^ i)%nat -> Sorted R ep -> Forall P ep ->
  exists set',
    bucket_carry mrg_in ep set = Ok set' /\ length set' = length set /\
    buckets_ok R P i set' /\ concat set' ≡ₚ ep ++ concat set.
Proof.
  induction set as [|s rest IH]; intros i ep Hne (Hsz & Hso & Hp) Hex Hlen Hs HP;
    [contradiction|].
  destruct Hsz as [Hs0 Hsz]. apply Forall_cons in Hso, Hp.
  destruct Hso as [Hso0 Hso], Hp as [Hp0 Hp].
  destruct rest as [|s1 rest].
  - simpl. exists [ep]. split; [reflexivity|]. split; [reflexivity|].
    apply Exists_cons in Hex. destruct Hex as [->|Hex]; [|inversion Hex].
    split; [|simpl; rewrite !app_nil_r; reflexivity].
    split; [simpl; auto|]. split; repeat constructor; assumption.
  - destruct s as [|x s].
    + simpl. exists (ep :: s1 :: rest). split; [reflexivity|]. split; [reflexivity|].
      split; [|reflexivity].
      split; [split; [right; exact Hlen | exact Hsz]|].
      split; constructor; assumption.
    + rewrite bucket_carry_cons.
      destruct (Hin ep (x :: s) HP Hp0 Hs Hso0) as (r & Hr & Hperm & Hsr).
      rewrite Hr. cbn [bind].
      apply Exists_cons in Hex. destruct Hex as [Hex|Hex]; [discriminate|].
      destruct Hs0 as [Hs0|Hs0]; [discriminate|].
      destruct (IH (S i) r) as (rest' & Hc & Hl & Hok & Hcat).
      * discriminate.
      * split; [exact Hsz|]. split; assumption.
      * exact Hex.
      * rewrite Hperm, length_app, Hlen, Hs0. simpl. lia.
      * exact Hsr.
      * rewrite Hperm. apply Forall_app. split; assumption.
      * rewrite Hc. cbn [bind]. exists ([] :: rest').
        split; [reflexivity|]. split; [simpl; rewrite Hl; reflexivity|].
        destruct Hok as (Hsz' & Hso' & Hp').
        split.
        -- split; [split; [left; reflexivity | exact Hsz']|].
           split; constructor; auto.
        -- cbn [concat]. rewrite app_nil_l, Hcat, Hperm.
           cbn [concat]. rewrite <- !app_assoc. reflexivity.
Qed.

Lemma sized_full_count : forall (set : list (list X)) i,
  sized i set -> Forall (fun s => s <> []) set ->
  (length (concat set) + 2 ^ i = 2 ^ (i + length set))%nat.
Proof.
  induction set as [|s rest IH]; intros i Hsz Hfull; simpl.
  - rewrite Nat.add_0_r. reflexivity.
  - destruct Hsz as [[->|Hs] Hsz].
    + apply Forall_cons in Hfull. destruct Hfull as [Hc _]. contradiction.
    + apply Forall_cons in Hfull. destruct Hfull as [_ Hfull].
      specialize (IH (S i) Hsz Hfull). rewrite length_app, Hs.
      rewrite Nat.add_succ_r. simpl in IH. simpl. lia.
Qed.

Lemma full_or_empty (set : list (list X)) :
  Forall (fun s => s <> []) set \/ Exists (fun s => s = []) set.
Proof.
  induction set as [|s set [IH|IH]].
  - left. constructor.
  - destruct s; [right; left; reflexivity|].
    left. constructor; [discriminate | exact IH].
  - right. right. exact IH.
Qed.

Lemma sized_room (set : list (list X)) :
  sized 0 set -> (length (concat set) + 1 < 2 ^ length set)%nat ->
  Exists (fun s => s = []) set.
Proof.
  intros Hsz Hlen. destruct (full_or_empty set) as [Hfull|Hex]; [|exact Hex].
  pose proof (sized_full_count set 0 Hsz Hfull) as Hc. simpl in Hc. lia.
Qed.

Lemma bucket_fill_spec : forall l set,
  set <> [] -> buckets_ok R P 0 set -> Forall P l ->
  (length (concat set) + length l < 2 ^ length set)%nat ->
  exists set',
    bucket_fill mrg_in l set = Ok set' /\ buckets_ok R P 0 set' /\
    concat set' ≡ₚ l ++ concat set.
Proof.
  induction l as [|x l IH]; intros set Hne Hok HP Hlen; simpl.
  - exists set. auto.
  - apply Forall_cons in HP. destruct HP as [Hx HP]. simpl in Hlen.
    destruct (bucket_carry_spec set 0 [x] Hne Hok)
      as (set1 & Hc & Hl1 & Hok1 & Hcat1).
    + apply sized_room; [apply Hok | lia].
    + reflexivity.
    + repeat constructor.
    + repeat constructor. exact Hx.
    + rewrite Hc. cbn [bind].
      destruct (IH set1) as (set' & Hf & Hok' & Hcat').
      * intros ->. destruct set; [contradiction | discriminate].
      * exact Hok1.
      * exact HP.
      * rewrite Hl1, Hcat1. simpl. lia.
      * exists set'. split; [exact Hf|]. split; [exact Hok'|].
        rewrite Hcat', Hcat1. simpl. rewrite Permutation_middle. reflexivity.
Qed.

Lemma bucket_collect_spec : forall set ep,
  Forall (Sorted R) set -> Forall (Forall P) set -> Sorted R ep -> Forall P ep ->
  exists r, bucket_collect mrg_out set ep = Ok r /\
            r ≡ₚ concat set ++ ep /\ Sorted R r.
Proof.
  induction set as [|s set IH]; intros ep Hso Hp Hs HP; simpl.
  - exists ep. auto.
  - apply Forall_cons in Hso, Hp. destruct Hso as [Hso0 Hso], Hp as [Hp0 Hp].
    destruct (Hout s ep Hp0 HP Hso0 Hs) as (r & Hr & Hperm & Hsr).
    rewrite Hr. cbn [bind].
    destruct (IH r Hso Hp Hsr) as (r' & Hc & Hperm' & Hsr').
    { rewrite Hperm. apply Forall_app. split; assumption. }
    exists r'. split; [exact Hc|]. split; [|exact Hsr'].
    rewrite Hperm', Hperm. rewrite <- app_assoc.
    rewrite (Permutation_app_comm (concat set)), <- !app_assoc.
    apply Permutation_app_head, Permutation_app_comm.
Qed.

Lemma bucket_sort_spec n l :
  (0 < n)%nat -> Forall P l -> (length l < 2 ^ n)%nat ->
  exists r, bucket_sort mrg_in mrg_out n l = Ok r /\ r ≡ₚ l /\ Sorted R r.
Proof.
  intros Hn HP Hlen. unfold bucket_sort.
  assert (Hcat : concat (replicate n ([] : list X)) = []).
  { clear. induction n; simpl; auto. }
  destruct (bucket_fill_spec l (replicate n [])) as (set & Hf & Hok & Hperm).
  - destruct n; [lia | discriminate].
  - split; [|split].
    + clear. generalize 0%nat. induction n; intros i; simpl; auto.
    + apply Forall_replicate. constructor.
    + apply Forall_replicate. constructor.
  - exact HP.
  - rewrite Hcat, length_replicate. simpl. lia.
  - rewrite Hf. cbn [bind]. destruct Hok as (_ & Hso & Hp).
    destruct (bucket_collect_spec set [] Hso Hp) as (r & Hc & Hperm' & Hsr);
      [constructor | constructor |].
    exists r. split; [exact Hc|]. split; [|exact Hsr].
    rewrite Hperm', Hperm, Hcat, !app_nil_r. reflexivity.
Qed.

End BucketProofs.

(** ** [Rule_merge] and [Rule_sort] *)

Lemma Rule_merge_nil_r pA : Rule_merge pA [] = pA.
Proof. destruct pA; reflexivity. Qed.

Lemma Rule_merge_cons a pA b pB :
  Rule_merge (a :: pA) (b :: pB) =
  if iRule a <? iRule b then a :: Rule_merge pA (b :: pB)
  else b :: Rule_merge (a :: pA) pB.
Proof. reflexivity. Qed.

Lemma Rule_merge_spec : forall pA pB,
  Sorted rule_le pA -> Sorted rule_le pB ->
  Rule_merge pA pB ≡ₚ pA ++ pB /\
  Sorted rule_le (Rule_merge pA pB) /\
  (forall x, HdRel rule_le x pA -> HdRel rule_le x pB ->
             HdRel rule_le x (Rule_merge pA pB)).
Proof.
  induction pA as [|a pA IHA]; intros pB HA HB.
  - simpl. split; [reflexivity|]. split; [exact HB | auto].
  - induction pB as [|b pB IHB].
    + rewrite Rule_merge_nil_r, app_nil_r. split; [reflexivity|]. split; [exact HA | auto].
    + rewrite Rule_merge_cons.
      apply Sorted_inv in HA as HA'. destruct HA' as [HA1 HA2].
      apply Sorted_inv in HB as HB'. destruct HB' as [HB1 HB2].
      destruct (Z.ltb_spec (iRule a) (iRule b)) as [Hlt|Hge].
      * destruct (IHA (b :: pB) HA1 HB) as (Hp & Hs & Hh).
        split; [simpl; rewrite Hp; reflexivity|].
        split.
        -- constructor; [exact Hs|]. apply Hh; [exact HA2|].
           constructor. unfold rule_le. lia.
        -- intros x Hx _. constructor. inversion Hx; assumption.
      * destruct (IHB HB1) as (Hp & Hs & Hh).
        split; [rewrite Hp; apply (Permutation_middle (a :: pA) pB b)|].
        split.
        -- constructor; [exact Hs|]. apply Hh; [|exact HB2].
           constructor. unfold rule_le. lia.
        -- intros x _ Hx. constructor. inversion Hx; assumption.
Qed.

Lemma Rule_sort_carry_eq : forall x rp,
  Rule_sort_carry rp x =
  bucket_carry (fun ep s => Ok (Rule_merge s ep)) rp x.
Proof.
  induction x as [|s rest IH]; intros rp; [reflexivity|].
  destruct rest as [|s1 rest]; [reflexivity|].
  destruct s as [|a s]; [reflexivity|].
  change (Rule_sort_carry rp ((a :: s) :: s1 :: rest))
    with (let* rest' := Rule_sort_carry (Rule_merge (a :: s) rp) (s1 :: rest) in
          Ok ([] :: rest')).
  rewrite IH. reflexivity.
Qed.

Lemma Rule_sort_fill_eq : forall l x,
  Rule_sort_fill l x = bucket_fill (fun ep s => Ok (Rule_merge s ep)) l x.
Proof.
  induction l as [|r l IH]; intros x; simpl; [reflexivity|].
  rewrite Rule_sort_carry_eq.
  destruct (bucket_carry _ [r] x); simpl; [apply IH | reflexivity].
Qed.

Lemma Rule_sort_collect_eq : forall x rp,
  Ok (Rule_sort_collect x rp) =
  bucket_collect (fun s ep => Ok (Rule_merge s ep)) x rp.
Proof. induction x as [|s x IH]; intros rp; simpl; [reflexivity | apply IH]. Qed.

Lemma Rule_sort_eq l :
  Rule_sort l =
  bucket_sort (fun ep s => Ok (Rule_merge s ep))
              (fun s ep => Ok (Rule_merge s ep)) 32 l.
Proof.
  unfold Rule_sort, bucket_sort. rewrite Rule_sort_fill_eq.
  destruct (bucket_fill _ l _); simpl; [apply Rule_sort_collect_eq | reflexivity].
Qed.

Lemma Rule_merge_carry (a b : list rule) :
  Forall (fun _ => True) a -> Forall (fun _ => True) b ->
  Sorted rule_le a -> Sorted rule_le b ->
  exists r, Ok (Rule_merge b a) = Ok r /\ r ≡ₚ a ++ b /\ Sorted rule_le r.
Proof.
  intros _ _ Ha Hb. eexists. split; [reflexivity|].
  destruct (Rule_merge_spec b a Hb Ha) as (Hp & Hs & _).
  split; [rewrite Hp; apply Permutation_app_comm | exact Hs].
Qed.

Lemma Rule_merge_collect (a b : list rule) :
  Forall (fun _ => True) a -> Forall (fun _ => True) b ->
  Sorted rule_le a -> Sorted rule_le b ->
  exists r, Ok (Rule_merge a b) = Ok r /\ r ≡ₚ a ++ b /\ Sorted rule_le r.
Proof.
  intros _ _ Ha Hb. eexists. split; [reflexivity|].
  destruct (Rule_merge_spec a b Ha Hb) as (Hp & Hs & _). auto.
Qed.

(** [Rule_sort] returns the rules it was given, in the order of
    increasing [iRule], for a list of fewer than 2^32 rules: the last of
    the 32 buckets is written without a look at what it holds, which is
    a run of 2^31 rules once that many have come in. *)
Theorem Rule_sort_sorts l :
  (length l < 2 ^ 32)%nat ->
  exists r, Rule_sort l = Ok r /\ r ≡ₚ l /\ Sorted rule_le r.
Proof.
  intros Hlen. rewrite Rule_sort_eq.
  apply (bucket_sort_spec _ _ rule_le (fun _ => True)).
  - exact Rule_merge_carry.
  - exact Rule_merge_collect.
  - lia.
  - apply Forall_forall. auto.
  - exact Hlen.
Qed.

Lemma Rule_sort_sorts_witness :
  exists r,
    Rule_sort [mkRule 0 2 None; mkRule 1 0 None; mkRule 2 1 None] = Ok r /\
    iRule <$> r = [0; 1; 2].
Proof.
  destruct (Rule_sort_sorts [mkRule 0 2 None; mkRule 1 0 None; mkRule 2 1 None])
    as (r & Hr & _).
  - apply Nat.lt_trans with 32%nat; [simpl; lia | apply Nat.pow_gt_lin_r; lia].
  - exists r. split; [exact Hr|]. vm_compute in Hr. injection Hr as <-. reflexivity.
Defined.

(** ** [actioncmp] and [msort__action] *)

Lemma e_action_code_inj t1 t2 : e_action_code t1 = e_action_code t2 -> t1 = t2.
Proof. destruct t1, t2; simpl; intros H; try reflexivity; discriminate H. Qed.

Lemma is_reduce_code a b :
  e_action_code (atyp a) = e_action_code (atyp b) -> is_reduce a = is_reduce b.
Proof. intros H. apply e_action_code_inj in H. unfold is_reduce. rewrite H. reflexivity. Qed.

Lemma actioncmp_val x y :
  has_rule (node_action x) -> has_rule (node_action y) ->
  actioncmp x y = Ok (cmp_val x y).
Proof.
  unfold has_rule, actioncmp, cmp_val. intros Hx Hy. fold (is_reduce (node_action x)).
  destruct (Z.eqb_spec (index (sp (node_action x)) - index (sp (node_action y))) 0) as [H1|H1].
  - destruct (Z.eqb_spec (e_action_code (atyp (node_action x))
                          - e_action_code (atyp (node_action y))) 0) as [H2|H2]; simpl.
    + destruct (is_reduce (node_action x)) eqn:Hr; simpl.
      * assert (Hr' : is_reduce (node_action y) = true).
        { rewrite <- Hr. symmetry. apply is_reduce_code. lia. }
        unfold rule_ix.
        destruct (x_rp (node_action x)) as [r1|]; [|exfalso; apply Hx; reflexivity].
        destruct (x_rp (node_action y)) as [r2|]; [|exfalso; apply Hy; auto].
        reflexivity.
      * reflexivity.
    + reflexivity.
  - simpl. rewrite (proj2 (Z.eqb_neq _ _) H1). reflexivity.
Qed.

Ltac cmp_cases :=
  repeat (match goal with
          | |- context [?a =? 0] =>
              lazymatch a with
              | context [if _ then _ else _] => fail
              | _ => destruct (Z.eqb_spec a 0)
              end
          end; cbn [andb]);
  try lia;
  try (exfalso;
       match goal with
       | H : ?A -> true = false |- _ =>
           let Hc := fresh in assert (Hc : A) by lia; discriminate (H Hc)
       | H : ?A -> false = true |- _ =>
           let Hc := fresh in assert (Hc : A) by lia; discriminate (H Hc)
       end).

Lemma cmp_val_antisym x y : cmp_val y x = - cmp_val x y.
Proof.
  unfold cmp_val.
  pose proof (is_reduce_code (node_action x) (node_action y)) as Hr.
  destruct (is_reduce (node_action x)), (is_reduce (node_action y)); cmp_cases.
Qed.

Lemma cmp_val_trans x y z :
  cmp_val x y <= 0 -> cmp_val y z <= 0 -> cmp_val x z <= 0.
Proof.
  unfold cmp_val.
  pose proof (is_reduce_code (node_action x) (node_action y)) as Hxy.
  pose proof (is_reduce_code (node_action y) (node_action z)) as Hyz.
  destruct (is_reduce (node_action x)), (is_reduce (node_action y)),
    (is_reduce (node_action z)); cmp_cases.
Qed.

Global Instance action_le_trans : Transitive action_le.
Proof. intros x y z. unfold action_le. apply cmp_val_trans. Qed.

Lemma merge__action_nil_r a : merge__action a [] = Ok a.
Proof. destruct a; reflexivity. Qed.

Lemma merge__action_cons x a y b :
  merge__action (x :: a) (y :: b) =
  let* c := actioncmp x y in
  if c <=? 0
  then let* r := merge__action a (y :: b) in Ok (x :: r)
  else let* r := merge__action (x :: a) b in Ok (y :: r).
Proof. reflexivity. Qed.

Lemma merge__action_spec : forall a b,
  Forall (fun x => has_rule (node_action x)) a ->
  Forall (fun x => has_rule (node_action x)) b ->
  Sorted action_le a -> Sorted action_le b ->
  exists r, merge__action a b = Ok r /\ r ≡ₚ a ++ b /\ Sorted action_le r /\
    (forall z, HdRel action_le z a -> HdRel action_le z b -> HdRel action_le z r).
Proof.
  induction a as [|x a IHa]; intros b Pa Pb Ha Hb.
  - simpl. exists b. split; [reflexivity|]. split; [reflexivity|]. split; [exact Hb | auto].
  - induction b as [|y b IHb].
    + rewrite merge__action_nil_r, app_nil_r. exists (x :: a).
      split; [reflexivity|]. split; [reflexivity|]. split; [exact Ha | auto].
    + rewrite merge__action_cons.
      apply Forall_cons in Pa as Pa'. destruct Pa' as [Px Pa'].
      apply Forall_cons in Pb as Pb'. destruct Pb' as [Py Pb'].
      apply Sorted_inv in Ha as Ha'. destruct Ha' as [Ha1 Ha2].
      apply Sorted_inv in Hb as Hb'. destruct Hb' as [Hb1 Hb2].
      rewrite (actioncmp_val x y Px Py). cbn [bind].
      destruct (Z.leb_spec (cmp_val x y) 0) as [Hle|Hgt].
      * destruct (IHa (y :: b) Pa' Pb Ha1 Hb) as (r & Hr & Hp & Hs & Hh).
        rewrite Hr. cbn [bind]. exists (x :: r). split; [reflexivity|].
        split; [simpl; rewrite Hp; reflexivity|].
        split.
        -- constructor; [exact Hs|]. apply Hh; [exact Ha2|].
           constructor. exact Hle.
        -- intros z Hz _. constructor. inversion Hz; assumption.
      * destruct (IHb Pb' Hb1) as (r & Hr & Hp & Hs & Hh).
        rewrite Hr. cbn [bind]. exists (y :: r). split; [reflexivity|].
        split; [rewrite Hp; apply (Permutation_middle (x :: a) b y)|].
        split.
        -- constructor; [exact Hs|]. apply Hh; [|exact Hb2].
           constructor. unfold action_le. rewrite cmp_val_antisym. lia.
        -- intros z _ Hz. constructor. inversion Hz; assumption.
Qed.

Lemma msort_carry_eq ep set :
  msort_carry ep set = bucket_carry merge__action ep set.
Proof. reflexivity. Qed.

Lemma msort_fill_eq l set :
  msort_fill l set = bucket_fill merge__action l set.
Proof. reflexivity. Qed.

Lemma msort_collect_eq : forall set ep,
  msort_collect set ep = bucket_collect merge__action set ep.
Proof.
  induction set as [|s set IH]; intros ep; [reflexivity|].
  destruct s as [|x s].
  - change (msort_collect ([] :: set) ep) with (msort_collect set ep).
    change (bucket_collect merge__action ([] :: set) ep)
      with (bucket_collect merge__action set ep).
    apply IH.
  - change (msort_collect ((x :: s) :: set) ep)
      with (let* ep' := merge__action (x :: s) ep in msort_collect set ep').
    change (bucket_collect merge__action ((x :: s) :: set) ep)
      with (let* ep' := merge__action (x :: s) ep in
            bucket_collect merge__action set ep').
    destruct (merge__action (x :: s) ep) as [r|e]; cbn [bind];
      [apply IH | reflexivity].
Qed.

Lemma Action_sort_eq l :
  Action_sort l = bucket_sort merge__action merge__action LISTSIZE l.
Proof.
  unfold Action_sort, msort__action, bucket_sort. rewrite msort_fill_eq.
  destruct (bucket_fill _ l _); simpl; [apply msort_collect_eq | reflexivity].
Qed.

Lemma merge__action_sorted (a b : list action_node) :
  Forall (fun x => has_rule (node_action x)) a ->
  Forall (fun x => has_rule (node_action x)) b ->
  Sorted action_le a -> Sorted action_le b ->
  exists r, merge__action a b = Ok r /\ r ≡ₚ a ++ b /\ Sorted action_le r.
Proof.
  intros Pa Pb Ha Hb.
  destruct (merge__action_spec a b Pa Pb Ha Hb) as (r & Hr & Hp & Hs & _). eauto.
Qed.

(** [Action_sort] returns the actions it was given, in the order of
    [actioncmp], for a list of fewer than 2^30 actions whose REDUCE and
    SHIFTREDUCE actions have their rule. *)
Theorem Action_sort_sorts l :
  Forall (fun x => has_rule (node_action x)) l ->
  (length l < 2 ^ LISTSIZE)%nat ->
  exists r, Action_sort l = Ok r /\ r ≡ₚ l /\ StronglySorted action_le r.
Proof.
  intros HP Hlen. rewrite Action_sort_eq.
  destruct (bucket_sort_spec merge__action merge__action action_le
              (fun x => has_rule (node_action x))
              merge__action_sorted merge__action_sorted LISTSIZE l)
    as (r & Hr & Hp & Hs).
  - unfold LISTSIZE. lia.
  - exact HP.
  - exact Hlen.
  - exists r. split; [exact Hr|]. split; [exact Hp|].
    apply Sorted_StronglySorted; [apply action_le_trans | exact Hs].
Qed.

Lemma Action_sort_sorts_witness :
  exists r,
    Action_sort [mkNode ex_reduce_EQ 1; mkNode ex_shift_EQ 2] = Ok r /\
    r = [mkNode ex_shift_EQ 2; mkNode ex_reduce_EQ 1].
Proof.
  destruct (Action_sort_sorts [mkNode ex_reduce_EQ 1; mkNode ex_shift_EQ 2])
    as (r & Hr & _).
  - repeat constructor; intros H; vm_compute in H; discriminate.
  - unfold LISTSIZE.
    apply Nat.lt_trans with 30%nat; [simpl; lia | apply Nat.pow_gt_lin_r; lia].
  - exists r. split; [exact Hr|]. vm_compute in Hr. injection Hr as <-. reflexivity.
Defined.

Lemma StronglySorted_lookup_lt {A : Type} (R : A -> A -> Prop) (l : list A) :
  StronglySorted R l ->
  forall (i j : nat) x y, (i < j)%nat -> l !! i = Some x -> l !! j = Some y -> R x y.
Proof.
  induction 1 as [|a l Hs IH Hall]; intros i j x y Hij Hi Hj.
  - rewrite lookup_nil in Hi. discriminate.
  - destruct j as [|j]; [lia|]. simpl in Hj. destruct i as [|i].
    + injection Hi as <-. rewrite Forall_forall in Hall. apply Hall.
      apply list_elem_of_lookup_2 in Hj. exact Hj.
    + simpl in Hi. apply (IH i j); [lia | assumption | assumption].
Qed.

(** In the list that [Action_sort] returns the actions are grouped by
    lookahead symbol, in the order of the symbol indices, and within a
    group the kinds come in the order of the constants: no REDUCE, and no
    other action, comes before a SHIFT on the same symbol.  This is what
    the conflict loop of [FindActions] and [resolve_conflict] rely on. *)
Theorem Action_sort_shift_first l r :
  Forall (fun x => has_rule (node_action x)) l ->
  (length l < 2 ^ LISTSIZE)%nat ->
  Action_sort l = Ok r ->
  forall (i j : nat) x y,
    (i < j)%nat -> r !! i = Some x -> r !! j = Some y ->
    index (sp (node_action x)) <= index (sp (node_action y)) /\
    (index (sp (node_action x)) = index (sp (node_action y)) ->
     e_action_code (atyp (node_action x)) <= e_action_code (atyp (node_action y)) /\
     (atyp (node_action y) = SHIFT -> atyp (node_action x) = SHIFT)).
Proof.
  intros HP Hlen Hr i j x y Hij Hi Hj.
  rewrite Action_sort_eq in Hr.
  destruct (bucket_sort_spec merge__action merge__action action_le
              (fun x => has_rule (node_action x))
              merge__action_sorted merge__action_sorted LISTSIZE l)
    as (r' & Hr' & _ & Hs); [unfold LISTSIZE; lia | exact HP | exact Hlen |].
  assert (r' = r) as -> by congruence.
  apply Sorted_StronglySorted in Hs; [|apply action_le_trans].
  pose proof (StronglySorted_lookup_lt _ _ Hs i j x y Hij Hi Hj) as Hle.
  unfold action_le, cmp_val in Hle.
  assert (Hcode : index (sp (node_action x)) <= index (sp (node_action y)) /\
    (index (sp (node_action x)) = index (sp (node_action y)) ->
     e_action_code (atyp (node_action x)) <= e_action_code (atyp (node_action y)))).
  { revert Hle. destruct (is_reduce (node_action x)); cmp_cases. }
  destruct Hcode as [H1 H2]. split; [exact H1|]. intros Heq.
  split; [apply H2; exact Heq|]. intros Hy. specialize (H2 Heq). rewrite Hy in H2.
  destruct (atyp (node_action x)); simpl in H2; try reflexivity; lia.
Qed.

Lemma Action_sort_shift_first_witness :
  exists r x y,
    Action_sort [mkNode ex_reduce_EQ 1; mkNode ex_shift_EQ 2] = Ok r /\
    r !! 0%nat = Some x /\ r !! 1%nat = Some y /\
    atyp (node_action x) = SHIFT /\
    index (sp (node_action x)) <= index (sp (node_action y)).
Proof.
  exists [mkNode ex_shift_EQ 2; mkNode ex_reduce_EQ 1],
         (mkNode ex_shift_EQ 2), (mkNode ex_reduce_EQ 1).
  split; [reflexivity|]. split; [reflexivity|]. split; [reflexivity|].
  split; [reflexivity|].
  apply (Action_sort_shift_first
           [mkNode ex_reduce_EQ 1; mkNode ex_shift_EQ 2]
           [mkNode ex_shift_EQ 2; mkNode ex_reduce_EQ 1]) with (i := 0%nat) (j := 1%nat).
  - repeat constructor; intros H; vm_compute in H; discriminate.
  - unfold LISTSIZE.
    apply Nat.lt_trans with 30%nat; [simpl; lia | apply Nat.pow_gt_lin_r; lia].
  - reflexivity.
  - lia.
  - reflexivity.
  - reflexivity.
Defined.

(** ** The numbering of the rules *)

Lemma renumber_app l1 l2 i :
  renumber (l1 ++ l2) i = renumber l1 i ++ renumber l2 (i + Z.of_nat (length l1)).
Proof.
  revert i. induction l1 as [|r l1 IH]; intros i; simpl.
  - f_equal. lia.
  - f_equal. rewrite IH. do 2 f_equal. lia.
Qed.

Lemma renumber_elem l : forall i r,
  r ∈ renumber l i ->
  exists (k : nat) r0, l !! k = Some r0 /\ r = set_iRule r0 (i + Z.of_nat k).
Proof.
  induction l as [|a l IH]; intros i r Hr; simpl in Hr.
  - apply elem_of_nil in Hr. contradiction.
  - apply elem_of_cons in Hr. destruct Hr as [->|Hr].
    + exists 0%nat, a. split; [reflexivity|]. f_equal. lia.
    + destruct (IH _ _ Hr) as (k & r0 & Hk & ->).
      exists (S k), r0. split; [exact Hk|]. f_equal. lia.
Qed.

Lemma renumber_sorted l : forall i, StronglySorted rule_le (renumber l i).
Proof.
  induction l as [|a l IH]; intros i; simpl; constructor; [apply IH|].
  apply Forall_forall. intros r Hr.
  destruct (renumber_elem _ _ _ Hr) as (k & r0 & _ & ->).
  unfold rule_le. simpl. lia.
Qed.

Lemma renumber_set_iRule l j : forall i,
  renumber ((fun r => set_iRule r j) <$> l) i = renumber l i.
Proof. induction l as [|a l IH]; intros i; simpl; [reflexivity | f_equal; apply IH]. Qed.

Lemma number_coded_spec : forall rules i,
  snd (number_coded rules i) = i + Z.of_nat (length (filter (fun p => has_code p = true) rules)) /\
  fst <$> filter (fun p => has_code p = true) (fst (number_coded rules i))
    = renumber (fst <$> filter (fun p => has_code p = true) rules) i /\
  fst <$> filter (fun p => has_code p <> true) (fst (number_coded rules i))
    = (fun r => set_iRule r (-1)) <$>
      (fst <$> filter (fun p => has_code p <> true) rules) /\
  (0 <= i -> Forall (fun p => has_code p = true <-> 0 <= iRule (fst p))
                    (fst (number_coded rules i))).
Proof.
  induction rules as [|[r c] rules IH]; intros i.
  - simpl. repeat split; try reflexivity; try lia. intros _. constructor.
  - cbn [number_coded]. destruct (has_code (r, c)) eqn:Hc; cbn [fst snd].
    + destruct (IH (i + 1)) as (H1 & H2 & H3 & H4).
      rewrite !filter_cons_True by exact Hc.
      rewrite !filter_cons_False by (intros H; exact (H Hc)).
      split; [rewrite H1; simpl; lia|].
      split; [rewrite !fmap_cons; cbn [renumber fst]; rewrite H2; reflexivity|].
      split; [exact H3|]. intros Hi. constructor; [|apply H4; lia].
      simpl. split; [lia | intros _; exact Hc].
    + destruct (IH i) as (H1 & H2 & H3 & H4).
      assert (Hn : has_code (r, c) <> true) by (rewrite Hc; discriminate).
      rewrite !filter_cons_False by (intros H; exact (Hn H)).
      rewrite !filter_cons_True by exact Hn.
      split; [exact H1|]. split; [exact H2|].
      split; [rewrite !fmap_cons; cbn [fst]; rewrite H3; reflexivity|].
      intros Hi. constructor; [|apply H4; lia].
      simpl. split; [intros H; destruct (Hn H) | lia].
Qed.

Lemma renumber_length l : forall i, length (renumber l i) = length l.
Proof. induction l as [|a l IH]; intros i; simpl; [reflexivity | f_equal; apply IH]. Qed.

Lemma number_uncoded_spec : forall rules i,
  Forall (fun p => has_code p = true <-> 0 <= iRule (fst p)) rules ->
  fst <$> filter (fun p => has_code p = true) (fst (number_uncoded rules i))
    = fst <$> filter (fun p => has_code p = true) rules /\
  fst <$> filter (fun p => has_code p <> true) (fst (number_uncoded rules i))
    = renumber (fst <$> filter (fun p => has_code p <> true) rules) i.
Proof.
  induction rules as [|[r c] rules IH]; intros i HF.
  - simpl. split; reflexivity.
  - apply Forall_cons in HF. destruct HF as [Hp HF]. cbn [fst] in Hp.
    cbn [number_uncoded fst snd].
    destruct (Z.ltb_spec (iRule r) 0) as [Hlt|Hge].
    + assert (Hn : has_code (r, c) <> true) by (intros H; apply Hp in H; lia).
      destruct (IH (i + 1) HF) as [H1 H2]. cbn [fst snd].
      rewrite !filter_cons_False by (intros H; exact (Hn H)).
      rewrite !filter_cons_True by exact Hn.
      split; [exact H1|].
      rewrite !fmap_cons. cbn [renumber fst]. rewrite H2. reflexivity.
    + assert (Hc : has_code (r, c) = true) by (apply Hp; lia).
      destruct (IH i HF) as [H1 H2]. cbn [fst snd].
      rewrite !filter_cons_True by exact Hc.
      rewrite !filter_cons_False by (intros H; exact (H Hc)).
      split; [rewrite !fmap_cons, H1; reflexivity | exact H2].
Qed.

(** The numbering of [main]: the rules that have code get the numbers
    0, 1, ... in the order of the grammar, the rules without code the
    numbers after them, again in the order of the grammar; the list
    comes back from [Rule_sort] in the order of these numbers, and
    [nruleWithAction] is the number of rules that have code.  For a
    grammar of fewer than 2^32 rules. *)
Theorem number_rules_order rules :
  (length rules < 2 ^ 32)%nat ->
  number_rules rules =
    Ok (renumber ((fst <$> filter (fun p => has_code p = true) rules)
                  ++ (fst <$> filter (fun p => has_code p <> true) rules)) 0,
        Z.of_nat (length (filter (fun p => has_code p = true) rules))).
Proof.
  intros Hlen. unfold number_rules.
  destruct (number_coded_spec rules 0) as (H1 & H2 & H3 & H4).
  assert (H4' := H4 ltac:(lia)). clear H4.
  destruct (number_uncoded_spec _ (snd (number_coded rules 0)) H4') as [U1 U2].
  set (F := fst <$> fst (number_uncoded (fst (number_coded rules 0))
                           (snd (number_coded rules 0)))).
  set (T := renumber ((fst <$> filter (fun p => has_code p = true) rules)
                  ++ (fst <$> filter (fun p => has_code p <> true) rules)) 0).
  assert (HFT : F ≡ₚ T).
  { unfold F, T.
    rewrite <- (filter_app_complement (fun p => has_code p = true)
                 (fst (number_uncoded (fst (number_coded rules 0))
                         (snd (number_coded rules 0))))) at 1.
    rewrite fmap_app, U1, U2, H2, H3, renumber_set_iRule, renumber_app.
    rewrite H1, length_fmap. reflexivity. }
  assert (HlenF : length F = length rules).
  { rewrite (Permutation_length HFT). unfold T.
    rewrite renumber_length, length_app, !length_fmap, <- length_app.
    apply Permutation_length, filter_app_complement. }
  destruct (bucket_sort_spec _ _ rule_le (fun _ => True)
              Rule_merge_carry Rule_merge_collect 32 F) as (r & Hr & Hp & Hs);
    [lia | apply Forall_forall; auto | rewrite HlenF; exact Hlen |].
  rewrite <- Rule_sort_eq in Hr.
  rewrite Hr. simpl. f_equal. f_equal; [|rewrite H1; lia].
  apply (StronglySorted_unique_strong rule_le).
  - intros x1 x2 Hx1 Hx2 H12 H21.
    rewrite Hp, HFT in Hx1.
    destruct (renumber_elem _ _ _ Hx1) as (k1 & r1 & Hk1 & ->).
    destruct (renumber_elem _ _ _ Hx2) as (k2 & r2 & Hk2 & ->).
    unfold rule_le in H12, H21. simpl in H12, H21.
    assert (k1 = k2) as -> by lia.
    rewrite Hk1 in Hk2. injection Hk2 as ->. reflexivity.
  - apply Sorted_StronglySorted; [|exact Hs].
    intros a b c Hab Hbc. unfold rule_le in *. lia.
  - apply renumber_sorted.
  - rewrite Hp. exact HFT.
Qed.

Lemma number_rules_order_witness :
  number_rules [(mkRule 0 0 None, EmptyString); (mkRule 1 0 None, "c"%string);
                (mkRule 2 0 None, EmptyString); (mkRule 3 0 None, "d"%string)]
  = Ok ([mkRule 1 0 None; mkRule 3 1 None; mkRule 0 2 None; mkRule 2 3 None], 2).
Proof.
  rewrite number_rules_order; [reflexivity|].
  apply Nat.lt_trans with 32%nat; [simpl; lia | apply Nat.pow_gt_lin_r; lia].
Defined.

(** * Further properties of [ResortStates] *)

Lemma ResortStates_actions_rows lemp0 lemp aps : forall stp0 st,
  nonneg_codes lemp0 -> nonneg_codes lemp ->
  g_nterminal lemp = g_nterminal lemp0 -> g_nsymbol lemp = g_nsymbol lemp0 ->
  nonneg_rules aps ->
  Forall (fun a => index (sp a) <= g_nsymbol lemp0) aps ->
  ResortStates_actions lemp0 stp0 aps = Ok st ->
  exists rt rn,
    row_entries lemp true aps = Ok rt /\ row_entries lemp false aps = Ok rn /\
    nTknAct st = nTknAct stp0 + Z.of_nat (length rt) /\
    nNtAct st = nNtAct stp0 + Z.of_nat (length rn).
Proof.
  intros stp0 st N0 N Ht Hs. revert stp0 st.
  induction aps as [|a aps IH]; intros stp0 st Hr Hix H.
  - exists [], []. simpl in *. injection H as <-. repeat split; lia.
  - apply Forall_cons in Hix. destruct Hix as [Hia Hix].
    assert (Hr' : nonneg_rules aps) by (intros b rp Hb; apply Hr; right; exact Hb).
    assert (Hra : forall rp, x_rp a = Some rp -> 0 <= iRule rp)
      by (intros rp; apply Hr; left).
    cbn [ResortStates_actions] in H. inv_bind H. rename a0 into c0, Ha into Hc0.
    destruct (compute_action_defined lemp0 lemp a c0 Hc0) as [c Hc].
    pose proof (compute_action_sign lemp0 a c0 N0 Hra Hc0) as S0.
    pose proof (compute_action_sign lemp a c N Hra Hc) as S1.
    assert (Hsign : 0 <= c0 <-> 0 <= c) by tauto. clear S0 S1.
    assert (K : forall st1, ResortStates_actions lemp0 st1 aps = Ok st ->
      exists rt rn,
        row_entries lemp true aps = Ok rt /\ row_entries lemp false aps = Ok rn /\
        nTknAct st = nTknAct st1 + Z.of_nat (length rt) /\
        nNtAct st = nNtAct st1 + Z.of_nat (length rn))
      by (intros st1 H1; exact (IH st1 st Hr' Hix H1)).
    cbn [row_entries]. rewrite Ht, Hs, Hc. cbn [bind].
    rewrite !Z.geb_leb in *.
    destruct (Z.leb_spec 0 c0) as [Hpos|Hneg].
    + destruct (Z.ltb_spec c 0) as [Hc'|Hc']; [lia|].
      destruct (Z.ltb_spec (index (sp a)) (g_nterminal lemp0)) as [Hlt|Hge].
      { destruct (K _ H) as (rt & rn & E1 & E2 & E3 & E4).
        destruct (Z.leb_spec (g_nterminal lemp0) (index (sp a))); [lia|].
        rewrite E1, E2. cbn [bind orb]. eexists _, _.
        split; [reflexivity|]. split; [reflexivity|].
        simpl in *. lia. }
      destruct (Z.leb_spec (g_nterminal lemp0) (index (sp a))); [|lia].
      cbn [orb].
      destruct (Z.ltb_spec (index (sp a)) (g_nsymbol lemp0)) as [Hlt2|Hge2].
      { destruct (K _ H) as (rt & rn & E1 & E2 & E3 & E4).
        destruct (Z.eqb_spec (index (sp a)) (g_nsymbol lemp0)); [lia|].
        rewrite E1, E2. cbn [bind]. eexists _, _.
        split; [reflexivity|]. split; [reflexivity|].
        simpl in *. lia. }
      destruct (negb _); [discriminate|].
      destruct (K _ H) as (rt & rn & E1 & E2 & E3 & E4).
      destruct (Z.eqb_spec (index (sp a)) (g_nsymbol lemp0)); [|lia].
      rewrite E1, E2. eexists _, _.
      split; [reflexivity|]. split; [reflexivity|]. simpl in *. lia.
    + destruct (Z.ltb_spec c 0) as [Hc'|Hc']; [|lia].
      destruct (K _ H) as (rt & rn & E1 & E2 & E3 & E4).
      rewrite E1, E2.
      exists rt, rn.
      split; [destruct (_ <=? _); reflexivity|].
      split; [destruct (_ || _); reflexivity|]. lia.
Qed.

(** [ResortStates] counts what [ReportTable] packs.  [ResortStates] runs
    before [ReportTable] has set the boundaries of the action codes; all
    the same, with codes and rule numbers that are not negative and
    lookahead symbols numbered up to [nsymbol], the [nTknAct] and
    [nNtAct] it leaves in a state are the numbers of [acttab_action]
    calls that the row loops of [ReportTable] make for the state, and
    the actions of the state are not touched. *)
Theorem ResortStates_counts_rows lemp0 st st' p :
  let lemp := ReportTable_boundaries lemp0 in
  nonneg_codes lemp0 -> 0 <= nstate lemp0 -> 0 <= nrule lemp0 ->
  nonneg_rules (ap st) ->
  Forall (fun a => index (sp a) <= g_nsymbol lemp0) (ap st) ->
  ResortStates_state lemp0 st = Ok st' ->
  wf_acttab p -> nLookahead p = 0 ->
  ap st' = ap st /\
  exists pt pn,
    tkn_row lemp p (ap st') = Ok pt /\ nLookahead pt = nTknAct st' /\
    nt_row lemp p (ap st') = Ok pn /\ nLookahead pn = nNtAct st'.
Proof.
  intros lemp N0 Hns Hnr Hr Hix H Hwf Hn.
  assert (N : nonneg_codes lemp).
  { destruct N0 as (_ & _ & _ & _ & Hst). unfold lemp, nonneg_codes. simpl.
    repeat split; try lia. exact Hst. }
  unfold ResortStates_state in H.
  destruct (ResortStates_actions_counts _ _ _ _ H) as (Hap & _).
  simpl in Hap. split; [exact Hap|].
  destruct (ResortStates_actions_rows lemp0 lemp _ _ _ N0 N eq_refl eq_refl Hr Hix H)
    as (rt & rn & E1 & E2 & E3 & E4).
  simpl in E3, E4.
  assert (Hpb : pending_bounds p) by (intros Hpos; lia).
  destruct (add_actions_spec rt p Hwf Hpb) as (pt & At & _ & _ & _ & Lt & _).
  destruct (add_actions_spec rn p Hwf Hpb) as (pn & An & _ & _ & _ & Ln & _).
  exists pt, pn. rewrite Hap.
  rewrite <- (fill_row_entries lemp true (ap st) p rt E1) in At.
  rewrite <- (fill_row_entries lemp false (ap st) p rn E2) in An.
  simpl in At, An.
  split; [exact At|]. split; [lia|]. split; [exact An | lia].
Qed.

Lemma ResortStates_counts_rows_witness :
  exists st' pt pn,
    ResortStates_state ex_lemon0 ex_ok_state0 = Ok st' /\
    tkn_row ex_lemon (acttab_alloc 3 2) (ap st') = Ok pt /\
    nLookahead pt = nTknAct st' /\
    nt_row ex_lemon (acttab_alloc 3 2) (ap st') = Ok pn /\
    nLookahead pn = nNtAct st'.
Proof.
  destruct (ResortStates_state ex_lemon0 ex_ok_state0) as [st'|] eqn:E;
    [|vm_compute in E; discriminate].
  destruct (ResortStates_counts_rows ex_lemon0 ex_ok_state0 st' (acttab_alloc 3 2))
    as (_ & pt & pn & H).
  - unfold nonneg_codes. simpl. repeat split; try lia.
  - simpl. lia.
  - simpl. lia.
  - intros a rp Ha Hrp. simpl in Ha.
    repeat (apply elem_of_cons in Ha; destruct Ha as [->|Ha]);
      try (apply elem_of_nil in Ha; contradiction);
      simpl in Hrp; try discriminate.
    injection Hrp as <-. simpl. lia.
  - simpl. repeat (constructor; [simpl; lia|]). constructor.
  - exact E.
  - apply acttab_alloc_wf. lia.
  - reflexivity.
  - exists st', pt, pn. split; [reflexivity | exact H].
Defined.

(** * Further properties of the terminal-index sets *)


Lemma SetUnion_step_Panic e l :
  foldl SetUnion_step (Panic e) l = Panic e.
Proof. induction l as [|kv l IH]; simpl; [reflexivity | exact IH]. Qed.

Lemma SetFind_insert_true m k e :
  SetFind (Some (<[k := true]> m)) e = SetFind (Some m) e || bool_decide (e = k).
Proof.
  simpl. destruct (decide (e = k)) as [->|Hne].
  - rewrite lookup_insert_eq, bool_decide_eq_true_2 by reflexivity.
    simpl. rewrite orb_true_r. reflexivity.
  - rewrite lookup_insert_ne by congruence.
    rewrite bool_decide_eq_false_2 by exact Hne. rewrite orb_false_r. reflexivity.
Qed.

Lemma SetUnion_fold l : forall s b,
  match foldl SetUnion_step (Ok (s, b)) l with
  | Ok (s', c) =>
      (c = true <-> b = true \/ exists k, (k, true) ∈ l /\ SetFind s k = false) /\
      (forall e, SetFind s' e = SetFind s e || bool_decide ((e, true) ∈ l)) /\
      (s = None -> s' = None)
  | Panic e => e = NilMapWrite /\ s = None /\ exists k, (k, true) ∈ l
  end.
Proof.
  induction l as [|[k v] l IH]; intros s b.
  - cbn [foldl]. split; [|split].
    + split; [auto|]. intros [H|(k & Hk & _)]; [exact H|].
      apply elem_of_nil in Hk. contradiction.
    + intros e. rewrite bool_decide_eq_false_2, orb_false_r; [reflexivity|].
      apply not_elem_of_nil.
    + auto.
  - cbn [foldl]. unfold SetUnion_step at 2. cbn [bind].
    assert (Hskip :
      (v = false \/ SetFind s k = true) ->
      match foldl SetUnion_step (Ok (s, b)) l with
      | Ok (s', c) =>
          (c = true <-> b = true \/
             exists k0, (k0, true) ∈ (k, v) :: l /\ SetFind s k0 = false) /\
          (forall e, SetFind s' e = SetFind s e || bool_decide ((e, true) ∈ (k, v) :: l)) /\
          (s = None -> s' = None)
      | Panic e => e = NilMapWrite /\ s = None /\ exists k0, (k0, true) ∈ (k, v) :: l
      end).
    { intros Hv. specialize (IH s b). destruct (foldl _ _ l) as [[s' c]|e].
      - destruct IH as (I1 & I2 & I3). split; [|split; [|exact I3]].
        + rewrite I1. split.
          * intros [H|(k' & Hk' & Hn)]; [auto|]. right. exists k'.
            split; [right; exact Hk' | exact Hn].
          * intros [H|(k' & Hk' & Hn)]; [auto|]. right. exists k'.
            split; [|exact Hn]. apply elem_of_cons in Hk'.
            destruct Hk' as [Heq|Hk']; [|exact Hk'].
            injection Heq as -> <-. destruct Hv; congruence.
        + intros e. rewrite I2. apply Bool.eq_iff_eq_true.
          rewrite !orb_true_iff, !bool_decide_eq_true, elem_of_cons. split.
          * intros [H|H]; auto.
          * intros [H|[H|H]]; auto. injection H as -> <-.
            destruct Hv as [Hv|Hv]; [discriminate | auto].
      - destruct IH as (-> & -> & k' & Hk'). split; [reflexivity|].
        split; [reflexivity|]. exists k'. right. exact Hk'. }
    destruct v; cbn [negb]; [|apply Hskip; left; reflexivity].
    destruct (SetFind s k) eqn:Hf; cbn [negb]; [apply Hskip; right; reflexivity|].
    clear Hskip. destruct s as [m|].
    + specialize (IH (Some (<[k := true]> m)) true).
      destruct (foldl _ _ l) as [[s' c]|e].
      * destruct IH as (I1 & I2 & I3). split; [|split; [|discriminate]].
        -- split; [|intros _; apply I1; auto].
           intros _. right. exists k. split; [left | exact Hf].
        -- intros e. rewrite I2, SetFind_insert_true. apply Bool.eq_iff_eq_true.
           rewrite !orb_true_iff, !bool_decide_eq_true, elem_of_cons. split.
           ++ intros [[H|H]|H]; auto. right. left. rewrite H. reflexivity.
           ++ intros [H|[H|H]]; auto. injection H as ->. auto.
      * destruct IH as (_ & H & _). discriminate.
    + rewrite SetUnion_step_Panic. split; [reflexivity|].
      split; [reflexivity|]. exists k. left.
Qed.

Lemma entries_SetFind s k : (k, true) ∈ entries s <-> SetFind s k = true.
Proof.
  destruct s as [m|]; simpl.
  - rewrite elem_of_map_to_list. destruct (m !! k) as [[|]|]; simpl; split;
      intros H; try reflexivity; try discriminate; congruence.
  - split; [intros H; apply elem_of_nil in H; contradiction | discriminate].
Qed.

Lemma SetUnion_entries s1 s2 :
  match SetUnion (entries s2) s1 with
  | Ok (s1', changed) =>
      (changed = true <-> exists k, SetFind s2 k = true /\ SetFind s1 k = false) /\
      (forall e, SetFind s1' e = SetFind s1 e || SetFind s2 e) /\
      (s1 = None -> s1' = None)
  | Panic e =>
      e = NilMapWrite /\ s1 = None /\ exists k, SetFind s2 k = true
  end.
Proof.
  unfold SetUnion.
  pose proof (SetUnion_fold (entries s2) s1 false) as H.
  destruct (foldl _ _ _) as [[s' c]|e].
  - destruct H as (H1 & H2 & H3). split; [|split; [|exact H3]].
    + rewrite H1. split.
      * intros [H|(k & Hk & Hn)]; [discriminate|]. exists k.
        split; [apply entries_SetFind; exact Hk | exact Hn].
      * intros (k & Hk & Hn). right. exists k.
        split; [apply entries_SetFind; exact Hk | exact Hn].
    + intros e. rewrite H2. f_equal.
      destruct (SetFind s2 e) eqn:Hf.
      * apply bool_decide_eq_true_2, entries_SetFind. exact Hf.
      * apply bool_decide_eq_false_2. rewrite entries_SetFind. congruence.
  - destruct H as (H1 & H2 & k & Hk). split; [exact H1|]. split; [exact H2|].
    exists k. apply entries_SetFind. exact Hk.
Qed.

(** [SetUnion(s1, s2)], in whatever order [range] yields the entries of
    [s2]: it returns with [s1] holding the elements of both sets, and
    reports a change exactly when [s2] had an element that [s1] lacked.
    A nil [s1] stays nil when [s2] has no element, and the write to it
    panics when [s2] has one. *)
Theorem SetUnion_spec order s1 s2 :
  order ≡ₚ entries s2 ->
  match SetUnion order s1 with
  | Ok (s1', changed) =>
      (changed = true <-> exists k, SetFind s2 k = true /\ SetFind s1 k = false) /\
      (forall e, SetFind s1' e = SetFind s1 e || SetFind s2 e) /\
      (s1 = None -> s1' = None)
  | Panic e =>
      e = NilMapWrite /\ s1 = None /\ exists k, SetFind s2 k = true
  end.
Proof.
  intros Hp. rewrite (SetUnion_order order (entries s2) s1 Hp).
  apply SetUnion_entries.
Qed.

Lemma SetUnion_spec_witness :
  exists s1',
    SetUnion (reverse (entries (Some (<[0 := true]> (<[3 := true]> ∅)))))
             (Some (<[0 := true]> ∅)) = Ok (s1', true) /\
    SetFind s1' 3 = true.
Proof.
  pose proof (SetUnion_spec
                (reverse (entries (Some (<[0 := true]> (<[3 := true]> ∅)))))
                (Some (<[0 := true]> ∅))
                (Some (<[0 := true]> (<[3 := true]> ∅)))
                (reverse_Permutation _)) as H.
  destruct (SetUnion _ _) as [[s1' c]|e].
  - destruct H as (H1 & H2 & _). exists s1'.
    assert (Hc : c = true) by (apply H1; exists 3; split; reflexivity).
    subst c. split; [reflexivity|]. rewrite H2. reflexivity.
  - destruct H as (_ & H & _). discriminate.
Defined.

(** [SetAdd] on a set whose entries are all [true]: the element is found
    afterwards, nothing else changes, the entries are still all [true],
    and the result tells whether [SetFind] missed the element before.
    Only the write to a nil map fails. *)
Theorem SetAdd_reports_new s e :
  only_true s ->
  match SetAdd s e with
  | Ok (s', added) =>
      added = negb (SetFind s e) /\
      (forall x, SetFind s' x = SetFind s x || bool_decide (x = e)) /\
      only_true s'
  | Panic p => p = NilMapWrite /\ s = None
  end.
Proof.
  intros Ht. destruct s as [m|]; simpl; [|auto].
  split; [|split].
  - destruct (m !! e) as [v|] eqn:Hv; [|reflexivity].
    rewrite (Ht m e v eq_refl Hv). reflexivity.
  - intros x. apply (SetFind_insert_true m e x).
  - intros m' k v [= <-] Hk. destruct (decide (k = e)) as [->|Hne].
    + rewrite lookup_insert_eq in Hk. congruence.
    + rewrite lookup_insert_ne in Hk by congruence. exact (Ht m k v eq_refl Hk).
Qed.

Lemma SetAdd_reports_new_witness :
  exists s',
    SetAdd (Some (<[0 := true]> ∅)) 3 = Ok (s', true) /\
    SetFind s' 3 = true /\ SetFind s' 0 = true /\ SetFind s' 1 = false.
Proof.
  assert (Ht : only_true (Some (<[0 := true]> ∅))).
  { intros m k v [= <-] Hk. destruct (decide (k = 0)) as [->|Hne].
    - rewrite lookup_insert_eq in Hk. congruence.
    - rewrite lookup_insert_ne, lookup_empty in Hk by congruence. discriminate. }
  pose proof (SetAdd_reports_new (Some (<[0 := true]> ∅)) 3 Ht) as H.
  destruct (SetAdd _ _) as [[s' b]|e].
  - destruct H as (H1 & H2 & _). exists s'. subst b.
    split; [reflexivity|]. rewrite !H2. repeat split; reflexivity.
  - destruct H as (_ & H). discriminate.
Defined.

(** * Further properties of the symbol table *)

Lemma find_app_None {A : Type} (f : A -> bool) (l1 l2 : list A) :
  find f l1 = None -> find f (l1 ++ l2) = find f l2.
Proof.
  induction l1 as [|a l1 IH]; simpl; [reflexivity|].
  destruct (f a); [discriminate | exact IH].
Qed.

Lemma find_app_Some {A : Type} (f : A -> bool) (l1 l2 : list A) x :
  find f l1 = Some x -> find f (l1 ++ l2) = Some x.
Proof.
  induction l1 as [|a l1 IH]; simpl; [discriminate|].
  destruct (f a); [auto | exact IH].
Qed.

(** [Symbol_new] interns a name.  Afterwards [Symbol_find] finds a
    symbol of that name: the one that was in the table, or else a new
    symbol, a TERMINAL exactly when [firstRuneIsUpper] holds of the name,
    with no precedence.  Symbols of other names are found as before, a
    second [Symbol_new] of the name changes nothing, [Symbol_count] grows
    by one exactly when the name was new, and [Symbol_arrayof] lists the
    symbols in the order in which they were first seen. *)
Theorem Symbol_new_interns up x2a x :
  let x2a' := Symbol_new up x2a x in
  (exists s, Symbol_find x2a' x = Some s /\ name s = x /\
     match Symbol_find x2a x with
     | Some s0 => s = s0
     | None => typ s = (if firstRuneIsUpper up x then TERMINAL else NONTERMINAL) /\
               prec s = -1 /\ assoc s = UNK
     end) /\
  (forall y, y <> x -> Symbol_find x2a' y = Symbol_find x2a y) /\
  Symbol_new up x2a' x = x2a' /\
  Symbol_count x2a' =
    Symbol_count x2a + match Symbol_find x2a x with Some _ => 0 | None => 1 end /\
  (exists l, Symbol_arrayof x2a' = Symbol_arrayof x2a ++ l).
Proof.
  cbv zeta. unfold Symbol_new.
  destruct (Symbol_find x2a x) as [s0|] eqn:Hf.
  - split; [|split; [|split; [|split]]].
    + exists s0. rewrite Hf. split; [reflexivity|].
      split; [apply (Symbol_find_Some _ _ _ Hf) | reflexivity].
    + reflexivity.
    + rewrite Hf. reflexivity.
    + lia.
    + exists []. rewrite app_nil_r. reflexivity.
  - set (s := mkSymbol x 0 _ (-1) UNK []).
    assert (Hx : Symbol_find (x2a ++ [s]) x = Some s).
    { unfold Symbol_find. rewrite find_app_None by exact Hf.
      simpl. rewrite String.eqb_refl. reflexivity. }
    split; [|split; [|split; [|split]]].
    + exists s. split; [exact Hx|]. repeat split; reflexivity.
    + intros y Hy. unfold Symbol_find.
      destruct (find (fun s1 => String.eqb (name s1) y) x2a) as [s1|] eqn:Hy1.
      * apply find_app_Some. exact Hy1.
      * rewrite find_app_None by exact Hy1. simpl.
        destruct (String.eqb_spec x y) as [->|Hne]; [contradiction | reflexivity].
    + rewrite Hx. reflexivity.
    + unfold Symbol_count. rewrite length_app. simpl. lia.
    + exists [s]. reflexivity.
Qed.

(** * The integer types chosen for the tables *)

(** The type that [minimum_size_type] names holds every value from
    [lwr] to [upr], and the size it reports is the size of that type.
    No type of fewer bytes holds the range, unless [lwr] is -128 or
    -32768 or [upr] is 32767 or 65535: at these ends of the ranges of
    [int8], [int16] and [uint16] the function goes to the next size. *)
Theorem minimum_size_type_fits lwr upr :
  -2147483648 <= lwr -> lwr <= upr ->
  upr <= (if lwr >=? 0 then 4294967295 else 2147483647) ->
  exists lo hi,
    go_int_type (fst (minimum_size_type lwr upr))
      = Some (lo, hi, snd (minimum_size_type lwr upr)) /\
    lo <= lwr /\ upr <= hi /\
    (lwr <> -128 -> lwr <> -32768 -> upr <> 32767 -> upr <> 65535 ->
     forall t lo' hi' n',
       go_int_type t = Some (lo', hi', n') -> lo' <= lwr -> upr <= hi' ->
       snd (minimum_size_type lwr upr) <= n').
Proof.
  intros Hlo Hle Hup. unfold minimum_size_type.
  assert (Hty : forall t lo' hi' n',
    go_int_type t = Some (lo', hi', n') ->
    (lo', hi', n') = (0, 255, 1) \/ (lo', hi', n') = (0, 65535, 2) \/
    (lo', hi', n') = (0, 4294967295, 4) \/ (lo', hi', n') = (-128, 127, 1) \/
    (lo', hi', n') = (-32768, 32767, 2) \/
    (lo', hi', n') = (-2147483648, 2147483647, 4)).
  { intros t lo' hi' n'. unfold go_int_type.
    repeat (destruct (String.eqb t _); [intros [= <- <- <-]; tauto|]).
    discriminate. }
  rewrite !Z.geb_leb in *.
  destruct (Z.leb_spec 0 lwr) as [H0|H0].
  - destruct (Z.leb_spec upr 255); [|destruct (Z.ltb_spec upr 65535)];
      eexists _, _; (split; [reflexivity|]); cbn [fst snd];
      (split; [lia|]); (split; [lia|]);
      intros N1 N2 N3 N4 t lo' hi' n' Ht L U;
      destruct (Hty t lo' hi' n' Ht) as [E|[E|[E|[E|[E|E]]]]];
      injection E as -> -> ->; lia.
  - destruct (Z.leb_spec (-127) lwr); destruct (Z.leb_spec upr 127); cbn [andb];
      try (destruct (Z.leb_spec (-32767) lwr); destruct (Z.ltb_spec upr 32767);
           cbn [andb]);
      eexists _, _; (split; [reflexivity|]); cbn [fst snd];
      (split; [lia|]); (split; [lia|]);
      intros N1 N2 N3 N4 t lo' hi' n' Ht L U;
      destruct (Hty t lo' hi' n' Ht) as [E|[E|[E|[E|[E|E]]]]];
      injection E as -> -> ->; lia.
Qed.

Lemma minimum_size_type_fits_witness :
  minimum_size_type 0 65535 = ("uint32"%string, 4) /\
  exists lo hi,
    go_int_type (fst (minimum_size_type 0 65535))
      = Some (lo, hi, snd (minimum_size_type 0 65535)) /\
    lo <= 0 /\ 65535 <= hi.
Proof.
  split; [reflexivity|].
  destruct (minimum_size_type_fits 0 65535) as (lo & hi & H1 & H2 & H3 & _);
    [lia | lia | simpl; lia |].
  exists lo, hi. auto.
Defined.

(** * The tables of configurations and of states *)

Lemma land_le_r a b : 0 <= a -> 0 <= b -> Z.land a b <= b.
Proof.
  intros Ha Hb.
  assert (E : Z.land a b + Z.ldiff b a = b).
  { rewrite Z.add_nocarry_lxor.
    - apply Z.bits_inj'. intros n Hn.
      rewrite Z.lxor_spec, Z.land_spec, Z.ldiff_spec.
      destruct (Z.testbit a n), (Z.testbit b n); reflexivity.
    - apply Z.bits_inj'. intros n Hn.
      rewrite Z.land_spec, Z.land_spec, Z.ldiff_spec, Z.bits_0.
      destruct (Z.testbit a n), (Z.testbit b n); reflexivity. }
  assert (0 <= Z.ldiff b a) by (apply Z.ldiff_nonneg; left; exact Hb).
  lia.
Qed.

Lemma slot_of_range ph size :
  1 <= size <= 2 ^ 62 -> 0 <= ph -> 0 <= slot_of ph size < size.
Proof.
  intros Hs Hp. unfold slot_of, to_uint, to_int.
  rewrite (Z.mod_small (size - 1)) by lia.
  assert (0 <= Z.land ph (size - 1)) by (apply Z.land_nonneg; left; exact Hp).
  assert (Z.land ph (size - 1) <= size - 1) by (apply land_le_r; lia).
  destruct (Z.ltb_spec (Z.land ph (size - 1)) (2 ^ 63)); lia.
Qed.

Section TableProofs.
Context {N K KK : Type} `{EqDecision KK}.
Variable zero : N.
Variable node_hash : N -> result Z.
Variable node_cmp : N -> K -> result Z.
Variable key_of : N -> option KK.
Variable arg_key : K -> KK.
Variable key_hash : KK -> Z.
Hypothesis Hhash : forall n kk, key_of n = Some kk -> node_hash n = Ok (key_hash kk).
Hypothesis Hcmp : forall n kk k, key_of n = Some kk ->
  exists c, node_cmp n k = Ok c /\ (c = 0 <-> kk = arg_key k).
Hypothesis Hpos : forall kk, 0 <= key_hash kk.

Lemma chain_search_spec np key :
  Forall (fun n => is_Some (key_of n)) np ->
  exists r, chain_search node_cmp np key = Ok r /\
    match r with
    | Some n => n ∈ np /\ key_of n = Some (arg_key key)
    | None => forall n, n ∈ np -> key_of n <> Some (arg_key key)
    end.
Proof.
  induction np as [|a np IH]; intros HF; simpl.
  - exists None. split; [reflexivity|]. intros n Hn.
    apply elem_of_nil in Hn. contradiction.
  - apply Forall_cons in HF. destruct HF as [[kk Hk] HF].
    destruct (Hcmp a kk key Hk) as (c & Hc & Hz). rewrite Hc. simpl.
    destruct (Z.eqb_spec c 0) as [H0|H0].
    + exists (Some a). split; [reflexivity|]. split; [left|].
      rewrite Hk. f_equal. apply Hz. exact H0.
    + destruct (IH HF) as (r & Hr & Hm). exists r. split; [exact Hr|].
      destruct r as [n|].
      * destruct Hm as [Hin Hkey]. split; [right; exact Hin | exact Hkey].
      * intros n Hn. apply elem_of_cons in Hn. destruct Hn as [->|Hn]; [|auto].
        rewrite Hk. intros [= E]. apply H0. apply Hz. exact E.
Qed.

Lemma chain_of_elem size h l n :
  n ∈ chain_of key_of key_hash size h l <-> n ∈ l /\ node_slot key_of key_hash size n = h.
Proof.
  unfold chain_of. rewrite elem_of_reverse, list_elem_of_filter. tauto.
Qed.

Lemma chain_of_snoc size h l n :
  chain_of key_of key_hash size h (l ++ [n]) =
  if decide (node_slot key_of key_hash size n = h)
  then n :: chain_of key_of key_hash size h l
  else chain_of key_of key_hash size h l.
Proof.
  unfold chain_of. rewrite filter_app, reverse_app.
  destruct (decide (node_slot key_of key_hash size n = h)) as [E|E].
  - rewrite filter_cons_True by exact E. reflexivity.
  - rewrite filter_cons_False by exact E. reflexivity.
Qed.

Lemma table_find_spec t key :
  table_ok key_of key_hash t ->
  exists r, table_find node_cmp t (key_hash (arg_key key)) key = Ok r /\
    match r with
    | Some n => n ∈ items t /\ key_of n = Some (arg_key key)
    | None => forall n, n ∈ items t -> key_of n <> Some (arg_key key)
    end.
Proof.
  intros Hok. unfold table_find.
  pose proof (slot_of_range (key_hash (arg_key key)) (t_size t)
                (ok_size _ _ _ Hok) (Hpos _)) as Hs.
  set (h := slot_of (key_hash (arg_key key)) (t_size t)) in *.
  destruct (rd_in_range (t_ht t) h) as [chain Hchain].
  { rewrite (ok_ht _ _ _ Hok). lia. }
  rewrite Hchain. simpl.
  apply rd_Ok in Hchain. destruct Hchain as [_ Hchain].
  apply (ok_chains _ _ _ Hok) in Hchain. rewrite Z2Nat.id in Hchain by lia.
  destruct (chain_search_spec chain key) as (r & Hr & Hm).
  { apply Forall_forall. intros n Hn. rewrite Hchain in Hn.
    apply chain_of_elem in Hn. destruct Hn as [Hn _].
    pose proof (ok_proper _ _ _ Hok) as Hp. rewrite Forall_forall in Hp. auto. }
  exists r. split; [exact Hr|]. destruct r as [n|].
  - destruct Hm as [Hin Hkey]. split; [|exact Hkey].
    rewrite Hchain in Hin. apply chain_of_elem in Hin. tauto.
  - intros n Hn Hkey. apply (Hm n); [|exact Hkey].
    rewrite Hchain. apply chain_of_elem. split; [exact Hn|].
    unfold node_slot. rewrite Hkey. reflexivity.
Qed.

Lemma rd_nat {A : Type} (l : list A) (i : nat) x :
  l !! i = Some x -> rd l (Z.of_nat i) = Ok x.
Proof. intros H. apply rd_Ok. rewrite Nat2Z.id. split; [lia | exact H]. Qed.

Lemma wr_nat {A : Type} (l : list A) (i : nat) x :
  (i < length l)%nat -> wr l (Z.of_nat i) x = Ok (<[i := x]> l).
Proof.
  intros H. unfold wr.
  destruct (Z.ltb_spec (Z.of_nat i) 0); [lia|].
  destruct (Z.leb_spec (Z.of_nat (length l)) (Z.of_nat i)); [lia|].
  simpl. rewrite Nat2Z.id. reflexivity.
Qed.

(** One node more in the table: the array and the chains. *)
Lemma table_add_node size (i : nat) (old tbl : list N) ht x kk :
  1 <= size <= 2 ^ 62 ->
  key_of x = Some kk ->
  (i < length tbl)%nat ->
  Z.of_nat (length ht) = size ->
  (forall (h : nat) chain, ht !! h = Some chain ->
     chain = chain_of key_of key_hash size (Z.of_nat h) old) ->
  exists chain ht',
    rd ht (slot_of (key_hash kk) size) = Ok chain /\
    wr ht (slot_of (key_hash kk) size) (x :: chain) = Ok ht' /\
    Z.of_nat (length ht') = size /\
    (forall (h : nat) chain', ht' !! h = Some chain' ->
       chain' = chain_of key_of key_hash size (Z.of_nat h) (old ++ [x])).
Proof.
  intros Hs Hk Hi Hlen Hch.
  pose proof (slot_of_range (key_hash kk) size Hs (Hpos kk)) as Hr.
  set (h := slot_of (key_hash kk) size) in *.
  destruct (rd_in_range ht h) as [chain Hchain]; [lia|].
  exists chain, (<[Z.to_nat h := x :: chain]> ht).
  split; [exact Hchain|].
  split.
  { rewrite <- (Z2Nat.id h) at 1 by lia. apply wr_nat. lia. }
  split; [rewrite length_insert; exact Hlen|].
  apply rd_Ok in Hchain. destruct Hchain as [_ Hchain].
  intros h' chain' Hl. rewrite chain_of_snoc.
  assert (Hslot : node_slot key_of key_hash size x = h)
    by (unfold node_slot; rewrite Hk; reflexivity).
  destruct (decide (h' = Z.to_nat h)) as [->|Hne].
  - rewrite list_lookup_insert_eq in Hl by lia. injection Hl as <-.
    rewrite Z2Nat.id by lia.
    destruct (decide (node_slot key_of key_hash size x = h)); [|contradiction].
    f_equal. rewrite <- (Z2Nat.id h) by lia. apply Hch. exact Hchain.
  - rewrite list_lookup_insert_ne in Hl by congruence.
    destruct (decide (node_slot key_of key_hash size x = Z.of_nat h')) as [E|E];
      [lia|].
    apply Hch. exact Hl.
Qed.

Lemma table_rehash_spec old arrSize : forall (cnt i : nat) tbl ht,
  1 <= arrSize <= 2 ^ 62 ->
  (i + cnt <= length old)%nat -> Z.of_nat (i + cnt) <= arrSize ->
  Forall (fun n => is_Some (key_of n)) (take (i + cnt) old) ->
  Z.of_nat (length tbl) = arrSize -> Z.of_nat (length ht) = arrSize ->
  take i tbl = take i old ->
  (forall (h : nat) chain, ht !! h = Some chain ->
     chain = chain_of key_of key_hash arrSize (Z.of_nat h) (take i old)) ->
  exists tbl' ht',
    table_rehash node_hash old arrSize cnt (Z.of_nat i) tbl ht = Ok (tbl', ht') /\
    Z.of_nat (length tbl') = arrSize /\ Z.of_nat (length ht') = arrSize /\
    take (i + cnt) tbl' = take (i + cnt) old /\
    (forall (h : nat) chain, ht' !! h = Some chain ->
       chain = chain_of key_of key_hash arrSize (Z.of_nat h) (take (i + cnt) old)).
Proof.
  induction cnt as [|cnt IH]; intros i tbl ht Hs Hold Hi HF Htbl Hht Htake Hch.
  - simpl. exists tbl, ht. rewrite Nat.add_0_r. auto.
  - cbn [table_rehash].
    destruct (lookup_lt_is_Some_2 old i) as [x Hx]; [lia|].
    rewrite (rd_nat _ _ _ Hx). cbn [bind].
    assert (Hxk : is_Some (key_of x)).
    { rewrite Forall_forall in HF. apply HF. apply elem_of_take.
      exists i. split; [exact Hx | lia]. }
    destruct Hxk as [kk Hk]. rewrite (Hhash x kk Hk). cbn [bind].
    rewrite wr_nat by lia. cbn [bind].
    destruct (table_add_node arrSize i (take i old) tbl ht x kk Hs Hk)
      as (chain & ht' & Hrd & Hwr & Hlen' & Hch'); [lia | exact Hht | exact Hch |].
    rewrite Hrd. cbn [bind]. rewrite Hwr. cbn [bind].
    replace (Z.of_nat i + 1) with (Z.of_nat (S i)) by lia.
    replace (i + S cnt)%nat with (S i + cnt)%nat in * by lia.
    assert (Hts : take (S i) old = take i old ++ [x]) by (apply take_S_r; exact Hx).
    apply IH; try assumption.
    + rewrite length_insert. exact Htbl.
    + rewrite Hts. rewrite (take_S_r _ _ x).
      * rewrite take_insert_ge by lia. rewrite Htake. reflexivity.
      * apply list_lookup_insert_eq. lia.
    + rewrite Hts. exact Hch'.
Qed.

Lemma table_grow_ok t :
  table_ok key_of key_hash t -> t_size t <= 2 ^ 61 ->
  exists t', table_grow zero node_hash t = Ok t' /\
    table_ok key_of key_hash t' /\ items t' = items t /\
    t_size t' = 2 * t_size t /\ t_count t' = t_count t.
Proof.
  intros Hok Hb. destruct Hok as [Hs Htbl Hht Hc Hp Hnd Hch].
  unfold table_grow.
  destruct (Z.ltb_spec (t_size t * 2) 0) as [Hn|_]; [lia|].
  destruct (table_rehash_spec (t_tbl t) (t_size t * 2) (Z.to_nat (t_count t)) 0
              (replicate (Z.to_nat (t_size t * 2)) zero)
              (replicate (Z.to_nat (t_size t * 2)) []))
    as (tbl' & ht' & Hr & Hl1 & Hl2 & Htk & Hch').
  - lia.
  - simpl. lia.
  - simpl. lia.
  - exact Hp.
  - rewrite length_replicate. lia.
  - rewrite length_replicate. lia.
  - reflexivity.
  - intros h chain Hl. apply lookup_replicate in Hl. destruct Hl as [-> _].
    reflexivity.
  - change (Z.of_nat 0) with 0 in Hr. rewrite Hr. cbn [bind fst snd].
    simpl in Htk, Hch'.
    eexists. split; [reflexivity|]. unfold items. cbn [t_size t_count t_tbl t_ht].
    split; [|split; [exact Htk | split; [lia | reflexivity]]].
    constructor; cbn [t_size t_count t_tbl t_ht]; unfold items;
      cbn [t_size t_count t_tbl t_ht]; try lia.
    + rewrite Htk. exact Hp.
    + rewrite Htk. exact Hnd.
    + rewrite Htk. exact Hch'.
Qed.

Lemma table_insert_unfold t ph n key :
  table_insert zero node_hash node_cmp t ph n key =
  let* found := table_find node_cmp t ph key in
  match found with
  | Some _ => Ok (t, false)
  | None =>
      let* t := if t_count t >=? t_size t then table_grow zero node_hash t else Ok t in
      let h := slot_of ph (t_size t) in
      let* tbl := wr (t_tbl t) (t_count t) n in
      let* chain := rd (t_ht t) h in
      let* ht := wr (t_ht t) h (n :: chain) in
      Ok (mkTable (t_size t) (t_count t + 1) tbl ht, true)
  end.
Proof.
  unfold table_insert, table_find.
  destruct (rd (t_ht t) (slot_of ph (t_size t))); reflexivity.
Qed.

Lemma table_insert_ok t n key :
  table_ok key_of key_hash t -> t_size t <= 2 ^ 61 ->
  key_of n = Some (arg_key key) ->
  exists t' b,
    table_insert zero node_hash node_cmp t (key_hash (arg_key key)) n key
      = Ok (t', b) /\
    table_ok key_of key_hash t' /\
    (if b then items t' = items t ++ [n] /\
               (forall n0, n0 ∈ items t -> key_of n0 <> Some (arg_key key)) /\
               (t_size t' = t_size t \/
                (t_size t' = 2 * t_size t /\ t_size t = t_count t))
     else t' = t /\ exists n0, n0 ∈ items t /\ key_of n0 = Some (arg_key key)).
Proof.
  intros Hok Hb Hn. rewrite table_insert_unfold.
  destruct (table_find_spec t key Hok) as (r & Hr & Hm). rewrite Hr. cbn [bind].
  destruct r as [n0|].
  { exists t, false. split; [reflexivity|]. split; [exact Hok|].
    split; [reflexivity | exists n0; exact Hm]. }
  assert (Hg : exists t1,
    (if t_count t >=? t_size t then table_grow zero node_hash t else Ok t) = Ok t1 /\
    table_ok key_of key_hash t1 /\ items t1 = items t /\
    t_count t1 = t_count t /\ t_count t1 < t_size t1 /\
    (t_size t1 = t_size t \/ (t_size t1 = 2 * t_size t /\ t_size t = t_count t))).
  { rewrite Z.geb_leb. destruct (Z.leb_spec (t_size t) (t_count t)) as [Hfull|Hroom].
    - destruct (table_grow_ok t Hok Hb) as (t1 & Hg & Hok1 & Hi1 & Hs1 & Hc1).
      exists t1. pose proof (ok_size _ _ _ Hok). pose proof (ok_count _ _ _ Hok).
      split; [exact Hg|]. split; [exact Hok1|]. split; [exact Hi1|].
      split; [exact Hc1|]. split; [lia|]. right. lia.
    - exists t. split; [reflexivity|]. split; [exact Hok|].
      split; [reflexivity|]. split; [reflexivity|]. split; [lia|].
      left. reflexivity. }
  destruct Hg as (t1 & -> & Hok1 & Hi1 & Hc1 & Hlt & Hsz). cbn [bind].
  destruct Hok1 as [Hs Htbl Hht Hc Hp Hnd Hch].
  assert (Hw : wr (t_tbl t1) (t_count t1) n
               = Ok (<[Z.to_nat (t_count t1) := n]> (t_tbl t1))).
  { rewrite <- (wr_nat (t_tbl t1) (Z.to_nat (t_count t1)) n) by lia. f_equal. lia. }
  cbv zeta. rewrite Hw. cbn [bind].
  destruct (table_add_node (t_size t1) (Z.to_nat (t_count t1)) (items t1)
              (t_tbl t1) (t_ht t1) n (arg_key key) Hs Hn)
    as (chain & ht' & Hrd & Hwr & Hlen' & Hch'); [lia | exact Hht | exact Hch |].
  rewrite Hrd. cbn [bind]. rewrite Hwr. cbn [bind].
  eexists _, true. split; [reflexivity|].
  assert (Hitems : items (mkTable (t_size t1) (t_count t1 + 1)
                            (<[Z.to_nat (t_count t1) := n]> (t_tbl t1)) ht')
                   = items t1 ++ [n]).
  { unfold items. cbn [t_count t_tbl].
    replace (Z.to_nat (t_count t1 + 1)) with (S (Z.to_nat (t_count t1))) by lia.
    rewrite (take_S_r _ _ n) by (apply list_lookup_insert_eq; lia).
    rewrite take_insert_ge by lia. reflexivity. }
  split; [|split; [rewrite Hitems, Hi1; reflexivity | split; [exact Hm | exact Hsz]]].
  constructor; rewrite ?Hitems; cbn [t_size t_count t_tbl t_ht]; try lia.
  - rewrite length_insert. exact Htbl.
  - apply Forall_app. split; [exact Hp|]. constructor; [|constructor].
    exists (arg_key key). exact Hn.
  - rewrite fmap_app. apply NoDup_app. split; [exact Hnd|].
    split; [|apply NoDup_singleton].
    intros k Hk Hk'. apply list_elem_of_singleton in Hk'. subst k.
    apply list_elem_of_fmap in Hk. destruct Hk as (n0 & Hn0 & Hin).
    rewrite Hi1 in Hin. apply (Hm n0 Hin). rewrite <- Hn0. exact Hn.
  - exact Hch'.
Qed.

Lemma first_with_app_Some kk (l1 l2 : list N) x :
  first_with key_of kk l1 = Some x -> first_with key_of kk (l1 ++ l2) = Some x.
Proof.
  unfold first_with. induction l1 as [|a l1 IH]; simpl; [discriminate|].
  destruct (bool_decide _); [auto | exact IH].
Qed.

Lemma first_with_app_None kk (l1 l2 : list N) :
  first_with key_of kk l1 = None ->
  first_with key_of kk (l1 ++ l2) = first_with key_of kk l2.
Proof.
  unfold first_with. induction l1 as [|a l1 IH]; simpl; [reflexivity|].
  destruct (bool_decide _); [discriminate | exact IH].
Qed.

Lemma first_with_Some kk (l : list N) x :
  first_with key_of kk l = Some x -> x ∈ l /\ key_of x = Some kk.
Proof.
  unfold first_with. induction l as [|a l IH]; simpl; [discriminate|].
  destruct (bool_decide_reflect (key_of a = Some kk)) as [E|E].
  - intros [= <-]. split; [left | exact E].
  - intros H. destruct (IH H) as [Hin Hk]. split; [right; exact Hin | exact Hk].
Qed.

Lemma first_with_None kk (l : list N) :
  first_with key_of kk l = None <-> forall n, n ∈ l -> key_of n <> Some kk.
Proof.
  unfold first_with. induction l as [|a l IH]; simpl.
  - split; [|reflexivity]. intros _ n Hn. apply elem_of_nil in Hn. contradiction.
  - destruct (bool_decide_reflect (key_of a = Some kk)) as [E|E].
    + split; [discriminate|]. intros Hall. exfalso. apply (Hall a); [left | exact E].
    + rewrite IH. split.
      * intros Hall n Hn. apply elem_of_cons in Hn.
        destruct Hn as [->|Hn]; [exact E | auto].
      * intros Hall n Hn. apply Hall. right. exact Hn.
Qed.

Lemma first_with_unique kk (l : list N) x :
  NoDup (key_of <$> l) -> x ∈ l -> key_of x = Some kk ->
  first_with key_of kk l = Some x.
Proof.
  unfold first_with. induction l as [|a l IH]; intros Hnd Hx Hk.
  - apply elem_of_nil in Hx. contradiction.
  - simpl. rewrite fmap_cons in Hnd. apply NoDup_cons in Hnd.
    destruct Hnd as [Hna Hnd].
    destruct (bool_decide_reflect (key_of a = Some kk)) as [E|E].
    + apply elem_of_cons in Hx. destruct Hx as [->|Hx]; [reflexivity|].
      exfalso. apply Hna. rewrite E, <- Hk. apply list_elem_of_fmap.
      exists x. split; [reflexivity | exact Hx].
    + apply elem_of_cons in Hx. destruct Hx as [->|Hx]; [contradiction|].
      apply IH; assumption.
Qed.

(** A lookup in the table finds the first node offered with the key. *)
Lemma table_find_first size0 t l key :
  table_holds key_of key_hash size0 t l ->
  table_find node_cmp t (key_hash (arg_key key)) key
    = Ok (first_with key_of (arg_key key) l).
Proof.
  intros (Hok & _ & _ & Hf & _).
  destruct (table_find_spec t key Hok) as (r & Hr & Hm).
  rewrite Hr, <- Hf. f_equal. symmetry. destruct r as [n|].
  - destruct Hm as [Hin Hk].
    apply first_with_unique; [exact (ok_nodup _ _ _ Hok) | exact Hin | exact Hk].
  - apply first_with_None. exact Hm.
Qed.

Lemma items_length t :
  table_ok key_of key_hash t -> Z.of_nat (length (items t)) = t_count t.
Proof.
  intros Hok. unfold items. rewrite length_take.
  pose proof (ok_tbl _ _ _ Hok). pose proof (ok_count _ _ _ Hok). lia.
Qed.

(** Offering one more node. *)
Lemma table_insert_holds size0 t l n key :
  size0 <= 2 ^ 61 ->
  table_holds key_of key_hash size0 t l ->
  Z.of_nat (length l) < 2 ^ 60 ->
  key_of n = Some (arg_key key) ->
  exists t' b,
    table_insert zero node_hash node_cmp t (key_hash (arg_key key)) n key
      = Ok (t', b) /\
    table_holds key_of key_hash size0 t' (l ++ [n]) /\
    (b = true <-> first_with key_of (arg_key key) l = None).
Proof.
  intros H0 (Hok & Hsz & Hcl & Hf & Hnd) Hlen Hn.
  pose proof (ok_count _ _ _ Hok) as Hc.
  destruct (table_insert_ok t n key Hok) as (t' & b & Hins & Hok' & Hb);
    [lia | exact Hn |].
  exists t', b. split; [exact Hins|].
  pose proof (items_length t Hok) as Hl. pose proof (items_length t' Hok') as Hl'.
  destruct b.
  - destruct Hb as (Hit & Hnone & Hs').
    rewrite Hit, length_app in Hl'. simpl in Hl'.
    assert (Hfn : first_with key_of (arg_key key) l = None).
    { rewrite <- Hf. apply first_with_None. exact Hnone. }
    split; [|split; [intros _; exact Hfn | reflexivity]].
    split; [exact Hok'|]. split; [lia|]. split; [rewrite length_app; simpl; lia|].
    split.
    + intros kk. rewrite Hit.
      destruct (first_with key_of kk l) as [x|] eqn:E.
      * rewrite (first_with_app_Some _ _ _ _ E). apply first_with_app_Some.
        rewrite Hf. exact E.
      * rewrite (first_with_app_None _ _ _ E). apply first_with_app_None.
        rewrite Hf. exact E.
    + intros Hnd'. rewrite fmap_app in Hnd'. apply NoDup_app in Hnd'.
      rewrite Hit, (Hnd (proj1 Hnd')). reflexivity.
  - destruct Hb as (-> & n0 & Hin & Hk0).
    assert (Hsome : exists x, first_with key_of (arg_key key) l = Some x).
    { rewrite <- Hf. destruct (first_with key_of (arg_key key) (items t)) as [x|] eqn:E;
        [eauto|]. exfalso. rewrite first_with_None in E. exact (E n0 Hin Hk0). }
    destruct Hsome as [x Hx].
    split; [|split; [discriminate | rewrite Hx; discriminate]].
    split; [exact Hok|]. split; [lia|]. split; [rewrite length_app; simpl; lia|].
    split.
    + intros kk. rewrite Hf.
      destruct (first_with key_of kk l) as [y|] eqn:E.
      * symmetry. apply first_with_app_Some. exact E.
      * rewrite (first_with_app_None _ _ _ E). unfold first_with. simpl.
        destruct (bool_decide_reflect (key_of n = Some kk)) as [E'|E']; [|reflexivity].
        rewrite Hn in E'. injection E' as <-. congruence.
    + intros Hnd'. exfalso. rewrite fmap_app in Hnd'. apply NoDup_app in Hnd'.
      destruct Hnd' as (_ & Hdis & _).
      apply first_with_Some in Hx. destruct Hx as [Hxin Hxk].
      apply (Hdis (Some (arg_key key))).
      * apply list_elem_of_fmap. exists x. auto.
      * simpl. rewrite Hn. left.
Qed.

End TableProofs.

(** ** The table of configurations *)

Lemma key_hash_step_pos h k : 0 <= key_hash_step h k.
Proof. unfold key_hash_step, to_uint. apply Z.mod_pos_bound. lia. Qed.

Lemma x4_hash_key n kk :
  x4_key n = Some kk -> x4_hash n = Ok (key_hash_step 0 kk).
Proof. destruct n as [c|]; simpl; [|discriminate]. intros [= <-]. reflexivity. Qed.

Lemma Configcmp_zero a b : Configcmp a b = 0 <-> config_key a = config_key b.
Proof.
  unfold Configcmp, config_key.
  destruct (Z.eqb_spec (rp_index a - rp_index b) 0) as [E|E].
  - split; [intros H; f_equal; lia | intros [= H1 H2]; lia].
  - split; [intros H; lia | intros [= H1 H2]; lia].
Qed.

Lemma x4_cmp_key n kk k :
  x4_key n = Some kk ->
  exists c, x4_cmp n k = Ok c /\ (c = 0 <-> kk = config_key k).
Proof.
  destruct n as [c|]; simpl; [|discriminate]. intros [= <-].
  eexists. split; [reflexivity | apply Configcmp_zero].
Qed.

Lemma replicate_chains_ok {N KK : Type} (key_of : N -> option KK) key_hash
    size (n : nat) (h : nat) (chain : list N) :
  replicate n [] !! h = Some chain ->
  chain = chain_of key_of key_hash size (Z.of_nat h) [].
Proof. intros H. apply lookup_replicate in H. destruct H as [-> _]. reflexivity. Qed.

Lemma table_holds_empty {N KK : Type} `{EqDecision KK}
    (key_of : N -> option KK) key_hash (t : table N) :
  1 <= t_size t <= 2 ^ 61 ->
  Z.of_nat (length (t_tbl t)) = t_size t ->
  t_ht t = replicate (Z.to_nat (t_size t)) [] ->
  t_count t = 0 ->
  table_holds key_of key_hash (t_size t) t [].
Proof.
  intros Hs Htbl Hht Hc.
  assert (Hi : items t = []) by (unfold items; rewrite Hc; reflexivity).
  split; [|split; [lia | split; [simpl; lia | split; [|intros _; exact Hi]]]].
  - constructor; rewrite ?Hi; try lia.
    + rewrite Hht, length_replicate. lia.
    + constructor.
    + constructor.
    + intros h chain Hl. rewrite Hht in Hl.
      exact (replicate_chains_ok key_of key_hash _ _ _ _ Hl).
  - intros kk. rewrite Hi. reflexivity.
Qed.

Lemma Configtable_insert_all_holds size0 : forall ds t l,
  size0 <= 2 ^ 61 ->
  table_holds x4_key (key_hash_step 0) size0 t l ->
  Z.of_nat (length (l ++ (Some <$> ds))) < 2 ^ 60 ->
  exists t', Configtable_insert_all (Some t) ds = Ok (Some t') /\
    table_holds x4_key (key_hash_step 0) size0 t' (l ++ (Some <$> ds)).
Proof.
  induction ds as [|d ds IH]; intros t l H0 Hh Hlen.
  - exists t. rewrite app_nil_r. split; [reflexivity | exact Hh].
  - cbn [Configtable_insert_all Configtable_insert].
    destruct (table_insert_holds None x4_hash x4_cmp x4_key config_key
                (key_hash_step 0) x4_hash_key x4_cmp_key (key_hash_step_pos 0)
                size0 t l (Some d) d H0 Hh)
      as (t' & b & Hins & Hh' & _).
    + rewrite length_app in Hlen. unfold x4node in *. lia.
    + reflexivity.
    + change (confighash d) with (key_hash_step 0 (config_key d)).
      rewrite Hins. cbn [bind fst snd].
      rewrite fmap_cons, (cons_middle (Some d)), app_assoc in Hlen |- *.
      apply IH; assumption.
Qed.

Lemma first_with_x4 key (ds : list config) :
  match first_with x4_key (config_key key) (Some <$> ds) with
  | Some n => n
  | None => None
  end = find (fun d => Configcmp d key =? 0) ds.
Proof.
  unfold first_with. induction ds as [|d ds IH]; simpl; [reflexivity|].
  destruct (bool_decide_reflect (Some (config_key d) = Some (config_key key)))
    as [E|E]; destruct (Z.eqb_spec (Configcmp d key) 0) as [E'|E'];
    try reflexivity; try exact IH; exfalso.
  - apply E'. apply Configcmp_zero. congruence.
  - apply E. f_equal. apply Configcmp_zero. exact E'.
Qed.

Lemma Configtable_find_first size0 t ds key :
  table_holds x4_key (key_hash_step 0) size0 t (Some <$> ds) ->
  Configtable_find (Some t) key = Ok (find (fun d => Configcmp d key =? 0) ds).
Proof.
  intros Hh. cbn [Configtable_find].
  change (confighash key) with (key_hash_step 0 (config_key key)).
  rewrite (table_find_first x4_cmp x4_key config_key (key_hash_step 0)
             x4_cmp_key (key_hash_step_pos 0) size0 t _ key Hh).
  cbn [bind]. f_equal. apply first_with_x4.
Qed.

(** [Configtable_insert] and [Configtable_find] keep a set of
    configurations by rule and dot.  After any run of insertions into
    the table of [Configtable_init], [Configtable_find] returns the
    configuration that was inserted first with the rule and the dot of
    the key, and nil when none was; this holds also when the table has
    grown, and no call fails.  For fewer than 2^60 insertions. *)
Theorem Configtable_first_wins ds :
  Z.of_nat (length ds) < 2 ^ 60 ->
  exists x4a,
    Configtable_insert_all (Configtable_init None) ds = Ok x4a /\
    forall key,
      Configtable_find x4a key = Ok (find (fun d => Configcmp d key =? 0) ds).
Proof.
  intros Hlen. cbn [Configtable_init].
  destruct (Configtable_insert_all_holds 64 ds
              (mkTable 64 0 (replicate 64 None) (replicate 64 [])) [])
    as (t & Hrun & Hh).
  - lia.
  - apply (table_holds_empty x4_key (key_hash_step 0)
             (mkTable 64 0 (replicate 64 None) (replicate 64 [])));
      [simpl; lia | reflexivity | reflexivity | reflexivity].
  - rewrite app_nil_l, length_fmap. exact Hlen.
  - exists (Some t). split; [exact Hrun|]. intros key.
    apply (Configtable_find_first 64). exact Hh.
Qed.

Lemma Configtable_first_wins_witness :
  exists x4a,
    Configtable_insert_all (Configtable_init None)
      [mkConfig 3 0 0; mkConfig 5 1 1; mkConfig 3 0 2] = Ok x4a /\
    Configtable_find x4a (mkConfig 3 0 7) = Ok (Some (mkConfig 3 0 0)) /\
    Configtable_find x4a (mkConfig 3 1 7) = Ok None.
Proof.
  destruct (Configtable_first_wins [mkConfig 3 0 0; mkConfig 5 1 1; mkConfig 3 0 2])
    as (x4a & Hrun & Hfind); [simpl; lia|].
  exists x4a. split; [exact Hrun|]. rewrite !Hfind. split; reflexivity.
Defined.

Lemma clear_chains_spec {N : Type} : forall (cnt i : nat) (ht : list (list N)),
  (i + cnt <= length ht)%nat ->
  exists ht', clear_chains ht cnt (Z.of_nat i) = Ok ht' /\
    length ht' = length ht /\
    forall (h : nat) chain, ht' !! h = Some chain ->
      if decide (i <= h < i + cnt)%nat then chain = [] else ht !! h = Some chain.
Proof.
  induction cnt as [|cnt IH]; intros i ht Hlen; simpl.
  - exists ht. split; [reflexivity|]. split; [reflexivity|].
    intros h chain Hl. destruct (decide _) as [Hd|_]; [lia | exact Hl].
  - rewrite wr_nat by lia. cbn [bind].
    replace (Z.of_nat i + 1) with (Z.of_nat (S i)) by lia.
    destruct (IH (S i) (<[i := []]> ht)) as (ht' & Hr & Hl' & Hch).
    { rewrite length_insert. lia. }
    exists ht'. split; [exact Hr|]. rewrite length_insert in Hl'.
    split; [exact Hl'|]. intros h chain Hl. specialize (Hch h chain Hl).
    destruct (decide (S i <= h < S i + cnt)%nat) as [Hd|Hd].
    + destruct (decide _) as [_|Hn]; [exact Hch | lia].
    + destruct (decide (h = i)) as [->|Hne].
      * rewrite list_lookup_insert_eq in Hch by lia.
        destruct (decide _) as [_|Hn]; [congruence | lia].
      * rewrite list_lookup_insert_ne in Hch by congruence.
        destruct (decide _) as [Hx|_]; [lia | exact Hch].
Qed.

(** [Configtable_clear] empties the table, which then works as a new one
    does: after a run of insertions, a [Configtable_clear] and a second
    run, [Configtable_find] finds the configurations of the second run
    only, the first inserted with the rule and dot of the key. *)
Theorem Configtable_clear_restarts ds ds' :
  Z.of_nat (length ds) < 2 ^ 60 -> Z.of_nat (length ds') < 2 ^ 60 ->
  exists x4a x4b x4c,
    Configtable_insert_all (Configtable_init None) ds = Ok x4a /\
    Configtable_clear x4a = Ok x4b /\
    Configtable_insert_all x4b ds' = Ok x4c /\
    forall key,
      Configtable_find x4c key = Ok (find (fun d => Configcmp d key =? 0) ds').
Proof.
  intros Hlen Hlen'. cbn [Configtable_init].
  destruct (Configtable_insert_all_holds 64 ds
              (mkTable 64 0 (replicate 64 None) (replicate 64 [])) [])
    as (t & Hrun & Hh).
  { lia. }
  { apply (table_holds_empty x4_key (key_hash_step 0)
             (mkTable 64 0 (replicate 64 None) (replicate 64 [])));
      [simpl; lia | reflexivity | reflexivity | reflexivity]. }
  { rewrite app_nil_l, length_fmap. exact Hlen. }
  rewrite app_nil_l in Hh. destruct Hh as (Hok & Hsz & Hcl & _).
  rewrite length_fmap in Hcl.
  pose proof (ok_size _ _ _ Hok) as Hs. pose proof (ok_count _ _ _ Hok) as Hc.
  assert (Hclear : exists t0,
    Configtable_clear (Some t) = Ok (Some t0) /\
    table_holds x4_key (key_hash_step 0) (t_size t0) t0 [] /\ t_size t0 <= 2 ^ 61).
  { cbn [Configtable_clear]. destruct (Z.eqb_spec (t_count t) 0) as [E|E].
    - exists t. split; [reflexivity|]. split; [|lia].
      assert (Hi : items t = []) by (unfold items; rewrite E; reflexivity).
      split; [exact Hok|]. split; [lia|]. split; [simpl; lia|].
      split; [intros kk; rewrite Hi; reflexivity | intros _; exact Hi].
    - destruct (clear_chains_spec (Z.to_nat (t_size t)) 0 (t_ht t))
        as (ht' & Hr & Hl & Hch).
      { pose proof (ok_ht _ _ _ Hok). lia. }
      change (Z.of_nat 0) with 0 in Hr. rewrite Hr. cbn [bind].
      eexists. split; [reflexivity|]. cbn [t_size]. split; [|lia].
      apply (table_holds_empty x4_key (key_hash_step 0)
               (mkTable (t_size t) 0 (t_tbl t) ht')); cbn [t_size t_count t_tbl t_ht].
      + lia.
      + exact (ok_tbl _ _ _ Hok).
      + apply list_eq. intros h. pose proof (ok_ht _ _ _ Hok) as Hht.
        destruct (ht' !! h) as [chain|] eqn:E1.
        * specialize (Hch h chain E1).
          assert (h < length ht')%nat by (apply lookup_lt_is_Some; eauto).
          destruct (decide _) as [_|Hn]; [|lia]. subst chain.
          symmetry. apply lookup_replicate_2. lia.
        * symmetry. apply lookup_replicate_None.
          apply lookup_ge_None in E1. lia.
      + reflexivity. }
  destruct Hclear as (t0 & Hcl0 & Hh0 & Hb0).
  destruct (Configtable_insert_all_holds (t_size t0) ds' t0 [] Hb0 Hh0)
    as (t1 & Hrun1 & Hh1).
  { rewrite app_nil_l, length_fmap. exact Hlen'. }
  exists (Some t), (Some t0), (Some t1).
  split; [exact Hrun|]. split; [exact Hcl0|]. split; [exact Hrun1|].
  intros key. apply (Configtable_find_first (t_size t0)). exact Hh1.
Qed.

Lemma Configtable_clear_restarts_witness :
  exists x4a x4b x4c,
    Configtable_insert_all (Configtable_init None) [mkConfig 3 0 0] = Ok x4a /\
    Configtable_clear x4a = Ok x4b /\
    Configtable_insert_all x4b [mkConfig 5 1 1] = Ok x4c /\
    Configtable_find x4c (mkConfig 3 0 7) = Ok None /\
    Configtable_find x4c (mkConfig 5 1 7) = Ok (Some (mkConfig 5 1 1)).
Proof.
  destruct (Configtable_clear_restarts [mkConfig 3 0 0] [mkConfig 5 1 1])
    as (x4a & x4b & x4c & H1 & H2 & H3 & H4); [simpl; lia | simpl; lia |].
  exists x4a, x4b, x4c. rewrite !H4. repeat split; assumption || reflexivity.
Defined.

(** ** The table of states *)

Lemma statehash_keys : forall a h,
  statehash_from h a = foldl key_hash_step h (config_key <$> a).
Proof. induction a as [|c a IH]; intros h; simpl; [reflexivity | apply IH]. Qed.

Lemma keys_hash_pos kk : 0 <= keys_hash kk.
Proof.
  unfold keys_hash. assert (H : forall h, 0 <= h -> 0 <= foldl key_hash_step h kk).
  { induction kk as [|k kk IH]; intros h Hh; simpl; [exact Hh|].
    apply IH. apply key_hash_step_pos. }
  apply H. lia.
Qed.

Lemma cons_eq_inv {A : Type} (x y : A) (l k : list A) :
  x :: l = y :: k -> x = y /\ l = k.
Proof. intros H. injection H as -> ->. split; reflexivity. Qed.

Lemma statecmp_zero : forall a b,
  statecmp a b = 0 <-> config_key <$> a = config_key <$> b.
Proof.
  induction a as [|ca a IH]; intros [|cb b]; cbn [statecmp];
    rewrite ?fmap_cons, ?fmap_nil.
  - split; reflexivity.
  - split; [lia | discriminate].
  - split; [lia | discriminate].
  - assert (Hk : config_key ca = config_key cb <->
                 rp_index ca - rp_index cb = 0 /\ dot ca - dot cb = 0).
    { unfold config_key. split; [intros [= H1 H2]; lia | intros [H1 H2]; f_equal; lia]. }
    destruct (Z.eqb_spec (rp_index ca - rp_index cb) 0) as [E1|E1].
    + destruct (Z.eqb_spec (dot ca - dot cb) 0) as [E2|E2].
      * split.
        -- intros H. apply IH in H. f_equal; [apply Hk; auto | exact H].
        -- intros H. apply cons_eq_inv in H. apply IH. apply H.
      * split; [lia | intros H; apply cons_eq_inv in H; destruct H as [H1 _];
                      apply Hk in H1; lia].
    + destruct (Z.eqb_spec (rp_index ca - rp_index cb) 0) as [E2|_]; [lia|].
      split; [lia | intros H; apply cons_eq_inv in H; destruct H as [H1 _];
                    apply Hk in H1; lia].
Qed.

Lemma x3_hash_key n kk :
  x3_key_of n = Some kk -> x3_hash n = Ok (keys_hash kk).
Proof.
  unfold x3_key_of, x3_hash, statehash, keys_hash. intros [= <-].
  rewrite statehash_keys. reflexivity.
Qed.

Lemma x3_cmp_key n kk (k : list config) :
  x3_key_of n = Some kk ->
  exists c, x3_cmp n k = Ok c /\ (c = 0 <-> kk = config_key <$> k).
Proof.
  unfold x3_key_of, x3_cmp. intros [= <-].
  eexists. split; [reflexivity | apply statecmp_zero].
Qed.

Lemma State_insert_all_holds size0 : forall l0 t l,
  size0 <= 2 ^ 61 ->
  table_holds x3_key_of keys_hash size0 t l ->
  Z.of_nat (length (l ++ ((fun p => mkX3 (Some (fst p)) (snd p)) <$> l0))) < 2 ^ 60 ->
  exists t', State_insert_all (Some t) l0 = Ok (Some t') /\
    table_holds x3_key_of keys_hash size0 t'
      (l ++ ((fun p => mkX3 (Some (fst p)) (snd p)) <$> l0)).
Proof.
  induction l0 as [|p l0 IH]; intros t l H0 Hh Hlen.
  - exists t. rewrite app_nil_r. split; [reflexivity | exact Hh].
  - cbn [State_insert_all State_insert].
    destruct (table_insert_holds (mkX3 None []) x3_hash x3_cmp x3_key_of
                (fmap config_key) keys_hash x3_hash_key x3_cmp_key keys_hash_pos
                size0 t l (mkX3 (Some (fst p)) (snd p)) (snd p) H0 Hh)
      as (t' & b & Hins & Hh' & _).
    + rewrite length_app in Hlen. lia.
    + reflexivity.
    + assert (Hsh : statehash (snd p) = keys_hash (config_key <$> snd p))
        by (unfold statehash, keys_hash; apply statehash_keys).
      rewrite Hsh, Hins. cbn [bind fst snd].
      rewrite fmap_cons, (cons_middle (mkX3 (Some (fst p)) (snd p))), app_assoc
        in Hlen |- *.
      apply IH; assumption.
Qed.

Lemma first_with_x3 key (l : list (state_ptr * list config)) :
  match first_with x3_key_of (config_key <$> key)
          ((fun p => mkX3 (Some (fst p)) (snd p)) <$> l) with
  | Some n => x3_data n
  | None => None
  end = fst <$> find (fun p => statecmp (snd p) key =? 0) l.
Proof.
  unfold first_with. induction l as [|p l IH]; simpl; [reflexivity|].
  destruct (bool_decide_reflect
              (x3_key_of (mkX3 (Some (fst p)) (snd p)) = Some (config_key <$> key)))
    as [E|E]; destruct (Z.eqb_spec (statecmp (snd p) key) 0) as [E'|E'];
    try reflexivity; try exact IH; exfalso.
  - apply E'. apply statecmp_zero. unfold x3_key_of in E. simpl in E. congruence.
  - apply E. unfold x3_key_of. simpl. f_equal. apply statecmp_zero. exact E'.
Qed.

Lemma State_arrayof_loop_spec tbl : forall (cnt i : nat),
  (i + cnt <= length tbl)%nat ->
  State_arrayof_loop tbl cnt (Z.of_nat i) = Ok (x3_data <$> take cnt (drop i tbl)).
Proof.
  induction cnt as [|cnt IH]; intros i Hlen; simpl; [reflexivity|].
  destruct (lookup_lt_is_Some_2 tbl i) as [x Hx]; [lia|].
  rewrite (rd_nat _ _ _ Hx). cbn [bind].
  replace (Z.of_nat i + 1) with (Z.of_nat (S i)) by lia.
  rewrite IH by lia. cbn [bind].
  rewrite (drop_S _ _ _ Hx). reflexivity.
Qed.

(** [State_insert], [State_find] and [State_arrayof] keep the states by
    their basis.  After any run of insertions into the table of
    [State_init], [State_find] returns the state that was inserted first
    with a basis of the same rules and dots as the key, and nil when
    none was; when the bases inserted all differ, as they do in
    [getstate], [State_arrayof] lists the states in the order of their
    insertion.  This holds also when the table has grown, and no call
    fails.  For fewer than 2^60 insertions. *)
Theorem State_table_first_wins (l : list (state_ptr * list config)) :
  Z.of_nat (length l) < 2 ^ 60 ->
  exists x3a : option s_x3,
    State_insert_all (State_init None) l = Ok x3a /\
    (forall key,
       State_find x3a key
         = Ok (fst <$> find (fun p => statecmp (snd p) key =? 0) l)) /\
    (NoDup ((fun p : state_ptr * list config => config_key <$> snd p) <$> l) ->
     State_arrayof x3a
       = Ok ((fun p : state_ptr * list config => Some (fst p)) <$> l)).
Proof.
  intros Hlen. cbn [State_init].
  destruct (State_insert_all_holds 128 l
              (mkTable 128 0 (replicate 128 (mkX3 None [])) (replicate 128 [])) [])
    as (t & Hrun & Hh).
  - lia.
  - apply (table_holds_empty x3_key_of keys_hash
             (mkTable 128 0 (replicate 128 (mkX3 None [])) (replicate 128 [])));
      [simpl; lia | reflexivity | reflexivity | reflexivity].
  - rewrite app_nil_l, length_fmap. exact Hlen.
  - rewrite app_nil_l in Hh. exists (Some t). split; [exact Hrun|]. split.
    + intros key. cbn [State_find].
      assert (Hsh : statehash key = keys_hash (config_key <$> key))
        by (unfold statehash, keys_hash; apply statehash_keys).
      rewrite Hsh.
      rewrite (table_find_first x3_cmp x3_key_of (fmap config_key) keys_hash
                 x3_cmp_key keys_hash_pos 128 t _ key Hh).
      cbn [bind]. f_equal. apply first_with_x3.
    + intros Hnd. destruct Hh as (Hok & _ & _ & _ & Hit).
      cbn [State_arrayof]. pose proof (ok_count _ _ _ Hok) as Hc.
      pose proof (ok_tbl _ _ _ Hok) as Htbl.
      destruct (Z.ltb_spec (t_count t) 0) as [Hn|_]; [lia|].
      pose proof (State_arrayof_loop_spec (t_tbl t) (Z.to_nat (t_count t)) 0) as Hl.
      change (Z.of_nat 0) with 0 in Hl. rewrite Hl by (simpl; lia).
      rewrite drop_0. change (take (Z.to_nat (t_count t)) (t_tbl t)) with (items t).
      rewrite Hit.
      * rewrite <- list_fmap_compose. reflexivity.
      * rewrite <- list_fmap_compose.
        apply (NoDup_fmap_2 Some) in Hnd. rewrite <- list_fmap_compose in Hnd.
        exact Hnd.
Qed.

Lemma State_table_first_wins_witness :
  exists x3a,
    State_insert_all (State_init None)
      [(0%nat, [mkConfig 0 0 0]); (1%nat, [mkConfig 0 1 1; mkConfig 2 1 2])] = Ok x3a /\
    State_find x3a [mkConfig 0 1 8; mkConfig 2 1 9] = Ok (Some 1%nat) /\
    State_find x3a [mkConfig 0 1 8] = Ok None /\
    State_arrayof x3a = Ok [Some 0%nat; Some 1%nat].
Proof.
  destruct (State_table_first_wins
              [(0%nat, [mkConfig 0 0 0]); (1%nat, [mkConfig 0 1 1; mkConfig 2 1 2])])
    as (x3a & Hrun & Hfind & Harr); [simpl; lia|].
  exists x3a. split; [exact Hrun|]. rewrite !Hfind.
  split; [reflexivity|]. split; [reflexivity|].
  apply Harr. simpl. apply NoDup_cons. split; [|apply NoDup_singleton].
  intros H. apply list_elem_of_singleton in H. discriminate.
Defined.

(** * The propagation of follow sets *)

Lemma exec_pbind {A B : Type} o (p : prog A) (f : A -> prog B) : forall n h,
  exists n',
    exec o n h (pbind p f) =
    match exec o n h p with
    | Ok (h1, a) => exec o n' h1 (f a)
    | Panic e => Panic e
    end.
Proof.
  induction p as [a|e|k IH|r e k IH|r e k IH|r k IH|r1 r2 k IH]; intros n h; simpl.
  - exists n. reflexivity.
  - exists n. reflexivity.
  - apply IH.
  - destruct (SetAdd (load h r) e) as [[s b]|e']; [apply IH | exists n; reflexivity].
  - apply IH.
  - apply IH.
  - destruct (SetUnion _ _) as [[s b]|e']; [apply IH | exists n; reflexivity].
Qed.

Lemma range_of_entries o n s : valid_order o -> range_of o n s ≡ₚ entries s.
Proof. intros Ho. destruct s as [m|]; simpl; [apply Ho | reflexivity]. Qed.

Lemma load_insert (h : heap) r s r' :
  (r < length h)%nat ->
  load (<[r := s]> h) r' = if decide (r' = r) then s else load h r'.
Proof.
  intros Hr. unfold load, heap in *. destruct (decide (r' = r)) as [->|Hne].
  - rewrite list_lookup_insert_eq by exact Hr. reflexivity.
  - rewrite list_lookup_insert_ne by congruence. reflexivity.
Qed.

Lemma load_Some (h : heap) r s : h !! r = Some s -> load h r = s.
Proof. intros H. unfold load, heap, gomap in *. rewrite H. reflexivity. Qed.

Lemma heap_length_insert (h : heap) r s : length (<[r := s]> h) = length h.
Proof. unfold heap in *. apply length_insert. Qed.

Lemma heap_lookup_insert_eq (h : heap) r s :
  (r < length h)%nat -> <[r := s]> h !! r = Some s.
Proof. unfold heap in *. apply list_lookup_insert_eq. Qed.

Lemma heap_lookup_insert_ne (h : heap) r r' s :
  r <> r' -> <[r := s]> h !! r' = h !! r'.
Proof. unfold heap in *. apply list_lookup_insert_ne. Qed.

Lemma SetUnion_fold_Some l : forall m b,
  exists m' b', foldl SetUnion_step (Ok (Some m, b)) l = Ok (Some m', b').
Proof.
  induction l as [|[k v] l IH]; intros m b; simpl; [eauto|].
  destruct v; simpl; [|apply IH].
  destruct (default false (m !! k)); simpl; apply IH.
Qed.

(** One [SetUnion] of the run, into an allocated set. *)
Lemma exec_union {A : Type} o n (h : heap) r1 r2 m1 (k : bool -> prog A) :
  valid_order o -> h !! r1 = Some (Some m1) ->
  exists m1' change,
    exec o n h (OpUnion r1 r2 k)
      = exec o (S n) (<[r1 := Some m1']> h) (k change) /\
    (change = true <->
       exists e, SetFind (load h r2) e = true /\ SetFind (load h r1) e = false) /\
    (forall e, SetFind (Some m1') e = SetFind (load h r1) e || SetFind (load h r2) e).
Proof.
  intros Ho Hr1. simpl.
  rewrite (SetUnion_order _ _ (load h r1) (range_of_entries o n (load h r2) Ho)).
  pose proof (SetUnion_entries (load h r1) (load h r2)) as H.
  assert (Hl : load h r1 = Some m1) by (apply load_Some; exact Hr1).
  destruct (SetUnion_fold_Some (entries (load h r2)) m1 false) as (m1' & c & Hf).
  assert (E : SetUnion (entries (load h r2)) (load h r1) = Ok (Some m1', c))
    by (rewrite Hl; exact Hf).
  rewrite E in H |- *. destruct H as (H1 & H2 & _).
  exists m1', c. split; [reflexivity|]. split; [exact H1 | exact H2].
Qed.

(** *** Counting the elements *)

Lemma cell_count_mono U s s' :
  (forall e, SetFind s e = true -> SetFind s' e = true) ->
  (cell_count U s <= cell_count U s')%nat.
Proof.
  intros H. unfold cell_count. induction U as [|u U IH]; [reflexivity|].
  destruct (SetFind s u) eqn:E.
  - rewrite !filter_cons_True by auto. simpl. lia.
  - rewrite (filter_cons_False _ u U) by congruence.
    destruct (SetFind s' u) eqn:E'.
    + rewrite filter_cons_True by exact E'. simpl. lia.
    + rewrite filter_cons_False by congruence. exact IH.
Qed.

Lemma cell_count_lt U s s' k :
  (forall e, SetFind s e = true -> SetFind s' e = true) ->
  k ∈ U -> SetFind s k = false -> SetFind s' k = true ->
  (cell_count U s < cell_count U s')%nat.
Proof.
  intros H Hk Hs Hs'. unfold cell_count. induction U as [|u U IH].
  - apply elem_of_nil in Hk. contradiction.
  - apply elem_of_cons in Hk. destruct Hk as [<-|Hk].
    + rewrite filter_cons_False by congruence.
      rewrite filter_cons_True by exact Hs'. simpl.
      pose proof (cell_count_mono U s s' H) as Hm. unfold cell_count in Hm. lia.
    + specialize (IH Hk). destruct (SetFind s u) eqn:E.
      * rewrite !filter_cons_True by auto. simpl. lia.
      * rewrite (filter_cons_False _ u U) by congruence.
        destruct (SetFind s' u) eqn:E'.
        -- rewrite filter_cons_True by exact E'. simpl. lia.
        -- rewrite filter_cons_False by congruence. exact IH.
Qed.

Lemma heap_count_insert U : forall (h : heap) r s s0,
  h !! r = Some s0 ->
  (heap_count U (<[r := s]> h) + cell_count U s0
   = heap_count U h + cell_count U s)%nat.
Proof.
  induction h as [|a h IH]; intros r s s0 Hr.
  - destruct r; discriminate Hr.
  - destruct r as [|r].
    + injection Hr as ->. simpl. lia.
    + specialize (IH r s s0 Hr).
      change (<[S r := s]> (a :: h)) with (a :: <[r := s]> h).
      cbn [heap_count]. unfold heap in *. lia.
Qed.

Lemma heap_count_bound U (h : heap) :
  (heap_count U h <= length h * length U)%nat.
Proof.
  induction h as [|a h IH]; [simpl; lia|].
  assert (cell_count U a <= length U)%nat by (unfold cell_count; apply length_filter).
  simpl. lia.
Qed.

Lemma heap_keys_elem (h : heap) r e :
  SetFind (load h r) e = true -> e ∈ heap_keys h.
Proof.
  unfold load, heap_keys. intros H.
  destruct (h !! r) as [s|] eqn:Hr; [|discriminate]. simpl in H.
  apply list_elem_of_In, in_concat. exists (fst <$> entries s). split.
  - apply list_elem_of_In, list_elem_of_fmap. exists s. split; [reflexivity|].
    apply list_elem_of_lookup_2 in Hr. exact Hr.
  - apply list_elem_of_In, list_elem_of_fmap. exists (e, true).
    split; [reflexivity | apply entries_SetFind; exact H].
Qed.

Section FollowProofs.
Variable o : range_order.
Variable cs0 : list Follow.config.
Variable h0 : heap.
Hypothesis Ho : valid_order o.
Hypothesis Hnd : NoDup (Follow.fws <$> cs0).
Hypothesis Hlinks : forall c t,
  c ∈ cs0 -> t ∈ Follow.fplp c -> (t < length cs0)%nat.

Lemma inv_same cs h i c :
  follow_inv cs0 h0 h cs -> cs !! i = Some c ->
  exists c0, cs0 !! i = Some c0 /\ Follow.fws c0 = Follow.fws c /\
             Follow.fplp c0 = Follow.fplp c.
Proof.
  intros Hinv Hc.
  pose proof (f_equal (fun l => l !! i) (fi_fws _ _ _ _ Hinv)) as H1.
  pose proof (f_equal (fun l => l !! i) (fi_fplp _ _ _ _ Hinv)) as H2.
  cbv beta in H1, H2. rewrite !list_lookup_fmap in H1. rewrite !list_lookup_fmap in H2.
  rewrite Hc in H1, H2.
  destruct (cs0 !! i) as [c0|]; simpl in *; [|discriminate].
  exists c0. split; [reflexivity|]. split; congruence.
Qed.

Lemma inv_same_0 cs h i c0 :
  follow_inv cs0 h0 h cs -> cs0 !! i = Some c0 ->
  exists c, cs !! i = Some c /\ Follow.fws c0 = Follow.fws c /\
            Follow.fplp c0 = Follow.fplp c.
Proof.
  intros Hinv Hc.
  pose proof (f_equal (fun l => l !! i) (fi_fws _ _ _ _ Hinv)) as H1.
  pose proof (f_equal (fun l => l !! i) (fi_fplp _ _ _ _ Hinv)) as H2.
  cbv beta in H1, H2. rewrite !list_lookup_fmap in H1. rewrite !list_lookup_fmap in H2.
  rewrite Hc in H1, H2.
  destruct (cs !! i) as [c|]; simpl in *; [|discriminate].
  exists c. split; [reflexivity|]. split; congruence.
Qed.

Lemma inv_length cs h : follow_inv cs0 h0 h cs -> length cs = length cs0.
Proof.
  intros Hinv. pose proof (f_equal length (fi_fws _ _ _ _ Hinv)) as H.
  rewrite !length_fmap in H. exact H.
Qed.

Lemma fws_inj i j ci cj :
  cs0 !! i = Some ci -> cs0 !! j = Some cj ->
  Follow.fws ci = Follow.fws cj -> i = j.
Proof.
  intros Hi Hj E. apply (NoDup_lookup _ i j (Follow.fws ci) Hnd).
  - rewrite list_lookup_fmap, Hi. reflexivity.
  - rewrite list_lookup_fmap, Hj, E. reflexivity.
Qed.

Lemma set_status_insert (cs : list Follow.config) (t : nat) ct s :
  cs !! t = Some ct ->
  Follow.fws <$> <[t := Follow.set_status ct s]> cs = Follow.fws <$> cs /\
  Follow.fplp <$> <[t := Follow.set_status ct s]> cs = Follow.fplp <$> cs.
Proof.
  intros Ht. rewrite !list_fmap_insert. split; apply list_insert_id;
    rewrite list_lookup_fmap, Ht; reflexivity.
Qed.

(** One union of the propagation: from the set of the configuration [i]
    into the set of [t], to which [i] has a link. *)
Lemma union_step {A : Type} cs h n i ci t ct (k : bool -> prog A) :
  follow_inv cs0 h0 h cs ->
  cs0 !! i = Some ci -> t ∈ Follow.fplp ci -> cs !! t = Some ct ->
  exists h1 change,
    exec o n h (OpUnion (Follow.fws ct) (Follow.fws ci) k)
      = exec o (S n) h1 (k change) /\
    follow_inv cs0 h0 h1
      (if change then <[t := Follow.set_status ct Follow.INCOMPLETE]> cs else cs) /\
    (forall e, SetFind (load h1 (Follow.fws ci)) e
               = SetFind (load h (Follow.fws ci)) e) /\
    (forall r e, SetFind (load h r) e = true -> SetFind (load h1 r) e = true) /\
    (forall e, SetFind (load h (Follow.fws ci)) e = true ->
               SetFind (load h1 (Follow.fws ct)) e = true) /\
    (heap_count (heap_keys h0) h <= heap_count (heap_keys h0) h1)%nat /\
    (change = true ->
     (heap_count (heap_keys h0) h < heap_count (heap_keys h0) h1)%nat).
Proof.
  intros Hinv Hi Hlink Ht.
  destruct (inv_same cs h t ct Hinv Ht) as (c0t & H0t & Hfe & Hpe).
  destruct (fi_alloc _ _ _ _ Hinv c0t) as [m1 Hm1];
    [apply list_elem_of_lookup_2 in H0t; exact H0t|].
  rewrite Hfe in Hm1. set (r1 := Follow.fws ct) in *.
  set (r2 := Follow.fws ci) in *.
  destruct (exec_union o n h r1 r2 m1 k Ho Hm1) as (m1' & change & Hex & Hch & Hnew).
  assert (Hr1 : (r1 < length h)%nat) by (apply lookup_lt_is_Some; eauto).
  assert (Hl1 : load h r1 = Some m1) by (apply load_Some; exact Hm1).
  set (h1 := <[r1 := Some m1']> h) in *.
  assert (Hfind : forall r' e, SetFind (load h1 r') e =
            if decide (r' = r1)
            then SetFind (load h r1) e || SetFind (load h r2) e
            else SetFind (load h r') e).
  { intros r' e. unfold h1. rewrite load_insert by exact Hr1.
    destruct (decide (r' = r1)); [apply Hnew | reflexivity]. }
  assert (Hmono : forall r e, SetFind (load h r) e = true -> SetFind (load h1 r) e = true).
  { intros r e H. rewrite Hfind. destruct (decide (r = r1)) as [->|_]; [|exact H].
    rewrite H. reflexivity. }
  assert (Hsame : change = false ->
            forall r e, SetFind (load h1 r) e = SetFind (load h r) e).
  { intros Hc r e. rewrite Hfind. destruct (decide (r = r1)) as [->|_]; [|reflexivity].
    destruct (SetFind (load h r1) e) eqn:E1; [reflexivity|]. simpl.
    destruct (SetFind (load h r2) e) eqn:E2; [|reflexivity].
    exfalso. assert (change = true) by (apply Hch; eauto). congruence. }
  assert (Hsrc : forall e, SetFind (load h1 r2) e = SetFind (load h r2) e).
  { intros e. rewrite Hfind. destruct (decide (r2 = r1)) as [E|_]; [|reflexivity].
    rewrite E. apply orb_diag. }
  exists h1, change. split; [exact Hex|].
  split; [|split; [exact Hsrc | split; [exact Hmono | split; [|split]]]].
  - (* the invariant *)
    assert (Hst : Follow.fws <$> (if change
                    then <[t := Follow.set_status ct Follow.INCOMPLETE]> cs else cs)
                  = Follow.fws <$> cs /\
                  Follow.fplp <$> (if change
                    then <[t := Follow.set_status ct Follow.INCOMPLETE]> cs else cs)
                  = Follow.fplp <$> cs).
    { destruct change; [apply set_status_insert; exact Ht | split; reflexivity]. }
    constructor.
    + rewrite (proj1 Hst). apply (fi_fws _ _ _ _ Hinv).
    + rewrite (proj2 Hst). apply (fi_fplp _ _ _ _ Hinv).
    + unfold h1. rewrite heap_length_insert. apply (fi_len _ _ _ _ Hinv).
    + intros c Hc. destruct (fi_alloc _ _ _ _ Hinv c Hc) as [m Hm].
      unfold h1. destruct (decide (Follow.fws c = r1)) as [E|E].
      * rewrite E. exists m1'. apply heap_lookup_insert_eq. exact Hr1.
      * exists m. rewrite heap_lookup_insert_ne by congruence. exact Hm.
    + intros r e H. rewrite Hfind in H. destruct (decide (r = r1)) as [->|_].
      * apply orb_true_iff in H. destruct H as [H|H];
          eapply (fi_keys _ _ _ _ Hinv); exact H.
      * eapply (fi_keys _ _ _ _ Hinv); exact H.
    + intros r e H. apply Hmono. apply (fi_mono _ _ _ _ Hinv). exact H.
    + intros j c e Hj H. rewrite Hfind in H.
      destruct (decide (Follow.fws c = r1)) as [E|_];
        [|exact (fi_sound _ _ _ _ Hinv j c e Hj H)].
      assert (j = t) as -> by (apply (fws_inj j t c c0t Hj H0t); congruence).
      apply orb_true_iff in H. destruct H as [H|H].
      * apply (fi_sound _ _ _ _ Hinv t c e Hj). rewrite E. exact H.
      * destruct (fi_sound _ _ _ _ Hinv i ci e Hi H) as (j & cj & Hp & Hj' & He).
        exists j, cj. split; [|split; assumption].
        eapply rtc_r; [exact Hp|]. exists ci. split; assumption.
    + intros j c t' tc e Hj Hs Hl Ht' He.
      (* a COMPLETE configuration is one of [cs], and its set is as it was *)
      assert (Hc : cs !! j = Some c /\ SetFind (load h (Follow.fws c)) e = true).
      { destruct change.
        - destruct (decide (j = t)) as [->|Hne].
          + rewrite list_lookup_insert_eq in Hj by (apply lookup_lt_is_Some; eauto).
            injection Hj as <-. discriminate Hs.
          + rewrite list_lookup_insert_ne in Hj by congruence. split; [exact Hj|].
            rewrite Hfind in He. destruct (decide (Follow.fws c = r1)) as [E|_];
              [|exact He].
            exfalso. apply Hne.
            destruct (inv_same cs h j c Hinv Hj) as (c0j & H0j & Hfj & _).
            apply (fws_inj j t c0j c0t H0j H0t). congruence.
        - split; [exact Hj|]. rewrite (Hsame eq_refl) in He. exact He. }
      destruct Hc as [Hj' He'].
      assert (Htc : exists tc', cs !! t' = Some tc' /\ Follow.fws tc' = Follow.fws tc).
      { destruct change; [|eauto].
        destruct (decide (t' = t)) as [->|Hne].
        - rewrite list_lookup_insert_eq in Ht' by (apply lookup_lt_is_Some; eauto).
          injection Ht' as <-. exists ct. split; [exact Ht | reflexivity].
        - rewrite list_lookup_insert_ne in Ht' by congruence. eauto. }
      destruct Htc as (tc' & Htc' & Efw). rewrite <- Efw. apply Hmono.
      exact (fi_closed _ _ _ _ Hinv j c t' tc' e Hj' Hs Hl Htc' He').
  - intros e H. rewrite Hfind. destruct (decide (r1 = r1)) as [_|N]; [|contradiction].
    rewrite H. apply orb_true_r.
  - assert (Hc : (heap_count (heap_keys h0) h1 + cell_count (heap_keys h0) (Some m1)
                  = heap_count (heap_keys h0) h + cell_count (heap_keys h0) (Some m1'))%nat)
      by exact (heap_count_insert (heap_keys h0) h r1 (Some m1') (Some m1) Hm1).
    assert (cell_count (heap_keys h0) (Some m1) <= cell_count (heap_keys h0) (Some m1'))%nat.
    { apply cell_count_mono. intros e H. rewrite Hnew, Hl1. simpl in *. rewrite H.
      reflexivity. }
    lia.
  - intros Hc. apply Hch in Hc. destruct Hc as (e & He2 & He1).
    assert (Hcnt : (heap_count (heap_keys h0) h1 + cell_count (heap_keys h0) (Some m1)
                  = heap_count (heap_keys h0) h + cell_count (heap_keys h0) (Some m1'))%nat)
      by exact (heap_count_insert (heap_keys h0) h r1 (Some m1') (Some m1) Hm1).
    assert (cell_count (heap_keys h0) (Some m1) < cell_count (heap_keys h0) (Some m1'))%nat.
    { apply (cell_count_lt _ _ _ e).
      - intros e' H. rewrite Hnew, Hl1. simpl in *. rewrite H. reflexivity.
      - eapply (fi_keys _ _ _ _ Hinv). exact He2.
      - rewrite <- Hl1. exact He1.
      - rewrite Hnew, He2. apply orb_true_r. }
    lia.
Qed.

(** The loop over the links of the configuration [i]. *)
Lemma propagate_spec i ci :
  cs0 !! i = Some ci ->
  forall plps cs h n pr,
    follow_inv cs0 h0 h cs ->
    (forall t, t ∈ plps -> t ∈ Follow.fplp ci) ->
    exists h' cs' pr',
      exec o n h (Follow.propagate (Follow.fws ci) plps cs pr) = Ok (h', (cs', pr')) /\
      follow_inv cs0 h0 h' cs' /\
      (forall e, SetFind (load h' (Follow.fws ci)) e
                 = SetFind (load h (Follow.fws ci)) e) /\
      (forall r e, SetFind (load h r) e = true -> SetFind (load h' r) e = true) /\
      (forall t ct e, t ∈ plps -> cs0 !! t = Some ct ->
         SetFind (load h (Follow.fws ci)) e = true ->
         SetFind (load h' (Follow.fws ct)) e = true) /\
      (heap_count (heap_keys h0) h <= heap_count (heap_keys h0) h')%nat /\
      (pr' = false -> pr = false /\ cs' = cs) /\
      (pr = true -> pr' = true) /\
      (pr = false -> pr' = true ->
       (heap_count (heap_keys h0) h < heap_count (heap_keys h0) h')%nat).
Proof.
  intros Hi. induction plps as [|t plps IH]; intros cs h n pr Hinv Hsub.
  - simpl. exists h, cs, pr. split; [reflexivity|]. split; [exact Hinv|].
    split; [reflexivity|]. split; [auto|]. split.
    { intros t ct e Ht. apply elem_of_nil in Ht. contradiction. }
    split; [lia|]. split; [auto|]. split; [auto|]. intros -> H. discriminate H.
  - cbn [Follow.propagate].
    assert (Ht : t ∈ Follow.fplp ci) by (apply Hsub; left).
    assert (Hlt : (t < length cs0)%nat).
    { apply (Hlinks ci t); [|exact Ht]. apply list_elem_of_lookup_2 in Hi. exact Hi. }
    destruct (lookup_lt_is_Some_2 cs t) as [ct Hct];
      [rewrite (inv_length cs h Hinv); exact Hlt|].
    rewrite Hct.
    destruct (inv_same cs h t ct Hinv Hct) as (c0t & H0t & Hfe & _).
    assert (Hsub' : forall t', t' ∈ plps -> t' ∈ Follow.fplp ci)
      by (intros t' Ht'; apply Hsub; right; exact Ht').
    destruct (union_step cs h n i ci t ct
                (fun change => if change
                   then Follow.propagate (Follow.fws ci) plps
                          (<[t := Follow.set_status ct Follow.INCOMPLETE]> cs) true
                   else Follow.propagate (Follow.fws ci) plps cs pr)
                Hinv Hi Ht Hct)
      as (h1 & change & Hex & Hinv1 & Hsrc1 & Hmono1 & Htgt1 & Hle1 & Hlt1).
    rewrite Hex. destruct change.
    + destruct (IH _ h1 (S n) true Hinv1 Hsub')
        as (h' & cs' & pr' & Hex' & Hinv' & Hsrc' & Hmono' & Htgt' & Hle' & Hf' & Ht' & _).
      exists h', cs', pr'. split; [exact Hex'|]. split; [exact Hinv'|].
      split. { intros e. rewrite Hsrc', Hsrc1. reflexivity. }
      split. { intros r e H. apply Hmono', Hmono1, H. }
      split.
      { intros t' ct' e Hin Hct' He. apply elem_of_cons in Hin.
        destruct Hin as [->|Hin].
        - apply Hmono'. assert (ct' = c0t) as -> by congruence.
          rewrite Hfe. apply Htgt1. exact He.
        - apply (Htgt' t' ct' e Hin Hct'). rewrite Hsrc1. exact He. }
      split; [lia|].
      split. { intros Hp. specialize (Ht' eq_refl). congruence. }
      split. { intros _. apply Ht'. reflexivity. }
      intros _ _. specialize (Hlt1 eq_refl). lia.
    + destruct (IH _ h1 (S n) pr Hinv1 Hsub')
        as (h' & cs' & pr' & Hex' & Hinv' & Hsrc' & Hmono' & Htgt' & Hle' & Hf' & Ht' & Hlt').
      exists h', cs', pr'. split; [exact Hex'|]. split; [exact Hinv'|].
      split. { intros e. rewrite Hsrc', Hsrc1. reflexivity. }
      split. { intros r e H. apply Hmono', Hmono1, H. }
      split.
      { intros t' ct' e Hin Hct' He. apply elem_of_cons in Hin.
        destruct Hin as [->|Hin].
        - apply Hmono'. assert (ct' = c0t) as -> by congruence.
          rewrite Hfe. apply Htgt1. exact He.
        - apply (Htgt' t' ct' e Hin Hct'). rewrite Hsrc1. exact He. }
      split; [lia|]. split; [exact Hf'|]. split; [exact Ht'|].
      intros Hp Hp'. specialize (Hlt' Hp Hp'). lia.
Qed.

Lemma set_status_alter (cs : list Follow.config) (i : nat) s :
  Follow.fws <$> alter (fun c => Follow.set_status c s) i cs = Follow.fws <$> cs /\
  Follow.fplp <$> alter (fun c => Follow.set_status c s) i cs = Follow.fplp <$> cs.
Proof.
  split; apply list_eq; intros j; rewrite !list_lookup_fmap;
    (destruct (decide (i = j)) as [->|Hne];
     [rewrite list_lookup_alter_eq; destruct (cs !! j); reflexivity
     |rewrite list_lookup_alter_ne by exact Hne; reflexivity]).
Qed.

(** One round over the configurations, from the configuration [i] on. *)
Lemma sweep_spec : forall todo i cs h n pr,
  follow_inv cs0 h0 h cs ->
  (pr = false -> forall j c, (j < i)%nat -> cs !! j = Some c ->
                 Follow.status c = Follow.COMPLETE) ->
  exists h' cs' pr',
    exec o n h (Follow.sweep todo i cs pr) = Ok (h', (cs', pr')) /\
    follow_inv cs0 h0 h' cs' /\
    (heap_count (heap_keys h0) h <= heap_count (heap_keys h0) h')%nat /\
    (pr = true -> pr' = true) /\
    (pr = false -> pr' = true ->
     (heap_count (heap_keys h0) h < heap_count (heap_keys h0) h')%nat) /\
    (pr' = false -> forall j c, (j < i + todo)%nat -> cs' !! j = Some c ->
                    Follow.status c = Follow.COMPLETE).
Proof.
  induction todo as [|todo IH]; intros i cs h n pr Hinv Hdone.
  - simpl. exists h, cs, pr. split; [reflexivity|]. split; [exact Hinv|].
    split; [lia|]. split; [auto|]. split; [intros -> H; discriminate H|].
    intros -> j c Hj. apply (Hdone eq_refl). lia.
  - cbn [Follow.sweep]. destruct (cs !! i) as [cfp|] eqn:Hcfp.
    2:{ exists h, cs, pr. split; [reflexivity|]. split; [exact Hinv|].
        split; [lia|]. split; [auto|]. split; [intros -> H; discriminate H|].
        intros -> j c Hj Hc. apply (Hdone eq_refl j c); [|exact Hc].
        apply lookup_ge_None in Hcfp.
        assert (j < length cs)%nat by (apply lookup_lt_is_Some; eauto). lia. }
    destruct (Follow.status cfp) eqn:Hst.
    + (* COMPLETE *)
      destruct (IH (S i) cs h n pr Hinv) as (h' & cs' & pr' & Hex & Hinv' & Hle & Ht & Hlt & Hall).
      { intros Hp j c Hj Hc. destruct (decide (j = i)) as [->|Hne].
        - congruence.
        - apply (Hdone Hp j c); [lia | exact Hc]. }
      exists h', cs', pr'. split; [exact Hex|]. split; [exact Hinv'|].
      split; [exact Hle|]. split; [exact Ht|]. split; [exact Hlt|].
      intros Hp j c Hj. apply (Hall Hp). lia.
    + (* INCOMPLETE *)
      destruct (inv_same cs h i cfp Hinv Hcfp) as (ci & H0i & Hfe & Hpe).
      rewrite <- Hfe, <- Hpe.
      destruct (exec_pbind o
                  (Follow.propagate (Follow.fws ci) (Follow.fplp ci) cs pr)
                  (fun r => Follow.sweep todo (S i)
                     (alter (fun c => Follow.set_status c Follow.COMPLETE) i (fst r))
                     (snd r)) n h) as [n' Hb].
      rewrite Hb. clear Hb.
      destruct (propagate_spec i ci H0i (Follow.fplp ci) cs h n pr Hinv)
        as (h1 & cs1 & pr1 & Hex1 & Hinv1 & Hsrc1 & Hmono1 & Htgt1 & Hle1 & Hf1 & Ht1 & Hlt1);
        [auto|].
      rewrite Hex1. cbn [fst snd].
      set (cs2 := alter (fun c => Follow.set_status c Follow.COMPLETE) i cs1).
      assert (Hinv2 : follow_inv cs0 h0 h1 cs2).
      { destruct (set_status_alter cs1 i Follow.COMPLETE) as [Ha1 Ha2].
        constructor.
        - fold cs2 in Ha1. rewrite Ha1. apply (fi_fws _ _ _ _ Hinv1).
        - fold cs2 in Ha2. rewrite Ha2. apply (fi_fplp _ _ _ _ Hinv1).
        - apply (fi_len _ _ _ _ Hinv1).
        - apply (fi_alloc _ _ _ _ Hinv1).
        - apply (fi_keys _ _ _ _ Hinv1).
        - apply (fi_mono _ _ _ _ Hinv1).
        - apply (fi_sound _ _ _ _ Hinv1).
        - intros j c t tc e Hj Hs Hl Htc He.
          assert (Htc1 : exists tc1, cs1 !! t = Some tc1 /\ Follow.fws tc1 = Follow.fws tc).
          { unfold cs2 in Htc. destruct (decide (i = t)) as [->|Hne].
            - rewrite list_lookup_alter_eq in Htc.
              destruct (cs1 !! t) as [tc1|]; [|discriminate]. injection Htc as <-.
              exists tc1. split; reflexivity.
            - rewrite list_lookup_alter_ne in Htc by exact Hne. eauto. }
          destruct Htc1 as (tc1 & Htc1 & Efw). rewrite <- Efw.
          unfold cs2 in Hj. destruct (decide (i = j)) as [->|Hne].
          + rewrite list_lookup_alter_eq in Hj.
            destruct (cs1 !! j) as [c1|] eqn:Hc1; [|discriminate]. injection Hj as <-.
            cbn [Follow.set_status Follow.fws Follow.fplp] in *.
            destruct (inv_same cs1 h1 j c1 Hinv1 Hc1) as (cj & H0j & Hfj & Hpj).
            assert (cj = ci) as -> by congruence.
            destruct (inv_same cs1 h1 t tc1 Hinv1 Htc1) as (c0t & H0t & Hft & _).
            rewrite <- Hft. apply (Htgt1 t c0t e); [rewrite Hpj; exact Hl | exact H0t |].
            rewrite <- Hsrc1, Hfj. exact He.
          + rewrite list_lookup_alter_ne in Hj by exact Hne.
            exact (fi_closed _ _ _ _ Hinv1 j c t tc1 e Hj Hs Hl Htc1 He). }
      destruct (IH (S i) cs2 h1 n' pr1 Hinv2)
        as (h' & cs' & pr' & Hex & Hinv' & Hle & Ht & Hlt & Hall).
      { intros Hp j c Hj Hc. destruct (Hf1 Hp) as [Hp0 Hcs]. subst cs1.
        unfold cs2 in Hc. destruct (decide (i = j)) as [->|Hne].
        - rewrite list_lookup_alter_eq, Hcfp in Hc. injection Hc as <-. reflexivity.
        - rewrite list_lookup_alter_ne in Hc by exact Hne.
          apply (Hdone Hp0 j c); [lia | exact Hc]. }
      exists h', cs', pr'. split; [exact Hex|]. split; [exact Hinv'|].
      split; [lia|]. split; [auto|].
      split.
      { intros Hp Hp'. destruct pr1.
        - specialize (Hlt1 Hp eq_refl). lia.
        - specialize (Hlt eq_refl Hp'). lia. }
      intros Hp j c Hj. apply (Hall Hp). lia.
Qed.

(** The rounds: with enough fuel the loop ends, and every configuration
    is COMPLETE then. *)
Lemma follow_rounds_spec : forall fuel cs h n,
  follow_inv cs0 h0 h cs ->
  (length h0 * length (heap_keys h0) < fuel + heap_count (heap_keys h0) h)%nat ->
  exists h' cs',
    exec o n h (Follow.follow_rounds fuel cs) = Ok (h', Some cs') /\
    follow_inv cs0 h0 h' cs' /\
    forall c, c ∈ cs' -> Follow.status c = Follow.COMPLETE.
Proof.
  induction fuel as [|fuel IH]; intros cs h n Hinv Hfuel.
  - exfalso. pose proof (heap_count_bound (heap_keys h0) h) as Hb.
    rewrite (fi_len _ _ _ _ Hinv) in Hb. lia.
  - cbn [Follow.follow_rounds].
    destruct (exec_pbind o (Follow.sweep (length cs) 0 cs false)
                (fun r => if snd r then Follow.follow_rounds fuel (fst r)
                          else Ret (Some (fst r))) n h) as [n' Hb].
    rewrite Hb. clear Hb.
    destruct (sweep_spec (length cs) 0 cs h n false Hinv)
      as (h1 & cs1 & pr1 & Hex & Hinv1 & Hle & _ & Hlt & Hall).
    { intros _ j c Hj. lia. }
    rewrite Hex. cbn [fst snd]. destruct pr1.
    + apply IH; [exact Hinv1|]. specialize (Hlt eq_refl eq_refl). lia.
    + exists h1, cs1. split; [reflexivity|]. split; [exact Hinv1|].
      intros c Hc. apply list_elem_of_lookup in Hc. destruct Hc as [j Hj].
      apply (Hall eq_refl j c); [|exact Hj].
      assert (j < length cs1)%nat by (apply lookup_lt_is_Some; eauto).
      rewrite (inv_length cs1 h1 Hinv1), <- (inv_length cs h Hinv) in H. lia.
Qed.

End FollowProofs.

(** [FindFollowSets] ends, and it leaves in the follow set of every
    configuration exactly the terminals of the follow sets, as they
    were before, of the configurations from which the forward
    propagation links lead to it.  The configurations have a set each,
    allocated, and their links lead to configurations; the loop ends
    within as many rounds as the sets can take new elements, and one
    more.  [FindFollowSets] changes the status of the configurations
    only. *)
Theorem FindFollowSets_least_closure o n h cs fuel :
  valid_order o ->
  NoDup (Follow.fws <$> cs) ->
  (forall c, c ∈ cs -> exists m, h !! Follow.fws c = Some (Some m)) ->
  (forall c t, c ∈ cs -> t ∈ Follow.fplp c -> (t < length cs)%nat) ->
  (capacity h < fuel)%nat ->
  exists h' cs',
    exec o n h (Follow.FindFollowSets fuel cs) = Ok (h', Some cs') /\
    Follow.fws <$> cs' = Follow.fws <$> cs /\
    Follow.fplp <$> cs' = Follow.fplp <$> cs /\
    forall i c e, cs !! i = Some c ->
      (SetFind (load h' (Follow.fws c)) e = true <-> reaches cs h i e).
Proof.
  intros Ho Hnd Halloc Hlinks Hfuel. unfold Follow.FindFollowSets.
  set (cs1 := (fun c => Follow.set_status c Follow.INCOMPLETE) <$> cs).
  assert (Hinv : follow_inv cs h h cs1).
  { constructor.
    - unfold cs1. apply list_eq. intros i. rewrite !list_lookup_fmap.
      destruct (cs !! i); reflexivity.
    - unfold cs1. apply list_eq. intros i. rewrite !list_lookup_fmap.
      destruct (cs !! i); reflexivity.
    - reflexivity.
    - exact Halloc.
    - intros r e. apply heap_keys_elem.
    - auto.
    - intros i c e Hi He. exists i, c. split; [apply rtc_refl | auto].
    - intros i c t tc e Hi Hs. unfold cs1 in Hi. rewrite list_lookup_fmap in Hi.
      destruct (cs !! i); [|discriminate]. injection Hi as <-. discriminate Hs. }
  destruct (follow_rounds_spec o cs h Ho Hnd Hlinks fuel cs1 h n Hinv)
    as (h' & cs' & Hex & Hinv' & Hall).
  { unfold capacity in Hfuel. lia. }
  exists h', cs'. split; [exact Hex|].
  split; [apply (fi_fws _ _ _ _ Hinv')|]. split; [apply (fi_fplp _ _ _ _ Hinv')|].
  intros i c e Hi. split; [apply (fi_sound _ _ _ _ Hinv' i c e Hi)|].
  intros (j & cj & Hp & Hj & He). revert c Hi. revert i Hp.
  apply (rtc_ind_r (fun z => forall c, cs !! z = Some c ->
                      SetFind (load h' (Follow.fws c)) e = true) j).
  - intros c Hi. assert (c = cj) as -> by congruence.
    apply (fi_mono _ _ _ _ Hinv'). exact He.
  - intros y z Hp Hstep IH c Hi. destruct Hstep as (cy & Hy & Hz).
    specialize (IH cy Hy).
    destruct (inv_same_0 cs h cs' h' y cy Hinv' Hy) as (cy' & Hy' & Hfy & Hpy).
    destruct (inv_same_0 cs h cs' h' z c Hinv' Hi) as (cz' & Hz' & Hfz & _).
    rewrite Hfz. apply (fi_closed _ _ _ _ Hinv' y cy' z cz' e Hy').
    + apply Hall. apply list_elem_of_lookup_2 in Hy'. exact Hy'.
    + rewrite <- Hpy. exact Hz.
    + exact Hz'.
    + rewrite <- Hfy. exact IH.
Qed.

Lemma FindFollowSets_least_closure_witness :
  exists h' cs',
    exec ex_forward 0 ex_heap (Follow.FindFollowSets 10 ex_configs)
      = Ok (h', Some cs') /\
    SetFind (load h' 2) 3 = true /\ SetFind (load h' 1) 1 = true.
Proof.
  destruct (FindFollowSets_least_closure ex_forward 0 ex_heap ex_configs 10)
    as (h' & cs' & Hex & _ & _ & Hiff).
  - intros n m. reflexivity.
  - simpl. repeat (apply NoDup_cons; split; [intros H; repeat (apply elem_of_cons in H; destruct H as [H|H]; [discriminate|]); apply elem_of_nil in H; exact H|]).
    apply NoDup_nil. exact I.
  - intros c Hc. unfold ex_configs in Hc.
    repeat (apply elem_of_cons in Hc; destruct Hc as [->|Hc]; [eexists; reflexivity|]).
    apply elem_of_nil in Hc. contradiction.
  - intros c t Hc Ht. unfold ex_configs in Hc.
    repeat (apply elem_of_cons in Hc; destruct Hc as [->|Hc];
            [simpl in Ht;
             repeat (apply elem_of_cons in Ht; destruct Ht as [->|Ht]; [simpl; lia|]);
             apply elem_of_nil in Ht; contradiction|]).
    apply elem_of_nil in Hc. contradiction.
  - vm_compute. lia.
  - exists h', cs'. split; [exact Hex|]. split.
    + apply (Hiff 2%nat (Follow.mkConfig 2 [0%nat] Follow.COMPLETE) 3 eq_refl).
      exists 0%nat, (Follow.mkConfig 0 [1%nat; 2%nat] Follow.COMPLETE).
      split; [|split; reflexivity].
      apply rtc_once. eexists. split; [reflexivity|]. right. left.
    + apply (Hiff 1%nat (Follow.mkConfig 1 [2%nat] Follow.COMPLETE) 1 eq_refl).
      exists 1%nat, (Follow.mkConfig 1 [2%nat] Follow.COMPLETE).
      split; [apply rtc_refl | split; reflexivity].
Defined.

(** * Nonterminals that generate the empty string *)

Lemma clear_lambda_spec : forall (cnt i : nat) lam,
  (i + cnt <= length lam)%nat ->
  exists lam', clear_lambda lam cnt (Z.of_nat i) = Ok lam' /\
    length lam' = length lam /\
    forall (s : nat) b, lam' !! s = Some b ->
      if decide (i <= s < i + cnt)%nat then b = false else lam !! s = Some b.
Proof.
  induction cnt as [|cnt IH]; intros i lam Hlen; simpl.
  - exists lam. split; [reflexivity|]. split; [reflexivity|].
    intros s b Hs. destruct (decide _) as [Hd|_]; [lia | exact Hs].
  - rewrite wr_nat by lia. cbn [bind].
    replace (Z.of_nat i + 1) with (Z.of_nat (S i)) by lia.
    destruct (IH (S i) (<[i := false]> lam)) as (lam' & Hr & Hl' & Hch).
    { rewrite length_insert. lia. }
    exists lam'. split; [exact Hr|]. rewrite length_insert in Hl'.
    split; [exact Hl'|]. intros s b Hs. specialize (Hch s b Hs).
    destruct (decide (S i <= s < S i + cnt)%nat) as [Hd|Hd].
    + destruct (decide _) as [_|Hn]; [exact Hch | lia].
    + destruct (decide (s = i)) as [->|Hne].
      * rewrite list_lookup_insert_eq in Hch by lia.
        destruct (decide _) as [_|Hn]; [congruence | lia].
      * rewrite list_lookup_insert_ne in Hch by congruence.
        destruct (decide _) as [Hx|_]; [lia | exact Hch].
Qed.

Lemma count_true_bound lam : (count_true lam <= length lam)%nat.
Proof. unfold count_true. apply length_filter. Qed.

Lemma count_true_insert : forall lam (s : nat),
  lam !! s = Some false ->
  count_true (<[s := true]> lam) = S (count_true lam).
Proof.
  unfold count_true. induction lam as [|b lam IH]; intros s Hs.
  - destruct s; discriminate Hs.
  - destruct s as [|s].
    + injection Hs as ->. cbn [insert list_insert].
      rewrite filter_cons_True by reflexivity.
      rewrite filter_cons_False by discriminate. reflexivity.
    + change (<[S s := true]> (b :: lam)) with (b :: <[s := true]> lam).
      specialize (IH s Hs). destruct b.
      * rewrite !filter_cons_True by reflexivity. simpl. rewrite IH. reflexivity.
      * rewrite !filter_cons_False by discriminate. exact IH.
Qed.

Section Lambda.
Variable typ : nat -> symbol_type.
Variable rules : list grule.
Variable size : nat.
Hypothesis Hlhs : forall rp, rp ∈ rules -> typ (g_lhs rp) = NONTERMINAL.
Hypothesis Hsyms : forall rp s, rp ∈ rules ->
  (g_lhs rp < size)%nat /\ (s ∈ g_rhs rp -> (s < size)%nat).

Lemma nullable_nonterminal s : nullable rules s -> typ s = NONTERMINAL.
Proof. intros H. destruct H as [rp Hrp _]. apply Hlhs. exact Hrp. Qed.

Lemma rhs_all_lambda_spec lam : forall rhs,
  length lam = size ->
  (forall s, lam !! s = Some true -> nullable rules s) ->
  (forall s, s ∈ rhs -> (s < size)%nat) ->
  exists b, rhs_all_lambda typ lam rhs = Ok b /\
    (if b then forall s, s ∈ rhs -> lam !! s = Some true
     else exists s, s ∈ rhs /\ lam !! s = Some false).
Proof.
  intros rhs Hlen Hsound. induction rhs as [|sp rhs IH]; intros Hv.
  - exists true. split; [reflexivity|]. intros s Hs. apply elem_of_nil in Hs.
    contradiction.
  - cbn [rhs_all_lambda].
    destruct (lookup_lt_is_Some_2 lam sp) as [l Hl];
      [rewrite Hlen; apply Hv; left|].
    rewrite Hl. destruct l; cbn [negb].
    + rewrite (bool_decide_eq_true_2 _ (nullable_nonterminal sp (Hsound sp Hl))).
      cbn [orb negb].
      destruct IH as (b & Hb & Hall); [intros s Hs; apply Hv; right; exact Hs|].
      exists b. split; [exact Hb|]. destruct b.
      * intros s Hs. apply elem_of_cons in Hs. destruct Hs as [->|Hs]; auto.
      * destruct Hall as (s & Hs & Hf). exists s. split; [right; exact Hs | exact Hf].
    + rewrite orb_true_r. cbn [negb]. exists false. split; [reflexivity|].
      exists sp. split; [left | exact Hl].
Qed.

Lemma lambda_pass_spec : forall rs lam pr,
  (forall rp, rp ∈ rs -> rp ∈ rules) ->
  length lam = size ->
  (forall s, lam !! s = Some true -> nullable rules s) ->
  exists lam' pr',
    lambda_pass typ rs lam pr = Ok (lam', pr') /\
    length lam' = size /\
    (forall s, lam' !! s = Some true -> nullable rules s) /\
    (forall s, lam !! s = Some true -> lam' !! s = Some true) /\
    (count_true lam <= count_true lam')%nat /\
    (pr' = false -> pr = false /\ lam' = lam /\ Forall (rule_settled lam) rs) /\
    (pr = true -> pr' = true) /\
    (pr = false -> pr' = true -> (count_true lam < count_true lam')%nat).
Proof.
  induction rs as [|rp rs IH]; intros lam pr Hsub Hlen Hsound.
  - exists lam, pr. split; [reflexivity|]. split; [exact Hlen|].
    split; [exact Hsound|]. split; [auto|]. split; [lia|].
    split; [intros ->; split; [reflexivity | split; [reflexivity | constructor]]|].
    split; [auto|]. intros -> H. discriminate H.
  - cbn [lambda_pass].
    assert (Hrp : rp ∈ rules) by (apply Hsub; left).
    assert (Hsub' : forall rp', rp' ∈ rs -> rp' ∈ rules)
      by (intros rp' H; apply Hsub; right; exact H).
    destruct (Hsyms rp 0%nat Hrp) as [Hl _].
    destruct (lookup_lt_is_Some_2 lam (g_lhs rp)) as [l Hlam]; [lia|].
    rewrite Hlam. destruct l.
    + destruct (IH lam pr Hsub' Hlen Hsound)
        as (lam' & pr' & Hr & Hlen' & Hs' & Hm & Hc & Hf & Ht & Hlt).
      exists lam', pr'. split; [exact Hr|]. split; [exact Hlen'|].
      split; [exact Hs'|]. split; [exact Hm|]. split; [exact Hc|].
      split; [|split; [exact Ht | exact Hlt]].
      intros Hp. destruct (Hf Hp) as (H1 & H2 & H3).
      split; [exact H1|]. split; [exact H2|]. constructor; [left; exact Hlam | exact H3].
    + destruct (rhs_all_lambda_spec lam (g_rhs rp) Hlen Hsound)
        as (b & Hb & Hall); [intros s Hs; apply (Hsyms rp s Hrp); exact Hs|].
      rewrite Hb. cbn [bind]. destruct b.
      * assert (Hsound1 : forall s, <[g_lhs rp := true]> lam !! s = Some true ->
                            nullable rules s).
        { intros s Hs. destruct (decide (s = g_lhs rp)) as [->|Hne].
          - apply nullable_rule; [exact Hrp|]. intros s' Hs'. apply Hsound, Hall, Hs'.
          - rewrite list_lookup_insert_ne in Hs by congruence. apply Hsound, Hs. }
        destruct (IH (<[g_lhs rp := true]> lam) true Hsub')
          as (lam' & pr' & Hr & Hlen' & Hs' & Hm & Hc & Hf & Ht & Hlt);
          [rewrite length_insert; exact Hlen | exact Hsound1 |].
        pose proof (count_true_insert lam (g_lhs rp) Hlam) as Hcnt.
        exists lam', pr'. split; [exact Hr|]. split; [exact Hlen'|].
        split; [exact Hs'|].
        split.
        { intros s Hs. apply Hm. destruct (decide (s = g_lhs rp)) as [->|Hne].
          - apply list_lookup_insert_eq. lia.
          - rewrite list_lookup_insert_ne by congruence. exact Hs. }
        split; [lia|].
        split. { intros Hp. specialize (Ht eq_refl). congruence. }
        split. { intros _. apply Ht. reflexivity. }
        intros _ _. lia.
      * destruct (IH lam pr Hsub' Hlen Hsound)
          as (lam' & pr' & Hr & Hlen' & Hs' & Hm & Hc & Hf & Ht & Hlt).
        exists lam', pr'. split; [exact Hr|]. split; [exact Hlen'|].
        split; [exact Hs'|]. split; [exact Hm|]. split; [exact Hc|].
        split; [|split; [exact Ht | exact Hlt]].
        intros Hp. destruct (Hf Hp) as (H1 & H2 & H3).
        split; [exact H1|]. split; [exact H2|].
        constructor; [right; exact Hall | exact H3].
Qed.

Lemma lambda_rounds_spec : forall fuel lam,
  length lam = size ->
  (forall s, lam !! s = Some true -> nullable rules s) ->
  (size < fuel + count_true lam)%nat ->
  exists lam',
    lambda_rounds fuel typ rules lam = Ok (Some lam') /\
    length lam' = size /\
    forall s, lam' !! s = Some true <-> nullable rules s.
Proof.
  induction fuel as [|fuel IH]; intros lam Hlen Hsound Hfuel.
  - exfalso. pose proof (count_true_bound lam). lia.
  - cbn [lambda_rounds].
    destruct (lambda_pass_spec rules lam false (fun rp H => H) Hlen Hsound)
      as (lam' & pr' & Hr & Hlen' & Hs' & Hm & Hc & Hf & _ & Hlt).
    rewrite Hr. cbn [bind fst snd]. destruct pr'.
    + apply IH; [exact Hlen' | exact Hs' |]. specialize (Hlt eq_refl eq_refl). lia.
    + destruct (Hf eq_refl) as (_ & -> & Hset).
      exists lam. split; [reflexivity|]. split; [exact Hlen|].
      intros s. split; [apply Hsound|].
      intros Hn. induction Hn as [rp Hrp _ IHn].
      rewrite Forall_forall in Hset. destruct (Hset rp Hrp) as [H|(s & Hs & Hfalse)];
        [exact H|].
      specialize (IHn s Hs). congruence.
Qed.

End Lambda.

(** The first part of [FindFirstSets] ends, within one round more than
    there are symbols, and marks [lambda] exactly the symbols that
    generate the empty string.  The left-hand sides of the rules are
    nonterminals, the symbols of the rules are in the symbol store, and
    the symbols from [nsymbol] on are not marked before. *)
Theorem FindFirstSets_lambda_nullable fuel typ rules nsymbol lam :
  (forall rp, rp ∈ rules -> typ (g_lhs rp) = NONTERMINAL) ->
  (forall rp s, rp ∈ rules ->
     (g_lhs rp < length lam)%nat /\ (s ∈ g_rhs rp -> (s < length lam)%nat)) ->
  0 <= nsymbol <= Z.of_nat (length lam) ->
  (forall (s : nat) b, nsymbol <= Z.of_nat s -> lam !! s = Some b -> b = false) ->
  (length lam < fuel)%nat ->
  exists lam',
    FindFirstSets_lambda fuel typ rules nsymbol lam = Ok (Some lam') /\
    length lam' = length lam /\
    forall s, lam' !! s = Some true <-> nullable rules s.
Proof.
  intros Hlhs Hsyms Hn Hrest Hfuel. unfold FindFirstSets_lambda.
  destruct (clear_lambda_spec (Z.to_nat nsymbol) 0 lam) as (lam0 & Hc & Hl0 & Hall);
    [lia|].
  change (Z.of_nat 0) with 0 in Hc. rewrite Hc. cbn [bind].
  assert (Hfalse : forall s, lam0 !! s = Some true -> False).
  { intros s Hs. specialize (Hall s true Hs).
    destruct (decide _) as [_|Hd]; [discriminate|].
    assert (true = false); [|discriminate].
    apply (Hrest s true); [lia | exact Hall]. }
  destruct (lambda_rounds_spec typ rules (length lam) Hlhs Hsyms fuel lam0)
    as (lam' & Hr & Hl' & Hiff).
  - exact Hl0.
  - intros s Hs. destruct (Hfalse s Hs).
  - lia.
  - exists lam'. auto.
Qed.

Lemma FindFirstSets_lambda_nullable_witness :
  exists lam',
    FindFirstSets_lambda 5 ex_typ ex_grules 4 [true; true; false; false]
      = Ok (Some lam') /\
    lam' = [false; true; true; true].
Proof.
  destruct (FindFirstSets_lambda_nullable 5 ex_typ ex_grules 4
              [true; true; false; false]) as (lam' & Hr & _).
  - intros rp Hrp. unfold ex_grules in Hrp.
    repeat (apply elem_of_cons in Hrp; destruct Hrp as [->|Hrp]; [reflexivity|]).
    apply elem_of_nil in Hrp. contradiction.
  - intros rp s Hrp. unfold ex_grules in Hrp.
    repeat (apply elem_of_cons in Hrp; destruct Hrp as [->|Hrp];
            [split; [simpl; lia|]; intros Hs; simpl in Hs;
             repeat (apply elem_of_cons in Hs; destruct Hs as [->|Hs]; [simpl; lia|]);
             apply elem_of_nil in Hs; contradiction|]).
    apply elem_of_nil in Hrp. contradiction.
  - simpl. lia.
  - intros s b Hs Hl. apply lookup_lt_Some in Hl. simpl in Hl. lia.
  - simpl. lia.
  - exists lam'. split; [exact Hr|]. vm_compute in Hr. injection Hr as <-. reflexivity.
Defined.

(** * The default reduce action of a state *)

Lemma reduce_count_nil r : reduce_count r [] = 0.
Proof. reflexivity. Qed.

Lemma reduce_count_cons r ap aps :
  reduce_count r (ap :: aps) =
  (if reduces_by r ap then 1 else 0) + reduce_count r aps.
Proof.
  unfold reduce_count. destruct (reduces_by r ap) eqn:E.
  - rewrite filter_cons_True by exact E. simpl length. lia.
  - rewrite filter_cons_False by (rewrite E; discriminate). lia.
Qed.

Lemma reduce_count_app r l1 l2 :
  reduce_count r (l1 ++ l2) = reduce_count r l1 + reduce_count r l2.
Proof.
  induction l1 as [|a l1 IH]; [rewrite reduce_count_nil; reflexivity|].
  change ((a :: l1) ++ l2) with (a :: (l1 ++ l2)).
  rewrite !reduce_count_cons, IH. lia.
Qed.

Lemma reduce_count_nonneg r aps : 0 <= reduce_count r aps.
Proof. unfold reduce_count. lia. Qed.

Lemma reduces_by_index r r' ap :
  rule_index r = rule_index r' -> reduces_by r ap = reduces_by r' ap.
Proof.
  intros E. unfold reduces_by, rule_ptr_eqb.
  destruct (x_rp ap); [rewrite E|]; reflexivity.
Qed.

Lemma reduce_count_index r r' aps :
  rule_index r = rule_index r' -> reduce_count r aps = reduce_count r' aps.
Proof.
  intros E. induction aps as [|a aps IH]; [reflexivity|].
  rewrite !reduce_count_cons, IH, (reduces_by_index r r' a E). reflexivity.
Qed.

Lemma reduce_count_pos r aps :
  0 < reduce_count r aps <-> exists ap, ap ∈ aps /\ reduces_by r ap = true.
Proof.
  induction aps as [|a aps IH].
  - rewrite reduce_count_nil. split; [lia|]. intros (ap & H & _).
    apply elem_of_nil in H. contradiction.
  - rewrite reduce_count_cons. pose proof (reduce_count_nonneg r aps).
    destruct (reduces_by r a) eqn:E.
    + split; [|lia]. intros _. exists a. split; [left | exact E].
    + split.
      * intros Hp. destruct (proj1 IH) as (ap & Hin & Hr); [lia|].
        exists ap. split; [right; exact Hin | exact Hr].
      * intros (ap & Hin & Hr). apply elem_of_cons in Hin.
        destruct Hin as [->|Hin]; [congruence|]. 
        assert (0 < reduce_count r aps) by (apply IH; eauto). lia.
Qed.

Lemma count_same_spec rbest rp : forall aps n,
  rule_ptr_eqb (Some rp) rbest = false ->
  count_same rbest rp aps n = n + reduce_count rp aps.
Proof.
  induction aps as [|a aps IH]; intros n Hne; simpl count_same.
  - rewrite reduce_count_nil. lia.
  - rewrite reduce_count_cons. unfold reduces_by.
    destruct (bool_decide (atyp a = REDUCE)); cbn [negb andb]; [|rewrite IH by exact Hne; lia].
    destruct (rule_ptr_eqb (x_rp a) rbest) eqn:E1.
    + rewrite IH by exact Hne.
      destruct (rule_ptr_eqb (x_rp a) (Some rp)) eqn:E2; [|lia].
      exfalso. unfold rule_ptr_eqb in *.
      destruct (x_rp a) as [ra|]; [|discriminate].
      destruct rbest as [rb|]; [|discriminate].
      apply Z.eqb_eq in E1, E2. apply Z.eqb_neq in Hne. lia.
    + destruct (rule_ptr_eqb (x_rp a) (Some rp)); rewrite IH by exact Hne; lia.
Qed.

Section BestDefault.
Variable wildcard : option symbol.
Variable lhsStart : rule -> bool.
Hypothesis Hresp : forall r r', rule_index r = rule_index r' -> lhsStart r = lhsStart r'.

Lemma best_default_spec : forall aps done nbest rbest w,
  (forall ap, ap ∈ aps -> atyp ap = REDUCE -> x_rp ap <> None) ->
  match rbest with
  | None => nbest = 0
  | Some r => lhsStart r = false /\ nbest = reduce_count r (done ++ aps) /\ 1 <= nbest
  end ->
  (forall ap r', ap ∈ done -> atyp ap = REDUCE -> x_rp ap = Some r' ->
     lhsStart r' = false -> reduce_count r' (done ++ aps) <= nbest) ->
  exists nbest' rbest' w',
    best_default wildcard lhsStart aps nbest rbest w = Ok (nbest', rbest', w') /\
    match rbest' with
    | None => nbest' = 0
    | Some r => lhsStart r = false /\ nbest' = reduce_count r (done ++ aps) /\
                1 <= nbest'
    end /\
    (forall ap r', ap ∈ done ++ aps -> atyp ap = REDUCE -> x_rp ap = Some r' ->
       lhsStart r' = false -> reduce_count r' (done ++ aps) <= nbest') /\
    (w' = true <-> w = true \/
       exists ap, ap ∈ aps /\ atyp ap = SHIFT /\
                  symbol_ptr_eqb (Some (sp ap)) wildcard = true).
Proof.
  induction aps as [|ap aps IH]; intros done nbest rbest w Hnil Hbest Hdone.
  - exists nbest, rbest, w. split; [reflexivity|]. split; [exact Hbest|].
    split; [rewrite app_nil_r in *; exact Hdone|].
    split; [auto|]. intros [H|(ap & H & _)]; [exact H|].
    apply elem_of_nil in H. contradiction.
  - cbn [best_default].
    set (w1 := if bool_decide (atyp ap = SHIFT) && symbol_ptr_eqb (Some (sp ap)) wildcard
               then true else w).
    assert (Hw1 : w1 = true <-> w = true \/
              (atyp ap = SHIFT /\ symbol_ptr_eqb (Some (sp ap)) wildcard = true)).
    { unfold w1. destruct (bool_decide_reflect (atyp ap = SHIFT)) as [E|E]; cbn [andb].
      - destruct (symbol_ptr_eqb (Some (sp ap)) wildcard); [tauto|].
        split; [auto|]. intros [H|[_ H]]; [exact H | discriminate].
      - split; [auto|]. intros [H|[H _]]; [exact H | contradiction]. }
    assert (Hnil' : forall ap', ap' ∈ aps -> atyp ap' = REDUCE -> x_rp ap' <> None)
      by (intros ap' H; apply Hnil; right; exact H).
    assert (Happ : done ++ ap :: aps = (done ++ [ap]) ++ aps)
      by (rewrite <- app_assoc; reflexivity).
    (* what every branch that keeps [nbest] and [rbest] needs *)
    assert (Hkeep :
      (forall r', atyp ap = REDUCE -> x_rp ap = Some r' -> lhsStart r' = false ->
                  reduce_count r' (done ++ ap :: aps) <= nbest) ->
      exists nbest' rbest' w',
        best_default wildcard lhsStart aps nbest rbest w1 = Ok (nbest', rbest', w') /\
        match rbest' with
        | None => nbest' = 0
        | Some r => lhsStart r = false /\
                    nbest' = reduce_count r (done ++ ap :: aps) /\ 1 <= nbest'
        end /\
        (forall ap0 r', ap0 ∈ done ++ ap :: aps -> atyp ap0 = REDUCE ->
           x_rp ap0 = Some r' -> lhsStart r' = false ->
           reduce_count r' (done ++ ap :: aps) <= nbest') /\
        (w' = true <-> w = true \/
           exists ap0, ap0 ∈ ap :: aps /\ atyp ap0 = SHIFT /\
                       symbol_ptr_eqb (Some (sp ap0)) wildcard = true)).
    { intros Hap. rewrite Happ.
      destruct (IH (done ++ [ap]) nbest rbest w1 Hnil')
        as (nbest' & rbest' & w' & Hr & Hb' & Hd' & Hw').
      - rewrite <- Happ. exact Hbest.
      - rewrite <- Happ. intros ap0 r' Hin. apply elem_of_app in Hin.
        destruct Hin as [Hin|Hin]; [apply Hdone; exact Hin|].
        apply list_elem_of_singleton in Hin. subst ap0. apply Hap.
      - exists nbest', rbest', w'. split; [exact Hr|]. split; [exact Hb'|].
        split; [exact Hd'|]. rewrite Hw', Hw1. split.
        + intros [[H|H]|(ap0 & Hin & H)]; [auto | |].
          * right. exists ap. split; [left | exact H].
          * right. exists ap0. split; [right; exact Hin | exact H].
        + intros [H|(ap0 & Hin & H)]; [auto|]. apply elem_of_cons in Hin.
          destruct Hin as [->|Hin]; [auto|]. right. exists ap0. auto. }
    destruct (bool_decide_reflect (atyp ap = REDUCE)) as [Ered|Ered]; cbn [negb].
    2:{ apply Hkeep. intros r' H. contradiction. }
    destruct (x_rp ap) as [rp|] eqn:Hrp;
      [|exfalso; apply (Hnil ap); [left | exact Ered | exact Hrp]].
    destruct (lhsStart rp) eqn:Hls.
    { apply Hkeep. intros r' _ [= <-] H. congruence. }
    destruct (rule_ptr_eqb (Some rp) rbest) eqn:Heq.
    { apply Hkeep. intros r' _ [= <-] _.
      destruct rbest as [rb|]; [|discriminate]. simpl in Heq. apply Z.eqb_eq in Heq.
      destruct Hbest as (_ & -> & _).
      rewrite (reduce_count_index rp rb _ Heq). lia. }
    rewrite (count_same_spec rbest rp aps 1 Heq).
    (* the count of [rp] in the whole list *)
    assert (Hself : reduces_by rp ap = true).
    { unfold reduces_by. rewrite Hrp, (bool_decide_eq_true_2 _ Ered). simpl.
      apply Z.eqb_refl. }
    assert (Hfull : reduce_count rp (done ++ ap :: aps)
                    = reduce_count rp done + (1 + reduce_count rp aps)).
    { rewrite reduce_count_app, reduce_count_cons, Hself. reflexivity. }
    assert (Hle : reduce_count rp (done ++ ap :: aps) <= Z.max nbest (1 + reduce_count rp aps)).
    { destruct (Z.eq_dec (reduce_count rp done) 0) as [E0|E0]; [lia|].
      pose proof (reduce_count_nonneg rp done).
      destruct (proj1 (reduce_count_pos rp done)) as (ap0 & Hin & Hr0); [lia|].
      unfold reduces_by in Hr0. apply andb_true_iff in Hr0. destruct Hr0 as [Ht0 Hi0].
      apply bool_decide_eq_true in Ht0.
      destruct (x_rp ap0) as [r0|] eqn:Hr0; [|discriminate]. simpl in Hi0.
      apply Z.eqb_eq in Hi0.
      pose proof (Hdone ap0 r0 Hin Ht0 Hr0) as Hc.
      rewrite (Hresp r0 rp Hi0) in Hc. specialize (Hc Hls).
      rewrite (reduce_count_index r0 rp _ Hi0) in Hc. lia. }
    pose proof (reduce_count_nonneg rp aps) as Hnn.
    pose proof (reduce_count_nonneg rp done) as Hnd.
    destruct (Z.gtb_spec (1 + reduce_count rp aps) nbest) as [Hgt|Hngt].
    + (* the new best *)
      rewrite Happ.
      destruct (IH (done ++ [ap]) (1 + reduce_count rp aps) (Some rp) w1 Hnil')
        as (nbest' & rbest' & w' & Hr & Hb' & Hd' & Hw').
      * rewrite <- Happ. split; [exact Hls|]. split; [lia | lia].
      * rewrite <- Happ. intros ap0 r' Hin Ht0 Hr0 Hl0. apply elem_of_app in Hin.
        destruct Hin as [Hin|Hin].
        -- pose proof (Hdone ap0 r' Hin Ht0 Hr0 Hl0). lia.
        -- apply list_elem_of_singleton in Hin. subst ap0.
           assert (r' = rp) as -> by congruence. lia.
      * exists nbest', rbest', w'. split; [exact Hr|]. split; [exact Hb'|].
        split; [exact Hd'|]. rewrite Hw', Hw1. split.
        -- intros [[H|H]|(ap0 & Hin & H)]; [auto | |].
           ++ right. exists ap. split; [left | exact H].
           ++ right. exists ap0. split; [right; exact Hin | exact H].
        -- intros [H|(ap0 & Hin & H)]; [auto|]. apply elem_of_cons in Hin.
           destruct Hin as [->|Hin]; [auto|]. right. exists ap0. auto.
    + apply Hkeep. intros r' _ [= <-] _. lia.
Qed.

End BestDefault.

(** The first loop of [CompressTables] finds the most frequent REDUCE
    action of a state.  [rbest] is nil exactly when no REDUCE action has
    a rule that is not a start rule ([lhsStart]); otherwise it is such a
    rule, [nbest] is the number of the REDUCE actions by it, and no such
    rule has more.  [usesWildcard] tells whether a SHIFT on the wildcard
    symbol is among the actions. *)
Theorem best_default_most_frequent wildcard lhsStart aps :
  (forall r r', rule_index r = rule_index r' -> lhsStart r = lhsStart r') ->
  (forall ap, ap ∈ aps -> atyp ap = REDUCE -> x_rp ap <> None) ->
  exists nbest rbest w,
    best_default wildcard lhsStart aps 0 None false = Ok (nbest, rbest, w) /\
    (w = true <-> exists ap, ap ∈ aps /\ atyp ap = SHIFT /\
                             symbol_ptr_eqb (Some (sp ap)) wildcard = true) /\
    (forall ap r, ap ∈ aps -> atyp ap = REDUCE -> x_rp ap = Some r ->
       lhsStart r = false -> reduce_count r aps <= nbest) /\
    match rbest with
    | None =>
        nbest = 0 /\
        forall ap r, ap ∈ aps -> atyp ap = REDUCE -> x_rp ap = Some r ->
                     lhsStart r = true
    | Some r =>
        lhsStart r = false /\ nbest = reduce_count r aps /\ 1 <= nbest
    end.
Proof.
  intros Hresp Hnil.
  destruct (best_default_spec wildcard lhsStart Hresp aps [] 0 None false Hnil)
    as (nbest & rbest & w & Hr & Hb & Hd & Hw).
  - reflexivity.
  - intros ap r' H. apply elem_of_nil in H. contradiction.
  - rewrite app_nil_l in *. exists nbest, rbest, w. split; [exact Hr|].
    split. { rewrite Hw. split; [intros [H|H]; [discriminate | exact H] | auto]. }
    split; [exact Hd|]. destruct rbest as [r|]; [exact Hb|].
    split; [exact Hb|]. intros ap r Hin Ht Hrp.
    destruct (lhsStart r) eqn:Hls; [reflexivity|]. exfalso.
    pose proof (Hd ap r Hin Ht Hrp Hls) as Hc.
    assert (0 < reduce_count r aps).
    { apply reduce_count_pos. exists ap. split; [exact Hin|].
      unfold reduces_by. rewrite Hrp, (bool_decide_eq_true_2 _ Ht). simpl.
      apply Z.eqb_refl. }
    lia.
Qed.

Lemma best_default_most_frequent_witness :
  exists w,
    best_default (Some ex_EQ) (fun _ => false) ex_reduce_list 0 None false
      = Ok (2, Some ex_rule_Q, w) /\
    w = true.
Proof.
  destruct (best_default_most_frequent (Some ex_EQ) (fun _ => false) ex_reduce_list)
    as (nbest & rbest & w & Hr & _).
  - reflexivity.
  - intros ap Hap Ht. unfold ex_reduce_list in Hap.
    repeat (apply elem_of_cons in Hap; destruct Hap as [->|Hap];
            [try discriminate Ht; simpl; discriminate|]).
    apply elem_of_nil in Hap. contradiction.
  - exists w. vm_compute in Hr. injection Hr as <- <- <-. split; reflexivity.
Defined.

(** ** The default of a state *)

Lemma find_default_spec rbest : forall aps,
  (exists n, n ∈ aps /\ is_default rbest n = true) ->
  exists before d after,
    find_default rbest aps = Some (before, d, after) /\
    aps = before ++ d :: after /\ is_default rbest d = true /\
    Forall (fun n => is_default rbest n = false) before.
Proof.
  induction aps as [|a aps IH]; intros (n & Hin & Hn).
  - apply elem_of_nil in Hin. contradiction.
  - cbn [find_default]. destruct (is_default rbest a) eqn:Ha.
    + exists [], a, aps. auto.
    + destruct IH as (before & d & after & Hf & -> & Hd & Hall).
      * exists n. split; [|exact Hn]. apply elem_of_cons in Hin.
        destruct Hin as [->|Hin]; [congruence | exact Hin].
      * rewrite Hf. exists (a :: before), d, after. split; [reflexivity|].
        split; [reflexivity|]. split; [exact Hd|]. constructor; assumption.
Qed.

Lemma scan_autoReduce_spec r : forall aps,
  scan_autoReduce (Some r) aps = true <->
  Forall (fun n => blocks_autoReduce r n = false) aps.
Proof.
  induction aps as [|a aps IH]; cbn [scan_autoReduce].
  - split; [constructor | reflexivity].
  - rewrite Forall_cons, <- IH. unfold blocks_autoReduce.
    destruct (bool_decide (atyp (node_action a) = SHIFT)); cbn [orb].
    + split; [discriminate | intros [H _]; discriminate].
    + destruct (bool_decide (atyp (node_action a) = REDUCE) &&
                negb (rule_ptr_eqb (x_rp (node_action a)) (Some r))).
      * split; [discriminate | intros [H _]; discriminate].
      * tauto.
Qed.

Lemma blocks_unuse_rest r : forall aps,
  Forall (fun n => blocks_autoReduce r n = false) (unuse_rest (Some r) aps) <->
  Forall (fun n => blocks_autoReduce r n = false) aps.
Proof.
  induction aps as [|a aps IH]; cbn [unuse_rest]; [reflexivity|].
  rewrite !Forall_cons, IH.
  assert (blocks_autoReduce r
            (if is_default (Some r) a then node_set_typ a NOT_USED else a)
          = blocks_autoReduce r a) as ->; [|reflexivity].
  destruct (is_default (Some r) a) eqn:Hd; [|reflexivity].
  unfold is_default in Hd. apply andb_true_iff in Hd. destruct Hd as [Ht Hr].
  apply bool_decide_eq_true in Ht. unfold blocks_autoReduce. simpl.
  rewrite Ht, Hr. reflexivity.
Qed.

Lemma unuse_rest_length rbest : forall aps,
  length (unuse_rest rbest aps) = length aps.
Proof. induction aps; simpl; congruence. Qed.

Lemma unuse_rest_has_rule rbest : forall aps,
  Forall (fun n => has_rule (node_action n)) aps ->
  Forall (fun n => has_rule (node_action n)) (unuse_rest rbest aps).
Proof.
  induction 1 as [|a aps Ha _ IH]; cbn [unuse_rest]; constructor; [|exact IH].
  destruct (is_default rbest a); [|exact Ha].
  intros H. vm_compute in H. discriminate.
Qed.

Lemma Exists_true_not_Forall_false {A : Type} (f : A -> bool) (l : list A) :
  ~ Forall (fun x => f x = false) l -> Exists (fun x => f x = true) l.
Proof.
  induction l as [|a l IH]; intros H; [exfalso; apply H; constructor|].
  destruct (f a) eqn:Ha; [left; exact Ha|]. right. apply IH. intros HF.
  apply H. constructor; assumption.
Qed.

Lemma Symbol_find_new up x2a x :
  exists s, Symbol_find (Symbol_new up x2a x) x = Some s.
Proof.
  unfold Symbol_new. destruct (Symbol_find x2a x) as [s|] eqn:Hf.
  - exists s. exact Hf.
  - unfold Symbol_find in *. eexists. rewrite (find_app_None _ _ _ Hf). simpl.
    rewrite String.eqb_refl. reflexivity.
Qed.

(** The body of the first loop of [CompressTables] on one state with
    fewer than 2^30 actions.  The state is left as it is when no REDUCE
    action has a rule that is not a start rule, or when a SHIFT on the
    wildcard is among the actions.  Otherwise a most frequent such rule
    [r] becomes the default: the first REDUCE by [r] gets the lookahead
    [{default}], the later ones become NOT_USED, the other actions are
    kept, the list is sorted again, and the state becomes an auto-reduce
    state with default [r] exactly when it has no SHIFT and no REDUCE by
    another rule.  The assertion never fails. *)
Theorem CompressTables_state_default up wildcard lhsStart x2a aps ar pd :
  (forall r r', rule_index r = rule_index r' -> lhsStart r = lhsStart r') ->
  Forall (fun n => has_rule (node_action n)) aps ->
  (length aps < 2 ^ LISTSIZE)%nat ->
  exists x2a' aps' ar' pd',
    CompressTables_state up wildcard lhsStart x2a (aps, ar, pd)
      = Ok (x2a', (aps', ar', pd')) /\
    ((((forall n, n ∈ aps -> ~ may_default lhsStart n) \/
       (exists n, n ∈ aps /\ shifts_wildcard wildcard n)) /\
      x2a' = x2a /\ aps' = aps /\ ar' = ar /\ pd' = pd)
     \/
     ((exists n, n ∈ aps /\ may_default lhsStart n) /\
      (forall n, n ∈ aps -> ~ shifts_wildcard wildcard n) /\
      exists r dflt before d after,
        lhsStart r = false /\
        (forall r', lhsStart r' = false ->
           reduce_count r' (node_action <$> aps)
           <= reduce_count r (node_action <$> aps)) /\
        aps = before ++ d :: after /\
        is_default (Some r) d = true /\
        Forall (fun n => is_default (Some r) n = false) before /\
        x2a' = Symbol_new up x2a "{default}" /\
        Symbol_find x2a' "{default}" = Some dflt /\
        aps' ≡ₚ before ++ node_set_sp d dflt :: unuse_rest (Some r) after /\
        StronglySorted action_le aps' /\
        ((Forall (fun n => blocks_autoReduce r n = false) aps /\
          ar' = true /\ pd' = Some r)
         \/
         (Exists (fun n => blocks_autoReduce r n = true) aps /\
          ar' = ar /\ pd' = pd)))).
Proof.
  intros Hresp Hrule Hlen.
  assert (Hnil : forall ap, ap ∈ node_action <$> aps -> atyp ap = REDUCE ->
                            x_rp ap <> None).
  { intros ap Hin Ht. apply list_elem_of_fmap in Hin. destruct Hin as (n & -> & Hin).
    rewrite Forall_forall in Hrule. apply (Hrule n Hin).
    unfold is_reduce. rewrite (bool_decide_eq_true_2 _ Ht). reflexivity. }
  destruct (best_default_spec wildcard lhsStart Hresp (node_action <$> aps) []
              0 None false Hnil) as (nbest & rbest & w & Hr & Hb & Hd & Hw).
  { reflexivity. }
  { intros ap r' H. apply elem_of_nil in H. contradiction. }
  rewrite app_nil_l in *.
  assert (Hwild : w = true <-> exists n, n ∈ aps /\ shifts_wildcard wildcard n).
  { rewrite Hw. split.
    - intros [H|(ap & Hin & H)]; [discriminate|].
      apply list_elem_of_fmap in Hin. destruct Hin as (n & -> & Hin).
      exists n. split; [exact Hin | exact H].
    - intros (n & Hin & H). right. exists (node_action n).
      split; [apply list_elem_of_fmap; exists n; auto | exact H]. }
  assert (Hmay : forall n, n ∈ aps -> may_default lhsStart n ->
            exists r', x_rp (node_action n) = Some r' /\ lhsStart r' = false /\
                       1 <= reduce_count r' (node_action <$> aps) <= nbest).
  { intros n Hin (Ht & r' & Hrp & Hl). exists r'. split; [exact Hrp|].
    split; [exact Hl|]. split.
    - assert (0 < reduce_count r' (node_action <$> aps)); [|lia].
      apply reduce_count_pos. exists (node_action n).
      split; [apply list_elem_of_fmap; exists n; auto|].
      unfold reduces_by. rewrite Hrp, (bool_decide_eq_true_2 _ Ht). simpl.
      apply Z.eqb_refl.
    - apply (Hd (node_action n) r'); [|exact Ht | exact Hrp | exact Hl].
      apply list_elem_of_fmap. exists n. auto. }
  unfold CompressTables_state. rewrite Hr. cbn [bind].
  destruct rbest as [r|].
  2:{ (* no rule *)
    subst nbest. cbn [Z.ltb Z.compare orb].
    exists x2a, aps, ar, pd. split; [reflexivity|]. left.
    split; [|auto]. left. intros n Hin Hm.
    destruct (Hmay n Hin Hm) as (r' & _ & _ & H). lia. }
  destruct Hb as (Hls & Hn & H1).
  destruct (Z.ltb_spec nbest 1) as [Hlt|_]; [lia|]. cbn [orb].
  destruct w.
  { exists x2a, aps, ar, pd. split; [reflexivity|]. left.
    split; [|auto]. right. apply Hwild. reflexivity. }
  (* a default is made *)
  assert (Hex : exists n, n ∈ aps /\ is_default (Some r) n = true).
  { destruct (proj1 (reduce_count_pos r (node_action <$> aps))) as (ap & Hin & Hrb);
      [lia|].
    apply list_elem_of_fmap in Hin. destruct Hin as (n & -> & Hin).
    exists n. split; [exact Hin | exact Hrb]. }
  destruct (find_default_spec (Some r) aps Hex)
    as (before & d & after & Hf & Haps & Hdd & Hbefore).
  rewrite Hf.
  destruct (Symbol_find_new up x2a "{default}") as (dflt & Hdflt).
  rewrite Hdflt.
  set (marked := before ++ node_set_sp d dflt :: unuse_rest (Some r) after).
  assert (Hrule' : Forall (fun n => has_rule (node_action n)) marked).
  { subst aps. apply Forall_app in Hrule. destruct Hrule as [Hr1 Hr2].
    apply Forall_cons in Hr2. destruct Hr2 as [Hr2 Hr3].
    unfold marked. apply Forall_app. split; [exact Hr1|].
    constructor; [exact Hr2 | apply unuse_rest_has_rule; exact Hr3]. }
  assert (Hlen' : (length marked < 2 ^ LISTSIZE)%nat).
  { unfold marked. rewrite Haps in Hlen.
    rewrite length_app, length_cons in Hlen.
    rewrite length_app, length_cons, unuse_rest_length. exact Hlen. }
  rewrite Action_sort_eq.
  destruct (bucket_sort_spec merge__action merge__action action_le
              (fun x => has_rule (node_action x))
              merge__action_sorted merge__action_sorted LISTSIZE marked)
    as (aps' & Hs & Hperm & Hsorted); [unfold LISTSIZE; lia | exact Hrule' | exact Hlen' |].
  rewrite Hs. cbn [bind].
  assert (Hblock : Forall (fun n => blocks_autoReduce r n = false) aps' <->
                   Forall (fun n => blocks_autoReduce r n = false) aps).
  { rewrite Hperm. unfold marked. rewrite Haps.
    rewrite !Forall_app, !Forall_cons, blocks_unuse_rest. reflexivity. }
  exists (Symbol_new up x2a "{default}"), aps'.
  destruct (scan_autoReduce (Some r) aps') eqn:Hscan.
  - exists true, (Some r). split; [reflexivity|]. right.
    split; [|split; [|exists r, dflt, before, d, after]].
    + destruct Hex as (n & Hin & Hn'). exists n. split; [exact Hin|].
      unfold is_default in Hn'. apply andb_true_iff in Hn'. destruct Hn' as [Ht Hi].
      apply bool_decide_eq_true in Ht. split; [exact Ht|].
      destruct (x_rp (node_action n)) as [r0|]; [|discriminate].
      exists r0. split; [reflexivity|]. simpl in Hi. apply Z.eqb_eq in Hi.
      rewrite (Hresp r0 r Hi). exact Hls.
    + intros n Hin Hsw. assert (false = true); [|discriminate].
      apply Hwild. exists n. auto.
    + split; [exact Hls|]. split.
      { intros r' Hl'. rewrite <- Hn.
        destruct (Z.eq_dec (reduce_count r' (node_action <$> aps)) 0) as [E|E]; [lia|].
        pose proof (reduce_count_nonneg r' (node_action <$> aps)).
        destruct (proj1 (reduce_count_pos r' (node_action <$> aps)))
          as (ap & Hin & Hrb); [lia|].
        unfold reduces_by in Hrb. apply andb_true_iff in Hrb. destruct Hrb as [Ht Hi].
        apply bool_decide_eq_true in Ht.
        destruct (x_rp ap) as [r0|] eqn:Hr0; [|discriminate]. simpl in Hi.
        apply Z.eqb_eq in Hi.
        pose proof (Hd ap r0 Hin Ht Hr0) as Hc. rewrite (Hresp r0 r' Hi) in Hc.
        rewrite (reduce_count_index r0 r' _ Hi) in Hc. apply Hc. exact Hl'. }
      split; [exact Haps|]. split; [exact Hdd|]. split; [exact Hbefore|].
      split; [reflexivity|]. split; [exact Hdflt|]. split; [exact Hperm|].
      split; [apply Sorted_StronglySorted; [apply action_le_trans | exact Hsorted]|].
      left. split; [|auto]. apply Hblock, scan_autoReduce_spec. exact Hscan.
  - exists ar, pd. split; [reflexivity|]. right.
    split; [|split; [|exists r, dflt, before, d, after]].
    + destruct Hex as (n & Hin & Hn'). exists n. split; [exact Hin|].
      unfold is_default in Hn'. apply andb_true_iff in Hn'. destruct Hn' as [Ht Hi].
      apply bool_decide_eq_true in Ht. split; [exact Ht|].
      destruct (x_rp (node_action n)) as [r0|]; [|discriminate].
      exists r0. split; [reflexivity|]. simpl in Hi. apply Z.eqb_eq in Hi.
      rewrite (Hresp r0 r Hi). exact Hls.
    + intros n Hin Hsw. assert (false = true); [|discriminate].
      apply Hwild. exists n. auto.
    + split; [exact Hls|]. split.
      { intros r' Hl'. rewrite <- Hn.
        destruct (Z.eq_dec (reduce_count r' (node_action <$> aps)) 0) as [E|E]; [lia|].
        pose proof (reduce_count_nonneg r' (node_action <$> aps)).
        destruct (proj1 (reduce_count_pos r' (node_action <$> aps)))
          as (ap & Hin & Hrb); [lia|].
        unfold reduces_by in Hrb. apply andb_true_iff in Hrb. destruct Hrb as [Ht Hi].
        apply bool_decide_eq_true in Ht.
        destruct (x_rp ap) as [r0|] eqn:Hr0; [|discriminate]. simpl in Hi.
        apply Z.eqb_eq in Hi.
        pose proof (Hd ap r0 Hin Ht Hr0) as Hc. rewrite (Hresp r0 r' Hi) in Hc.
        rewrite (reduce_count_index r0 r' _ Hi) in Hc. apply Hc. exact Hl'. }
      split; [exact Haps|]. split; [exact Hdd|]. split; [exact Hbefore|].
      split; [reflexivity|]. split; [exact Hdflt|]. split; [exact Hperm|].
      split; [apply Sorted_StronglySorted; [apply action_le_trans | exact Hsorted]|].
      right. split; [|auto]. apply Exists_true_not_Forall_false.
      intros HF. apply Hblock, scan_autoReduce_spec in HF. congruence.
Qed.

Lemma CompressTables_state_default_witness :
  exists aps',
    CompressTables_state (fun _ => false) None (fun _ => false)
      [ex_default_symbol] (ex_state_actions, false, None)
    = Ok ([ex_default_symbol], (aps', true, Some ex_rule_Q)) /\
    aps' = [ mkNode (mkAction ex_Q NOT_USED None (Some ex_rule_Q)) 2;
             mkNode (mkAction ex_default_symbol REDUCE None (Some ex_rule_Q)) 1 ].
Proof.
  destruct (CompressTables_state_default (fun _ => false) None (fun _ => false)
              [ex_default_symbol] ex_state_actions false None)
    as (x2a' & aps' & ar' & pd' & Hr & _).
  - reflexivity.
  - repeat constructor; intros _; discriminate.
  - unfold LISTSIZE.
    apply Nat.lt_trans with 30%nat; [simpl; lia | apply Nat.pow_gt_lin_r; lia].
  - exists aps'. vm_compute in Hr. injection Hr as <- <- <- <-.
    split; reflexivity.
Defined.

(** ** The conflict loop of [FindActions] *)

Lemma resolved_from_refl a : resolved_from a a.
Proof. unfold resolved_from. auto. Qed.

Lemma resolved_from_trans a b c :
  resolved_from a b -> resolved_from b c -> resolved_from a c.
Proof.
  intros (H1 & H2 & H3 & H4) (G1 & G2 & G3 & G4). unfold resolved_from.
  split; [congruence|]. split; [congruence|]. split; [congruence|].
  destruct H4 as [H4|[H4 H5]].
  - rewrite <- H4. exact G4.
  - destruct G4 as [G4|[G4 G5]].
    + right. split; [exact H4 | congruence].
    + exfalso. destruct G4 as [G4|G4]; rewrite G4 in H5; discriminate.
Qed.

Lemma resolved_from_taken a b :
  resolved_from a b -> taken (atyp b) = true -> atyp b = atyp a.
Proof.
  intros (_ & _ & _ & [H|[_ H]]) Ht; [exact H|].
  destruct (atyp b); discriminate.
Qed.

Lemma resolved_from_has_rule a b : resolved_from a b -> has_rule a -> has_rule b.
Proof.
  intros (_ & _ & H3 & H4) Ha Hb. rewrite H3. apply Ha.
  destruct H4 as [H4|[H4 H5]].
  - unfold is_reduce in *. rewrite <- H4. exact Hb.
  - unfold is_reduce in Hb. destruct (atyp b); discriminate.
Qed.

Lemma node_resolved_from_refl n : node_resolved_from n n.
Proof. split; [reflexivity | apply resolved_from_refl]. Qed.

Lemma node_resolved_from_trans a b c :
  node_resolved_from a b -> node_resolved_from b c -> node_resolved_from a c.
Proof.
  intros [H1 H2] [G1 G2]. split; [congruence|].
  eapply resolved_from_trans; eassumption.
Qed.

Lemma node_resolved_from_name a b :
  node_resolved_from a b -> lookahead_name b = lookahead_name a.
Proof. intros [_ (H & _)]. unfold lookahead_name. rewrite H. reflexivity. Qed.

Lemma Forall2_resolved_refl l : Forall2 node_resolved_from l l.
Proof. induction l; constructor; [apply node_resolved_from_refl | assumption]. Qed.

Lemma Forall2_resolved_names l l' :
  Forall2 node_resolved_from l l' -> lookahead_name <$> l' = lookahead_name <$> l.
Proof.
  induction 1 as [|a b l l' H _ IH]; [reflexivity|].
  rewrite !fmap_cons, IH, (node_resolved_from_name a b H). reflexivity.
Qed.

Lemma Forall2_resolved_has_rule l l' :
  Forall2 node_resolved_from l l' ->
  Forall (fun n => has_rule (node_action n)) l ->
  Forall (fun n => has_rule (node_action n)) l'.
Proof.
  induction 1 as [|a b l l' [_ H] _ IH]; intros HF; [constructor|].
  apply Forall_cons in HF. destruct HF as [Ha HF]. constructor; [|auto].
  eapply resolved_from_has_rule; eassumption.
Qed.

(** One call of [resolve_conflict]. *)
Lemma resolve_conflict_step a b :
  has_rule a -> has_rule b ->
  match resolve_conflict a b with
  | Panic e => e = AssertFailed
  | Ok (a', b', e) =>
      resolved_from a a' /\ resolved_from b b' /\
      e = conflict_code (atyp a') + conflict_code (atyp b')
          - conflict_code (atyp a) - conflict_code (atyp b) /\
      ~ (taken (atyp a') = true /\ taken (atyp b') = true)
  end.
Proof.
  intros Ha Hb. unfold resolve_conflict.
  destruct (negb _); [reflexivity|].
  destruct a as [spa ta sa ra], b as [spb tb sb rb].
  unfold has_rule, is_reduce in Ha, Hb. cbn [atyp x_rp sp] in *.
  assert (Hfin : forall a' b' e, 
    resolved_from (mkAction spa ta sa ra) a' ->
    resolved_from (mkAction spb tb sb rb) b' ->
    e = conflict_code (atyp a') + conflict_code (atyp b')
        - conflict_code ta - conflict_code tb ->
    ~ (taken (atyp a') = true /\ taken (atyp b') = true) ->
    resolved_from (mkAction spa ta sa ra) a' /\
    resolved_from (mkAction spb tb sb rb) b' /\
    e = conflict_code (atyp a') + conflict_code (atyp b')
        - conflict_code ta - conflict_code tb /\
    ~ (taken (atyp a') = true /\ taken (atyp b') = true)) by auto.
  destruct ta, tb; simpl;
    try reflexivity;
    try (apply Hfin; unfold resolved_from; simpl;
         [ intuition | intuition | reflexivity | intros [? ?]; discriminate ]).
  - (* SHIFT, REDUCE *)
    destruct rb as [rpy|]; [|exfalso; apply Hb; reflexivity].
    destruct (precsym rpy) as [spy|].
    2:{ apply Hfin; unfold resolved_from; simpl;
          [ intuition | intuition | reflexivity | intros [? ?]; discriminate ]. }
    repeat (match goal with
            | |- context [if ?c then _ else _] => destruct c
            end;
            try reflexivity;
            try (apply Hfin; unfold resolved_from; simpl;
                 [ intuition | intuition | reflexivity | intros [? ?]; discriminate ])).
  - (* REDUCE, REDUCE *)
    destruct ra as [rpx|]; [|exfalso; apply Ha; reflexivity].
    destruct rb as [rpy|]; [|exfalso; apply Hb; reflexivity].
    destruct (precsym rpx) as [spx|], (precsym rpy) as [spy|];
      try (apply Hfin; unfold resolved_from; simpl;
           [ intuition | intuition | reflexivity | intros [? ?]; discriminate ]).
    destruct ((prec spx <? 0) || (prec spy <? 0) || (prec spx =? prec spy)) eqn:Hor;
      [apply Hfin; unfold resolved_from; simpl;
       [ intuition | intuition | reflexivity | intros [? ?]; discriminate ]|].
    destruct (Z.gtb_spec (prec spx) (prec spy));
      [apply Hfin; unfold resolved_from; simpl;
       [ intuition | intuition | reflexivity | intros [? ?]; discriminate ]|].
    destruct (Z.ltb_spec (prec spx) (prec spy));
      [apply Hfin; unfold resolved_from; simpl;
       [ intuition | intuition | reflexivity | intros [? ?]; discriminate ]|].
    exfalso. apply orb_false_iff in Hor. destruct Hor as [_ Hor].
    apply Z.eqb_neq in Hor. lia.
Qed.

Lemma Forall2_resolved_trans l1 : forall l2 l3,
  Forall2 node_resolved_from l1 l2 -> Forall2 node_resolved_from l2 l3 ->
  Forall2 node_resolved_from l1 l3.
Proof.
  induction l1 as [|a l1 IH]; intros l2 l3 H12 H23.
  - apply Forall2_nil_inv_l in H12. subst l2.
    apply Forall2_nil_inv_l in H23. subst l3. constructor.
  - apply Forall2_cons_inv_l in H12. destruct H12 as (b & l2' & Hab & H12 & ->).
    apply Forall2_cons_inv_l in H23. destruct H23 as (c & l3' & Hbc & H23 & ->).
    constructor; [eapply node_resolved_from_trans; eassumption | eauto].
Qed.

Lemma node_resolved_taken a b :
  node_resolved_from a b -> taken (atyp (node_action b)) = true ->
  taken (atyp (node_action a)) = true.
Proof.
  intros [_ H] Ht. rewrite <- (resolved_from_taken _ _ H Ht). exact Ht.
Qed.

(** The inner loop. *)
Lemma resolve_row_spec : forall naps ap n,
  has_rule (node_action ap) ->
  Forall (fun x => has_rule (node_action x)) naps ->
  match resolve_row ap naps n with
  | Panic e => e = AssertFailed
  | Ok (ap', naps', n') =>
      node_resolved_from ap ap' /\ Forall2 node_resolved_from naps naps' /\
      n' - n = conflict_count (ap' :: naps') - conflict_count (ap :: naps) /\
      forall (j : nat) b',
        (forall (i : nat) y, (i <= j)%nat -> naps !! i = Some y ->
                             lookahead_name y = lookahead_name ap) ->
        naps' !! j = Some b' ->
        ~ (taken (atyp (node_action ap')) = true /\
           taken (atyp (node_action b')) = true)
  end.
Proof.
  induction naps as [|nap rest IH]; intros ap n Hap Hall; cbn [resolve_row].
  - split; [apply node_resolved_from_refl|]. split; [constructor|].
    split; [lia|]. intros j b' _ H. rewrite lookup_nil in H. discriminate.
  - apply Forall_cons in Hall. destruct Hall as [Hnap Hrest].
    destruct (String.eqb_spec (name (sp (node_action nap)))
                              (name (sp (node_action ap)))) as [Hname|Hname].
    2:{ split; [apply node_resolved_from_refl|].
        split; [apply Forall2_resolved_refl|]. split; [lia|].
        intros j b' Hpre _ _. apply Hname.
        apply (Hpre 0%nat nap); [lia | reflexivity]. }
    pose proof (resolve_conflict_step (node_action ap) (node_action nap) Hap Hnap)
      as Hstep.
    destruct (resolve_conflict (node_action ap) (node_action nap))
      as [[[apx apy] e]|err]; [|exact Hstep].
    destruct Hstep as (Hx & Hy & He & Hexcl). cbn [bind].
    assert (Hapx : has_rule (node_action (node_with ap apx)))
      by (eapply resolved_from_has_rule; eassumption).
    specialize (IH (node_with ap apx) (n + e) Hapx Hrest).
    destruct (resolve_row (node_with ap apx) rest (n + e))
      as [[[ap' rest'] n']|err]; [|exact IH].
    destruct IH as (H1 & H2 & H3 & H4). cbn [bind].
    assert (Hax : node_resolved_from ap (node_with ap apx))
      by (split; [reflexivity | exact Hx]).
    split; [eapply node_resolved_from_trans; eassumption|].
    split.
    { constructor; [split; [reflexivity | exact Hy] | exact H2]. }
    split.
    { cbn [conflict_count node_with node_action] in *. lia. }
    intros j b' Hpre Hb'. destruct j as [|j].
    + injection Hb' as <-. cbn [node_with node_action]. intros [Ht1 Ht2].
      apply Hexcl. split; [|exact Ht2].
      apply (node_resolved_taken _ _ H1) in Ht1. exact Ht1.
    + apply (H4 j b'); [|exact Hb'].
      intros i y Hi Hy'.
      rewrite (node_resolved_from_name _ _ Hax).
      apply (Hpre (S i) y); [lia | exact Hy'].
Qed.

(** The outer loop. *)
Lemma resolve_rows_spec : forall fuel aps n,
  (length aps <= fuel)%nat ->
  Forall (fun x => has_rule (node_action x)) aps ->
  grouped (lookahead_name <$> aps) ->
  match resolve_rows fuel aps n with
  | Panic e => e = AssertFailed
  | Ok None => False
  | Ok (Some (aps', n')) =>
      Forall2 node_resolved_from aps aps' /\
      n' - n = conflict_count aps' - conflict_count aps /\
      forall (i j : nat) a b,
        (i < j)%nat -> aps' !! i = Some a -> aps' !! j = Some b ->
        lookahead_name a = lookahead_name b ->
        ~ (taken (atyp (node_action a)) = true /\
           taken (atyp (node_action b)) = true)
  end.
Proof.
  induction fuel as [|fuel IH]; intros aps n Hlen Hall Hgr.
  - destruct aps as [|ap [|nap rest]]; cbn [resolve_rows].
    + split; [constructor|]. split; [lia|]. intros i j a b _ H.
      rewrite lookup_nil in H. discriminate.
    + split; [apply Forall2_resolved_refl|]. split; [lia|].
      intros i j a b Hij _ H. destruct j; [lia|]. discriminate.
    + simpl in Hlen. lia.
  - destruct aps as [|ap [|nap rest]]; cbn [resolve_rows].
    + split; [constructor|]. split; [lia|]. intros i j a b _ H.
      rewrite lookup_nil in H. discriminate.
    + split; [apply Forall2_resolved_refl|]. split; [lia|].
      intros i j a b Hij _ H. destruct j; [lia|]. discriminate.
    + apply Forall_cons in Hall. destruct Hall as [Hap Hrest].
      rewrite fmap_cons in Hgr. destruct Hgr as [Hfirst Hgr].
      pose proof (resolve_row_spec (nap :: rest) ap n Hap Hrest) as Hrow.
      destruct (resolve_row ap (nap :: rest) n) as [[[ap1 rest1] n1]|err];
        [|exact Hrow].
      destruct Hrow as (H1 & H2 & H3 & H4). cbn [bind].
      assert (Hnames : lookahead_name <$> rest1 = lookahead_name <$> (nap :: rest))
        by (apply Forall2_resolved_names; exact H2).
      specialize (IH rest1 n1).
      destruct (resolve_rows fuel rest1 n1) as [[[rest2 n2]|]|err].
      * destruct IH as (G1 & G2 & G3).
        { apply Forall2_length in H2. rewrite <- H2. simpl in *. lia. }
        { eapply Forall2_resolved_has_rule; eassumption. }
        { rewrite Hnames. exact Hgr. }
        cbn [bind].
        split.
        { constructor; [exact H1|]. eapply Forall2_resolved_trans; eassumption. }
        split.
        { cbn [conflict_count] in *. lia. }
        intros i j a b Hij Ha Hb Hab. destruct j as [|j]; [lia|].
        cbn in Hb. destruct i as [|i].
        -- injection Ha as <-.
           destruct (Forall2_lookup_r _ _ _ _ _ G1 Hb) as (b1 & Hb1 & Hbb).
           destruct (Forall2_lookup_r _ _ _ _ _ H2 Hb1) as (b0 & Hb0 & Hbb0).
           intros [Ht1 Ht2]. apply (H4 j b1); [|exact Hb1|].
           ++ intros i y Hi Hy.
              assert (Hnb : lookahead_name b0 = lookahead_name ap).
              { rewrite <- (node_resolved_from_name _ _ Hbb0),
                        <- (node_resolved_from_name _ _ Hbb), <- Hab.
                apply (node_resolved_from_name _ _ H1). }
              destruct (decide (i = j)) as [->|Hne]; [congruence|].
              apply (Hfirst i j (lookahead_name y)); [lia | |].
              ** rewrite list_lookup_fmap, Hb0. simpl. congruence.
              ** rewrite list_lookup_fmap, Hy. reflexivity.
           ++ split; [exact Ht1|]. apply (node_resolved_taken _ _ Hbb). exact Ht2.
        -- cbn in Ha. apply (G3 i j a b); [lia | assumption..].
      * exfalso. apply IH.
        { apply Forall2_length in H2. rewrite <- H2. simpl in *. lia. }
        { eapply Forall2_resolved_has_rule; eassumption. }
        { rewrite Hnames. exact Hgr. }
      * cbn [bind]. apply IH.
        { apply Forall2_length in H2. rewrite <- H2. simpl in *. lia. }
        { eapply Forall2_resolved_has_rule; eassumption. }
        { rewrite Hnames. exact Hgr. }
Qed.

Lemma conflict_count_perm l l' : l ≡ₚ l' -> conflict_count l = conflict_count l'.
Proof.
  induction 1; cbn [conflict_count]; lia.
Qed.

Lemma action_le_index x y :
  action_le x y -> index (sp (node_action x)) <= index (sp (node_action y)).
Proof.
  unfold action_le, cmp_val. destruct (is_reduce (node_action x)); cmp_cases.
Qed.

Lemma sorted_grouped l :
  StronglySorted action_le l ->
  (forall a b, a ∈ l -> b ∈ l ->
     (lookahead_name a = lookahead_name b <->
      index (sp (node_action a)) = index (sp (node_action b)))) ->
  grouped (lookahead_name <$> l).
Proof.
  induction 1 as [|x l Hs IH Hall]; intros Hsym; [exact I|].
  rewrite fmap_cons. split.
  - intros i j y Hij Hj Hi.
    rewrite list_lookup_fmap in Hj, Hi.
    destruct (l !! j) as [b|] eqn:Hb; [|discriminate].
    destruct (l !! i) as [a|] eqn:Ha; [|discriminate].
    injection Hj as Hj. injection Hi as <-.
    assert (Hinb : b ∈ l) by (eapply list_elem_of_lookup_2; eassumption).
    assert (Hina : a ∈ l) by (eapply list_elem_of_lookup_2; eassumption).
    rewrite Forall_forall in Hall.
    pose proof (action_le_index _ _ (Hall a Hina)) as Hxa.
    pose proof (action_le_index _ _
                  (StronglySorted_lookup_lt _ _ Hs i j a b Hij Ha Hb)) as Hab.
    assert (Hbx : index (sp (node_action b)) = index (sp (node_action x))).
    { apply Hsym; [right; exact Hinb | left | exact Hj]. }
    apply Hsym; [right; exact Hina | left | lia].
  - apply IH. intros a b Ha Hb. apply Hsym; right; assumption.
Qed.

(** The conflict loop of [FindActions] on one state with fewer than 2^30
    actions, in which symbols are told apart by their index and every
    REDUCE has its rule.  The loop ends, or stops at an assertion of
    [resolve_conflict].  When it ends, the actions are those that
    [Action_sort] returns, each as it was or with a SHIFT or REDUCE set
    aside (as a conflict, as resolved, or as ERROR); no two actions on
    the same lookahead are both still SHIFT, REDUCE or ACCEPT; and
    [nconflict] has grown by the number of actions newly marked
    SSCONFLICT, SRCONFLICT or RRCONFLICT. *)
Theorem FindActions_resolve_spec aps nconflict :
  Forall (fun x => has_rule (node_action x)) aps ->
  (length aps < 2 ^ LISTSIZE)%nat ->
  (forall a b, a ∈ aps -> b ∈ aps ->
     (lookahead_name a = lookahead_name b <->
      index (sp (node_action a)) = index (sp (node_action b)))) ->
  match FindActions_resolve aps nconflict with
  | Panic e => e = AssertFailed
  | Ok None => False
  | Ok (Some (aps', nconflict')) =>
      (exists sorted,
         Action_sort aps = Ok sorted /\ sorted ≡ₚ aps /\
         Forall2 node_resolved_from sorted aps') /\
      nconflict' = nconflict + (conflict_count aps' - conflict_count aps) /\
      forall (i j : nat) a b,
        (i < j)%nat -> aps' !! i = Some a -> aps' !! j = Some b ->
        lookahead_name a = lookahead_name b ->
        ~ (taken (atyp (node_action a)) = true /\
           taken (atyp (node_action b)) = true)
  end.
Proof.
  intros Hrule Hlen Hsym. unfold FindActions_resolve.
  rewrite Action_sort_eq.
  destruct (bucket_sort_spec merge__action merge__action action_le
              (fun x => has_rule (node_action x))
              merge__action_sorted merge__action_sorted LISTSIZE aps)
    as (sorted & Hs & Hperm & Hsorted); [unfold LISTSIZE; lia | exact Hrule | exact Hlen |].
  rewrite Hs. cbn [bind].
  apply Sorted_StronglySorted in Hsorted; [|apply action_le_trans].
  pose proof (resolve_rows_spec (length sorted) sorted nconflict) as Hrows.
  destruct (resolve_rows (length sorted) sorted nconflict) as [[[aps' n']|]|err].
  - destruct Hrows as (H1 & H2 & H3).
    + lia.
    + rewrite Hperm. exact Hrule.
    + apply sorted_grouped; [exact Hsorted|]. intros a b Ha Hb.
      apply Hsym; rewrite <- Hperm; assumption.
    + split; [exists sorted; auto|]. split; [|exact H3].
      rewrite <- (conflict_count_perm _ _ Hperm). lia.
  - apply Hrows.
    + lia.
    + rewrite Hperm. exact Hrule.
    + apply sorted_grouped; [exact Hsorted|]. intros a b Ha Hb.
      apply Hsym; rewrite <- Hperm; assumption.
  - apply Hrows.
    + lia.
    + rewrite Hperm. exact Hrule.
    + apply sorted_grouped; [exact Hsorted|]. intros a b Ha Hb.
      apply Hsym; rewrite <- Hperm; assumption.
Qed.

Lemma FindActions_resolve_spec_witness :
  exists aps',
    FindActions_resolve ex_conflict_actions 5 = Ok (Some (aps', 6)) /\
    (fun n => (lookahead_name n, atyp (node_action n))) <$> aps'
    = [("P", SHIFT); ("P", SRCONFLICT); ("Q", SH_RESOLVED); ("Q", REDUCE)].
Proof.
  pose proof (FindActions_resolve_spec ex_conflict_actions 5) as H.
  destruct (FindActions_resolve ex_conflict_actions 5) as [[[aps' n']|]|err] eqn:E.
  - destruct H as (_ & Hn & _).
    + unfold ex_conflict_actions.
      repeat (apply Forall_cons; split;
              [intros Hr; vm_compute in Hr |- *; congruence|]).
      apply Forall_nil. exact I.
    + unfold LISTSIZE.
      apply Nat.lt_trans with 30%nat; [simpl; lia | apply Nat.pow_gt_lin_r; lia].
    + intros a b Ha Hb. unfold ex_conflict_actions in Ha, Hb.
      repeat (apply elem_of_cons in Ha; destruct Ha as [->|Ha]);
        try (apply elem_of_nil in Ha; contradiction);
        repeat (apply elem_of_cons in Hb; destruct Hb as [->|Hb]);
        try (apply elem_of_nil in Hb; contradiction);
        vm_compute; split; intros Heq; try reflexivity; discriminate Heq.
    + clear Hn. exists aps'. vm_compute in E. injection E as <- <-.
      split; reflexivity.
  - vm_compute in E. discriminate E.
  - vm_compute in E. discriminate E.
Defined.

(** ** The configuration list builder *)

Lemma first_calls_filter k : forall l,
  filter (fun q => config_key (snd q) <> k) (first_calls l)
  = first_calls (filter (fun q => config_key (snd q) <> k) l).
Proof.
  induction l as [|p l IH]; [reflexivity|]. cbn [first_calls].
  destruct (decide (config_key (snd p) = k)) as [E|E].
  - rewrite filter_cons_False by (intros H; apply H; exact E).
    rewrite (filter_cons_False _ p l) by (intros H; apply H; exact E).
    rewrite <- IH. subst k.
    rewrite list_filter_filter. apply list_filter_iff. intros q. tauto.
  - rewrite filter_cons_True by exact E.
    rewrite (filter_cons_True _ p l) by exact E. cbn [first_calls].
    f_equal. rewrite <- IH. rewrite !list_filter_filter.
    apply list_filter_iff. intros q. tauto.
Qed.

Lemma first_calls_seen : forall l1 p l2,
  config_key (snd p) ∈ (fun q => config_key (snd q)) <$> l1 ->
  first_calls (l1 ++ p :: l2) = first_calls (l1 ++ l2).
Proof.
  induction l1 as [|d l1 IH]; intros p l2 Hin.
  - apply elem_of_nil in Hin. contradiction.
  - rewrite fmap_cons in Hin. cbn [app first_calls]. f_equal.
    destruct (decide (config_key (snd p) = config_key (snd d))) as [E|E].
    + rewrite !first_calls_filter. f_equal.
      rewrite !filter_app. f_equal.
      rewrite filter_cons_False by (intros H; apply H; exact E). reflexivity.
    + apply elem_of_cons in Hin. destruct Hin as [Hin|Hin]; [contradiction|].
      rewrite (IH p l2 Hin). reflexivity.
Qed.

Lemma filter_Forall_id {A : Type} (P : A -> Prop) `{forall x, Decision (P x)}
    (l : list A) :
  Forall P l -> filter P l = l.
Proof.
  induction 1 as [|x l Hx _ IH]; [reflexivity|].
  rewrite filter_cons_True by exact Hx. f_equal. exact IH.
Qed.

Lemma first_calls_nodup : forall l,
  NoDup ((fun q => config_key (snd q)) <$> l) -> first_calls l = l.
Proof.
  induction l as [|p l IH]; intros Hnd; [reflexivity|].
  rewrite fmap_cons in Hnd. apply NoDup_cons in Hnd. destruct Hnd as [Hp Hnd].
  cbn [first_calls]. f_equal. rewrite (IH Hnd).
  apply filter_Forall_id. apply Forall_forall. intros q Hq Heq. apply Hp.
  rewrite <- Heq. apply list_elem_of_fmap. exists q. auto.
Qed.

Lemma find_Configcmp_Some (l : list config) key c :
  find (fun d => Configcmp d key =? 0) l = Some c ->
  c ∈ l /\ config_key c = config_key key.
Proof.
  intros H. apply find_some in H. destruct H as [Hin Hc].
  split; [apply list_elem_of_In; exact Hin|].
  apply Configcmp_zero. apply Z.eqb_eq. exact Hc.
Qed.

Lemma find_Configcmp_None (l : list config) key :
  find (fun d => Configcmp d key =? 0) l = None ->
  config_key key ∉ config_key <$> l.
Proof.
  intros H Hin. apply list_elem_of_fmap in Hin. destruct Hin as (c & Hk & Hin).
  apply list_elem_of_In in Hin.
  pose proof (find_none _ _ H c Hin) as Hc. simpl in Hc.
  apply Z.eqb_neq in Hc. apply Hc. apply Configcmp_zero. congruence.
Qed.

(** One call of [Configlist_add] or [Configlist_addbasis]. *)
Lemma Configlist_call_ok size0 cl hist (b : bool) rp d :
  size0 <= 2 ^ 61 ->
  configlist_ok size0 cl hist ->
  Z.of_nat (length hist) + 1 < 2 ^ 60 ->
  exists cl' c hist',
    (if b then Configlist_addbasis cl rp d else Configlist_add cl rp d)
      = Ok (cl', c) /\
    config_key c = (rp, d) /\
    configlist_ok size0 cl' hist' /\
    c ∈ snd <$> hist' /\
    (forall p, p ∈ hist -> p ∈ hist') /\
    (length hist' <= S (length hist))%nat /\
    (forall rest, first_calls (hist' ++ rest) = first_calls (hist ++ (b, c) :: rest)).
Proof.
  intros H0 Hok Hlen.
  destruct Hok as [Hce Hbe Hcur Hbas (t & Hx & Hh) Hkeys Hids Hnid].
  assert (Hcall :
    (if b then Configlist_addbasis cl rp d else Configlist_add cl rp d)
    = let model := mkConfig rp d (cl_nconfig cl) in
      let* cfp := Configtable_find (cl_x4a cl) model in
      match cfp with
      | Some cfp => Ok (cl, cfp)
      | None =>
          let* r := Configtable_insert (cl_x4a cl) model in
          Ok (mkConfiglist (cl_current cl ++ [model]) true
                (if b then cl_basis cl ++ [model] else cl_basis cl) true
                (fst r) (S (cl_nconfig cl)), model)
      end).
  { destruct b; unfold Configlist_addbasis, Configlist_add;
      rewrite ?Hbe, Hce; cbn [negb]; reflexivity. }
  rewrite Hcall. cbv zeta. clear Hcall.
  set (model := mkConfig rp d (cl_nconfig cl)).
  assert (Hf : Configtable_find (cl_x4a cl) model
               = Ok (find (fun d0 => Configcmp d0 model =? 0) (cl_current cl))).
  { rewrite Hx. apply (Configtable_find_first size0). exact Hh. }
  rewrite Hf. cbn [bind].
  destruct (find (fun d0 => Configcmp d0 model =? 0) (cl_current cl))
    as [c|] eqn:Hfind.
  - (* the configuration exists *)
    apply find_Configcmp_Some in Hfind. destruct Hfind as [Hin Hkey].
    exists cl, c, hist. split; [reflexivity|].
    split; [exact Hkey|].
    split; [constructor; eauto|].
    split; [rewrite <- Hcur; exact Hin|].
    split; [auto|]. split; [lia|].
    intros rest. symmetry. apply first_calls_seen. cbn [snd].
    rewrite Hcur in Hin. apply list_elem_of_fmap in Hin.
    destruct Hin as (q & -> & Hq). apply list_elem_of_fmap. exists q. auto.
  - (* a new configuration *)
    apply find_Configcmp_None in Hfind.
    destruct (table_insert_holds None x4_hash x4_cmp x4_key config_key
                (key_hash_step 0) x4_hash_key x4_cmp_key (key_hash_step_pos 0)
                size0 t (Some <$> cl_current cl) (Some model) model H0 Hh)
      as (t' & ins & Hins & Hh' & _).
    { rewrite length_fmap, Hcur, length_fmap. lia. }
    { reflexivity. }
    assert (Hi : Configtable_insert (cl_x4a cl) model = Ok (Some t', ins)).
    { rewrite Hx. cbn [Configtable_insert].
      change (confighash model) with (key_hash_step 0 (config_key model)).
      rewrite Hins. reflexivity. }
    rewrite Hi. cbn [bind fst snd].
    exists (mkConfiglist (cl_current cl ++ [model]) true
              (if b then cl_basis cl ++ [model] else cl_basis cl) true
              (Some t') (S (cl_nconfig cl))),
           model, (hist ++ [(b, model)]).
    split; [reflexivity|]. split; [reflexivity|].
    assert (Hnew : config_key model ∉ (fun q => config_key (snd q)) <$> hist).
    { intros Hin. apply Hfind. rewrite Hcur, <- list_fmap_compose. exact Hin. }
    split.
    { constructor; cbn [cl_currentend cl_basisend cl_current cl_basis cl_x4a
                         cl_nconfig].
      - reflexivity.
      - reflexivity.
      - rewrite fmap_app, Hcur. reflexivity.
      - rewrite filter_app, fmap_app, Hbas. destruct b.
        + rewrite filter_cons_True by reflexivity. reflexivity.
        + rewrite filter_cons_False by discriminate. rewrite app_nil_r. reflexivity.
      - exists t'. split; [reflexivity|]. rewrite fmap_app. exact Hh'.
      - rewrite fmap_app. apply NoDup_app. split; [exact Hkeys|].
        split; [|apply NoDup_singleton].
        intros k Hk Hk'. apply list_elem_of_singleton in Hk'. subst k.
        apply Hnew. exact Hk.
      - apply Forall_app. split.
        + eapply Forall_impl; [exact Hids|]. intros q Hq. simpl in Hq. lia.
        + constructor; [simpl; lia | constructor].
      - rewrite fmap_app. apply NoDup_app. split; [exact Hnid|].
        split; [|apply NoDup_singleton].
        intros k Hk Hk'. apply list_elem_of_singleton in Hk'. subst k.
        apply list_elem_of_fmap in Hk. destruct Hk as (q & Hq1 & Hq2).
        rewrite Forall_forall in Hids. specialize (Hids q Hq2).
        simpl in Hq1, Hids. lia. }
    split; [rewrite fmap_app; apply elem_of_app; right; left|].
    split; [intros q Hq; apply elem_of_app; left; exact Hq|].
    split; [rewrite length_app; simpl; lia|].
    intros rest. rewrite <- app_assoc. reflexivity.
Qed.

(** A run of calls. *)
Lemma Configlist_calls_ok size0 : forall calls cl hist,
  size0 <= 2 ^ 61 ->
  configlist_ok size0 cl hist ->
  Z.of_nat (length hist) + Z.of_nat (length calls) < 2 ^ 60 ->
  exists cl' rets,
    Configlist_calls cl calls = Ok (cl', rets) /\
    config_key <$> rets = snd <$> calls /\
    configlist_ok size0 cl' (first_calls (hist ++ zip (fst <$> calls) rets)) /\
    Forall (fun c => c ∈ cl_current cl') rets /\
    (forall p, p ∈ hist -> p ∈ first_calls (hist ++ zip (fst <$> calls) rets)).
Proof.
  induction calls as [|[b [rp d]] calls IH]; intros cl hist H0 Hok Hlen.
  - exists cl, []. split; [reflexivity|]. split; [reflexivity|].
    cbn [fmap list_fmap zip zip_with]. rewrite app_nil_r.
    rewrite (first_calls_nodup hist (clo_keys _ _ _ Hok)).
    split; [exact Hok|]. split; [constructor | auto].
  - cbn [Configlist_calls].
    destruct (Configlist_call_ok size0 cl hist b rp d H0 Hok)
      as (cl1 & c & hist1 & Hcall & Hkey & Hok1 & Hc & Hmono & Hl1 & Hfirst).
    { simpl in Hlen. lia. }
    rewrite Hcall. cbn [bind fst snd].
    destruct (IH cl1 hist1 H0 Hok1) as (cl' & rets & Hrun & Hkeys & Hok' & Hall & Hm').
    { simpl in Hlen. lia. }
    rewrite Hrun. cbn [bind fst snd].
    exists cl', (c :: rets). split; [reflexivity|].
    split; [rewrite !fmap_cons, Hkeys, Hkey; reflexivity|].
    rewrite fmap_cons. cbn [fst zip zip_with].
    change (zip_with pair (fst <$> calls) rets) with (zip (fst <$> calls) rets).
    rewrite <- Hfirst.
    split; [exact Hok'|].
    split.
    + constructor; [|exact Hall].
      rewrite (clo_current _ _ _ Hok').
      apply list_elem_of_fmap in Hc. destruct Hc as (q & -> & Hq).
      apply list_elem_of_fmap. exists q. split; [reflexivity|]. apply Hm'. exact Hq.
    + intros q Hq. apply Hm'. apply Hmono. exact Hq.
Qed.

Lemma configlist_ok_init :
  configlist_ok 64 (Configlist_init configlist_zero) [].
Proof.
  constructor; try reflexivity; try constructor.
  eexists. split; [reflexivity|].
  apply (table_holds_empty x4_key (key_hash_step 0)
           (mkTable 64 0 (replicate 64 None) (replicate 64 [])));
    [simpl; lia | reflexivity | reflexivity | reflexivity].
Qed.

(** [Configtable_clear] leaves an empty table that works. *)
Lemma Configtable_clear_holds size0 t l :
  size0 <= 2 ^ 61 ->
  table_holds x4_key (key_hash_step 0) size0 t l ->
  Z.of_nat (length l) < 2 ^ 60 ->
  exists t0,
    Configtable_clear (Some t) = Ok (Some t0) /\
    table_holds x4_key (key_hash_step 0) (t_size t0) t0 [] /\ t_size t0 <= 2 ^ 61.
Proof.
  intros H0 (Hok & Hsz & Hcl & _) Hlen.
  pose proof (ok_size _ _ _ Hok) as Hs. pose proof (ok_count _ _ _ Hok) as Hc.
  cbn [Configtable_clear]. destruct (Z.eqb_spec (t_count t) 0) as [E|E].
  - exists t. split; [reflexivity|]. split; [|lia].
    assert (Hi : items t = []) by (unfold items; rewrite E; reflexivity).
    split; [exact Hok|]. split; [lia|]. split; [simpl; lia|].
    split; [intros kk; rewrite Hi; reflexivity | intros _; exact Hi].
  - destruct (clear_chains_spec (Z.to_nat (t_size t)) 0 (t_ht t))
      as (ht' & Hr & Hl & Hch).
    { pose proof (ok_ht _ _ _ Hok). lia. }
    change (Z.of_nat 0) with 0 in Hr. rewrite Hr. cbn [bind].
    eexists. split; [reflexivity|]. cbn [t_size]. split; [|lia].
    apply (table_holds_empty x4_key (key_hash_step 0)
             (mkTable (t_size t) 0 (t_tbl t) ht')); cbn [t_size t_count t_tbl t_ht].
    + lia.
    + exact (ok_tbl _ _ _ Hok).
    + apply list_eq. intros h. pose proof (ok_ht _ _ _ Hok) as Hht.
      destruct (ht' !! h) as [chain|] eqn:E1.
      * specialize (Hch h chain E1).
        assert (h < length ht')%nat by (apply lookup_lt_is_Some; eauto).
        destruct (decide _) as [_|Hn]; [|lia]. subst chain.
        symmetry. apply lookup_replicate_2. lia.
      * symmetry. apply lookup_replicate_None.
        apply lookup_ge_None in E1. lia.
    + reflexivity.
Qed.

(** [Configlist_add] and [Configlist_addbasis] keep one configuration
    for each rule and dot.  After [Configlist_init], a run of calls, a
    [Configlist_reset] and a second run (each of fewer than 2^60 calls)
    no call has failed; each call of the second run has returned a
    configuration of its rule and dot, the same object for the same rule
    and dot; [current] holds the configurations that were returned, each
    once, in the order of the first call for it, and [basis] those among
    them whose first call was [Configlist_addbasis]. *)
Theorem Configlist_add_interns calls0 calls :
  Z.of_nat (length calls0) < 2 ^ 60 ->
  Z.of_nat (length calls) < 2 ^ 60 ->
  exists cl0 rets0 cl1 cl rets,
    Configlist_calls (Configlist_init configlist_zero) calls0 = Ok (cl0, rets0) /\
    Configlist_reset cl0 = Ok cl1 /\
    Configlist_calls cl1 calls = Ok (cl, rets) /\
    config_key <$> rets = snd <$> calls /\
    (forall c c', c ∈ rets -> c' ∈ rets ->
       (config_key c = config_key c' <-> c = c') /\
       (cfg_id c = cfg_id c' <-> c = c')) /\
    cl_current cl = snd <$> first_calls (zip (fst <$> calls) rets) /\
    cl_basis cl
      = snd <$> filter (fun p => fst p = true)
                       (first_calls (zip (fst <$> calls) rets)) /\
    NoDup (config_key <$> cl_current cl) /\
    cl_currentend cl = true /\ cl_basisend cl = true.
Proof.
  intros Hlen0 Hlen.
  destruct (Configlist_calls_ok 64 calls0 _ [] ltac:(lia) configlist_ok_init)
    as (cl0 & rets0 & Hrun0 & Hkeys0 & Hok0 & _ & _).
  { simpl. lia. }
  rewrite app_nil_l in Hok0.
  destruct Hok0 as [_ _ Hcur0 _ (t & Hx & Hh) _ Hids0 _].
  assert (Hl0 : Z.of_nat (length (cl_current cl0)) < 2 ^ 60).
  { destruct Hh as (_ & _ & _ & _). 
    assert (length (cl_current cl0) <= length calls0)%nat; [|lia].
    rewrite Hcur0, length_fmap.
    assert (Hsub : forall l : list (bool * config),
              (length (first_calls l) <= length l)%nat).
    { induction l as [|p l IH]; simpl; [lia|].
      pose proof (length_filter
        (fun q => config_key (snd q) <> config_key (snd p)) (first_calls l)). lia. }
    etransitivity; [apply Hsub|].
    rewrite length_zip_with, length_fmap. lia. }
  destruct (Configtable_clear_holds 64 t _ ltac:(lia) Hh) as (t0 & Hclear & Hh0 & Hb0).
  { rewrite length_fmap. exact Hl0. }
  assert (Hreset : Configlist_reset cl0
                   = Ok (mkConfiglist [] true [] true (Some t0) (cl_nconfig cl0))).
  { assert (Hc' : Configtable_clear (cl_x4a cl0) = Ok (Some t0))
      by (rewrite Hx; exact Hclear).
    unfold Configlist_reset. rewrite Hc'. reflexivity. }
  destruct (Configlist_calls_ok (t_size t0) calls
              (mkConfiglist [] true [] true (Some t0) (cl_nconfig cl0)) [] Hb0)
    as (cl & rets & Hrun & Hkeys & Hok & Hall & _).
  { constructor; try reflexivity; try constructor.
    exists t0. split; [reflexivity | exact Hh0]. }
  { simpl. lia. }
  rewrite app_nil_l in Hok.
  exists cl0, rets0, (mkConfiglist [] true [] true (Some t0) (cl_nconfig cl0)), cl, rets.
  split; [exact Hrun0|]. split; [exact Hreset|]. split; [exact Hrun|].
  split; [exact Hkeys|].
  destruct Hok as [Hce Hbe Hcur Hbas _ Hnk _ Hnid].
  assert (Hnk' : NoDup (config_key <$> cl_current cl)).
  { rewrite Hcur, <- list_fmap_compose. exact Hnk. }
  assert (Hnid' : NoDup (cfg_id <$> cl_current cl)).
  { rewrite Hcur, <- list_fmap_compose. exact Hnid. }
  split.
  { intros c c' Hc Hc'. rewrite Forall_forall in Hall.
    pose proof (Hall c Hc) as H1. pose proof (Hall c' Hc') as H2.
    apply list_elem_of_lookup in H1, H2.
    destruct H1 as (i & Hi). destruct H2 as (j & Hj).
    split; (split; [|intros ->; reflexivity]); intros Heq.
    - assert (i = j); [|congruence].
      apply (NoDup_lookup _ i j (config_key c) Hnk');
        rewrite list_lookup_fmap; [rewrite Hi | rewrite Hj]; simpl; congruence.
    - assert (i = j); [|congruence].
      apply (NoDup_lookup _ i j (cfg_id c) Hnid');
        rewrite list_lookup_fmap; [rewrite Hi | rewrite Hj]; simpl; congruence. }
  split; [exact Hcur|]. split; [exact Hbas|]. split; [exact Hnk'|].
  split; assumption.
Qed.

Lemma Configlist_add_interns_witness :
  exists cl0 rets0 cl1 cl,
    Configlist_calls (Configlist_init configlist_zero) [(true, (3, 0))]
      = Ok (cl0, rets0) /\
    Configlist_reset cl0 = Ok cl1 /\
    Configlist_calls cl1 [(true, (5, 1)); (false, (7, 0)); (true, (7, 0));
                          (false, (5, 1))]
      = Ok (cl, [mkConfig 5 1 1; mkConfig 7 0 2; mkConfig 7 0 2; mkConfig 5 1 1]) /\
    cl_current cl = [mkConfig 5 1 1; mkConfig 7 0 2] /\
    cl_basis cl = [mkConfig 5 1 1].
Proof.
  destruct (Configlist_add_interns [(true, (3, 0))]
              [(true, (5, 1)); (false, (7, 0)); (true, (7, 0)); (false, (5, 1))])
    as (cl0 & rets0 & cl1 & cl & rets & H1 & H2 & H3 & _); [simpl; lia | simpl; lia |].
  exists cl0, rets0, cl1, cl.
  vm_compute in H1. injection H1 as <- <-.
  vm_compute in H2. injection H2 as <-.
  vm_compute in H3. injection H3 as <- <-.
  repeat split; vm_compute; reflexivity.
Defined.

(** *** Sorting the list *)

Lemma config_le_iff a b :
  config_le a b <->
  rp_index a < rp_index b \/ (rp_index a = rp_index b /\ dot a <= dot b).
Proof.
  unfold config_le, Configcmp.
  destruct (Z.eqb_spec (rp_index a - rp_index b) 0); lia.
Qed.

Lemma config_lt_iff a b :
  config_lt a b <->
  rp_index a < rp_index b \/ (rp_index a = rp_index b /\ dot a < dot b).
Proof.
  unfold config_lt, Configcmp.
  destruct (Z.eqb_spec (rp_index a - rp_index b) 0); lia.
Qed.

Lemma config_le_trans a b c : config_le a b -> config_le b c -> config_le a c.
Proof. rewrite !config_le_iff. lia. Qed.

Lemma config_le_total a b : ~ config_le a b -> config_le b a.
Proof. rewrite !config_le_iff. lia. Qed.

Lemma merge__config_nil_r a : merge__config a [] = a.
Proof. destruct a; reflexivity. Qed.

Lemma merge__config_cons x a y b :
  merge__config (x :: a) (y :: b) =
  if Configcmp x y <=? 0 then x :: merge__config a (y :: b)
  else y :: merge__config (x :: a) b.
Proof. reflexivity. Qed.

Lemma merge__config_spec : forall a b,
  Sorted config_le a -> Sorted config_le b ->
  merge__config a b ≡ₚ a ++ b /\
  Sorted config_le (merge__config a b) /\
  (forall z, HdRel config_le z a -> HdRel config_le z b ->
             HdRel config_le z (merge__config a b)).
Proof.
  induction a as [|x a IHa]; intros b Ha Hb.
  - simpl. split; [reflexivity|]. split; [exact Hb | auto].
  - induction b as [|y b IHb].
    + rewrite merge__config_nil_r, app_nil_r.
      split; [reflexivity|]. split; [exact Ha | auto].
    + rewrite merge__config_cons.
      apply Sorted_inv in Ha as Ha'. destruct Ha' as [Ha1 Ha2].
      apply Sorted_inv in Hb as Hb'. destruct Hb' as [Hb1 Hb2].
      destruct (Z.leb_spec (Configcmp x y) 0) as [Hle|Hgt].
      * destruct (IHa (y :: b) Ha1 Hb) as (Hp & Hs & Hh).
        split; [simpl; rewrite Hp; reflexivity|].
        split.
        -- constructor; [exact Hs|]. apply Hh; [exact Ha2|].
           constructor. exact Hle.
        -- intros z Hz _. constructor. inversion Hz; assumption.
      * destruct (IHb Hb1) as (Hp & Hs & Hh).
        split; [rewrite Hp; apply (Permutation_middle (x :: a) b y)|].
        split.
        -- constructor; [exact Hs|]. apply Hh; [|exact Hb2].
           constructor. apply config_le_total. unfold config_le. lia.
        -- intros z _ Hz. constructor. inversion Hz; assumption.
Qed.

Lemma merge__config_sorted (a b : list config) :
  Forall (fun _ => True) a -> Forall (fun _ => True) b ->
  Sorted config_le a -> Sorted config_le b ->
  exists r, Ok (merge__config a b) = Ok r /\ r ≡ₚ a ++ b /\ Sorted config_le r.
Proof.
  intros _ _ Ha Hb. eexists. split; [reflexivity|].
  destruct (merge__config_spec a b Ha Hb) as (Hp & Hs & _). auto.
Qed.

Lemma msort_config_carry_eq : forall set ep,
  msort_config_carry ep set =
  bucket_carry (fun ep s => Ok (merge__config ep s)) ep set.
Proof.
  induction set as [|s rest IH]; intros ep; [reflexivity|].
  destruct rest as [|s1 rest]; [reflexivity|].
  destruct s as [|a s]; [reflexivity|].
  change (msort_config_carry ep ((a :: s) :: s1 :: rest))
    with (let* rest' := msort_config_carry (merge__config ep (a :: s)) (s1 :: rest) in
          Ok ([] :: rest')).
  rewrite IH. reflexivity.
Qed.

Lemma msort_config_fill_eq : forall l set,
  msort_config_fill l set =
  bucket_fill (fun ep s => Ok (merge__config ep s)) l set.
Proof.
  induction l as [|r l IH]; intros set; simpl; [reflexivity|].
  rewrite msort_config_carry_eq.
  destruct (bucket_carry _ [r] set); simpl; [apply IH | reflexivity].
Qed.

Lemma msort_config_collect_eq : forall set ep,
  Ok (msort_config_collect set ep) =
  bucket_collect (fun s ep => Ok (merge__config s ep)) set ep.
Proof.
  induction set as [|s set IH]; intros ep; simpl; [reflexivity|].
  destruct s; apply IH.
Qed.

Lemma msort__config_eq l :
  msort__config l =
  bucket_sort (fun ep s => Ok (merge__config ep s))
              (fun s ep => Ok (merge__config s ep)) LISTSIZE l.
Proof.
  unfold msort__config, bucket_sort. rewrite msort_config_fill_eq.
  destruct (bucket_fill _ l _); simpl; [apply msort_config_collect_eq | reflexivity].
Qed.

Lemma msort__config_spec l :
  (length l < 2 ^ LISTSIZE)%nat ->
  exists r, msort__config l = Ok r /\ r ≡ₚ l /\ StronglySorted config_le r.
Proof.
  intros Hlen. rewrite msort__config_eq.
  destruct (bucket_sort_spec (fun ep s => Ok (merge__config ep s))
              (fun s ep => Ok (merge__config s ep)) config_le (fun _ => True)
              merge__config_sorted merge__config_sorted LISTSIZE l)
    as (r & Hr & Hp & Hs).
  - unfold LISTSIZE. lia.
  - apply Forall_forall. auto.
  - exact Hlen.
  - exists r. split; [exact Hr|]. split; [exact Hp|].
    apply Sorted_StronglySorted; [|exact Hs].
    intros a b c. apply config_le_trans.
Qed.

Lemma sorted_keys_strict (l : list config) :
  StronglySorted config_le l -> NoDup (config_key <$> l) ->
  StronglySorted config_lt l.
Proof.
  induction 1 as [|x l Hs IH Hall]; intros Hnd; [constructor|].
  rewrite fmap_cons in Hnd. apply NoDup_cons in Hnd. destruct Hnd as [Hx Hnd].
  constructor; [apply IH; exact Hnd|].
  rewrite Forall_forall in Hall |- *. intros y Hy.
  specialize (Hall y Hy). apply config_le_iff in Hall. apply config_lt_iff.
  destruct (decide (config_key x = config_key y)) as [E|E].
  - exfalso. apply Hx. rewrite E. apply list_elem_of_fmap. exists y. auto.
  - unfold config_key in E.
    destruct (Z.eq_dec (dot x) (dot y)) as [Ed|Ed]; [|lia].
    destruct (Z.eq_dec (rp_index x) (rp_index y)) as [Er|Er]; [|lia].
    exfalso. apply E. congruence.
Qed.

(** [Configlist_sort] on a list of fewer than 2^30 configurations keeps
    the configurations and puts them in the order of [Configcmp] (rule
    index, then dot); [currentend] is nil afterwards, so that a
    [Configlist_add] fails its assertion.  When no two configurations
    share their rule and dot, as [Configlist_add] sees to, the order is
    strict, and two lists with the same rules and dots come out in the
    same order whatever order they were built in. *)
Theorem Configlist_sort_canonical cl :
  (length (cl_current cl) < 2 ^ LISTSIZE)%nat ->
  exists cl',
    Configlist_sort cl = Ok cl' /\
    cl_current cl' ≡ₚ cl_current cl /\
    StronglySorted config_le (cl_current cl') /\
    cl_currentend cl' = false /\
    cl_basis cl' = cl_basis cl /\ cl_basisend cl' = cl_basisend cl /\
    cl_x4a cl' = cl_x4a cl /\ cl_nconfig cl' = cl_nconfig cl /\
    (forall rp d, Configlist_add cl' rp d = Panic AssertFailed) /\
    (NoDup (config_key <$> cl_current cl) ->
     StronglySorted config_lt (cl_current cl') /\
     forall cl2,
       config_key <$> cl_current cl2 ≡ₚ config_key <$> cl_current cl ->
       exists cl2',
         Configlist_sort cl2 = Ok cl2' /\
         config_key <$> cl_current cl2' = config_key <$> cl_current cl').
Proof.
  intros Hlen. unfold Configlist_sort.
  destruct (msort__config_spec (cl_current cl) Hlen) as (r & Hr & Hp & Hs).
  rewrite Hr. cbn [bind]. eexists. split; [reflexivity|].
  cbn [cl_current cl_currentend cl_basis cl_basisend cl_x4a cl_nconfig].
  split; [exact Hp|]. split; [exact Hs|].
  do 5 (split; [reflexivity|]).
  split; [reflexivity|].
  intros Hnd. 
  assert (Hstrict : StronglySorted config_lt r).
  { apply sorted_keys_strict; [exact Hs|]. rewrite Hp. exact Hnd. }
  split; [exact Hstrict|].
  intros cl2 Hkeys.
  destruct (msort__config_spec (cl_current cl2)) as (r2 & Hr2 & Hp2 & Hs2).
  { apply Permutation_length in Hkeys. rewrite !length_fmap in Hkeys.
    rewrite Hkeys. exact Hlen. }
  rewrite Hr2. cbn [bind]. eexists. split; [reflexivity|].
  cbn [cl_current].
  assert (Hstrict2 : StronglySorted config_lt r2).
  { apply sorted_keys_strict; [exact Hs2|]. rewrite Hp2, Hkeys. exact Hnd. }
  set (key_lt := fun k1 k2 : Z * Z =>
                   fst k1 < fst k2 \/ (fst k1 = fst k2 /\ snd k1 < snd k2)).
  assert (Hfmap : forall l, StronglySorted config_lt l ->
                            StronglySorted key_lt (config_key <$> l)).
  { induction 1 as [|x l Hsl IH Hall]; [constructor|].
    rewrite fmap_cons. constructor; [exact IH|].
    apply Forall_fmap. eapply Forall_impl; [exact Hall|].
    intros y Hy. apply config_lt_iff in Hy. exact Hy. }
  apply (StronglySorted_unique_strong key_lt).
  - intros k1 k2 _ _ H1 H2. unfold key_lt in H1, H2.
    destruct k1, k2; simpl in H1, H2. f_equal; lia.
  - apply Hfmap. exact Hstrict2.
  - apply Hfmap. exact Hstrict.
  - rewrite Hp2, Hp. exact Hkeys.
Qed.

Lemma Configlist_sort_canonical_witness :
  exists cl',
    Configlist_sort (mkConfiglist [mkConfig 5 1 1; mkConfig 3 2 2; mkConfig 3 0 3]
                                  true [] true None 4) = Ok cl' /\
    cl_current cl' = [mkConfig 3 0 3; mkConfig 3 2 2; mkConfig 5 1 1].
Proof.
  destruct (Configlist_sort_canonical
              (mkConfiglist [mkConfig 5 1 1; mkConfig 3 2 2; mkConfig 3 0 3]
                            true [] true None 4))
    as (cl' & Hr & _).
  - change (3 < 2 ^ 30)%nat.
    apply Nat.lt_trans with 30%nat; [lia | apply Nat.pow_gt_lin_r; lia].
  - exists cl'. split; [exact Hr|]. vm_compute in Hr. injection Hr as <-. reflexivity.
Defined.

(** ** [FindLinks] *)

Lemma add_forward_spec i : forall bplp cs,
  (forall o, o ∈ bplp -> (o < length cs)%nat) ->
  exists cs', add_forward i bplp cs = Ok cs' /\
    length cs' = length cs /\
    Follow.fws <$> cs' = Follow.fws <$> cs /\
    Follow.status <$> cs' = Follow.status <$> cs /\
    forall j k, link cs' j k <-> link cs j k \/ (k = i /\ j ∈ bplp).
Proof.
  induction bplp as [|o bplp IH]; intros cs Hin; cbn [add_forward].
  - exists cs. repeat split; try reflexivity.
    + auto.
    + intros [H|[_ H]]; [exact H|]. apply elem_of_nil in H. contradiction.
  - destruct (cs !! o) as [oc|] eqn:Ho.
    2:{ apply lookup_ge_None in Ho. specialize (Hin o ltac:(left)). lia. }
    destruct (IH (<[o := set_fplp oc (i :: Follow.fplp oc)]> cs))
      as (cs' & Hr & Hl & Hf & Hs & Hlink).
    { intros o' Ho'. rewrite length_insert. apply Hin. right. exact Ho'. }
    exists cs'. split; [exact Hr|]. rewrite length_insert in Hl.
    split; [exact Hl|].
    split.
    { rewrite Hf, list_fmap_insert. apply list_insert_id.
      rewrite list_lookup_fmap, Ho. reflexivity. }
    split.
    { rewrite Hs, list_fmap_insert. apply list_insert_id.
      rewrite list_lookup_fmap, Ho. reflexivity. }
    intros j k. rewrite Hlink. unfold link.
    assert (Hlt : (o < length cs)%nat) by (apply lookup_lt_is_Some; eauto).
    split.
    + intros [(cj & Hj & Hk)|[-> Hj]].
      * destruct (decide (j = o)) as [->|Hne].
        -- rewrite list_lookup_insert_eq in Hj by exact Hlt. injection Hj as <-.
           cbn in Hk. apply elem_of_cons in Hk. destruct Hk as [->|Hk].
           ++ right. split; [reflexivity | left].
           ++ left. exists oc. auto.
        -- rewrite list_lookup_insert_ne in Hj by congruence.
           left. exists cj. auto.
      * right. split; [reflexivity | right; exact Hj].
    + intros [(cj & Hj & Hk)|[-> Hj]].
      * left. destruct (decide (j = o)) as [->|Hne].
        -- exists (set_fplp oc (i :: Follow.fplp oc)).
           rewrite list_lookup_insert_eq by exact Hlt. split; [reflexivity|].
           cbn. right. congruence.
        -- exists cj. rewrite list_lookup_insert_ne by congruence. auto.
      * apply elem_of_cons in Hj. destruct Hj as [->|Hj].
        -- left. exists (set_fplp oc (i :: Follow.fplp oc)).
           rewrite list_lookup_insert_eq by exact Hlt. split; [reflexivity|].
           cbn. left.
        -- right. auto.
Qed.

Lemma FindLinks_from_spec : forall bplps i cs,
  (forall b o, b ∈ bplps -> o ∈ b -> (o < length cs)%nat) ->
  exists cs', FindLinks_from bplps i cs = Ok cs' /\
    length cs' = length cs /\
    Follow.fws <$> cs' = Follow.fws <$> cs /\
    Follow.status <$> cs' = Follow.status <$> cs /\
    forall j k, link cs' j k <->
      link cs j k \/ (exists n : nat, k = (i + n)%nat /\ backlink bplps n j).
Proof.
  induction bplps as [|b bplps IH]; intros i cs Hin; cbn [FindLinks_from].
  - exists cs. repeat split; try reflexivity; [auto|].
    intros [H|(n & _ & b & Hb & _)]; [exact H|].
    rewrite lookup_nil in Hb. discriminate.
  - destruct (add_forward_spec i b cs) as (cs1 & Hr1 & Hl1 & Hf1 & Hs1 & Hk1).
    { intros o Ho. apply (Hin b o); [left | exact Ho]. }
    rewrite Hr1. cbn [bind].
    destruct (IH (S i) cs1) as (cs' & Hr & Hl & Hf & Hs & Hk).
    { intros b' o Hb' Ho. rewrite Hl1. apply (Hin b' o); [right; exact Hb' | exact Ho]. }
    exists cs'. split; [exact Hr|]. split; [congruence|].
    split; [congruence|]. split; [congruence|].
    intros j k. rewrite Hk, Hk1. unfold backlink. split.
    + intros [[H|[-> Hj]]|(n & -> & b' & Hb' & Hj)].
      * left. exact H.
      * right. exists 0%nat. split; [lia|]. exists b. auto.
      * right. exists (S n). split; [lia|]. exists b'. auto.
    + intros [H|(n & -> & b' & Hb' & Hj)]; [auto|].
      destruct n as [|n].
      * injection Hb' as <-. left. right. split; [lia | exact Hj].
      * right. exists n. split; [lia|]. exists b'. auto.
Qed.

(** [FindLinks] turns the backward links round: when every backward link
    leads to a configuration, the loop ends without a panic, and
    afterwards a configuration [j] has a forward link to [k] exactly when
    it had one before or [k] has a backward link to [j].  The follow sets
    and the status of the configurations are not touched. *)
Theorem FindLinks_inverts bplps cs :
  (forall b o, b ∈ bplps -> o ∈ b -> (o < length cs)%nat) ->
  exists cs', FindLinks_forward bplps cs = Ok cs' /\
    length cs' = length cs /\
    Follow.fws <$> cs' = Follow.fws <$> cs /\
    Follow.status <$> cs' = Follow.status <$> cs /\
    forall j k, link cs' j k <-> link cs j k \/ backlink bplps k j.
Proof.
  intros Hin. unfold FindLinks_forward.
  destruct (FindLinks_from_spec bplps 0 cs Hin) as (cs' & Hr & Hl & Hf & Hs & Hk).
  exists cs'. split; [exact Hr|]. split; [exact Hl|]. split; [exact Hf|].
  split; [exact Hs|]. intros j k. rewrite Hk. split.
  - intros [H|(n & -> & H)]; [left; exact H | right; exact H].
  - intros [H|H]; [left; exact H | right; exists k; auto].
Qed.

Lemma FindLinks_inverts_witness :
  exists cs',
    FindLinks_forward [[]; [0%nat]; [0%nat; 1%nat]]
      [Follow.mkConfig 0 [] Follow.INCOMPLETE; Follow.mkConfig 1 [] Follow.INCOMPLETE;
       Follow.mkConfig 2 [] Follow.INCOMPLETE] = Ok cs' /\
    Follow.fplp <$> cs' = [[2%nat; 1%nat]; [2%nat]; []].
Proof.
  destruct (FindLinks_inverts [[]; [0%nat]; [0%nat; 1%nat]]
      [Follow.mkConfig 0 [] Follow.INCOMPLETE; Follow.mkConfig 1 [] Follow.INCOMPLETE;
       Follow.mkConfig 2 [] Follow.INCOMPLETE]) as (cs' & Hr & _).
  - intros b o Hb Ho. simpl.
    repeat (apply elem_of_cons in Hb; destruct Hb as [->|Hb]);
      try (apply elem_of_nil in Hb; contradiction);
      repeat (apply elem_of_cons in Ho; destruct Ho as [->|Ho]);
      try (apply elem_of_nil in Ho; contradiction); lia.
  - exists cs'. split; [exact Hr|]. vm_compute in Hr. injection Hr as <-. reflexivity.
Defined.

(** ** First sets *)

Lemma new_firstsets_spec : forall (cnt i : nat) (h : heap),
  (i + cnt <= length h)%nat ->
  exists h', new_firstsets h cnt (Z.of_nat i) = Ok h' /\
    length h' = length h /\
    forall s : nat,
      h' !! s = if decide (i <= s < i + cnt)%nat then Some SetNew else h !! s.
Proof.
  induction cnt as [|cnt IH]; intros i h Hlen; cbn [new_firstsets].
  - exists h. split; [reflexivity|]. split; [reflexivity|].
    intros s. destruct (decide _) as [Hd|_]; [lia | reflexivity].
  - assert (Hi : (i < length h)%nat) by lia.
    rewrite (wr_nat h i SetNew Hi). cbn [bind].
    replace (Z.of_nat i + 1) with (Z.of_nat (S i)) by lia.
    destruct (IH (S i) (<[i := SetNew]> h)) as (h' & Hr & Hl' & Hch).
    { rewrite heap_length_insert. lia. }
    exists h'. split; [exact Hr|]. rewrite heap_length_insert in Hl'.
    split; [exact Hl'|]. intros s. rewrite Hch.
    destruct (decide (S i <= s < S i + cnt)%nat) as [Hd|Hd].
    + destruct (decide _) as [_|Hn]; [reflexivity | lia].
    + destruct (decide (s = i)) as [->|Hne].
      * rewrite heap_lookup_insert_eq by exact Hi.
        destruct (decide _) as [_|Hn]; [reflexivity | lia].
      * rewrite heap_lookup_insert_ne by congruence.
        destruct (decide _) as [Hx|_]; [lia | reflexivity].
Qed.

Lemma only_true_SetFind m e v :
  only_true (Some m) -> m !! e = Some v -> SetFind (Some m) e = true.
Proof.
  intros Ht He. simpl. rewrite He. simpl. apply (Ht m e v eq_refl He).
Qed.

Lemma only_true_insert m e :
  only_true (Some m) -> only_true (Some (<[e := true]> m)).
Proof.
  intros Ht m' k v [= <-] Hk. destruct (decide (k = e)) as [->|Hne].
  - rewrite lookup_insert_eq in Hk. congruence.
  - rewrite lookup_insert_ne in Hk by congruence. apply (Ht m k v eq_refl Hk).
Qed.

Lemma SetFind_insert m e x :
  SetFind (Some (<[e := true]> m)) x = SetFind (Some m) x || bool_decide (x = e).
Proof.
  simpl. destruct (decide (x = e)) as [->|Hne].
  - rewrite lookup_insert_eq, bool_decide_eq_true_2 by reflexivity.
    simpl. rewrite orb_true_r. reflexivity.
  - rewrite lookup_insert_ne, bool_decide_eq_false_2 by congruence.
    rewrite orb_false_r. reflexivity.
Qed.

Lemma SetUnion_fold_true l : forall m b,
  only_true (Some m) ->
  exists m' b', foldl SetUnion_step (Ok (Some m, b)) l = Ok (Some m', b') /\
                only_true (Some m').
Proof.
  induction l as [|[k v] l IH]; intros m b Ht; simpl; [eauto|].
  destruct v; simpl; [|apply IH; exact Ht].
  destruct (default false (m !! k)); simpl; apply IH;
    [exact Ht | apply only_true_insert; exact Ht].
Qed.

Lemma heap_count_update U (h : heap) r m m' :
  h !! r = Some (Some m) ->
  (forall e, SetFind (Some m) e = true -> SetFind (Some m') e = true) ->
  (heap_count U h <= heap_count U (<[r := Some m']> h))%nat /\
  (forall k, k ∈ U -> SetFind (Some m) k = false -> SetFind (Some m') k = true ->
             (heap_count U h < heap_count U (<[r := Some m']> h))%nat).
Proof.
  intros Hr Hm.
  pose proof (heap_count_insert U h r (Some m') (Some m) Hr) as Hc.
  pose proof (cell_count_mono U (Some m) (Some m') Hm) as Hle.
  unfold heap, gomap in *.
  split; [lia|]. intros k Hk H1 H2.
  pose proof (cell_count_lt U (Some m) (Some m') k Hm Hk H1 H2). lia.
Qed.

Section FirstSetsProofs.
Variable typ : nat -> symbol_type.
Variable index : nat -> Z.
Variable subsym : nat -> list nat.
Variable lam : list bool.
Variable rules : list grule.
Variable nterminal nsymbol : Z.
Variable o : range_order.
Variable h0 : heap.
Hypothesis Ho : valid_order o.
Hypothesis Hlhs : forall rp, rp ∈ rules ->
  is_nonterminal nterminal nsymbol (g_lhs rp).
Hypothesis Hrhs : forall rp s, rp ∈ rules -> s ∈ g_rhs rp ->
  typ s = NONTERMINAL ->
  is_nonterminal nterminal nsymbol s /\ (s < length lam)%nat.

Local Abbreviation U := (first_universe typ index subsym rules).
Local Abbreviation Inv := (first_inv typ index subsym lam rules nterminal nsymbol h0).
Local Abbreviation First := (first typ index subsym lam rules).
Local Abbreviation nonterm := (is_nonterminal nterminal nsymbol).
Local Abbreviation Passed := (passed typ lam).
Local Abbreviation Closed := (closed_rhs typ index subsym lam).
Local Abbreviation Step := (fs_step typ index subsym lam rules nterminal nsymbol h0).

Lemma fs_same_refl h : fs_same h h.
Proof. intros s e. reflexivity. Qed.

Lemma fs_same_trans h1 h2 h3 : fs_same h1 h2 -> fs_same h2 h3 -> fs_same h1 h3.
Proof. intros H1 H2 s e. rewrite H2, H1. reflexivity. Qed.

Lemma fs_same_sym h1 h2 : fs_same h1 h2 -> fs_same h2 h1.
Proof. intros H s e. rewrite H. reflexivity. Qed.

Lemma fs_mono_refl h : fs_mono h h.
Proof. intros s e H. exact H. Qed.

Lemma fs_mono_trans h1 h2 h3 : fs_mono h1 h2 -> fs_mono h2 h3 -> fs_mono h1 h3.
Proof. intros H1 H2 s e H. apply H2, H1, H. Qed.

Lemma fs_same_closed h h' s1 rhs :
  fs_same h h' -> Closed h s1 rhs -> Closed h' s1 rhs.
Proof.
  intros Hs Hc pre s2 post Hd Hp. specialize (Hc pre s2 post Hd Hp).
  unfold starts_in in *. destruct (typ s2).
  - rewrite Hs. exact Hc.
  - intros e He. rewrite Hs in He |- *. apply Hc. exact He.
  - intros j Hj. rewrite Hs. apply Hc. exact Hj.
Qed.

Lemma symbol_terminals_universe rp s e :
  rp ∈ rules -> s ∈ g_rhs rp -> e ∈ symbol_terminals typ index subsym s -> e ∈ U.
Proof.
  intros Hrp Hs He. unfold first_universe.
  apply list_elem_of_In, in_concat.
  exists (concat (symbol_terminals typ index subsym <$> g_rhs rp)). split.
  - apply list_elem_of_In, list_elem_of_fmap. exists rp. auto.
  - apply in_concat. exists (symbol_terminals typ index subsym s). split.
    + apply list_elem_of_In, list_elem_of_fmap. exists s. auto.
    + apply list_elem_of_In. exact He.
Qed.

Lemma first_universe_elem s e : First s e -> e ∈ U.
Proof.
  induction 1 as [rp pre s2 post Hrp Hd Hp Ht
                 |rp pre s2 post j Hrp Hd Hp Ht Hj
                 |rp pre s2 post e Hrp Hd Hp Ht Hf IH]; [| |exact IH].
  - apply (symbol_terminals_universe rp s2); [exact Hrp | |].
    + rewrite Hd. apply elem_of_app. right. left.
    + unfold symbol_terminals. rewrite Ht. left.
  - apply (symbol_terminals_universe rp s2); [exact Hrp | |].
    + rewrite Hd. apply elem_of_app. right. left.
    + unfold symbol_terminals. rewrite Ht. apply list_elem_of_fmap. exists j. auto.
Qed.

(** The set of the nonterminal [s1] is replaced by a larger one. *)
Lemma first_inv_update h s1 m m' :
  Inv h -> nonterm s1 -> h !! s1 = Some (Some m) -> only_true (Some m') ->
  (forall e, SetFind (Some m) e = true -> SetFind (Some m') e = true) ->
  (forall e, SetFind (Some m') e = true -> First s1 e) ->
  Inv (<[s1 := Some m']> h) /\ fs_mono h (<[s1 := Some m']> h) /\
  (heap_count U h <= heap_count U (<[s1 := Some m']> h))%nat /\
  ((exists e, SetFind (Some m) e = false /\ SetFind (Some m') e = true) ->
   (heap_count U h < heap_count U (<[s1 := Some m']> h))%nat) /\
  ((forall e, SetFind (Some m') e = SetFind (Some m) e) ->
   fs_same h (<[s1 := Some m']> h)).
Proof.
  intros Hinv Hs1 Hm Ht Hmono Hsound.
  assert (Hlt : (s1 < length h)%nat) by (apply lookup_lt_is_Some; eauto).
  assert (Hload : forall s, load (<[s1 := Some m']> h) s
                            = if decide (s = s1) then Some m' else load h s)
    by (intros s; apply load_insert; exact Hlt).
  assert (Hl1 : load h s1 = Some m) by (apply load_Some; exact Hm).
  split; [|split; [|split; [|split]]].
  - constructor.
    + rewrite heap_length_insert. apply (fs_len _ _ _ _ _ _ _ _ _ Hinv).
    + intros s Hs. destruct (decide (s = s1)) as [->|Hne].
      * exists m'. split; [apply heap_lookup_insert_eq; exact Hlt | exact Ht].
      * rewrite heap_lookup_insert_ne by congruence.
        apply (fs_alloc _ _ _ _ _ _ _ _ _ Hinv s Hs).
    + intros s Hs. rewrite heap_lookup_insert_ne by (intros ->; contradiction).
      apply (fs_out _ _ _ _ _ _ _ _ _ Hinv s Hs).
    + intros s e Hs. rewrite Hload. destruct (decide (s = s1)) as [->|Hne].
      * apply Hsound.
      * apply (fs_sound _ _ _ _ _ _ _ _ _ Hinv s e Hs).
  - intros s e. rewrite Hload. destruct (decide (s = s1)) as [->|Hne]; [|auto].
    rewrite Hl1. apply Hmono.
  - apply (heap_count_update U h s1 m m' Hm Hmono).
  - intros (e & He1 & He2).
    apply (proj2 (heap_count_update U h s1 m m' Hm Hmono) e); [|exact He1 | exact He2].
    apply (first_universe_elem s1). apply Hsound. exact He2.
  - intros Heq s e. rewrite Hload. destruct (decide (s = s1)) as [->|Hne]; [|reflexivity].
    rewrite Hl1. apply Heq.
Qed.

(** One [SetAdd]. *)
Lemma exec_first_add {A : Type} n h s1 e (k : bool -> prog A) :
  Inv h -> nonterm s1 -> First s1 e ->
  exists h1 b,
    exec o n h (OpAdd s1 e k) = exec o n h1 (k b) /\
    forall p, Step h h1 p (b || p) (SetFind (load h1 s1) e = true).
Proof.
  intros Hinv Hs1 Hf.
  destruct (fs_alloc _ _ _ _ _ _ _ _ _ Hinv s1 Hs1) as (m & Hm & Ht).
  assert (Hl1 : load h s1 = Some m) by (apply load_Some; exact Hm).
  assert (Hlt : (s1 < length h)%nat) by (apply lookup_lt_is_Some; eauto).
  cbn [exec]. rewrite Hl1. cbn [SetAdd].
  destruct (first_inv_update h s1 m (<[e := true]> m) Hinv Hs1 Hm)
    as (Hinv1 & Hmono & Hle & Hlt' & Hsame).
  { apply only_true_insert. exact Ht. }
  { intros x Hx. rewrite SetFind_insert, Hx. reflexivity. }
  { intros x Hx. rewrite SetFind_insert in Hx. apply orb_true_iff in Hx.
    destruct Hx as [Hx|Hx].
    - apply (fs_sound _ _ _ _ _ _ _ _ _ Hinv s1 x Hs1). rewrite Hl1. exact Hx.
    - apply bool_decide_eq_true in Hx. subst x. exact Hf. }
  eexists _, _. split; [reflexivity|]. intros p.
  split; [exact Hinv1|]. split; [exact Hmono|]. split; [exact Hle|].
  destruct (m !! e) as [v|] eqn:He; cbn [negb orb].
  - right. split; [reflexivity|]. split.
    + apply Hsame. intros x.
      rewrite SetFind_insert. destruct (decide (x = e)) as [->|Hne].
      * rewrite (only_true_SetFind m e v Ht He). reflexivity.
      * rewrite bool_decide_eq_false_2 by exact Hne. apply orb_false_r.
    + rewrite load_insert by exact Hlt. rewrite decide_True by reflexivity.
      rewrite SetFind_insert, bool_decide_eq_true_2 by reflexivity.
      apply orb_true_r.
  - left. split; [reflexivity|]. apply Hlt'. exists e. split.
    + simpl. rewrite He. reflexivity.
    + rewrite SetFind_insert, bool_decide_eq_true_2 by reflexivity.
      apply orb_true_r.
Qed.

(** One [SetUnion] of the sets of two nonterminals. *)
Lemma exec_first_union {A : Type} n h s1 s2 (k : bool -> prog A) :
  Inv h -> nonterm s1 ->
  (forall e, SetFind (load h s2) e = true -> First s1 e) ->
  exists h1 b,
    exec o n h (OpUnion s1 s2 k) = exec o (S n) h1 (k b) /\
    forall p, Step h h1 p (b || p)
      (forall e, SetFind (load h1 s2) e = true -> SetFind (load h1 s1) e = true).
Proof.
  intros Hinv Hs1 Hf.
  destruct (fs_alloc _ _ _ _ _ _ _ _ _ Hinv s1 Hs1) as (m & Hm & Ht).
  assert (Hl1 : load h s1 = Some m) by (apply load_Some; exact Hm).
  cbn [exec].
  destruct (SetUnion_fold_true (range_of o n (load h s2)) m false Ht)
    as (m' & c & Hfold & Ht').
  assert (E : SetUnion (range_of o n (load h s2)) (load h s1) = Ok (Some m', c))
    by (rewrite Hl1; exact Hfold).
  rewrite E.
  pose proof (SetUnion_entries (load h s1) (load h s2)) as H.
  rewrite <- (SetUnion_order _ _ (load h s1) (range_of_entries o n (load h s2) Ho)),
          E in H.
  destruct H as (Hc & Hfind & _).
  destruct (first_inv_update h s1 m m' Hinv Hs1 Hm Ht')
    as (Hinv1 & Hmono & Hle & Hlt' & Hsame).
  { intros x Hx. rewrite Hfind, Hl1, Hx. reflexivity. }
  { intros x Hx. rewrite Hfind in Hx. apply orb_true_iff in Hx.
    destruct Hx as [Hx|Hx].
    - apply (fs_sound _ _ _ _ _ _ _ _ _ Hinv s1 x Hs1). exact Hx.
    - apply Hf. exact Hx. }
  eexists _, _. split; [reflexivity|]. intros p.
  split; [exact Hinv1|]. split; [exact Hmono|]. split; [exact Hle|].
  destruct c; cbn [orb].
  - left. split; [reflexivity|].
    apply Hlt'. destruct (proj1 Hc eq_refl) as (e & He2 & He1).
    exists e. split; [rewrite <- Hl1; exact He1|].
    rewrite Hfind, He2. apply orb_true_r.
  - right. split; [reflexivity|].
    assert (Hno : forall e, SetFind (load h s2) e = true ->
                            SetFind (load h s1) e = true).
    { intros e He. destruct (SetFind (load h s1) e) eqn:E1; [reflexivity|].
      assert (false = true); [|discriminate]. apply Hc. exists e. auto. }
    assert (Hs : fs_same h (<[s1 := Some m']> h)).
    { apply Hsame. intros e. rewrite Hfind, <- Hl1.
      destruct (SetFind (load h s1) e) eqn:E1; [reflexivity|]. simpl.
      destruct (SetFind (load h s2) e) eqn:E2; [|reflexivity].
      rewrite (Hno e E2) in E1. discriminate. }
    split; [exact Hs|]. intros e. rewrite !Hs. apply Hno.
Qed.

Lemma fs_step_refl h p (C : Prop) : Inv h -> C -> Step h h p p C.
Proof.
  intros Hinv HC. split; [exact Hinv|]. split; [apply fs_mono_refl|].
  split; [lia|]. right. split; [reflexivity|]. split; [apply fs_same_refl | exact HC].
Qed.

Lemma fs_step_trans h h1 h' p p1 p' (C1 C2 C : Prop) :
  Step h h1 p p1 C1 -> Step h1 h' p1 p' C2 ->
  (fs_same h1 h' -> C1 -> C2 -> C) ->
  Step h h' p p' C.
Proof.
  intros (_ & Hm1 & Hc1 & H1) (Hinv & Hm2 & Hc2 & H2) HC.
  split; [exact Hinv|]. split; [eapply fs_mono_trans; eassumption|].
  split; [lia|].
  destruct H1 as [[-> Hlt1]|(-> & Hs1 & HC1)].
  - left. destruct H2 as [[-> Hlt2]|(-> & _ & _)]; (split; [reflexivity | lia]).
  - destruct H2 as [[-> Hlt2]|(-> & Hs2 & HC2)].
    + left. split; [reflexivity | lia].
    + right. split; [reflexivity|].
      split; [eapply fs_same_trans; eassumption | auto].
Qed.

Lemma fs_step_weaken h h' p p' (C1 C : Prop) :
  Step h h' p p' C1 -> (C1 -> C) -> Step h h' p p' C.
Proof.
  intros (Hinv & Hm & Hc & H) HC. split; [exact Hinv|]. split; [exact Hm|].
  split; [exact Hc|]. destruct H as [H|(Hp & Hs & H1)]; [left; exact H|].
  right. auto.
Qed.

Lemma fs_step_inv h h' p p' C : Step h h' p p' C -> Inv h'.
Proof. intros (H & _). exact H. Qed.

(** The loop over the constituents of a MULTITERMINAL. *)
Lemma add_subsyms_spec rp pre s2 post :
  rp ∈ rules -> g_rhs rp = pre ++ s2 :: post -> Forall Passed pre ->
  typ s2 = MULTITERMINAL ->
  forall subs, (forall j, j ∈ subs -> j ∈ subsym s2) ->
  forall n h p, Inv h ->
  exists h' p',
    exec o n h (add_subsyms index (g_lhs rp) subs p) = Ok (h', p') /\
    Step h h' p p'
      (forall j, j ∈ subs -> SetFind (load h' (g_lhs rp)) (index j) = true).
Proof.
  intros Hrp Hd Hpre Ht. induction subs as [|j subs IH]; intros Hsub n h p Hinv.
  - exists h, p. split; [reflexivity|]. apply fs_step_refl; [exact Hinv|].
    intros j Hj. apply elem_of_nil in Hj. contradiction.
  - cbn [add_subsyms].
    destruct (exec_first_add n h (g_lhs rp) (index j)
                (fun b => add_subsyms index (g_lhs rp) subs (b || p)) Hinv)
      as (h1 & b & Hex & Hst).
    { apply Hlhs. exact Hrp. }
    { apply (first_multiterminal typ index subsym lam rules rp pre s2 post j);
        try assumption. apply Hsub. left. }
    rewrite Hex.
    assert (Hsub' : forall j', j' ∈ subs -> j' ∈ subsym s2)
      by (intros j' Hj'; apply Hsub; right; exact Hj').
    destruct (IH Hsub' n h1 (b || p) (fs_step_inv _ _ _ _ _ (Hst p)))
      as (h' & p' & Hex' & Hst').
    exists h', p'. split; [exact Hex'|].
    apply (fs_step_trans h h1 h' p (b || p) p' _ _ _ (Hst p) Hst').
    intros Hs H1 H2 j' Hj'. apply elem_of_cons in Hj'.
    destruct Hj' as [->|Hj']; [rewrite Hs; exact H1 | apply H2; exact Hj'].
Qed.

(** The loop over the right-hand side of a rule, from a symbol on. *)
Lemma first_rhs_spec rp :
  rp ∈ rules ->
  forall rhs pre0, g_rhs rp = pre0 ++ rhs -> Forall Passed pre0 ->
  forall n h p, Inv h ->
  exists h' p',
    exec o n h (first_rhs typ index subsym lam (g_lhs rp) rhs p) = Ok (h', p') /\
    Step h h' p p' (Closed h' (g_lhs rp) rhs).
Proof.
  intros Hrp. induction rhs as [|s2 rest IH]; intros pre0 Hd Hpre n h p Hinv.
  - exists h, p. split; [reflexivity|]. apply fs_step_refl; [exact Hinv|].
    intros pre s2 post Hnil. destruct pre; discriminate.
  - assert (Hin : s2 ∈ g_rhs rp) by (rewrite Hd; apply elem_of_app; right; left).
    assert (Hd' : g_rhs rp = (pre0 ++ [s2]) ++ rest)
      by (rewrite <- app_assoc; exact Hd).
    (* the decompositions of [s2 :: rest] *)
    assert (Hclosed : forall hh,
              starts_in typ index subsym hh (g_lhs rp) s2 ->
              (Passed s2 -> Closed hh (g_lhs rp) rest) ->
              Closed hh (g_lhs rp) (s2 :: rest)).
    { intros hh H1 H2 pre s2' post Hdd Hpp. destruct pre as [|x pre].
      - injection Hdd as <- _. exact H1.
      - injection Hdd as <- Hrest. apply Forall_cons in Hpp.
        destruct Hpp as [Hx Hpp]. apply (H2 Hx pre s2' post Hrest Hpp). }
    cbn [first_rhs]. destruct (typ s2) eqn:Ht.
    + (* TERMINAL *)
      destruct (exec_first_add n h (g_lhs rp) (index s2)
                  (fun b => Ret (b || p)) Hinv) as (h1 & b & Hex & Hst).
      { apply Hlhs. exact Hrp. }
      { apply (first_terminal typ index subsym lam rules rp pre0 s2 rest);
          assumption. }
      rewrite Hex. exists h1, (b || p). split; [reflexivity|].
      apply (fs_step_weaken _ _ _ _ _ _ (Hst p)). intros H1.
      apply Hclosed.
      * unfold starts_in. rewrite Ht. exact H1.
      * intros [Hx _]. congruence.
    + (* NONTERMINAL *)
      destruct (Hrhs rp s2 Hrp Hin Ht) as [Hnt Hlam].
      apply lookup_lt_is_Some in Hlam. destruct Hlam as [l Hl].
      destruct (Nat.eqb_spec (g_lhs rp) s2) as [Heq|Hne].
      * assert (Hl1 : lam !! g_lhs rp = Some l) by (rewrite Heq; exact Hl).
        rewrite Hl1. destruct l; cbn [negb].
        -- destruct (IH (pre0 ++ [s2]) Hd') with (n := n) (h := h) (p := p)
             as (h' & p' & Hex & Hst); [|exact Hinv|].
           { apply Forall_app. split; [exact Hpre|]. constructor; [|constructor].
             split; [exact Ht | exact Hl]. }
           exists h', p'. split; [exact Hex|].
           apply (fs_step_weaken _ _ _ _ _ _ Hst). intros H1.
           apply Hclosed; [|intros _; exact H1].
           unfold starts_in. rewrite Ht. intros e He. rewrite Heq. exact He.
        -- exists h, p. split; [reflexivity|]. apply fs_step_refl; [exact Hinv|].
           apply Hclosed.
           ++ unfold starts_in. rewrite Ht. intros e He. rewrite Heq. exact He.
           ++ intros [_ Hx]. congruence.
      * destruct (exec_first_union n h (g_lhs rp) s2
                    (fun b =>
                       match lam !! s2 with
                       | Some l0 =>
                           if negb l0 then Ret (b || p)
                           else first_rhs typ index subsym lam (g_lhs rp) rest (b || p)
                       | None => Throw NilDeref
                       end) Hinv) as (h1 & b & Hex & Hst).
        { apply Hlhs. exact Hrp. }
        { intros e He.
          apply (first_nonterminal typ index subsym lam rules rp pre0 s2 rest e);
            try assumption.
          apply (fs_sound _ _ _ _ _ _ _ _ _ Hinv s2 e Hnt He). }
        rewrite Hex, Hl. destruct l; cbn [negb].
        -- destruct (IH (pre0 ++ [s2]) Hd') with (n := S n) (h := h1) (p := (b || p))
             as (h' & p' & Hex' & Hst');
             [|exact (fs_step_inv _ _ _ _ _ (Hst p))|].
           { apply Forall_app. split; [exact Hpre|]. constructor; [|constructor].
             split; [exact Ht | exact Hl]. }
           exists h', p'. split; [exact Hex'|].
           apply (fs_step_trans h h1 h' p (b || p) p' _ _ _ (Hst p) Hst').
           intros Hs H1 H2. apply Hclosed; [|intros _; exact H2].
           unfold starts_in. rewrite Ht. intros e. rewrite !Hs. apply H1.
        -- exists h1, (b || p). split; [reflexivity|].
           apply (fs_step_weaken _ _ _ _ _ _ (Hst p)). intros H1.
           apply Hclosed.
           ++ unfold starts_in. rewrite Ht. exact H1.
           ++ intros [_ Hx]. congruence.
    + (* MULTITERMINAL *)
      destruct (add_subsyms_spec rp pre0 s2 rest Hrp Hd Hpre Ht (subsym s2)
                  (fun j Hj => Hj) n h p Hinv) as (h' & p' & Hex & Hst).
      exists h', p'. split; [exact Hex|].
      apply (fs_step_weaken _ _ _ _ _ _ Hst). intros H1.
      apply Hclosed.
      * unfold starts_in. rewrite Ht. exact H1.
      * intros [Hx _]. congruence.
Qed.

(** One round over the rules. *)
Lemma first_pass_spec : forall rs,
  (forall rp, rp ∈ rs -> rp ∈ rules) ->
  forall n h p, Inv h ->
  exists h' p',
    exec o n h (first_pass typ index subsym lam rs p) = Ok (h', p') /\
    Step h h' p p' (forall rp, rp ∈ rs -> Closed h' (g_lhs rp) (g_rhs rp)).
Proof.
  induction rs as [|rp rs IH]; intros Hsub n h p Hinv.
  - exists h, p. split; [reflexivity|]. apply fs_step_refl; [exact Hinv|].
    intros rp Hrp. apply elem_of_nil in Hrp. contradiction.
  - cbn [first_pass].
    destruct (exec_pbind o (first_rhs typ index subsym lam (g_lhs rp) (g_rhs rp) p)
                (fun progress => first_pass typ index subsym lam rs progress) n h)
      as (n1 & Hbind).
    rewrite Hbind.
    assert (Hnil : Forall Passed []) by constructor.
    destruct (first_rhs_spec rp (Hsub rp ltac:(left)) (g_rhs rp) [] eq_refl
                Hnil n h p Hinv) as (h1 & p1 & Hex1 & Hst1).
    rewrite Hex1.
    destruct (IH (fun rp' Hrp' => Hsub rp' ltac:(right; exact Hrp')) n1 h1 p1
                 (fs_step_inv _ _ _ _ _ Hst1)) as (h' & p' & Hex & Hst).
    exists h', p'. split; [exact Hex|].
    apply (fs_step_trans h h1 h' p p1 p' _ _ _ Hst1 Hst).
    intros Hs H1 H2 rp' Hrp'. apply elem_of_cons in Hrp'.
    destruct Hrp' as [->|Hrp']; [|apply H2; exact Hrp'].
    apply (fs_same_closed h1 h'); assumption.
Qed.

(** The rounds end. *)
Lemma first_rounds_spec : forall fuel n h,
  Inv h ->
  (length h * length U - heap_count U h < fuel)%nat ->
  exists h',
    exec o n h (first_rounds typ index subsym lam fuel rules) = Ok (h', Some tt) /\
    Inv h' /\
    forall rp, rp ∈ rules -> Closed h' (g_lhs rp) (g_rhs rp).
Proof.
  induction fuel as [|fuel IH]; intros n h Hinv Hfuel; [lia|].
  cbn [first_rounds].
  destruct (exec_pbind o (first_pass typ index subsym lam rules false)
              (fun progress : bool =>
                 if progress then first_rounds typ index subsym lam fuel rules
                 else Ret (Some tt)) n h) as (n1 & Hbind).
  rewrite Hbind.
  destruct (first_pass_spec rules (fun rp Hrp => Hrp) n h false Hinv)
    as (h1 & p1 & Hex1 & Hinv1 & Hmono & Hle & Hcase).
  rewrite Hex1.
  destruct Hcase as [[-> Hlt]|(-> & Hsame & Hclosed)].
  - apply IH; [exact Hinv1|].
    pose proof (heap_count_bound U h1) as Hb.
    pose proof (fs_len _ _ _ _ _ _ _ _ _ Hinv1) as Hl1.
    pose proof (fs_len _ _ _ _ _ _ _ _ _ Hinv) as Hl.
    unfold heap, gomap in *. rewrite Hl1 in Hb. rewrite Hl in Hfuel. nia.
  - exists h1. split; [reflexivity|]. split; [exact Hinv1 | exact Hclosed].
Qed.

(** A closed heap holds all that [first] gives. *)
Lemma first_complete h :
  (forall rp, rp ∈ rules -> Closed h (g_lhs rp) (g_rhs rp)) ->
  forall s e, First s e -> SetFind (load h s) e = true.
Proof.
  intros Hclosed s e. induction 1 as [rp pre s2 post Hrp Hd Hp Ht
                 |rp pre s2 post j Hrp Hd Hp Ht Hj
                 |rp pre s2 post e Hrp Hd Hp Ht Hf IH].
  - pose proof (Hclosed rp Hrp pre s2 post Hd Hp) as H.
    unfold starts_in in H. rewrite Ht in H. exact H.
  - pose proof (Hclosed rp Hrp pre s2 post Hd Hp) as H.
    unfold starts_in in H. rewrite Ht in H. apply H. exact Hj.
  - pose proof (Hclosed rp Hrp pre s2 post Hd Hp) as H.
    unfold starts_in in H. rewrite Ht in H. apply H. exact IH.
Qed.

End FirstSetsProofs.

(** The second part of [FindFirstSets] computes the first sets.  When
    the left-hand sides of the rules, and the nonterminals of their
    right-hand sides, are among the symbols from [nterminal] to
    [nsymbol], it makes a set for each of these, ends without a panic
    within one round more than (number of symbols x number of terminals
    in the rules), whatever order [SetUnion] ranges in, and leaves in the
    set of a nonterminal exactly the indices of the terminals that can
    begin what the nonterminal generates, the nonterminals marked
    [lambda] being those that can be passed over.  The maps of the other
    symbols are not touched. *)
Theorem FindFirstSets_first_sets o n fuel typ index subsym lam rules
    nterminal nsymbol (h : heap) :
  valid_order o ->
  0 <= nterminal <= nsymbol -> nsymbol <= Z.of_nat (length h) ->
  (forall rp, rp ∈ rules -> is_nonterminal nterminal nsymbol (g_lhs rp)) ->
  (forall rp s, rp ∈ rules -> s ∈ g_rhs rp -> typ s = NONTERMINAL ->
     is_nonterminal nterminal nsymbol s /\ (s < length lam)%nat) ->
  (length h * length (first_universe typ index subsym rules) < fuel)%nat ->
  exists h',
    FindFirstSets_sets o n fuel typ index subsym lam rules nterminal nsymbol h
      = Ok (h', Some tt) /\
    length h' = length h /\
    (forall s, ~ is_nonterminal nterminal nsymbol s -> h' !! s = h !! s) /\
    forall s e, is_nonterminal nterminal nsymbol s ->
      (SetFind (load h' s) e = true <->
       first typ index subsym lam rules s e).
Proof.
  intros Ho Hnt Hns Hlhs Hrhs Hfuel. unfold FindFirstSets_sets.
  destruct (new_firstsets_spec (Z.to_nat (nsymbol - nterminal))
              (Z.to_nat nterminal) h) as (h1 & Hnew & Hl1 & Hget); [lia|].
  rewrite Z2Nat.id in Hnew by lia. rewrite Hnew. cbn [bind].
  assert (Hrange : forall s,
            is_nonterminal nterminal nsymbol s <->
            (Z.to_nat nterminal <= s
             < Z.to_nat nterminal + Z.to_nat (nsymbol - nterminal))%nat)
    by (intros s; unfold is_nonterminal; lia).
  assert (Hinv : first_inv typ index subsym lam rules nterminal nsymbol h1 h1).
  { constructor.
    - reflexivity.
    - intros s Hs. exists ∅. rewrite Hget.
      rewrite decide_True by (apply Hrange; exact Hs).
      split; [reflexivity|]. intros m k v [= <-] Hk.
      rewrite lookup_empty in Hk. discriminate.
    - reflexivity.
    - intros s e Hs. unfold load. rewrite Hget.
      rewrite decide_True by (apply Hrange; exact Hs). discriminate. }
  destruct (first_rounds_spec typ index subsym lam rules nterminal nsymbol o h1
              Ho Hlhs Hrhs fuel n h1 Hinv) as (h' & Hex & Hinv' & Hclosed).
  { unfold heap, gomap in *. rewrite Hl1. lia. }
  exists h'. split; [exact Hex|].
  split; [rewrite (fs_len _ _ _ _ _ _ _ _ _ Hinv'); exact Hl1|].
  split.
  { intros s Hs. rewrite (fs_out _ _ _ _ _ _ _ _ _ Hinv' s Hs), Hget.
    rewrite decide_False; [reflexivity|]. intros Hd. apply Hs, Hrange, Hd. }
  intros s e Hs. split.
  - apply (fs_sound _ _ _ _ _ _ _ _ _ Hinv' s e Hs).
  - apply (first_complete typ index subsym lam rules h' Hclosed).
Qed.

Lemma FindFirstSets_first_sets_witness :
  exists h',
    FindFirstSets_sets (fun _ m => map_to_list m) 0 20 ex_first_typ Z.of_nat
      (fun _ => []) [false; false; false; false; true] ex_first_rules 3 5
      [None; None; None; None; None] = Ok (h', Some tt) /\
    SetFind (load h' 3) 0 = true /\ SetFind (load h' 3) 2 = true /\
    SetFind (load h' 4) 2 = true /\ SetFind (load h' 4) 0 = false.
Proof.
  destruct (FindFirstSets_first_sets (fun _ m => map_to_list m) 0 20 ex_first_typ
              Z.of_nat (fun _ => []) [false; false; false; false; true]
              ex_first_rules 3 5 [None; None; None; None; None])
    as (h' & Hex & _).
  - intros k m. reflexivity.
  - lia.
  - simpl. lia.
  - intros rp Hrp. unfold ex_first_rules in Hrp.
    repeat (apply elem_of_cons in Hrp; destruct Hrp as [->|Hrp];
            [unfold is_nonterminal; simpl; lia|]).
    apply elem_of_nil in Hrp. contradiction.
  - intros rp s Hrp Hs Ht. unfold ex_first_rules in Hrp.
    repeat (apply elem_of_cons in Hrp; destruct Hrp as [->|Hrp];
            [simpl in Hs;
             repeat (apply elem_of_cons in Hs; destruct Hs as [->|Hs];
                     [try discriminate Ht; unfold is_nonterminal; simpl; lia|]);
             apply elem_of_nil in Hs; contradiction|]).
    apply elem_of_nil in Hrp. contradiction.
  - vm_compute. lia.
  - exists h'. split; [exact Hex|]. vm_compute in Hex. injection Hex as <-.
    vm_compute. repeat split; reflexivity.
Defined.

(** ** The order of [ResortStates] *)

Lemma stateResortCompare_cases lemp states a b sa sb :
  states !! a = Some sa -> states !! b = Some sb ->
  statenum lemp a <> statenum lemp b ->
  exists n, stateResortCompare lemp states a b = Ok n /\ n <> 0 /\
    stateResortCompare lemp states b a = Ok (- n) /\
    (n < 0 <->
     (nNtAct sa > nNtAct sb \/
      (nNtAct sa = nNtAct sb /\
       (nTknAct sa > nTknAct sb \/
        (nTknAct sa = nTknAct sb /\ statenum lemp a > statenum lemp b))))).
Proof.
  intros Ha Hb Hne. unfold stateResortCompare, deref. rewrite Ha, Hb. cbn [bind].
  destruct (Z.eqb_spec (nNtAct sb - nNtAct sa) 0) as [E1|E1];
    destruct (Z.eqb_spec (nNtAct sa - nNtAct sb) 0) as [E1'|E1']; try lia.
  - destruct (Z.eqb_spec (nTknAct sb - nTknAct sa) 0) as [E2|E2];
      destruct (Z.eqb_spec (nTknAct sa - nTknAct sb) 0) as [E2'|E2']; try lia.
    + destruct (Z.eqb_spec (statenum lemp b - statenum lemp a) 0) as [E3|E3]; [lia|].
      destruct (Z.eqb_spec (statenum lemp a - statenum lemp b) 0) as [E3'|E3']; [lia|].
      eexists. split; [reflexivity|]. split; [exact E3|].
      split; [f_equal; lia | lia].
    + destruct (Z.eqb_spec (nTknAct sb - nTknAct sa) 0) as [E3|E3]; [lia|].
      destruct (Z.eqb_spec (nTknAct sa - nTknAct sb) 0) as [E3'|E3']; [lia|].
      eexists. split; [reflexivity|]. split; [exact E3|].
      split; [f_equal; lia | lia].
  - destruct (Z.eqb_spec (nNtAct sb - nNtAct sa) 0) as [E3|E3]; [lia|].
    destruct (Z.eqb_spec (nNtAct sa - nNtAct sb) 0) as [E3'|E3']; [lia|].
    eexists. split; [reflexivity|]. split; [exact E3|].
    split; [f_equal; lia | lia].
Qed.

(** [stateResortCompare] orders the states strictly: of two states with
    different numbers it puts first the one with more nonterminal
    actions, then the one with more token actions, then the one with the
    greater number, and the two ways of comparing them agree; a state
    compared with itself fails the assertion.  So a slice of states with
    different numbers has one sorted arrangement only, whatever sorting
    algorithm is used. *)
Theorem stateResortCompare_strict lemp states (l1 l2 : list state_ptr) :
  (forall p, p ∈ l1 -> is_Some (states !! p)) ->
  NoDup (statenum lemp <$> l1) ->
  l1 ≡ₚ l2 ->
  (forall a b, a ∈ l1 -> b ∈ l1 -> a <> b ->
     exists n, stateResortCompare lemp states a b = Ok n /\ n <> 0 /\
       stateResortCompare lemp states b a = Ok (- n) /\
       (resort_less lemp states a b <-> resort_before lemp states a b)) /\
  (forall a, a ∈ l1 -> stateResortCompare lemp states a a = Panic AssertFailed) /\
  (resort_sorted lemp states l1 -> resort_sorted lemp states l2 -> l1 = l2).
Proof.
  intros Hvalid Hnd Hperm.
  assert (Hnum : forall a b, a ∈ l1 -> b ∈ l1 -> a <> b ->
                             statenum lemp a <> statenum lemp b).
  { intros a b Ha Hb Hne Heq. apply Hne.
    apply list_elem_of_lookup in Ha, Hb. destruct Ha as (i & Hi), Hb as (j & Hj).
    assert (i = j); [|congruence].
    apply (NoDup_lookup _ i j (statenum lemp a) Hnd);
      rewrite list_lookup_fmap; [rewrite Hi | rewrite Hj]; simpl; congruence. }
  assert (Hcmp : forall a b, a ∈ l1 -> b ∈ l1 -> a <> b ->
     exists n, stateResortCompare lemp states a b = Ok n /\ n <> 0 /\
       stateResortCompare lemp states b a = Ok (- n) /\
       (resort_less lemp states a b <-> resort_before lemp states a b)).
  { intros a b Ha Hb Hne.
    destruct (Hvalid a Ha) as [sa Hsa]. destruct (Hvalid b Hb) as [sb Hsb].
    destruct (stateResortCompare_cases lemp states a b sa sb Hsa Hsb
                (Hnum a b Ha Hb Hne)) as (n & Hn & Hn0 & Hrev & Hiff).
    exists n. split; [exact Hn|]. split; [exact Hn0|]. split; [exact Hrev|].
    unfold resort_less, resort_before. rewrite Hn. split.
    - intros (n' & [= <-] & Hneg). exists sa, sb.
      split; [exact Hsa|]. split; [exact Hsb|]. apply Hiff. exact Hneg.
    - intros (sa' & sb' & Ha' & Hb' & Hord).
      assert (sa' = sa) as -> by congruence. assert (sb' = sb) as -> by congruence.
      exists n. split; [reflexivity|]. apply Hiff. exact Hord. }
  split; [exact Hcmp|]. split.
  - intros a Ha. destruct (Hvalid a Ha) as [sa Hsa].
    unfold stateResortCompare, deref. rewrite Hsa. cbn [bind].
    rewrite !Z.sub_diag. reflexivity.
  - intros Hs1 Hs2.
    apply (StronglySorted_unique_strong
             (fun a b => ~ resort_less lemp states b a)); [|exact Hs1|exact Hs2|exact Hperm].
    intros a b Ha Hb H1 H2. destruct (decide (a = b)) as [E|E]; [exact E|].
    exfalso. rewrite <- Hperm in Hb.
    destruct (Hcmp a b Ha Hb E) as (n & Hn & Hn0 & Hrev & _).
    destruct (Z.lt_trichotomy n 0) as [Hlt|[Heq|Hgt]]; [|lia|].
    + apply H2. exists n. auto.
    + apply H1. exists (- n). split; [exact Hrev | lia].
Qed.

Lemma stateResortCompare_strict_witness :
  stateResortCompare ex_lemon0 ex_resort_states 2%nat 0%nat = Ok (-2) /\
  stateResortCompare ex_lemon0 ex_resort_states 1%nat 0%nat = Ok (-1) /\
  stateResortCompare ex_lemon0 ex_resort_states 0%nat 0%nat = Panic AssertFailed /\
  resort_less ex_lemon0 ex_resort_states 1%nat 0%nat.
Proof.
  destruct (stateResortCompare_strict ex_lemon0 ex_resort_states
              [0%nat; 1%nat; 2%nat] [2%nat; 1%nat; 0%nat])
    as (Hcmp & Hself & _).
  - intros p Hp.
    repeat (apply elem_of_cons in Hp; destruct Hp as [->|Hp]; [eexists; reflexivity|]).
    apply elem_of_nil in Hp. contradiction.
  - vm_compute.
    repeat (apply NoDup_cons; split;
            [intros H; repeat (apply elem_of_cons in H; destruct H as [H|H];
                               [discriminate|]);
             apply elem_of_nil in H; exact H|]).
    apply NoDup_nil. exact I.
  - symmetry. exact (reverse_Permutation [0%nat; 1%nat; 2%nat]).
  - split; [reflexivity|]. split; [reflexivity|].
    split; [apply Hself; left|].
    destruct (Hcmp 1%nat 0%nat) as (n & Hn & _ & _ & Hiff);
      [right; left | left | discriminate|].
    apply Hiff. eexists _, _. split; [reflexivity|]. split; [reflexivity|].
    right. split; [reflexivity|]. right. split; [reflexivity|]. vm_compute. reflexivity.
Defined.
